(** * Chunked batch commands and font-run resolution of the Figma MCP plugin

    A shallow embedding of [src/cursor_mcp_plugin/code.js]: the chunk
    splitting loops, the progress events of the batch commands, the tree
    collectors, the delimiter scanner and the font re-application walk,
    and the command dispatcher; then the export filter, the annotation,
    auto-layout, atlas, tile map and text commands and the other font
    strategies; followed by the properties of each.

    Conventions.  Array indices and lengths are [nat]; progress
    percentages and string positions that can hold the sentinel [-1] are
    [Z], as are the sizes and coordinates of nodes, taken as whole
    numbers.  A number that need not be whole is the rational it denotes,
    and an arithmetic operation on such numbers is followed by the
    rounding to binary64 ([binary64] below).  A JS array that the source
    fills with [push] is a list extended on the right.  The host API
    ([figma.*]) is a set of section variables acting on an abstract host
    state; reading a property of a node that a lookup returned does not
    fail.  The [params] of a command is an object, in which a missing
    property is [None].  Log output ([console.*]), the [message] and
    [timestamp] fields of progress events and the timer [delay] carry no
    data the properties below read, and are left out. *)

From Stdlib Require Import String Ascii.
From Stdlib Require Import List Arith ZArith Lia Bool QArith Qround Sorted.
From Stdlib Require Import DecimalString Qpower Lqa.
Import ListNotations.
Local Open Scope nat_scope.
Local Open Scope list_scope.

(* ================================================================== *)
(** * Part I: the program *)

(** ** Arrays and chunk splitting *)

(** [arr.slice(b, e)] for non-negative integer bounds: the elements at
    indices [b], ..., [e-1], both bounds clamped to the length. *)
Definition slice {T : Type} (l : list T) (b e : nat) : list T :=
  firstn (e - b) (skipn b l).

(** [Math.ceil(n / c)] on non-negative integers, [c > 0]. *)
Definition ceil_div (n c : nat) : nat := (n + c - 1) / c.

(** [Math.ceil(a / b)] on whole numbers, [b] other than [0]. *)
Definition Math_ceil_div (a b : Z) : Z := (- ((- a) / b))%Z.

(** The splitting loop of [setMultipleTextContents] (code.js:1960) and of
    [deleteMultipleNodes] (code.js:2601):

      for (let i = 0; i < items.length; i += CHUNK_SIZE)
        chunks.push(items.slice(i, i + CHUNK_SIZE));

    [fuel] bounds the number of loop tests: with step [0] and a list that
    is not empty the source loop does not end. *)
Fixpoint split_loop {T : Type} (fuel C : nat) (items : list T) (i : nat)
         (chunks : list (list T)) : option (list (list T)) :=
  match fuel with
  | 0 => None
  | S fuel' =>
      if i <? length items
      then split_loop fuel' C items (i + C)
                      (chunks ++ [slice items i (i + C)])
      else Some chunks
  end.

(** The index walk of the chunk loop of [scanTextNodes] (code.js:1632)
    for a step that is a natural number, the slice end being
    [Math.min(i + chunkSize, totalNodes)]; the loop counts its rounds in
    [chunksProcessed]. *)
Fixpoint scan_loop {T : Type} (fuel chunkSize : nat) (nodes : list T)
         (i chunksProcessed : nat) (chunks : list (list T))
  : option (nat * list (list T)) :=
  match fuel with
  | 0 => None
  | S fuel' =>
      if i <? length nodes
      then let chunkEnd := Nat.min (i + chunkSize) (length nodes) in
           scan_loop fuel' chunkSize nodes (i + chunkSize)
                     (S chunksProcessed)
                     (chunks ++ [slice nodes i chunkEnd])
      else Some (chunksProcessed, chunks)
  end.

Definition CHUNK_SIZE : nat := 5.

Definition setMultipleTextContents_chunks {T : Type} (text : list T) :=
  split_loop (S (length text)) CHUNK_SIZE text 0 [].

Definition deleteMultipleNodes_chunks {T : Type} (nodeIds : list T) :=
  split_loop (S (length nodeIds)) CHUNK_SIZE nodeIds 0 [].

Definition scanTextNodes_chunks {T : Type} (chunkSize : nat)
           (nodes : list T) :=
  scan_loop (S (length nodes)) chunkSize nodes 0 0 [].

(** The same walk for any whole step, which [scanTextNodes] takes from
    its parameters as it comes:

      for (let i = 0; i < totalNodes; i += chunkSize)

    It returns the number of rounds, or [None] when the loop has not
    been left after [fuel] tests. *)
Fixpoint scan_walk (fuel : nat) (chunkSize totalNodes i : Z) (rounds : nat)
  : option nat :=
  match fuel with
  | 0 => None
  | S fuel' =>
      if (i <? totalNodes)%Z
      then scan_walk fuel' chunkSize totalNodes (i + chunkSize)%Z (S rounds)
      else Some rounds
  end.

(** What it means for [chunks] to partition [items] by size [C]: the
    number of chunks is the least [K] with [K * C >= N]; chunk [k] is the
    slice [[k*C, k*C + C)]; all chunks but the last hold [C] items and the
    last holds between [1] and [C]; their concatenation is [items]. *)
Definition partitions {T : Type} (C : nat) (items : list T)
           (chunks : list (list T)) : Prop :=
  length chunks = ceil_div (length items) C
  /\ (length items <= length chunks * C < length items + C)
  /\ concat chunks = items
  /\ (forall k, k < length chunks ->
        nth k chunks [] = slice items (k * C) (k * C + C))
  /\ (forall k, S k < length chunks -> length (nth k chunks []) = C)
  /\ (forall k, S k = length chunks -> 0 < length (nth k chunks []) <= C).

(** ** Numbers

    A JS number is a binary64 floating-point number.  The numbers the
    functions below compute with are far from the ends of the exponent
    range, so the result of an arithmetic operation is the rounding of
    the exact result to the nearest rational with a significand of 53
    bits, a tie going to the even significand. *)

(** [floor(log2 x)] for [x > 0]. *)
Definition ilog2 (x : Q) : Z :=
  let l := (Z.log2 (Qnum x) - Z.log2 (Zpos (Qden x)))%Z in
  if Qle_bool (2 ^ l) x then l else (l - 1)%Z.

(** The nearest integer, a half going to the even one. *)
Definition round_half_even (x : Q) : Z :=
  let f := Qfloor x in
  match Qcompare (x - inject_Z f) (1 # 2) with
  | Lt => f
  | Gt => (f + 1)%Z
  | Eq => if Z.even f then f else (f + 1)%Z
  end.

(** The rounding of [x > 0]: with [2^l <= x < 2^(l+1)] the numbers around
    [x] are the multiples of [2^(l-52)]. *)
Definition nearest_above_zero (x : Q) : Q :=
  let ulp := (2 ^ (ilog2 x - 52))%Q in
  (inject_Z (round_half_even (x / ulp)) * ulp)%Q.

Definition binary64 (x : Q) : Q :=
  match Qcompare x 0 with
  | Eq => 0%Q
  | Gt => nearest_above_zero x
  | Lt => (- nearest_above_zero (- x))%Q
  end.

(** The number written [0.3] in a source text. *)
Definition three_tenths : Q := binary64 (3 # 10).

(** ** Progress percentages *)

(** [Math.round]: the nearest integer, halves going up. *)
Definition Math_round (x : Q) : Z := Qfloor (x + (1 # 2)).

(** [Math.round(5 + (chunksDone / totalChunks) * 90)] (code.js:1645,
    1691, 1996, 2128, 2637, 2707): a division, a product and a sum, each
    rounded.  The loops evaluate it only with [totalChunks > 0]. *)
Definition chunkProgress (chunksDone totalChunks : nat) : Z :=
  Math_round
    (binary64
       (5 + binary64
              (binary64 (inject_Z (Z.of_nat chunksDone)
                         / inject_Z (Z.of_nat totalChunks)) * 90)))%Q.

(** ** The scene tree *)

#[warnings="-register-all"]
Inductive SceneNode : Type :=
  mkNode { node_id : string;
           node_name : string;
           node_type : string;
           (** [false] stands for the literal [false]; every other value
               of [node.visible] is [true] here. *)
           node_visible : bool;
           node_characters : string;
           (** [None]: the node has no [children] property. *)
           node_children : option (list SceneNode) }.

(** [node.name || `Unnamed ${node.type}`]. *)
Definition displayName (n : SceneNode) : string :=
  if String.eqb (node_name n) "" then String.append "Unnamed " (node_type n)
  else node_name n.

(** The entries [collectNodesToProcess] pushes (code.js:1751). *)
Record NodeDescriptor : Type :=
  mkDescriptor { d_node : SceneNode;
                 d_parentPath : list string;
                 d_depth : nat }.

(** [collectNodesToProcess] (code.js:1738).  The array argument the source
    extends in place is passed through and returned. *)
Fixpoint collectNodesToProcess (node : SceneNode) (parentPath : list string)
         (depth : nat) (nodesToProcess : list NodeDescriptor)
  : list NodeDescriptor :=
  if negb (node_visible node) then nodesToProcess
  else
    let nodePath := parentPath ++ [displayName node] in
    let pushed := nodesToProcess ++ [mkDescriptor node nodePath depth] in
    match node_children node with
    | None => pushed
    | Some children =>
        (fix each (cs : list SceneNode) (acc : list NodeDescriptor) :=
           match cs with
           | [] => acc
           | child :: cs' =>
               each cs' (collectNodesToProcess child nodePath (S depth) acc)
           end) children pushed
    end.

(** The serialisable record built for a text node (code.js:1782, 1856);
    the font and geometry fields are copied from the node and are left
    out here. *)
Record SafeTextNode : Type :=
  mkSafeTextNode { t_id : string;
                   t_name : string;
                   t_type : string;
                   t_characters : string;
                   t_path : string;
                   t_depth : nat }.

Definition safeTextNode (node : SceneNode) (path : list string)
           (depth : nat) : SafeTextNode :=
  mkSafeTextNode (node_id node)
                 (if String.eqb (node_name node) "" then "Text"
                  else node_name node)
                 (node_type node) (node_characters node)
                 (String.concat " > " path) depth.

Definition isText (node : SceneNode) : bool :=
  String.eqb (node_type node) "TEXT".

(** [findTextNodes] (code.js:1835).  The temporary highlight of the fills
    is wrapped in its own [try] and does not change what is pushed. *)
Fixpoint findTextNodes (node : SceneNode) (parentPath : list string)
         (depth : nat) (textNodes : list SafeTextNode)
  : list SafeTextNode :=
  if negb (node_visible node) then textNodes
  else
    let nodePath := parentPath ++ [displayName node] in
    let pushed :=
      if isText node
      then textNodes ++ [safeTextNode node nodePath depth]
      else textNodes in
    match node_children node with
    | None => pushed
    | Some children =>
        (fix each (cs : list SceneNode) (acc : list SafeTextNode) :=
           match cs with
           | [] => acc
           | child :: cs' =>
               each cs' (findTextNodes child nodePath (S depth) acc)
           end) children pushed
    end.

(** The entries of [findNodesByTypes] (code.js:2449), without the
    bounding box. *)
Record MatchingNode : Type :=
  mkMatchingNode { m_id : string; m_name : string; m_type : string }.

Definition matchingNode (node : SceneNode) : MatchingNode :=
  mkMatchingNode (node_id node) (displayName node) (node_type node).

(** [types.includes(node.type)]. *)
Definition includes (types : list string) (ty : string) : bool :=
  existsb (String.eqb ty) types.

(** [findNodesByTypes] (code.js:2442). *)
Fixpoint findNodesByTypes (node : SceneNode) (types : list string)
         (matchingNodes : list MatchingNode) : list MatchingNode :=
  if negb (node_visible node) then matchingNodes
  else
    let pushed :=
      if includes types (node_type node)
      then matchingNodes ++ [matchingNode node]
      else matchingNodes in
    match node_children node with
    | None => pushed
    | Some children =>
        (fix each (cs : list SceneNode) (acc : list MatchingNode) :=
           match cs with
           | [] => acc
           | child :: cs' => each cs' (findNodesByTypes child types acc)
           end) children pushed
    end.

(** [processTextNode] (code.js:1766): [null] for a node that is not a text
    node. *)
Definition processTextNode (node : SceneNode) (parentPath : list string)
           (depth : nat) : option SafeTextNode :=
  if negb (isText node) then None
  else Some (safeTextNode node parentPath depth).

(** A node with its path and depth. *)
Definition Entry : Type := SceneNode * list string * nat.

Definition entry_node (e : Entry) : SceneNode := fst (fst e).

(** The traversal the collectors are compared with, in two steps.
    [prune] removes every subtree under an invisible node: [None] when
    the node itself is invisible, else the node with its children pruned
    in turn. *)
Fixpoint prune (node : SceneNode) : option SceneNode :=
  if negb (node_visible node) then None
  else Some (mkNode (node_id node) (node_name node) (node_type node)
                    (node_visible node) (node_characters node)
                    (match node_children node with
                     | None => None
                     | Some children =>
                         Some ((fix each (cs : list SceneNode) :=
                                  match cs with
                                  | [] => []
                                  | c :: cs' =>
                                      match prune c with
                                      | None => each cs'
                                      | Some c' => c' :: each cs'
                                      end
                                  end) children)
                     end)).

(** [preorder] lists all the nodes of a tree in depth-first pre-order,
    each with the path of display names from the root and its depth; it
    does not look at visibility. *)
Fixpoint preorder (node : SceneNode) (parentPath : list string)
         (depth : nat) : list Entry :=
  let nodePath := parentPath ++ [displayName node] in
  ((node, nodePath, depth) : Entry)
  :: match node_children node with
     | None => []
     | Some children =>
         (fix each (cs : list SceneNode) :=
            match cs with
            | [] => []
            | c :: cs' => preorder c nodePath (S depth) ++ each cs'
            end) children
     end.

(** The nodes the collectors enter, in the order they enter them: every
    node none of whose ancestors, and not itself, is invisible.  Used to
    relate the collectors to [prune] and [preorder]. *)
Fixpoint visited (node : SceneNode) (parentPath : list string)
         (depth : nat) : list Entry :=
  if negb (node_visible node) then []
  else
    let nodePath := parentPath ++ [displayName node] in
    ((node, nodePath, depth) : Entry)
    :: match node_children node with
       | None => []
       | Some children =>
           (fix each (cs : list SceneNode) :=
              match cs with
              | [] => []
              | c :: cs' => visited c nodePath (S depth) ++ each cs'
              end) children
       end.

(** [node.children], empty for a node without the property. *)
Definition children_of (node : SceneNode) : list SceneNode :=
  match node_children node with
  | Some children => children
  | None => []
  end.

(** The nodes of the pruned tree under [root], in pre-order. *)
Definition pruned_preorder (root : SceneNode) : list Entry :=
  match prune root with
  | None => []
  | Some r => preorder r [] 0
  end.

(** What the collectors copy from a visited node: the identity, name,
    type and text of the node, the path and the depth. *)
Record EntryData : Type :=
  mkEntryData { e_id : string;
                e_name : string;
                e_type : string;
                e_characters : string;
                e_path : list string;
                e_depth : nat }.

Definition entry_data (e : Entry) : EntryData :=
  mkEntryData (node_id (entry_node e)) (node_name (entry_node e))
              (node_type (entry_node e)) (node_characters (entry_node e))
              (snd (fst e)) (snd e).

Definition descriptor_of (e : Entry) : NodeDescriptor :=
  mkDescriptor (entry_node e) (snd (fst e)) (snd e).

Definition descriptor_data (d : NodeDescriptor) : EntryData :=
  entry_data (d_node d, d_parentPath d, d_depth d).

Definition safeTextNode_of (e : Entry) : SafeTextNode :=
  safeTextNode (entry_node e) (snd (fst e)) (snd e).

Definition entry_isText (e : Entry) : bool := isText (entry_node e).

Definition entry_matches (types : list string) (e : Entry) : bool :=
  includes types (node_type (entry_node e)).

Definition matchingNode_of (e : Entry) : MatchingNode :=
  matchingNode (entry_node e).

(** A child as it is kept in the pruned list of children. *)
Definition keep_pruned (c : SceneNode) : list SceneNode :=
  match prune c with
  | None => []
  | Some c' => [c']
  end.

(** ** Font runs *)

Record FontName : Type :=
  mkFont { family : string; style : string }.

(** [`${font.family}::${font.style}`]. *)
Definition fontKey (f : FontName) : string :=
  String.append (family f) (String.append "::" (style f)).

(** [str[i]]: [None] is [undefined]. *)
Definition charAt (str : string) (i : nat) : option ascii := String.get i str.

Definition isDelimiter (c : option ascii) (delimiter : ascii) : bool :=
  match c with
  | Some a => Ascii.eqb a delimiter
  | None => false
  end.

(** The [for] loop of [getDelimiterPos] (code.js:1355), [n] rounds left,
    loop index [i], pending start [temp]. *)
Fixpoint getDelimiterPos_loop (n : nat) (str : string) (delimiter : ascii)
         (startIdx endIdx i temp : nat) (indices : list (nat * nat))
  : nat * list (nat * nat) :=
  match n with
  | 0 => (temp, indices)
  | S n' =>
      if isDelimiter (charAt str i) delimiter
         && negb (i + startIdx =? endIdx)
         && negb (temp =? i + startIdx)
      then getDelimiterPos_loop n' str delimiter startIdx endIdx (S i)
                                (i + startIdx + 1)
                                (indices ++ [(temp, i + startIdx)])
      else getDelimiterPos_loop n' str delimiter startIdx endIdx (S i)
                                temp indices
  end.

(** [getDelimiterPos] (code.js:1352).  The final [filter(Boolean)] keeps
    every pair: an array is truthy. *)
Definition getDelimiterPos (str : string) (delimiter : ascii)
           (startIdx endIdx : nat) : list (nat * nat) :=
  let '(temp, indices) :=
    getDelimiterPos_loop (endIdx - startIdx) str delimiter startIdx endIdx
                         startIdx startIdx [] in
  if negb (temp =? endIdx) then indices ++ [(temp, endIdx)] else indices.

(** The call with both defaults, [startIdx = 0] and
    [endIdx = str.length]. *)
Definition getDelimiterPos_default (str : string) (delimiter : ascii)
  : list (nat * nat) :=
  getDelimiterPos str delimiter 0 (String.length str).

(** The scan as the specification words it: the pending segment starts at
    [pending]; a delimiter at position [i] of the range closes
    [[pending, i]] when [i] is not the end of the range and the pending
    segment is not empty, and the next pending segment starts at [i + 1];
    a pending segment that is not empty at the end is appended. *)
Fixpoint segments_spec_loop (n : nat) (str : string) (delimiter : ascii)
         (endIdx i pending : nat) : list (nat * nat) :=
  match n with
  | 0 => if pending =? endIdx then [] else [(pending, endIdx)]
  | S n' =>
      if isDelimiter (charAt str i) delimiter
         && negb (i =? endIdx) && negb (pending =? i)
      then (pending, i)
           :: segments_spec_loop n' str delimiter endIdx (S i) (S i)
      else segments_spec_loop n' str delimiter endIdx (S i) pending
  end.

Definition segments_spec (str : string) (delimiter : ascii)
           (startIdx endIdx : nat) : list (nat * nat) :=
  segments_spec_loop (endIdx - startIdx) str delimiter endIdx
                     startIdx startIdx.

(** *** The prevail strategy of [setCharacters] (code.js:1264) *)

(** [fontHashTree[key] = fontHashTree[key] ? fontHashTree[key] + 1 : 1]
    on an object whose keys are listed in insertion order (the keys hold
    the text [::] and so are never array indices). *)
Fixpoint bump (key : string) (tree : list (string * nat))
  : list (string * nat) :=
  match tree with
  | [] => [(key, 1)]
  | (k, c) :: tree' =>
      if String.eqb k key then (k, c + 1) :: tree'
      else (k, c) :: bump key tree'
  end.

(** The tally loop [for (let i = 1; i < node.characters.length; i++)],
    reading [node.getRangeFontName(i - 1, i)], the font of the character
    at [i - 1]; [charFonts] lists the font of every character and [n]
    counts the rounds left. *)
Fixpoint tally_loop (n i : nat) (charFonts : list FontName)
         (fontHashTree : list (string * nat)) : list (string * nat) :=
  match n with
  | 0 => fontHashTree
  | S n' =>
      match nth_error charFonts (i - 1) with
      | Some charFont =>
          tally_loop n' (S i) charFonts (bump (fontKey charFont) fontHashTree)
      | None => fontHashTree
      end
  end.

Definition fontHashTree_of (charFonts : list FontName)
  : list (string * nat) :=
  tally_loop (length charFonts - 1) 1 charFonts [].

(** [entries.sort((a, b) => b[1] - a[1])]: a stable sort by descending
    count. *)
Fixpoint insert_desc (a : string * nat) (sorted : list (string * nat))
  : list (string * nat) :=
  match sorted with
  | [] => [a]
  | b :: rest =>
      if snd b <=? snd a then a :: b :: rest
      else b :: insert_desc a rest
  end.

Definition sort_desc (entries : list (string * nat))
  : list (string * nat) :=
  fold_right insert_desc [] entries.

(** [key.split("::")]: [cur] holds the characters of the current piece in
    reverse. *)
Fixpoint rev_string (acc s : string) : string :=
  match s with
  | EmptyString => acc
  | String c s' => rev_string (String c acc) s'
  end.

Fixpoint split_colons (s cur : string) : list string :=
  match s with
  | EmptyString => [rev_string "" cur]
  | String c s' =>
      match s' with
      | String c' s'' =>
          if Ascii.eqb c ":" && Ascii.eqb c' ":"
          then rev_string "" cur :: split_colons s'' ""
          else split_colons s' (String c cur)
      | EmptyString => [rev_string "" (String c cur)]
      end
  end.

(** The font the prevail branch assigns to the node: the first entry of
    the sorted tally, split again into family and style.  [None]: the
    tally is empty and the source fails on [undefined[0]]. *)
Definition prevailedFont (charFonts : list FontName) : option FontName :=
  match sort_desc (fontHashTree_of charFonts) with
  | [] => None
  | prevailedTreeItem :: _ =>
      match split_colons (fst prevailedTreeItem) "" with
      | fam :: sty :: _ => Some (mkFont fam sty)
      | _ => None
      end
  end.

(** The tally the specification describes: one count for every character
    of the text. *)
Definition tally_all (charFonts : list FontName) : list (string * nat) :=
  fold_left (fun tree f => bump (fontKey f) tree) charFonts [].

(** *** Re-application of the recorded runs (code.js:1442) *)

(** An entry of [rangeTree], as [buildLinearOrder] returns it; the
    delimiter is one of the one-character strings newline and space. *)
Record FontRun : Type :=
  mkRun { run_family : string; run_style : string; run_delimiter : ascii }.

(** [str.indexOf(delimiter, fromIndex)] for a one-character delimiter:
    the first index at or after [fromIndex] holding it, [-1] when there is
    none.  [i] is the index of the head of [s]. *)
Fixpoint indexOf_at (s : string) (delimiter : ascii) (fromIndex i : nat)
  : Z :=
  match s with
  | EmptyString => (-1)%Z
  | String c s' =>
      if (fromIndex <=? i) && Ascii.eqb c delimiter then Z.of_nat i
      else indexOf_at s' delimiter fromIndex (S i)
  end.

Definition indexOf (s : string) (delimiter : ascii) (fromIndex : Z) : Z :=
  indexOf_at s delimiter (Z.to_nat fromIndex) 0.

(** The text node while the runs are applied: its text and the calls of
    [setRangeFontName(start, end, font)] made so far. *)
Record TextNode : Type :=
  mkTextNode { characters : string;
               fontName : FontName;
               rangeFonts : list (Z * Z * FontName) }.

Definition text_length (node : TextNode) : Z :=
  Z.of_nat (String.length (characters node)).

(** One round of [rangeTree.forEach] (code.js:1443), on the node and the
    cursor [prevPos]. *)
Definition applyRun (st : TextNode * Z) (run : FontRun) : TextNode * Z :=
  let '(node, prevPos) := st in
  if (prevPos <? text_length node)%Z then
    let delimeterPos := indexOf (characters node) (run_delimiter run) prevPos in
    let endPos :=
      if (delimeterPos >? prevPos)%Z then delimeterPos
      else text_length node in
    let matchedFont := mkFont (run_family run) (run_style run) in
    (mkTextNode (characters node) (fontName node)
                (rangeFonts node ++ [(prevPos, endPos, matchedFont)]),
     (endPos + 1)%Z)
  else (node, prevPos).

(** [setCharactersWithSmartMatchFont] (code.js:1423) from the point where
    the fonts are loaded: [rangeTree] is [buildLinearOrder(node)] taken
    on the old text.  The result pairs the returned value with the
    node. *)
Definition setCharactersWithSmartMatchFont (rangeTree : list FontRun)
           (node : TextNode) (newCharacters : string)
           (fallbackFont : FontName) : bool * TextNode :=
  let node1 := mkTextNode newCharacters fallbackFont [] in
  let '(node2, _) := fold_left applyRun rangeTree (node1, 0%Z) in
  (true, node2).

(** [j] is the first position at or after [from] that holds
    [delimiter]. *)
Definition first_delimiter (text : string) (delimiter : ascii)
           (from j : Z) : Prop :=
  (0 <= from <= j)%Z
  /\ (j < Z.of_nat (String.length text))%Z
  /\ String.get (Z.to_nat j) text = Some delimiter
  /\ forall k, (from <= k < j)%Z ->
               String.get (Z.to_nat k) text <> Some delimiter.

Definition no_delimiter (text : string) (delimiter : ascii) (from : Z)
  : Prop :=
  forall k, (from <= k)%Z -> String.get (Z.to_nat k) text <> Some delimiter.

(** Where the range of a run ends when the cursor is [prevPos]: at the
    first delimiter at or after the cursor when that lies strictly after
    the cursor, and at the end of the text otherwise, that is, when there
    is no delimiter from the cursor on or when the cursor is on one. *)
Definition run_end (text : string) (delimiter : ascii) (prevPos e : Z)
  : Prop :=
  (first_delimiter text delimiter prevPos e /\ (prevPos < e)%Z)
  \/ ((no_delimiter text delimiter prevPos
       \/ first_delimiter text delimiter prevPos prevPos)
      /\ e = Z.of_nat (String.length text)).

(** The walk over the runs: a run met with the cursor at or past the end
    of the text is passed over; any other run is given the range from the
    cursor to its end and moves the cursor one past that end. *)
Inductive Walk (text : string) : Z -> list FontRun ->
                                 list (Z * Z * FontName) -> Prop :=
  | Walk_done (p : Z) : Walk text p [] []
  | Walk_skip (p : Z) (run : FontRun) (runs : list FontRun)
              (calls : list (Z * Z * FontName)) :
      (Z.of_nat (String.length text) <= p)%Z ->
      Walk text p runs calls ->
      Walk text p (run :: runs) calls
  | Walk_apply (p e : Z) (run : FontRun) (runs : list FontRun)
               (calls : list (Z * Z * FontName)) :
      (0 <= p < Z.of_nat (String.length text))%Z ->
      run_end text (run_delimiter run) p e ->
      Walk text (e + 1) runs calls ->
      Walk text p (run :: runs)
           ((p, e, mkFont (run_family run) (run_style run)) :: calls).

(** The walk as first stated: every run ends at the first delimiter at or
    after the cursor, or at the end of the text when there is none. *)
Definition stated_end (text : string) (delimiter : ascii) (prevPos e : Z)
  : Prop :=
  first_delimiter text delimiter prevPos e
  \/ (no_delimiter text delimiter prevPos
      /\ e = Z.of_nat (String.length text)).

Inductive StatedWalk (text : string) : Z -> list FontRun ->
                                       list (Z * Z * FontName) -> Prop :=
  | StatedWalk_done (p : Z) : StatedWalk text p [] []
  | StatedWalk_apply (p e : Z) (run : FontRun) (runs : list FontRun)
                     (calls : list (Z * Z * FontName)) :
      stated_end text (run_delimiter run) p e ->
      StatedWalk text (e + 1) runs calls ->
      StatedWalk text p (run :: runs)
                 ((p, e, mkFont (run_family run) (run_style run)) :: calls).

(** ** Progress events and the messages posted to the UI *)

Inductive Status : Type := started | in_progress | completed | error.

(** The result of one item of a batch ([success], [nodeId], and either
    the data of the success or the error text). *)
Inductive ItemData : Type :=
  | Deleted (id name type : string)
  | Replaced (originalText translatedText : string).

Record ItemResult : Type :=
  mkItemResult { success : bool;
                 item_nodeId : string;
                 item_data : option ItemData;
                 item_error : option string }.

Definition itemOk (nodeId : string) (data : ItemData) : ItemResult :=
  mkItemResult true nodeId (Some data) None.

Definition itemFailed (nodeId err : string) : ItemResult :=
  mkItemResult false nodeId None (Some err).

(** The value of a property that holds the chunk size or the number of
    chunks: a whole number, or what the division of a count by zero
    leaves.  A negative zero is the whole number [0]. *)
Inductive Num : Type := Int (z : Z) | Infinity | NaN.

Definition ofNat (n : nat) : Num := Int (Z.of_nat n).

(** [Math.ceil(totalNodes / chunkSize)] (code.js:1608) for any whole
    [chunkSize]. *)
Definition Math_ceil_quotient (totalNodes : nat) (chunkSize : Z) : Num :=
  if (chunkSize =? 0)%Z
  then (if totalNodes =? 0 then NaN else Infinity)
  else Int (Math_ceil_div (Z.of_nat totalNodes) chunkSize).

(** The [payload] objects of the batch commands; an absent property is
    [None]. *)
Record Payload : Type :=
  mkPayload { pl_error : option string;
              pl_total : option nat;
              pl_chunks : option nat;
              pl_chunkSize : option Num;
              pl_currentChunk : option nat;
              pl_totalChunks : option Num;
              pl_successCount : option nat;
              pl_failureCount : option nat;
              pl_results : option (list ItemResult);
              pl_textNodes : option (list SafeTextNode);
              pl_processedNodes : option nat;
              pl_textNodesFound : option nat }.

Record ProgressUpdate : Type :=
  mkUpdate { commandId : string;
             commandType : string;
             status : Status;
             progress : Z;
             totalItems : nat;
             processedItems : nat;
             currentChunk : option nat;
             totalChunks : option Num;
             chunkSize : option Num;
             payload : option Payload }.

(** The [update] object [sendProgressUpdate] builds (code.js:20): the
    chunk fields of the payload are copied to the top level when the
    payload has both [currentChunk] and [totalChunks]. *)
Definition buildUpdate (cmdId cmdType : string) (st : Status) (pct : Z)
           (total processed : nat) (pl : option Payload) : ProgressUpdate :=
  let lifted :=
    match pl with
    | Some p =>
        match pl_currentChunk p, pl_totalChunks p with
        | Some _, Some _ => Some p
        | _, _ => None
        end
    | None => None
    end in
  mkUpdate cmdId cmdType st pct total processed
           (match lifted with Some p => pl_currentChunk p | None => None end)
           (match lifted with Some p => pl_totalChunks p | None => None end)
           (match lifted with Some p => pl_chunkSize p | None => None end)
           pl.

(** The shape of the events of one run that goes through: a first event
    [started] at [0], then events [in_progress] between [5] and [95], a
    last event [completed] at [100], the percentages never going down. *)
Definition progress_of_a_run (events : list ProgressUpdate) : Prop :=
  exists first middle last,
    events = first :: middle ++ [last]
    /\ status first = started /\ progress first = 0%Z
    /\ Forall (fun u => status u = in_progress
                        /\ (5 <= progress u <= 95)%Z) middle
    /\ status last = completed /\ progress last = 100%Z
    /\ Sorted.Sorted Z.le (map progress events).

(** The value a handler returns. *)
Inductive CommandResult (Value : Type) : Type :=
  | BatchResult (ok : bool) (applied failed total : nat)
                (results : list ItemResult) (completedInChunks : nat)
                (cmdId : string)
  | ScanResult (ok : bool) (count : nat) (processedNodes chunks : option nat)
               (textNodes : list SafeTextNode) (cmdId : string)
  | OtherResult (v : Value).
Arguments BatchResult {Value}.
Arguments ScanResult {Value}.
Arguments OtherResult {Value}.

Inductive UiMessage (Value : Type) : Type :=
  | command_progress (update : ProgressUpdate)
  | command_result (id : string) (result : CommandResult Value)
  | command_error (id : string) (err : string).
Arguments command_progress {Value}.
Arguments command_result {Value}.
Arguments command_error {Value}.

(** How a computation ends: with a value, with a thrown error (its
    [message]), or not at all. *)
Inductive Outcome (A : Type) : Type :=
  | Ok (a : A)
  | Throw (message : string)
  | Diverge.
Arguments Ok {A}.
Arguments Throw {A}.
Arguments Diverge {A}.

(** One entry of the [text] array of [set_multiple_text_contents] that
    is an object; a missing property is [None]. *)
Record Replacement : Type :=
  mkReplacement { r_nodeId : option string; r_text : option string }.

(** The [params] object of the batch commands; a missing property is
    [None].  An entry of [text] that is [null] or [undefined] is [None];
    [chunkSize] is any whole number, which [scanTextNodes] does not
    check. *)
Record Params : Type :=
  mkParams { p_nodeId : option string;
             p_nodeIds : option (list string);
             p_text : option (list (option Replacement));
             p_useChunking : option bool;
             p_chunkSize : option Z;
             p_commandId : option string }.

(** The defaults of the destructuring in [scanTextNodes] (code.js:1503):
    [useChunking = true] and [chunkSize = 10] apply to a missing
    property only. *)
Definition chunking (params : Params) : bool :=
  match p_useChunking params with Some b => b | None => true end.

Definition chunkSize_of (params : Params) : Z :=
  match p_chunkSize params with Some c => c | None => 10%Z end.

(** [!s] on an optional string: missing or empty. *)
Definition falsy (s : option string) : bool :=
  match s with
  | None => true
  | Some v => String.eqb v ""
  end.

(** [x || d]. *)
Definition or_else (s : option string) (d : string) : string :=
  if falsy s then d else match s with Some v => v | None => d end.

(** The text array has an entry that is [null] or [undefined]. *)
Definition hasNull (text : list (option Replacement)) : bool :=
  existsb (fun entry => match entry with None => true | Some _ => false end)
          text.

(** [`${nodeId}`] for the identifier of [scanTextNodes]. *)
Definition shown (nodeId : option string) : string :=
  match nodeId with
  | Some s => s
  | None => "undefined"
  end.

(** The running counters of a batch. *)
Record Tally : Type :=
  mkTally { results : list ItemResult;
            successCount : nat;
            failureCount : nat }.

(** The body of [chunkResults.forEach] (code.js:2114, 2693). *)
Definition count (t : Tally) (result : ItemResult) : Tally :=
  if success result
  then mkTally (results t ++ [result]) (successCount t + 1) (failureCount t)
  else mkTally (results t ++ [result]) (successCount t) (failureCount t + 1).

(** The number of results with [success: true], and with
    [success: false]. *)
Definition successes (rs : list ItemResult) : nat :=
  length (filter success rs).

Definition failures (rs : list ItemResult) : nat :=
  length (filter (fun r => negb (success r)) rs).

(** The percentages of the two events of each round of a chunk loop, for
    the rounds [first], ..., [first + rounds - 1] out of [nchunks]. *)
Definition round_percentages (nchunks first rounds : nat) : list Z :=
  flat_map (fun k => [chunkProgress k nchunks; chunkProgress (k + 1) nchunks])
           (seq first rounds).

(** [u] is the last of [events]. *)
Definition terminal_event (events : list ProgressUpdate)
           (u : ProgressUpdate) : Prop :=
  exists earlier, events = earlier ++ [u].

(** ** The plugin over an abstract host *)

Section Plugin.

(** The state of the host application (the document, the random source)
    and the values the handlers outside the batch engine return. *)
Variable Host : Type.
Variable Value : Type.
Variable Fills : Type.

(** The orange highlight written to [node.fills] (code.js:2058). *)
Variable highlightFills : Fills.

(** The host API.  A call either yields a value or fails with an error
    message ([inl]); every call settles. *)
Variable generateCommandId : Host -> string * Host.
Variable getNodeByIdAsync : option string -> Host -> string + option SceneNode.
Variable remove : SceneNode -> Host -> string + Host.
Variable readFills : SceneNode -> Host -> string + Fills.
Variable writeFills : SceneNode -> Fills -> Host -> string + Host.

(** [setTextContent] (code.js:1182), used by the batch as a black box:
    it changes the document and may throw. *)
Variable setTextContent : string -> string -> Host -> option string * Host.

(** The message of the [TypeError] that the engine raises when a
    property of [null] or [undefined] is read. *)
Variable nullReadMessage : string.

Record World : Type :=
  mkWorld { host : Host; outbox : list (UiMessage Value) }.

(** Computations on the world that return, throw, or do not end. *)
Definition M (A : Type) : Type := World -> Outcome A * World.

Definition ret {A : Type} (a : A) : M A := fun w => (Ok a, w).

Definition bind {A B : Type} (c : M A) (k : A -> M B) : M B :=
  fun w =>
    match c w with
    | (Ok a, w') => k a w'
    | (Throw e, w') => (Throw e, w')
    | (Diverge, w') => (Diverge, w')
    end.

Definition throw {A : Type} (e : string) : M A := fun w => (Throw e, w).

Definition diverge {A : Type} : M A := fun w => (Diverge, w).

(** [try { c } catch (error) { handler(error.message) }]. *)
Definition try_catch {A : Type} (c : M A) (handler : string -> M A) : M A :=
  fun w =>
    match c w with
    | (Throw e, w') => handler e w'
    | r => r
    end.

Notation "x <- c ;; k" := (bind c (fun x => k))
  (at level 61, c at next level, right associativity).
Notation "c ;;; k" := (bind c (fun _ => k))
  (at level 61, right associativity).

(** [figma.ui.postMessage]. *)
Definition postMessage (m : UiMessage Value) : M unit :=
  fun w => (Ok tt, mkWorld (host w) (outbox w ++ [m])).

(** A host call that reads the state. *)
Definition call {A : Type} (f : Host -> string + A) : M A :=
  fun w =>
    match f (host w) with
    | inl e => (Throw e, w)
    | inr a => (Ok a, w)
    end.

(** A host call that changes the state. *)
Definition update (f : Host -> string + Host) : M unit :=
  fun w =>
    match f (host w) with
    | inl e => (Throw e, w)
    | inr h => (Ok tt, mkWorld h (outbox w))
    end.

Fixpoint mapM {A B : Type} (f : A -> M B) (l : list A) : M (list B) :=
  match l with
  | [] => ret []
  | a :: l' => b <- f a ;; bs <- mapM f l' ;; ret (b :: bs)
  end.

(** Taking a command identifier: [pick] returns it with the next host
    state. *)
Definition newCommandId (pick : Host -> string * Host) : M string :=
  fun w => let '(c, h) := pick (host w) in (Ok c, mkWorld h (outbox w)).

(** [commandId = generateCommandId()] as a default of the destructuring
    in [scanTextNodes] (code.js:1507): generated when the property is
    missing. *)
Definition scan_commandId (params : Params) (h : Host) : string * Host :=
  match p_commandId params with
  | Some c => (c, h)
  | None => generateCommandId h
  end.

(** [params.commandId || generateCommandId()] in
    [setMultipleTextContents] (code.js:1915): generated when the property
    is missing or empty. *)
Definition setMultiple_commandId (params : Params) (h : Host)
  : string * Host :=
  if falsy (p_commandId params) then generateCommandId h
  else (or_else (p_commandId params) "", h).

(** [sendProgressUpdate] (code.js:10). *)
Definition sendProgressUpdate (cmdId cmdType : string) (st : Status)
           (pct : Z) (total processed : nat) (pl : option Payload)
  : M ProgressUpdate :=
  let upd := buildUpdate cmdId cmdType st pct total processed pl in
  postMessage (command_progress upd) ;;; ret upd.

Definition errorPayload (e : string) : option Payload :=
  Some (mkPayload (Some e) None None None None None None None None None
                  None None).

Definition totalPayload (n : nat) : option Payload :=
  Some (mkPayload None (Some n) None None None None None None None None
                  None None).

Definition planPayload (n chunks size : nat) : option Payload :=
  Some (mkPayload None (Some n) (Some chunks) (Some (ofNat size))
                  None None None None None None None None).

Definition chunkPayload (current total : nat) (t : Tally)
           (chunkResults : option (list ItemResult)) : option Payload :=
  Some (mkPayload None None None None (Some current) (Some (ofNat total))
                  (Some (successCount t)) (Some (failureCount t))
                  chunkResults None None None).

Definition donePayload (n chunks : nat) (t : Tally) : option Payload :=
  Some (mkPayload None (Some n) (Some chunks) None None None
                  (Some (successCount t)) (Some (failureCount t))
                  (Some (results t)) None None None).

(** The chunk loop shared, text for text, by [setMultipleTextContents]
    (code.js:1983) and [deleteMultipleNodes] (code.js:2624).  [rest] is
    [chunks] from index [chunkIndex] on and [nchunks] is [chunks.length].
    The items of a chunk are started together by [chunk.map] and
    [Promise.all] returns their results in the order of the chunk, or
    throws what the first item to fail has thrown.  They are run here one
    after the other in that order, which is the schedule where the host
    answers each item before the next one asks: under another schedule
    the host calls of the items of one chunk interleave, and two items
    that touch the same node may meet another state of it; the number
    and the order of the results are the same.  When an item throws, the
    run below stops there, while in the code the other items of the
    chunk, already started, go on: the host of a run that throws is not
    the final one. *)
Fixpoint processChunks {T : Type} (cmdId cmdType : string)
         (processItem : T -> M ItemResult) (n nchunks chunkIndex : nat)
         (rest : list (list T)) (t : Tally) : M Tally :=
  match rest with
  | [] => ret t
  | chunk :: rest' =>
      sendProgressUpdate cmdId cmdType in_progress
        (chunkProgress chunkIndex nchunks) n
        (successCount t + failureCount t)
        (chunkPayload (chunkIndex + 1) nchunks t None) ;;;
      chunkResults <- mapM processItem chunk ;;
      let t' := fold_left count chunkResults t in
      sendProgressUpdate cmdId cmdType in_progress
        (chunkProgress (chunkIndex + 1) nchunks) n
        (successCount t' + failureCount t')
        (chunkPayload (chunkIndex + 1) nchunks t' (Some chunkResults)) ;;;
      processChunks cmdId cmdType processItem n nchunks (S chunkIndex)
                    rest' t'
  end.

(** The body that [setMultipleTextContents] (code.js:1939-2181) and
    [deleteMultipleNodes] (code.js:2581-2759) have in common once the
    parameters are accepted: the [started] event, the split into chunks
    of [CHUNK_SIZE], the planning event at 5%, the chunk loop, the
    [completed] event and the summary that is returned, whose [success]
    is [successCount > 0]. *)
Definition runBatch {T : Type} (cmdId cmdType : string)
           (processItem : T -> M ItemResult) (items : list T)
  : M (CommandResult Value) :=
  let n := length items in
  sendProgressUpdate cmdId cmdType started 0 n 0 (totalPayload n) ;;;
  match split_loop (S n) CHUNK_SIZE items 0 [] with
  | None => diverge
  | Some chunks =>
      sendProgressUpdate cmdId cmdType in_progress 5 n 0
                         (planPayload n (length chunks) CHUNK_SIZE) ;;;
      t <- processChunks cmdId cmdType processItem n (length chunks) 0
                         chunks (mkTally [] 0 0) ;;
      sendProgressUpdate cmdId cmdType completed 100 n
                         (successCount t + failureCount t)
                         (donePayload n (length chunks) t) ;;;
      ret (BatchResult (0 <? successCount t) (successCount t)
                       (failureCount t) n (results t) (length chunks)
                       cmdId)
  end.

(** The function mapped over a chunk of [deleteMultipleNodes]
    (code.js:2650). *)
Definition deleteItem (nodeId : string) : M ItemResult :=
  try_catch
    (node <- call (getNodeByIdAsync (Some nodeId)) ;;
     match node with
     | None =>
         ret (itemFailed nodeId (String.append "Node not found: " nodeId))
     | Some nd =>
         update (remove nd) ;;;
         ret (itemOk nodeId
                (Deleted (node_id nd) (node_name nd) (node_type nd)))
     end)
    (fun e => ret (itemFailed nodeId e)).

(** [deleteMultipleNodes] (code.js:2560). *)
Definition deleteMultipleNodes (params : Params) : M (CommandResult Value) :=
  cmdId <- newCommandId generateCommandId ;;
  match p_nodeIds params with
  | None | Some [] =>
      let errorMsg := "Missing or invalid nodeIds parameter"%string in
      sendProgressUpdate cmdId "delete_multiple_nodes" error 0 0 0
                         (errorPayload errorMsg) ;;;
      throw errorMsg
  | Some nodeIds =>
      runBatch cmdId "delete_multiple_nodes" deleteItem nodeIds
  end.

(** The function mapped over a chunk of [setMultipleTextContents]
    (code.js:2009).  Its first test reads [replacement.nodeId] before the
    [try] is entered (code.js:2010): on an entry that is [null] or
    [undefined] that reading throws. *)
Definition replaceItem (entry : option Replacement) : M ItemResult :=
  match entry with
  | None => throw nullReadMessage
  | Some replacement =>
  match r_text replacement with
  | Some text =>
      if falsy (r_nodeId replacement)
      then ret (itemFailed (or_else (r_nodeId replacement) "unknown")
                           "Missing nodeId or text in replacement entry")
      else
        let nodeId := or_else (r_nodeId replacement) "unknown" in
        try_catch
          (textNode <- call (getNodeByIdAsync (Some nodeId)) ;;
           match textNode with
           | None =>
               ret (itemFailed nodeId
                               (String.append "Node not found: " nodeId))
           | Some nd =>
               if negb (isText nd)
               then ret (itemFailed nodeId
                           (String.append "Node is not a text node: "
                              (String.append nodeId
                                 (String.append " (type: "
                                    (String.append (node_type nd) ")")))))
               else
                 let originalText := node_characters nd in
                 originalFills <-
                   try_catch
                     (f <- call (readFills nd) ;;
                      try_catch (update (writeFills nd highlightFills) ;;;
                                 ret (Some f))
                                (fun _ => ret (Some f)))
                     (fun _ => ret None) ;;
                 (fun w => match setTextContent nodeId text (host w) with
                           | (Some e, h) =>
                               (Throw e, mkWorld h (outbox w))
                           | (None, h) => (Ok tt, mkWorld h (outbox w))
                           end) ;;;
                 match originalFills with
                 | Some f =>
                     try_catch (update (writeFills nd f)) (fun _ => ret tt)
                 | None => ret tt
                 end ;;;
                 ret (itemOk nodeId (Replaced originalText text))
           end)
          (fun e =>
             ret (itemFailed nodeId
                    (String.append "Error applying replacement: " e)))
  | None =>
      ret (itemFailed (or_else (r_nodeId replacement) "unknown")
                      "Missing nodeId or text in replacement entry")
  end
  end.

(** The host as [setTextContent] finds it in [replaceItem], after the
    highlight (code.js:2054): the fills are read and, when that went
    through, replaced by the highlight; a failure of either step leaves
    the host as it was. *)
Definition highlighted (nd : SceneNode) (h : Host) : Host :=
  match readFills nd h with
  | inl _ => h
  | inr _ =>
      match writeFills nd highlightFills h with
      | inl _ => h
      | inr h' => h'
      end
  end.

(** [setMultipleTextContents] (code.js:1913). *)
Definition setMultipleTextContents (params : Params)
  : M (CommandResult Value) :=
  cmdId <- newCommandId (setMultiple_commandId params) ;;
  match (if falsy (p_nodeId params) then None else p_text params) with
  | None =>
      let errorMsg :=
        "Missing required parameters: nodeId and text array"%string in
      sendProgressUpdate cmdId "set_multiple_text_contents" error 0 0 0
                         (errorPayload errorMsg) ;;;
      throw errorMsg
  | Some text =>
      runBatch cmdId "set_multiple_text_contents" replaceItem text
  end.

(** The inner [for (const nodeInfo of chunkNodes)] of [scanTextNodes]
    (code.js:1660). *)
Definition scanChunk (chunkNodes : list NodeDescriptor) : list SafeTextNode :=
  fold_left
    (fun chunkTextNodes nodeInfo =>
       if isText (d_node nodeInfo)
       then match processTextNode (d_node nodeInfo) (d_parentPath nodeInfo)
                                  (d_depth nodeInfo) with
            | Some textNodeInfo => chunkTextNodes ++ [textNodeInfo]
            | None => chunkTextNodes
            end
       else chunkTextNodes)
    chunkNodes [].

(** The payloads of the two events of a round of the chunk loop of
    [scanTextNodes] (code.js:1649, 1695). *)
Definition chunkStartPayload (current total textNodesFound : nat)
  : option Payload :=
  Some (mkPayload None None None None (Some current) (Some (ofNat total))
                  None None None None None (Some textNodesFound)).

Definition chunkEndPayload (current total processedNodes : nat)
           (textNodesFound : nat) (chunkResult : list SafeTextNode)
  : option Payload :=
  Some (mkPayload None None None None (Some current) (Some (ofNat total))
                  None None None (Some chunkResult) (Some processedNodes)
                  (Some textNodesFound)).

(** The chunk loop of [scanTextNodes] (code.js:1632) for a chunk size
    that is a natural number; it returns [processedNodes],
    [chunksProcessed] and [allTextNodes]. *)
Fixpoint scanChunks (fuel : nat) (cmdId : string) (chunkSz : nat)
         (nodesToProcess : list NodeDescriptor) (nchunks : nat)
         (i processedNodes chunksProcessed : nat)
         (allTextNodes : list SafeTextNode)
  : M (nat * nat * list SafeTextNode) :=
  match fuel with
  | 0 => diverge
  | S fuel' =>
      let totalNodes := length nodesToProcess in
      if i <? totalNodes then
        let chunkEnd := Nat.min (i + chunkSz) totalNodes in
        sendProgressUpdate cmdId "scan_text_nodes" in_progress
          (chunkProgress chunksProcessed nchunks) totalNodes processedNodes
          (chunkStartPayload (chunksProcessed + 1) nchunks
                             (length allTextNodes)) ;;;
        let chunkNodes := slice nodesToProcess i chunkEnd in
        let chunkTextNodes := scanChunk chunkNodes in
        let allTextNodes' := allTextNodes ++ chunkTextNodes in
        let processedNodes' := processedNodes + length chunkNodes in
        let chunksProcessed' := chunksProcessed + 1 in
        sendProgressUpdate cmdId "scan_text_nodes" in_progress
          (chunkProgress chunksProcessed' nchunks) totalNodes processedNodes'
          (chunkEndPayload chunksProcessed' nchunks processedNodes'
                           (length allTextNodes') chunkTextNodes) ;;;
        scanChunks fuel' cmdId chunkSz nodesToProcess nchunks (i + chunkSz)
                   processedNodes' chunksProcessed' allTextNodes'
      else ret (processedNodes, chunksProcessed, allTextNodes)
  end.

(** The payload of the [completed] event of [scanTextNodes]
    (code.js:1555, 1719); the first form has only [textNodes]. *)
Definition textNodesPayload (textNodes : list SafeTextNode)
           (processedNodes chunks : option nat) : option Payload :=
  Some (mkPayload None None chunks None None None None None None
                  (Some textNodes) processedNodes None).

(** [scanTextNodes] (code.js:1501).  The chunk size is used as it
    comes.  The chunk loop is left only when its index reaches
    [totalNodes] ([scan_walk]): if it does, the step is a natural number
    or there is no node, and the rounds are those of [scanChunks]; if it
    does not, each of the endless rounds posts its two [in_progress]
    events, which are not listed, and the function neither returns nor
    throws. *)
Definition scanTextNodes (params : Params) : M (CommandResult Value) :=
  let useChunking := chunking params in
  let chunkSize := chunkSize_of params in
  cmdId <- newCommandId (scan_commandId params) ;;
  found <- call (getNodeByIdAsync (p_nodeId params)) ;;
  match found with
  | None =>
      let nodeId := shown (p_nodeId params) in
      sendProgressUpdate cmdId "scan_text_nodes" error 0 0 0
        (errorPayload (String.append "Node not found: " nodeId)) ;;;
      throw (String.append "Node with ID "
                           (String.append nodeId " not found"))
  | Some node =>
      if negb useChunking then
        try_catch
          (sendProgressUpdate cmdId "scan_text_nodes" started 0 1 0 None ;;;
           let textNodes := findTextNodes node [] 0 [] in
           sendProgressUpdate cmdId "scan_text_nodes" completed 100
             (length textNodes) (length textNodes)
             (textNodesPayload textNodes None None) ;;;
           ret (ScanResult true (length textNodes) None None textNodes
                           cmdId))
          (fun e =>
             sendProgressUpdate cmdId "scan_text_nodes" error 0 0 0
                                (errorPayload e) ;;;
             throw (String.append "Error scanning text nodes: " e))
      else
        sendProgressUpdate cmdId "scan_text_nodes" started 0 0 0
          (Some (mkPayload None None None (Some (Int chunkSize))
                           None None None None None None None None)) ;;;
        let nodesToProcess := collectNodesToProcess node [] 0 [] in
        let totalNodes := length nodesToProcess in
        let totalChunks := Math_ceil_quotient totalNodes chunkSize in
        sendProgressUpdate cmdId "scan_text_nodes" in_progress 5 totalNodes 0
          (Some (mkPayload None (Some totalNodes) None (Some (Int chunkSize))
                           None (Some totalChunks) None None None None None
                           None)) ;;;
        match scan_walk (S totalNodes) chunkSize (Z.of_nat totalNodes) 0 0
        with
        | None => diverge
        | Some _ =>
            let chunkSz := Z.to_nat chunkSize in
            let nchunks := ceil_div totalNodes chunkSz in
            r <- scanChunks (S totalNodes) cmdId chunkSz nodesToProcess
                            nchunks 0 0 0 [] ;;
            let '(processedNodes, chunksProcessed, allTextNodes) := r in
            sendProgressUpdate cmdId "scan_text_nodes" completed 100
              totalNodes processedNodes
              (textNodesPayload allTextNodes (Some processedNodes)
                                (Some chunksProcessed)) ;;;
            ret (ScanResult true (length allTextNodes) (Some processedNodes)
                            (Some chunksProcessed) allTextNodes cmdId)
        end
  end.

(** ** The dispatcher *)

(** The [case] labels of [handleCommand] (code.js:252), in source
    order. *)
Definition routingTable : list string :=
  [ "get_document_info"; "get_selection"; "get_node_info"; "get_nodes_info";
    "read_my_design"; "create_rectangle"; "create_frame"; "create_text";
    "set_fill_color"; "set_stroke_color"; "move_node"; "resize_node";
    "delete_node"; "delete_multiple_nodes"; "get_styles";
    "get_local_components"; "create_component_instance";
    "export_node_as_image"; "set_corner_radius"; "set_text_content";
    "clone_node"; "scan_text_nodes"; "set_multiple_text_contents";
    "get_annotations"; "set_annotation"; "scan_nodes_by_types";
    "set_multiple_annotations"; "set_layout_mode"; "set_padding";
    "set_axis_align"; "set_layout_sizing"; "set_item_spacing";
    "analyze_selection"; "convert_to_frame"; "create_atlas";
    "create_grid_frame"; "snap_to_grid"; "export_phaser_map";
    "generate-tiles"; "convert_to_basic_frame"; "frame-up";
    "export-tile-map" ]%string.

(** The handlers of the commands outside the batch engine: each takes the
    parameters and returns a result, throws, or does not settle. *)
Variable otherHandler : string -> Params -> M (CommandResult Value).

(** [handleCommand] (code.js:249). *)
Definition handleCommand (command : string) (params : Params)
  : M (CommandResult Value) :=
  if String.eqb command "delete_multiple_nodes"
  then deleteMultipleNodes params
  else if String.eqb command "scan_text_nodes"
  then scanTextNodes params
  else if String.eqb command "set_multiple_text_contents"
  then setMultipleTextContents params
  else if includes routingTable command
  then otherHandler command params
  else throw (String.append "Unknown command: " command).

(** An inbound [{type: "execute-command", id, command, params}]. *)
Record ExecuteCommand : Type :=
  mkExecute { msg_id : string; msg_command : string; msg_params : Params }.

(** The [execute-command] case of [figma.ui.onmessage] (code.js:169). *)
Definition onmessage (msg : ExecuteCommand) : M unit :=
  try_catch
    (result <- handleCommand (msg_command msg) (msg_params msg) ;;
     postMessage (command_result (msg_id msg) result))
    (fun e =>
       postMessage
         (command_error (msg_id msg)
            (if String.eqb e "" then "Error executing command"%string
             else e))).

End Plugin.

Arguments mkWorld {Host Value}.
Arguments host {Host Value}.
Arguments outbox {Host Value}.

(** ** Vocabulary for the runs of the batch commands *)

(** The summary a batch returns for the item results [rs]: its [success]
    flag is [successCount > 0]. *)
Definition batch_summary {Value : Type} (rs : list ItemResult)
           (n nchunks : nat) (cmdId : string) : CommandResult Value :=
  BatchResult (0 <? successes rs) (successes rs) (failures rs) n rs nchunks
              cmdId.

(** The run [run] of a batch over items with the keys [keys], started in
    [w], went through and its last event is [completed] and counts every
    item: [totalItems] is the number of items, [processedItems] is
    [successCount + failureCount], and that sum is the number of items,
    each of which has its one result. *)
Definition completes_counted {Host Value : Type} (w : World Host Value)
           (keys : list string)
           (run : Outcome (CommandResult Value) * World Host Value) : Prop :=
  exists cmdId nchunks rs events last,
    fst run = Ok (batch_summary rs (length keys) nchunks cmdId)
    /\ outbox (snd run) = outbox w ++ map command_progress events
    /\ terminal_event events last
    /\ status last = completed
    /\ totalItems last = length keys
    /\ processedItems last = successes rs + failures rs
    /\ successes rs + failures rs = length keys
    /\ payload last
       = donePayload (length keys) nchunks
                     (mkTally rs (successes rs) (failures rs))
    /\ map item_nodeId rs = keys.

(** The run went through and posted the events of a run. *)
Definition runs_with_progress {Host Value : Type} (w : World Host Value)
           (run : Outcome (CommandResult Value) * World Host Value) : Prop :=
  exists result events,
    fst run = Ok result
    /\ outbox (snd run) = outbox w ++ map command_progress events
    /\ progress_of_a_run events.

(** The run was turned down: it posted one [error] event at [0] and
    threw [message]. *)
Definition rejected_with {Host Value : Type} (w : World Host Value)
           (message : string)
           (run : Outcome (CommandResult Value) * World Host Value) : Prop :=
  exists u,
    fst run = Throw message
    /\ outbox (snd run) = outbox w ++ [command_progress u]
    /\ status u = error /\ progress u = 0%Z.

(** The run went through whatever its items did, with one result per
    item, in the order of the items. *)
Definition best_effort {Host Value : Type} (keys : list string)
           (run : Outcome (CommandResult Value) * World Host Value) : Prop :=
  exists cmdId nchunks rs,
    fst run = Ok (batch_summary rs (length keys) nchunks cmdId)
    /\ map item_nodeId rs = keys
    /\ length rs = length keys.

(** The key under which an entry of [text] is reported. *)
Definition replacement_key (r : Replacement) : string :=
  or_else (r_nodeId r) "unknown".

(** The run was cut short by an error with the text [message] after its
    [started] event and events [in_progress] only: it posted neither a
    [completed] nor an [error] event. *)
Definition aborted_with {Host Value : Type} (w : World Host Value)
           (message : string)
           (run : Outcome (CommandResult Value) * World Host Value) : Prop :=
  exists first rest,
    fst run = Throw message
    /\ outbox (snd run) = outbox w ++ map command_progress (first :: rest)
    /\ status first = started
    /\ Forall (fun u => status u = in_progress) rest.


(** ** A small document to run the commands on

    The host state is the list of the nodes of the page; looking an
    identifier up finds the first node that carries it, removing a node
    drops it from the list, and setting a text always goes through.  The
    fills are not modelled and every command identifier is [cmd_1]. *)

Definition Document : Type := list SceneNode.

Definition doc_generateCommandId (doc : Document) : string * Document :=
  ("cmd_1"%string, doc).

Definition doc_getNodeByIdAsync (id : option string) (doc : Document)
  : string + option SceneNode :=
  match id with
  | None => inr None
  | Some i => inr (find (fun n => String.eqb (node_id n) i) doc)
  end.

Definition doc_remove (node : SceneNode) (doc : Document)
  : string + Document :=
  inr (filter (fun n => negb (String.eqb (node_id n) (node_id node))) doc).

Definition doc_readFills (node : SceneNode) (doc : Document)
  : string + unit := inr tt.

Definition doc_writeFills (node : SceneNode) (fills : unit) (doc : Document)
  : string + Document := inr doc.

Definition doc_setTextContent (nodeId text : string) (doc : Document)
  : option string * Document := (None, doc).

Definition doc_otherHandler (command : string) (params : Params)
  : M Document unit (CommandResult unit) :=
  ret Document unit (OtherResult tt).

Definition doc_deleteMultipleNodes :=
  deleteMultipleNodes Document unit doc_generateCommandId
                      doc_getNodeByIdAsync doc_remove.

(** The message of V8 for [replacement.nodeId] on [null]. *)
Definition doc_nullReadMessage : string :=
  "Cannot read properties of null (reading 'nodeId')".

Definition doc_setMultipleTextContents :=
  setMultipleTextContents Document unit unit tt doc_generateCommandId
                          doc_getNodeByIdAsync doc_readFills doc_writeFills
                          doc_setTextContent doc_nullReadMessage.

Definition doc_scanTextNodes :=
  scanTextNodes Document unit doc_generateCommandId doc_getNodeByIdAsync.

Definition doc_onmessage :=
  onmessage Document unit unit tt doc_generateCommandId doc_getNodeByIdAsync
            doc_remove doc_readFills doc_writeFills doc_setTextContent
            doc_nullReadMessage doc_otherHandler.

Definition rectangle (id : string) : SceneNode :=
  mkNode id (String.append "Rectangle " id) "RECTANGLE" true "" None.

Definition textNode (id text : string) : SceneNode :=
  mkNode id (String.append "Label " id) "TEXT" true text None.

(** A frame with a visible label, a hidden group that holds a label, and
    a rectangle. *)
Definition samplePage : SceneNode :=
  mkNode "0:1" "Card" "FRAME" true ""
         (Some [ textNode "0:2" "Title";
                 mkNode "0:3" "Drafts" "GROUP" false ""
                        (Some [textNode "0:4" "Old title"]);
                 rectangle "0:5" ]).

Definition scanParams (id : string) (size : Z) : Params :=
  mkParams (Some id) None None None (Some size) None.

(** [scan_text_nodes] on the sample page with a chunk size of [0]. *)
Definition stuckMessage : ExecuteCommand :=
  mkExecute "7" "scan_text_nodes" (scanParams "0:1" 0).

(** A text array whose second entry is [null]. *)
Definition textParams (text : list (option Replacement)) : Params :=
  mkParams (Some "0:1"%string) None (Some text) None None None.

Definition nullEntry : list (option Replacement) :=
  [Some (mkReplacement (Some "0:2"%string) (Some "Heading"%string)); None].

Definition nullEntryMessage : ExecuteCommand :=
  mkExecute "8" "set_multiple_text_contents" (textParams nullEntry).

Definition titleOnly : Document := [textNode "0:2" "Title"].

Definition unknownMessage : ExecuteCommand :=
  mkExecute "42" "rotate_node" (mkParams None None None None None None).

(** Seven identifiers, the fourth of which is not on the page. *)
Definition sevenIds : list string :=
  ["1:1"; "1:2"; "1:3"; "9:9"; "1:5"; "1:6"; "1:7"]%string.

Definition sixNodes : Document :=
  map rectangle ["1:1"; "1:2"; "1:3"; "1:5"; "1:6"; "1:7"]%string.

Definition deleteParams (ids : list string) : Params :=
  mkParams None (Some ids) None None None None.

(** ** [uniqBy] (code.js:1243) *)

(** [map.has(key)] on a [Map] with string keys, kept as the list of its
    entries in insertion order. *)
Definition map_has {A : Type} (m : list (string * A)) (key : string) : bool :=
  existsb (fun e => String.eqb (fst e) key) m.

(** One round of the [reduce] of [uniqBy]: [map.has(key) ||
    map.set(key, item)]. *)
Definition uniqBy_step {A : Type} (cb : A -> string)
           (m : list (string * A)) (item : A) : list (string * A) :=
  let key := cb item in
  if map_has m key then m else m ++ [(key, item)].

(** [uniqBy(arr, predicate)] with a function predicate on items that are
    neither [null] nor [undefined]: the values of the [Map] in insertion
    order. *)
Definition uniqBy {A : Type} (arr : list A) (cb : A -> string) : list A :=
  map snd (fold_left (uniqBy_step cb) arr []).

(** [fontsToLoad] of [setCharactersWithSmartMatchFont] (code.js:1429). *)
Definition fontsToLoad (rangeTree : list FontRun) : list FontName :=
  map (fun r => mkFont (run_family r) (run_style r))
      (uniqBy rangeTree
              (fun r => fontKey (mkFont (run_family r) (run_style r)))).

(** No colon in a family name. *)
Fixpoint no_colon (s : string) : bool :=
  match s with
  | EmptyString => true
  | String c s' => negb (Ascii.eqb c ":") && no_colon s'
  end.

(** Two fonts that differ and have the same key. *)
Definition colonFamily : FontRun := mkRun "A::B" "C" " "%char.
Definition colonStyle : FontRun := mkRun "A" "B::C" " "%char.

(** The items of [arr] whose key was not met before them. *)
Fixpoint first_of_each_key {A : Type} (cb : A -> string) (seen : list string)
         (arr : list A) : list A :=
  match arr with
  | [] => []
  | item :: rest =>
      if existsb (String.eqb (cb item)) seen
      then first_of_each_key cb seen rest
      else item :: first_of_each_key cb (seen ++ [cb item]) rest
  end.

(** ** [createAtlas] (code.js:3630) *)

(** A selected node as [createAtlas] reads it.  Sizes and positions are
    whole numbers of pixels, on which the additions and comparisons of
    the code are exact. *)
Record SelectedNode : Type :=
  mkSelected { sel_name : string;
               sel_type : string;
               sel_width : Z;
               sel_height : Z;
               sel_x : Z;
               sel_y : Z }.

(** The objects of [frames] (code.js:3651). *)
Record AtlasFrame : Type :=
  mkAtlasFrame { af_node : SelectedNode;
                 af_width : Z;
                 af_height : Z;
                 af_x : Z;
                 af_y : Z;
                 originalX : Z;
                 originalY : Z }.

Definition atlasFrame_of (frame : SelectedNode) : AtlasFrame :=
  mkAtlasFrame frame (sel_width frame) (sel_height frame) 0 0
               (sel_x frame) (sel_y frame).

(** [largestFrame] (code.js:3662): the [reduce] starts from [frames[0]]
    and visits every frame, replacing the candidate only by a frame of
    strictly larger area. *)
Definition larger (largest current : AtlasFrame) : AtlasFrame :=
  let currentArea := (af_width current * af_height current)%Z in
  let largestArea := (af_width largest * af_height largest)%Z in
  if (currentArea >? largestArea)%Z then current else largest.

Definition largestFrame (frames : list AtlasFrame) : option AtlasFrame :=
  match frames with
  | [] => None
  | first :: _ => Some (fold_left larger frames first)
  end.

(** The variables of the shelf loop (code.js:3676). *)
Record Shelf : Type :=
  mkShelf { currentX : Z;
            currentY : Z;
            shelfHeight : Z;
            maxWidth : Z;
            maxHeight : Z }.

Definition emptyShelf : Shelf := mkShelf 0 0 0 0 0.

(** One round of [frames.forEach] (code.js:3683): the frame with its
    position, and the variables after it. *)
Definition placeFrame (st : Shelf) (frame : AtlasFrame) : AtlasFrame * Shelf :=
  let st1 :=
    if (currentX st + af_width frame >? maxWidth st)%Z
    then mkShelf 0 (currentY st + shelfHeight st) 0 (maxWidth st) (maxHeight st)
    else st in
  let placed :=
    mkAtlasFrame (af_node frame) (af_width frame) (af_height frame)
                 (currentX st1) (currentY st1)
                 (originalX frame) (originalY frame) in
  (placed,
   mkShelf (currentX st1 + af_width frame)
           (currentY st1)
           (Z.max (shelfHeight st1) (af_height frame))
           (Z.max (maxWidth st1) (currentX st1 + af_width frame))
           (Z.max (maxHeight st1) (currentY st1 + af_height frame))).

Fixpoint placeFrames (st : Shelf) (frames : list AtlasFrame)
  : list AtlasFrame * Shelf :=
  match frames with
  | [] => ([], st)
  | frame :: rest =>
      let '(placed, st1) := placeFrame st frame in
      let '(others, st2) := placeFrames st1 rest in
      (placed :: others, st2)
  end.

Definition MAX_ATLAS_SIZE : Z := 2048.

(** What [createAtlas] does to the page: the atlas frame it creates, with
    the selected frames as its children at their computed positions. *)
Record Atlas : Type :=
  mkAtlas { atlas_x : Z;
            atlas_y : Z;
            atlas_width : Z;
            atlas_height : Z;
            atlas_frames : list AtlasFrame;
            framesCount : nat }.

Inductive AtlasError : Type :=
  | TooFewFrames
  | NotAllFrames
  | AtlasTooLarge (width height : Z).

(** [createAtlas] (code.js:3630) on the current selection: the error it
    throws ([inl]) or the atlas frame it creates.  The texture description
    posted to the UI repeats the sizes and positions of [atlas_frames];
    [params.gridSize] is only copied to the result and is left out. *)
Definition createAtlas (selection : list SelectedNode) : AtlasError + Atlas :=
  if length selection <? 2 then inl TooFewFrames
  else
    let invalidItems :=
      filter (fun node => negb (String.eqb (sel_type node) "FRAME"))
             selection in
    if 0 <? length invalidItems then inl NotAllFrames
    else
      let frames := map atlasFrame_of selection in
      match largestFrame frames with
      | None => inl TooFewFrames
      | Some largest =>
          let '(placed, st) := placeFrames emptyShelf frames in
          if ((maxWidth st >? MAX_ATLAS_SIZE)
              || (maxHeight st >? MAX_ATLAS_SIZE))%Z
          then inl (AtlasTooLarge (maxWidth st) (maxHeight st))
          else inr (mkAtlas (originalX largest) (originalY largest)
                            (maxWidth st) (maxHeight st) placed
                            (length selection))
      end.

(** Two placed frames overlap when their rectangles share a point of
    positive area. *)
Definition overlap (a b : AtlasFrame) : Prop :=
  (af_x a < af_x b + af_width b)%Z /\ (af_x b < af_x a + af_width a)%Z
  /\ (af_y a < af_y b + af_height b)%Z /\ (af_y b < af_y a + af_height a)%Z.

Definition sized (frame : AtlasFrame) : Prop :=
  (0 <= af_width frame)%Z /\ (0 <= af_height frame)%Z.

(** A rectangle the shelf loop has left behind: it ends above the current
    shelf, or it lies on the current shelf left of the cursor. *)
Definition behind (st : Shelf) (p : AtlasFrame) : Prop :=
  (af_y p + af_height p <= currentY st)%Z
  \/ (af_y p = currentY st
      /\ (af_x p + af_width p <= currentX st)%Z
      /\ (af_height p <= shelfHeight st)%Z).

Definition shelf_ok (st : Shelf) : Prop :=
  (0 <= currentX st)%Z /\ (0 <= currentY st)%Z /\ (0 <= shelfHeight st)%Z
  /\ (currentX st <= maxWidth st)%Z
  /\ maxHeight st = (currentY st + shelfHeight st)%Z.

Definition same_frame (placed frame : AtlasFrame) : Prop :=
  af_node placed = af_node frame
  /\ af_width placed = af_width frame
  /\ af_height placed = af_height frame
  /\ originalX placed = originalX frame
  /\ originalY placed = originalY frame.

Definition inside (st : Shelf) (p : AtlasFrame) : Prop :=
  (0 <= af_x p)%Z /\ (0 <= af_y p)%Z
  /\ (af_x p + af_width p <= maxWidth st)%Z
  /\ (af_y p + af_height p <= maxHeight st)%Z.

Definition area (frame : AtlasFrame) : Z :=
  (af_width frame * af_height frame)%Z.

Definition whole_sizes (selection : list SelectedNode) : Prop :=
  forall node, In node selection ->
               (0 <= sel_width node)%Z /\ (0 <= sel_height node)%Z.

(** Three frames: the second opens a second shelf, on which the third
    still fits. *)
Definition sprites : list SelectedNode :=
  [mkSelected "hero" "FRAME" 10 5 100 200;
   mkSelected "coin" "FRAME" 4 6 0 0;
   mkSelected "gem" "FRAME" 3 2 50 50]%string.

(** ** [rgbaToHex] (code.js:451) *)

(** A colour of the REST export: channels between 0 and 1, the alpha
    channel possibly absent. *)
Record RGBA : Type :=
  mkRGBA { color_r : Q; color_g : Q; color_b : Q; color_a : option Q }.

Definition hexDigits : list ascii :=
  ["0"; "1"; "2"; "3"; "4"; "5"; "6"; "7"; "8"; "9";
   "a"; "b"; "c"; "d"; "e"; "f"]%char.

Definition hexDigit (d : Z) : ascii := nth (Z.to_nat d) hexDigits "0"%char.

(** The digits of a non-negative integer in base 16, most significant
    first. *)
Fixpoint toHex_loop (fuel : nat) (n : Z) (acc : string) : string :=
  match fuel with
  | 0 => acc
  | S fuel' =>
      let acc' := String (hexDigit (n mod 16)) acc in
      if (n / 16 =? 0)%Z then acc' else toHex_loop fuel' (n / 16) acc'
  end.

(** [x.toString(16)] on an integer. *)
Definition toString16 (x : Z) : string :=
  if (x <? 0)%Z
  then String "-" (toHex_loop (S (Z.to_nat (Z.log2 (- x)))) (- x) "")
  else toHex_loop (S (Z.to_nat (Z.log2 x))) x "".

(** [s.padStart(2, "0")]. *)
Definition padStart2 (s : string) : string :=
  match String.length s with
  | 0 => "00"
  | 1 => String "0" s
  | _ => s
  end.

(** [Math.round(c * 255)]: the product is rounded to a number, then to
    an integer. *)
Definition channel (c : Q) : Z := Math_round (binary64 (c * 255)).

Definition rgbaToHex (color : RGBA) : string :=
  let r := channel (color_r color) in
  let g := channel (color_g color) in
  let b := channel (color_b color) in
  let a := match color_a color with
           | Some alpha => channel alpha
           | None => 255%Z
           end in
  if (a =? 255)%Z
  then String "#" (String.concat ""
                     (map (fun x => padStart2 (toString16 x)) [r; g; b]))
  else String "#" (String.concat ""
                     (map (fun x => padStart2 (toString16 x)) [r; g; b; a])).

(** Reading a colour string back: the value of a hexadecimal digit and
    of the pairs of digits after the number sign. *)
Definition hexValue (c : ascii) : option Z :=
  let n := Z.of_nat (nat_of_ascii c) in
  if ((48 <=? n) && (n <=? 57))%Z then Some (n - 48)%Z
  else if ((97 <=? n) && (n <=? 102))%Z then Some (n - 87)%Z
  else None.

Fixpoint hexPairs (s : string) : option (list Z) :=
  match s with
  | EmptyString => Some []
  | String c1 (String c2 rest) =>
      match hexValue c1, hexValue c2, hexPairs rest with
      | Some h, Some l, Some bytes => Some ((16 * h + l)%Z :: bytes)
      | _, _, _ => None
      end
  | String _ EmptyString => None
  end.

Definition hexToChannels (s : string) : option (list Z) :=
  match s with
  | String "#" digits => hexPairs digits
  | _ => None
  end.

Definition unit_range (c : Q) : Prop := (0 <= c)%Q /\ (c <= 1)%Q.

Definition in_gamut (color : RGBA) : Prop :=
  unit_range (color_r color) /\ unit_range (color_g color)
  /\ unit_range (color_b color)
  /\ match color_a color with Some alpha => unit_range alpha | None => True end.

Definition two_digits (x : Z) : bool :=
  match padStart2 (toString16 x) with
  | String c1 (String c2 EmptyString) =>
      match hexValue c1, hexValue c2 with
      | Some h, Some l => (16 * h + l =? x)%Z
      | _, _ => false
      end
  | _ => false
  end.

(** ** [filterFigmaNode] (code.js:478) *)

(** The nodes of a [JSON_REST_V1] export, with the properties
    [filterFigmaNode] reads.  [None] is an absent property; the other
    own properties of paints, stops and styles are kept by name. *)
Record ColorStop : Type :=
  mkStop { stop_color : option RGBA;
           stop_boundVariables : option string;
           stop_others : list (string * string) }.

Record Paint : Type :=
  mkPaint { paint_color : option RGBA;
            paint_gradientStops : option (list ColorStop);
            paint_boundVariables : option string;
            paint_imageRef : option string;
            paint_others : list (string * string) }.

Record TypeStyle : Type :=
  mkTypeStyle { ts_fontFamily : option string;
                ts_fontStyle : option string;
                ts_fontWeight : option Q;
                ts_fontSize : option Q;
                ts_textAlignHorizontal : option string;
                ts_letterSpacing : option Q;
                ts_lineHeightPx : option Q;
                ts_others : list (string * string) }.

Record Rectangle : Type :=
  mkRectangle { rect_x : Q; rect_y : Q; rect_width : Q; rect_height : Q }.

#[warnings="-register-all"]
Inductive RestNode : Type :=
  mkRest { rest_id : string;
           rest_name : string;
           rest_type : string;
           rest_visible : option bool;
           rest_fills : option (list Paint);
           rest_strokes : option (list Paint);
           rest_cornerRadius : option Q;
           rest_absoluteBoundingBox : option Rectangle;
           rest_characters : option string;
           rest_style : option TypeStyle;
           rest_children : option (list RestNode) }.

(** What [filterFigmaNode] returns. *)
Record ProcessedStop : Type :=
  mkProcessedStop { pstop_color : option string;
                    pstop_others : list (string * string) }.

Record ProcessedFill : Type :=
  mkProcessedFill { pfill_color : option string;
                    pfill_gradientStops : option (list ProcessedStop);
                    pfill_others : list (string * string) }.

(** A stroke keeps its [imageRef] and its gradient stops as they are. *)
Record ProcessedStroke : Type :=
  mkProcessedStroke { pstroke_color : option string;
                      pstroke_gradientStops : option (list ColorStop);
                      pstroke_imageRef : option string;
                      pstroke_others : list (string * string) }.

Record FilteredStyle : Type :=
  mkFilteredStyle { fontFamily : option string;
                    fontStyle : option string;
                    fontWeight : option Q;
                    fontSize : option Q;
                    textAlignHorizontal : option string;
                    letterSpacing : option Q;
                    lineHeightPx : option Q }.

#[warnings="-register-all"]
Inductive FilteredNode : Type :=
  mkFiltered { f_id : string;
               f_name : string;
               f_type : string;
               f_visible : option bool;
               f_fills : option (list ProcessedFill);
               f_strokes : option (list ProcessedStroke);
               f_cornerRadius : option Q;
               f_absoluteBoundingBox : option Rectangle;
               f_characters : option string;
               f_style : option FilteredStyle;
               f_children : option (list FilteredNode) }.

Definition processStop (stop : ColorStop) : ProcessedStop :=
  mkProcessedStop (option_map rgbaToHex (stop_color stop)) (stop_others stop).

Definition processFill (fill : Paint) : ProcessedFill :=
  mkProcessedFill (option_map rgbaToHex (paint_color fill))
                  (option_map (map processStop) (paint_gradientStops fill))
                  (paint_others fill).

Definition processStroke (stroke : Paint) : ProcessedStroke :=
  mkProcessedStroke (option_map rgbaToHex (paint_color stroke))
                    (paint_gradientStops stroke)
                    (paint_imageRef stroke)
                    (paint_others stroke).

(** [node.fills && node.fills.length > 0]: the paints to process. *)
Definition nonEmpty {A : Type} (l : option (list A)) : option (list A) :=
  match l with
  | Some (x :: l') => Some (x :: l')
  | _ => None
  end.

(** [if (node.characters)]: the empty string is falsy. *)
Definition truthy_string (s : option string) : option string :=
  match s with
  | Some s' => if String.eqb s' "" then None else Some s'
  | None => None
  end.

Definition filterStyle (s : TypeStyle) : FilteredStyle :=
  mkFilteredStyle (ts_fontFamily s) (ts_fontStyle s) (ts_fontWeight s)
                  (ts_fontSize s) (ts_textAlignHorizontal s)
                  (ts_letterSpacing s) (ts_lineHeightPx s).

(** [.filter((child) => child !== null)]. *)
Fixpoint nonNull {A : Type} (l : list (option A)) : list A :=
  match l with
  | [] => []
  | Some a :: l' => a :: nonNull l'
  | None :: l' => nonNull l'
  end.

(** [filterFigmaNode] (code.js:478); [None] is [null]. *)
Fixpoint filterFigmaNode (node : RestNode) : option FilteredNode :=
  if String.eqb (rest_type node) "VECTOR" then None
  else
    Some (mkFiltered
            (rest_id node) (rest_name node) (rest_type node)
            (rest_visible node)
            (option_map (map processFill) (nonEmpty (rest_fills node)))
            (option_map (map processStroke) (nonEmpty (rest_strokes node)))
            (rest_cornerRadius node)
            (rest_absoluteBoundingBox node)
            (truthy_string (rest_characters node))
            (option_map filterStyle (rest_style node))
            (match rest_children node with
             | Some children => Some (nonNull (map filterFigmaNode children))
             | None => None
             end)).

Definition rest_children_of (node : RestNode) : list RestNode :=
  match rest_children node with Some l => l | None => [] end.

Definition f_children_of (node : FilteredNode) : list FilteredNode :=
  match f_children node with Some l => l | None => [] end.

(** The nodes of an exported tree that are not inside the subtree of a
    VECTOR node, and the nodes of a filtered tree, both in depth-first
    pre-order. *)
Fixpoint outside_vectors (node : RestNode) : list RestNode :=
  if String.eqb (rest_type node) "VECTOR" then []
  else node :: match rest_children node with
               | Some children => flat_map outside_vectors children
               | None => []
               end.

Fixpoint filtered_nodes (node : FilteredNode) : list FilteredNode :=
  node :: match f_children node with
          | Some children => flat_map filtered_nodes children
          | None => []
          end.

(** A filtered node carries what [filterFigmaNode] copies from an
    exported node. *)
Definition filtered_from (f : FilteredNode) (node : RestNode) : Prop :=
  f_id f = rest_id node /\ f_name f = rest_name node
  /\ f_type f = rest_type node /\ f_visible f = rest_visible node
  /\ f_fills f = option_map (map processFill) (nonEmpty (rest_fills node))
  /\ f_strokes f
     = option_map (map processStroke) (nonEmpty (rest_strokes node))
  /\ f_cornerRadius f = rest_cornerRadius node
  /\ f_absoluteBoundingBox f = rest_absoluteBoundingBox node
  /\ f_characters f = truthy_string (rest_characters node)
  /\ f_style f = option_map filterStyle (rest_style node)
  /\ (f_children f = None <-> rest_children node = None).

Definition filtered_tree_from (node : RestNode) : Prop :=
  match filterFigmaNode node with
  | None => outside_vectors node = []
  | Some f => Forall2 filtered_from (filtered_nodes f) (outside_vectors node)
  end.

(** A page of three nodes, the second a VECTOR with a child of its own. *)
Definition leafNode (id type : string) (children : option (list RestNode))
  : RestNode :=
  mkRest id id type None None None None None None None children.

Definition exportedPage : RestNode :=
  leafNode "0:1" "FRAME"
           (Some [leafNode "1:1" "TEXT" None;
                  leafNode "1:2" "VECTOR" (Some [leafNode "1:3" "TEXT" None]);
                  leafNode "1:4" "RECTANGLE" None])%string.

(** ** [getNodeInfo] and [getNodesInfo] (code.js:577, 591) *)

Record NodeInfo : Type :=
  mkNodeInfo { info_nodeId : string; info_document : option FilteredNode }.

Section NodeExport.

Variable Host : Type.
Variable Value : Type.
Variable getNodeByIdAsync : option string -> Host -> string + option SceneNode.

(** [(await node.exportAsync({format: "JSON_REST_V1"})).document]. *)
Variable exportAsync : SceneNode -> Host -> string + RestNode.

Notation "x <- c ;; k" := (bind Host Value c (fun x => k))
  (at level 61, c at next level, right associativity).

(** [getNodeInfo] (code.js:577). *)
Definition getNodeInfo (nodeId : string)
  : M Host Value (option FilteredNode) :=
  node <- call Host Value (getNodeByIdAsync (Some nodeId)) ;;
  match node with
  | None =>
      throw Host Value (String.append "Node not found with ID: " nodeId)
  | Some node =>
      document <- call Host Value (exportAsync node) ;;
      ret Host Value (filterFigmaNode document)
  end.

(** [getNodesInfo] (code.js:591).  The lookups, and then the exports,
    are started together and awaited by [Promise.all]; they only read
    the document and are taken here in the order of the array. *)
Definition getNodesInfo (nodeIds : list string)
  : M Host Value (list NodeInfo) :=
  try_catch Host Value
    (nodes <- mapM Host Value
                (fun id => call Host Value (getNodeByIdAsync (Some id)))
                nodeIds ;;
     let validNodes := nonNull nodes in
     mapM Host Value
          (fun node =>
             document <- call Host Value (exportAsync node) ;;
             ret Host Value
                 (mkNodeInfo (node_id node) (filterFigmaNode document)))
          validNodes)
    (fun message =>
       throw Host Value (String.append "Error getting nodes info: " message)).

End NodeExport.

(** The export of a node of the sample pages: a leaf with the identifier
    and the type of the node. *)
Definition doc_exportAsync (node : SceneNode) (doc : Document)
  : string + RestNode :=
  inr (leafNode (node_id node) (node_type node) None).

(** ** [setAnnotation] and [setMultipleAnnotations] (code.js:2275, 2472) *)

(** The [params] of [setAnnotation] and the entries of the [annotations]
    array; a missing property is [None]. *)
Record AnnotationParams : Type :=
  mkAnnotationParams { a_nodeId : option string;
                       a_labelMarkdown : option string;
                       a_categoryId : option string;
                       a_properties : option (list string) }.

(** The annotation object assigned to the node. *)
Record Annotation : Type :=
  mkAnnotation { labelMarkdown : string;
                 categoryId : option string;
                 properties : option (list string) }.

(** [newAnnotation] (code.js:2323): the category is added when it is
    truthy and the properties when they are a non-empty array. *)
Definition newAnnotation (label : string) (params : AnnotationParams)
  : Annotation :=
  mkAnnotation label
               (if falsy (a_categoryId params) then None
                else a_categoryId params)
               (match a_properties params with
                | Some (p :: ps) => Some (p :: ps)
                | _ => None
                end).

(** What [setAnnotation] returns. *)
Record AnnotationResult : Type :=
  mkAnnotationResult { ar_success : bool;
                       ar_nodeId : option string;
                       ar_name : option string;
                       ar_annotations : option (list Annotation);
                       ar_error : option string }.

Definition annotationFailed (err : string) : AnnotationResult :=
  mkAnnotationResult false None None None (Some err).

(** The entries of [results] in [setMultipleAnnotations]. *)
Record AnnotationItem : Type :=
  mkAnnotationItem { ai_success : bool;
                     ai_nodeId : option string;
                     ai_error : option string }.

(** The [params] of [setMultipleAnnotations]; a missing property is
    [None], and so is an entry of [annotations] that is [null] or
    [undefined]. *)
Record AnnotationsParams : Type :=
  mkAnnotationsParams
    { as_nodeId : option string;
      as_annotations : option (list (option AnnotationParams)) }.

(** What [setMultipleAnnotations] returns: the refusal of an empty
    request, or the summary. *)
Inductive AnnotationsResult : Type :=
  | AnnotationsRefused (err : string)
  | AnnotationsSummary (ok : bool)
                       (annotationsApplied annotationsFailed
                          totalAnnotations : nat)
                       (items : list AnnotationItem).

Section Annotations.

Variable Host : Type.
Variable Value : Type.
Variable getNodeByIdAsync : option string -> Host -> string + option SceneNode.

(** ["annotations" in node], and the reading and the assignment of
    [node.annotations]. *)
Variable hasAnnotations : SceneNode -> bool.
Variable readAnnotations : SceneNode -> Host -> string + list Annotation.
Variable writeAnnotations :
  SceneNode -> list Annotation -> Host -> string + Host.

(** The messages of the [TypeError]s that the engine raises when a
    property of [null] or [undefined] is read, and when [null] or
    [undefined] is destructured. *)
Variable nullReadMessage : string.
Variable destructureMessage : string.

Notation "x <- c ;; k" := (bind Host Value c (fun x => k))
  (at level 61, c at next level, right associativity).
Notation "c ;;; k" := (bind Host Value c (fun _ => k))
  (at level 61, right associativity).

(** [setAnnotation] (code.js:2275). *)
Definition setAnnotation (params : AnnotationParams)
  : M Host Value AnnotationResult :=
  try_catch Host Value
    (if falsy (a_nodeId params)
     then ret Host Value (annotationFailed "Missing nodeId")
     else if falsy (a_labelMarkdown params)
     then ret Host Value (annotationFailed "Missing labelMarkdown")
     else
       node <- call Host Value (getNodeByIdAsync (a_nodeId params)) ;;
       match node with
       | None =>
           ret Host Value
               (annotationFailed
                  (String.append "Node not found: "
                                 (or_else (a_nodeId params) "")))
       | Some node =>
           if negb (hasAnnotations node)
           then ret Host Value
                    (annotationFailed
                       (String.append "Node type "
                          (String.append (node_type node)
                                         " does not support annotations")))
           else
             update Host Value
                    (writeAnnotations node
                       [newAnnotation (or_else (a_labelMarkdown params) "")
                                      params]) ;;;
             annotations <- call Host Value (readAnnotations node) ;;
             ret Host Value
                 (mkAnnotationResult true (Some (node_id node))
                                     (Some (node_name node))
                                     (Some annotations) None)
       end)
    (fun message => ret Host Value (annotationFailed message)).

(** One round of the loop of [setMultipleAnnotations] (code.js:2492).
    On an entry that is [null] the reading of [annotation.nodeId] throws
    in the [try] (code.js:2501), and again in the [catch], which builds
    its result from [annotation.nodeId] (code.js:2533). *)
Definition annotateItem (entry : option AnnotationParams)
  : M Host Value AnnotationItem :=
  match entry with
  | None =>
      try_catch Host Value (throw Host Value nullReadMessage)
                (fun message => throw Host Value nullReadMessage)
  | Some annotation =>
      try_catch Host Value
        (result <- setAnnotation
                     (mkAnnotationParams (a_nodeId annotation)
                                         (a_labelMarkdown annotation)
                                         (a_categoryId annotation)
                                         (a_properties annotation)) ;;
         if ar_success result
         then ret Host Value
                  (mkAnnotationItem true (a_nodeId annotation) None)
         else ret Host Value
                  (mkAnnotationItem false (a_nodeId annotation)
                                    (ar_error result)))
        (fun message =>
           ret Host Value
               (mkAnnotationItem false (a_nodeId annotation)
                                 (Some message)))
  end.

Definition countItem (counts : nat * nat) (item : AnnotationItem)
  : nat * nat :=
  if ai_success item then (S (fst counts), snd counts)
  else (fst counts, S (snd counts)).

(** [setMultipleAnnotations] (code.js:2472).  [params] is [None] when
    the command came without parameters: the destructuring of code.js:2476
    throws. *)
Definition setMultipleAnnotations (params : option AnnotationsParams)
  : M Host Value AnnotationsResult :=
  match params with
  | None => throw Host Value destructureMessage
  | Some params =>
      match as_annotations params with
      | None | Some [] =>
          ret Host Value (AnnotationsRefused "No annotations provided")
      | Some annotations =>
          items <- mapM Host Value annotateItem annotations ;;
          let '(successCount, failureCount) :=
            fold_left countItem items (0, 0) in
          ret Host Value
              (AnnotationsSummary (0 <? successCount) successCount
                                  failureCount (length annotations) items)
      end
  end.

End Annotations.

(** A store of annotations by node identifier over the six rectangles of
    [sixNodes]: an assignment puts a new entry in front, a reading takes
    the first entry of the node. *)
Definition AnnotationStore : Type := list (string * list Annotation).

Definition store_getNodeByIdAsync (id : option string)
           (st : AnnotationStore) : string + option SceneNode :=
  doc_getNodeByIdAsync id sixNodes.

Definition store_readAnnotations (node : SceneNode) (st : AnnotationStore)
  : string + list Annotation :=
  inr (match find (fun e => String.eqb (fst e) (node_id node)) st with
       | Some e => snd e
       | None => []
       end).

Definition store_writeAnnotations (node : SceneNode) (l : list Annotation)
           (st : AnnotationStore) : string + AnnotationStore :=
  inr ((node_id node, l) :: st).

Definition store_setAnnotation :=
  setAnnotation AnnotationStore unit store_getNodeByIdAsync (fun _ => true)
                store_readAnnotations store_writeAnnotations.

Definition reviewed : Annotation := mkAnnotation "Reviewed" None None.

Definition annotatedStore : World AnnotationStore unit :=
  mkWorld [("1:1"%string, [reviewed])] [].

Definition titleParams : AnnotationParams :=
  mkAnnotationParams (Some "1:1"%string) (Some "Title"%string) None None.

Definition store_setMultipleAnnotations :=
  setMultipleAnnotations AnnotationStore unit store_getNodeByIdAsync
                         (fun _ => true) store_readAnnotations
                         store_writeAnnotations doc_nullReadMessage
                         "Cannot destructure 'params' as it is undefined.".

(** An annotation of a node of the page and one of a node that is not
    there. *)
Definition twoAnnotations : list AnnotationParams :=
  [titleParams;
   mkAnnotationParams (Some "9:9"%string) (Some "Note"%string) None None].

(** ** The auto-layout setters (code.js:2840, 2906) *)

(** A node as the auto-layout setters read and write it.  [ln_parent] is
    [None] for a node without parent and otherwise holds the parent's
    [layoutMode], itself [None] when the parent has no such property. *)
Record LayoutNode : Type :=
  mkLayoutNode { ln_id : string;
                 ln_name : string;
                 ln_type : string;
                 ln_layoutMode : string;
                 ln_primaryAxisAlignItems : string;
                 ln_counterAxisAlignItems : string;
                 ln_layoutSizingHorizontal : string;
                 ln_layoutSizingVertical : string;
                 ln_parent : option (option string) }.

(** [node.type !== "FRAME" && node.type !== "COMPONENT" &&
    node.type !== "COMPONENT_SET" && node.type !== "INSTANCE"]. *)
Definition noAutoLayout (type : string) : bool :=
  negb (String.eqb type "FRAME") && negb (String.eqb type "COMPONENT")
  && negb (String.eqb type "COMPONENT_SET")
  && negb (String.eqb type "INSTANCE").

Definition with_primaryAxisAlignItems (node : LayoutNode) (v : string)
  : LayoutNode :=
  mkLayoutNode (ln_id node) (ln_name node) (ln_type node)
               (ln_layoutMode node) v (ln_counterAxisAlignItems node)
               (ln_layoutSizingHorizontal node)
               (ln_layoutSizingVertical node) (ln_parent node).

Definition with_counterAxisAlignItems (node : LayoutNode) (v : string)
  : LayoutNode :=
  mkLayoutNode (ln_id node) (ln_name node) (ln_type node)
               (ln_layoutMode node) (ln_primaryAxisAlignItems node) v
               (ln_layoutSizingHorizontal node)
               (ln_layoutSizingVertical node) (ln_parent node).

Definition with_layoutSizingHorizontal (node : LayoutNode) (v : string)
  : LayoutNode :=
  mkLayoutNode (ln_id node) (ln_name node) (ln_type node)
               (ln_layoutMode node) (ln_primaryAxisAlignItems node)
               (ln_counterAxisAlignItems node) v
               (ln_layoutSizingVertical node) (ln_parent node).

Definition with_layoutSizingVertical (node : LayoutNode) (v : string)
  : LayoutNode :=
  mkLayoutNode (ln_id node) (ln_name node) (ln_type node)
               (ln_layoutMode node) (ln_primaryAxisAlignItems node)
               (ln_counterAxisAlignItems node)
               (ln_layoutSizingHorizontal node) v (ln_parent node).

(** What [setAxisAlign] returns, read from the node after the
    assignments. *)
Record AxisAlignResult : Type :=
  mkAxisAlignResult { aa_id : string;
                      aa_name : string;
                      aa_primaryAxisAlignItems : string;
                      aa_counterAxisAlignItems : string;
                      aa_layoutMode : string }.

(** The validation and assignment of [primaryAxisAlignItems]
    (code.js:2866): the error thrown, or the node after the
    assignment. *)
Definition assignPrimaryAxis (node : LayoutNode) (value : option string)
  : string + LayoutNode :=
  match value with
  | None => inr node
  | Some v =>
      if negb (includes ["MIN"; "MAX"; "CENTER"; "SPACE_BETWEEN"]%string v)
      then inl ("Invalid primaryAxisAlignItems value. Must be one of: "
                ++ "MIN, MAX, CENTER, SPACE_BETWEEN")%string
      else inr (with_primaryAxisAlignItems node v)
  end.

(** The validation and assignment of [counterAxisAlignItems]
    (code.js:2879). *)
Definition assignCounterAxis (node : LayoutNode) (value : option string)
  : string + LayoutNode :=
  match value with
  | None => inr node
  | Some v =>
      if negb (includes ["MIN"; "MAX"; "CENTER"; "BASELINE"]%string v)
      then inl ("Invalid counterAxisAlignItems value. Must be one of: "
                ++ "MIN, MAX, CENTER, BASELINE")%string
      else if String.eqb v "BASELINE"
              && negb (String.eqb (ln_layoutMode node) "HORIZONTAL")
      then inl ("BASELINE alignment is only valid for horizontal "
                ++ "auto-layout frames")%string
      else inr (with_counterAxisAlignItems node v)
  end.

(** [setAxisAlign] (code.js:2840) on the node that
    [figma.getNodeByIdAsync(nodeId)] resolves to, [None] when there is
    none: the error thrown or the value returned, and the node as the
    call leaves it. *)
Definition setAxisAlign (nodeId : string)
           (primaryAxisAlignItems counterAxisAlignItems : option string)
           (found : option LayoutNode)
  : (string + AxisAlignResult) * option LayoutNode :=
  match found with
  | None => (inl ("Node with ID " ++ nodeId ++ " not found")%string, None)
  | Some node =>
      if noAutoLayout (ln_type node)
      then (inl ("Node type " ++ ln_type node
                 ++ " does not support axis alignment")%string, Some node)
      else if String.eqb (ln_layoutMode node) "NONE"
      then (inl ("Axis alignment can only be set on auto-layout frames "
                 ++ "(layoutMode must not be NONE)")%string, Some node)
      else
        match assignPrimaryAxis node primaryAxisAlignItems with
        | inl e => (inl e, Some node)
        | inr node1 =>
            match assignCounterAxis node1 counterAxisAlignItems with
            | inl e => (inl e, Some node1)
            | inr node2 =>
                (inr (mkAxisAlignResult (ln_id node2) (ln_name node2)
                        (ln_primaryAxisAlignItems node2)
                        (ln_counterAxisAlignItems node2)
                        (ln_layoutMode node2)),
                 Some node2)
            end
        end
  end.

Record LayoutSizingResult : Type :=
  mkLayoutSizingResult { ls_id : string;
                         ls_name : string;
                         ls_layoutSizingHorizontal : string;
                         ls_layoutSizingVertical : string;
                         ls_layoutMode : string }.

(** The three checks made on a sizing value (code.js:2933, 2959); [axis]
    is the name of the parameter. *)
Definition checkSizing (axis : string) (node : LayoutNode) (v : string)
  : option string :=
  if negb (includes ["FIXED"; "HUG"; "FILL"]%string v)
  then Some ("Invalid " ++ axis
             ++ " value. Must be one of: FIXED, HUG, FILL")%string
  else if String.eqb v "HUG"
          && negb (includes ["FRAME"; "TEXT"]%string (ln_type node))
  then Some ("HUG sizing is only valid on auto-layout frames "
             ++ "and text nodes")%string
  else if String.eqb v "FILL"
          && match ln_parent node with
             | None => true
             | Some parentMode =>
                 match parentMode with
                 | Some mode => String.eqb mode "NONE"
                 | None => false
                 end
             end
  then Some "FILL sizing is only valid on auto-layout children"%string
  else None.

(** [setLayoutSizing] (code.js:2906). *)
Definition setLayoutSizing (nodeId : string)
           (layoutSizingHorizontal layoutSizingVertical : option string)
           (found : option LayoutNode)
  : (string + LayoutSizingResult) * option LayoutNode :=
  match found with
  | None => (inl ("Node with ID " ++ nodeId ++ " not found")%string, None)
  | Some node =>
      if noAutoLayout (ln_type node)
      then (inl ("Node type " ++ ln_type node
                 ++ " does not support layout sizing")%string, Some node)
      else if String.eqb (ln_layoutMode node) "NONE"
      then (inl ("Layout sizing can only be set on auto-layout frames "
                 ++ "(layoutMode must not be NONE)")%string, Some node)
      else
        match (match layoutSizingHorizontal with
               | None => inr node
               | Some v =>
                   match checkSizing "layoutSizingHorizontal" node v with
                   | Some e => inl e
                   | None => inr (with_layoutSizingHorizontal node v)
                   end
               end) with
        | inl e => (inl e, Some node)
        | inr node1 =>
            match (match layoutSizingVertical with
                   | None => inr node1
                   | Some v =>
                       match checkSizing "layoutSizingVertical" node1 v with
                       | Some e => inl e
                       | None => inr (with_layoutSizingVertical node1 v)
                       end
                   end) with
            | inl e => (inl e, Some node1)
            | inr node2 =>
                (inr (mkLayoutSizingResult (ln_id node2) (ln_name node2)
                        (ln_layoutSizingHorizontal node2)
                        (ln_layoutSizingVertical node2)
                        (ln_layoutMode node2)),
                 Some node2)
            end
        end
  end.

Definition toolbar : LayoutNode :=
  mkLayoutNode "2:1" "Toolbar" "FRAME" "VERTICAL" "MIN" "MIN" "FIXED" "FIXED"
               (Some None).

(** *** The strict strategy (code.js:1313) *)

(** The inner [while (i < node.characters.length)] of
    [setCharactersWithStrictMatchFont]: [i] after the loop.  [charFonts]
    lists the font of every character; after [i++] the loop reads
    [node.getRangeFontName(i - 1, i)], the font of the character at the
    index [i] had before the increment. *)
Fixpoint strict_while (fuel : nat) (charFonts : list FontName)
         (startCharFontVal : string) (i : nat) : nat :=
  match fuel with
  | 0 => i
  | S fuel' =>
      if i <? length charFonts then
        match nth_error charFonts i with
        | Some charFont =>
            if negb (String.eqb startCharFontVal (fontKey charFont))
            then S i
            else strict_while fuel' charFonts startCharFontVal (S i)
        | None => S i
        end
      else i
  end.

(** The outer [for (let i = 1; i < node.characters.length; i++)]: the
    entries of [fontHashTree] in insertion order, the key
    [`${startIdx}_${i}`] kept as the pair of its numbers.  [None]: the
    fuel ran out before the loop ended. *)
Fixpoint strict_for (fuel : nat) (charFonts : list FontName) (i : nat)
         (fontHashTree : list (nat * nat * string))
  : option (list (nat * nat * string)) :=
  if i <? length charFonts then
    match fuel with
    | 0 => None
    | S fuel' =>
        let startIdx := i - 1 in
        match nth_error charFonts startIdx with
        | Some startCharFont =>
            let startCharFontVal := fontKey startCharFont in
            let i1 := strict_while (length charFonts) charFonts
                                   startCharFontVal i in
            strict_for fuel' charFonts (S i1)
                       (fontHashTree ++ [(startIdx, i1, startCharFontVal)])
        | None => None
        end
    end
  else Some fontHashTree.

(** The ranges [setCharactersWithStrictMatchFont] records on the old
    text. *)
Definition strictRanges (charFonts : list FontName)
  : option (list (nat * nat * string)) :=
  strict_for (length charFonts) charFonts 1 [].

(** The key of the font of the character at [k]. *)
Definition keyAt (charFonts : list FontName) (k : nat) : option string :=
  option_map fontKey (nth_error charFonts k).

(** A recorded range [(s, e, val)] on a text of [n] characters: it holds
    at least two characters, [val] is the key of the character at [s] and
    of every character up to [e - 2], and when the range ends before the
    text does, its last character, at [e - 1], has another font. *)
Definition strict_range (charFonts : list FontName)
           (range : nat * nat * string) : Prop :=
  let '(s, e, val) := range in
  s + 2 <= e <= length charFonts
  /\ (forall k, s <= k < e - 1 -> keyAt charFonts k = Some val)
  /\ (e < length charFonts -> keyAt charFonts (e - 1) <> Some val).

(** The ranges follow one another: each starts where the one before it
    ended; [chain_end from ranges] is the end of the last one. *)
Fixpoint chain_end (from : nat) (ranges : list (nat * nat * string))
  : option nat :=
  match ranges with
  | [] => Some from
  | (s, e, _) :: rest => if s =? from then chain_end e rest else None
  end.

(** ** [exportPhaserMap] (code.js:3317) *)

(** The [params] of [exportPhaserMap]; a missing property is [None]. *)
Record PhaserParams : Type :=
  mkPhaserParams { tileWidth : option Z;
                   tileHeight : option Z;
                   tilesetName : option string;
                   mapName : option string }.

(** [!n] on an optional whole number: missing or zero. *)
Definition falsy_number (n : option Z) : bool :=
  match n with
  | None => true
  | Some v => (v =? 0)%Z
  end.

(** The values [0, 1, ..., n - 1] a counting loop runs through. *)
Definition upto (n : Z) : list Z := map Z.of_nat (seq 0 (Z.to_nat n)).

(** The two loops that fill [layers[0].data] (code.js:3390). *)
Definition tileIndices (rows cols : Z) : list Z :=
  flat_map (fun y => map (fun x => (y * cols + x + 1)%Z) (upto cols))
           (upto rows).

(** The part of [tilemapData] that depends on the call. *)
Record PhaserMap : Type :=
  mkPhaserMap { pm_width : Z;
                pm_height : Z;
                pm_tilewidth : Z;
                pm_tileheight : Z;
                pm_tileset : string;
                pm_image : string;
                pm_imagewidth : Z;
                pm_imageheight : Z;
                pm_tilecount : Z;
                pm_columns : Z;
                pm_data : list Z }.

(** [exportPhaserMap] (code.js:3317) up to the point where the map data
    is complete: the error thrown or [tilemapData].  The frame that
    displays the data is drawn after that.  Sizes are whole numbers, for
    which [Math.floor] of the quotient is the integer quotient. *)
Definition exportPhaserMap (params : PhaserParams)
           (selection : list SelectedNode) : string + PhaserMap :=
  if falsy_number (tileWidth params) || falsy_number (tileHeight params)
     || falsy (tilesetName params) || falsy (mapName params)
  then inl "Missing required parameters"%string
  else
    match selection with
    | [] => inl "No selection found"%string
    | frame :: _ =>
        if negb (String.eqb (sel_type frame) "FRAME")
        then inl "Selected node must be a frame"%string
        else
          let tw :=
            match tileWidth params with Some v => v | None => 0%Z end in
          let th :=
            match tileHeight params with Some v => v | None => 0%Z end in
          let name := or_else (tilesetName params) "" in
          let cols := (sel_width frame / tw)%Z in
          let rows := (sel_height frame / th)%Z in
          inr (mkPhaserMap cols rows tw th name
                           (String.append name ".png")
                           (sel_width frame) (sel_height frame)
                           (cols * rows)%Z cols (tileIndices rows cols))
    end.

(** ** [exportTileMap] (code.js:4213) *)

(** A child of the selected frame; [mc_bounds] is
    [child.absoluteBoundingBox], [None] when that is [null]. *)
Record MapChild : Type :=
  mkMapChild { mc_name : string;
               mc_type : string;
               mc_bounds : option Rectangle;
               mc_rotation : option Q;
               mc_visible : bool }.

Record MapFrame : Type :=
  mkMapFrame { mf_name : string;
               mf_type : string;
               mf_width : Z;
               mf_height : Z;
               mf_bounds : option Rectangle;
               mf_children : list MapChild }.

(** The [params] of [exportTileMap]; a missing property is [None]. *)
Record TileMapParams : Type :=
  mkTileMapParams { tp_gridSize : option Z }.

Record MapObject : Type :=
  mkMapObject { obj_id : nat;
                obj_name : string;
                obj_type : string;
                obj_x : Z;
                obj_y : Z;
                obj_width : Z;
                obj_height : Z;
                obj_rotation : Q;
                obj_visible : bool }.

Record TileMap : Type :=
  mkTileMap { tm_height : Z;
              tm_width : Z;
              tm_tilewidth : Z;
              tm_tileheight : Z;
              tm_nextobjectid : nat;
              tm_data : list Z;
              tm_objects : list MapObject;
              tm_imagewidth : Z;
              tm_imageheight : Z;
              tm_columns : Z;
              tm_tilecount : Z }.

(** [s.toLowerCase()] on the letters A to Z. *)
Definition lower (c : ascii) : ascii :=
  let n := nat_of_ascii c in
  if (65 <=? n) && (n <=? 90) then ascii_of_nat (n + 32) else c.

Fixpoint toLowerCase (s : string) : string :=
  match s with
  | EmptyString => EmptyString
  | String c s' => String (lower c) (toLowerCase s')
  end.

(** The objects of the collision layer: [children.map((child, index) =>
    ...)], [index] being the position of the head of [children].  The
    callback reads [bounds.x] and [selectedFrame.absoluteBoundingBox.x]
    unguarded: [None] is the [TypeError] of the first child for which
    one of the two boxes is [null]. *)
Fixpoint mapObjects (frame : option Rectangle) (index : nat)
         (children : list MapChild) : option (list MapObject) :=
  match children with
  | [] => Some []
  | child :: rest =>
      match mc_bounds child, frame with
      | Some bounds, Some frameBounds =>
          match mapObjects frame (S index) rest with
          | Some objects =>
              Some
                (mkMapObject
                   (index + 1)
                   (if String.eqb (mc_name child) ""
                    then String.append "Object "
                           (NilZero.string_of_uint
                              (Nat.to_uint (index + 1)))
                    else mc_name child)
                   (toLowerCase (mc_type child))
                   (Math_round
                      (binary64 (rect_x bounds - rect_x frameBounds)))
                   (Math_round
                      (binary64 (rect_y bounds - rect_y frameBounds)))
                   (Math_round (rect_width bounds))
                   (Math_round (rect_height bounds))
                   (match mc_rotation child with
                    | Some r => if Qeq_bool r 0 then 0%Q else r
                    | None => 0%Q
                    end)
                   (mc_visible child)
                 :: objects)
          | None => None
          end
      | _, _ => None
      end
  end.

(** What a call of [exportTileMap] comes to: the object with
    [success: false] it returns, the [RangeError] of [new Array], a
    [TypeError] for a property read of [undefined] or [null], or
    [mapData]. *)
Inductive TileMapOutcome : Type :=
  | TileMapRefused (err : string)
  | TileMapRangeError
  | TileMapTypeError
  | TileMapExported (mapData : TileMap).

(** The array lengths [new Array(n)] accepts are those below [2^32]. *)
Definition MAX_ARRAY_LENGTH : Z := 4294967296.

(** [exportTileMap] (code.js:4213).  [params] is [None] when the command
    came without parameters; sizes are whole numbers, the bounding boxes
    any numbers; [new Array(n)] throws for a negative [n] and for [n] at
    or above [2^32]. *)
Definition exportTileMap (params : option TileMapParams)
           (selection : list MapFrame) : TileMapOutcome :=
  match selection with
  | [selectedFrame] =>
      if negb (String.eqb (mf_type selectedFrame) "FRAME")
      then TileMapRefused "Please select a single frame to export"
      else
        match params with
        | None => TileMapTypeError
        | Some params =>
            let gridSize := tp_gridSize params in
            let TILE_SIZE :=
              if falsy_number gridSize then 32%Z
              else match gridSize with Some v => v | None => 32%Z end in
            let WIDTH := Math_ceil_div (mf_width selectedFrame) TILE_SIZE in
            let HEIGHT :=
              Math_ceil_div (mf_height selectedFrame) TILE_SIZE in
            if ((WIDTH * HEIGHT <? 0)
                || (MAX_ARRAY_LENGTH <=? WIDTH * HEIGHT))%Z
            then TileMapRangeError
            else
              let groundLayerData :=
                repeat 0%Z (Z.to_nat (WIDTH * HEIGHT)) in
              match mapObjects (mf_bounds selectedFrame) 0
                               (mf_children selectedFrame) with
              | None => TileMapTypeError
              | Some objects =>
                  TileMapExported
                    (mkTileMap HEIGHT WIDTH TILE_SIZE TILE_SIZE
                               (length objects + 1) groundLayerData objects
                               (mf_width selectedFrame)
                               (mf_height selectedFrame)
                               WIDTH (WIDTH * HEIGHT)%Z)
              end
        end
  | _ => TileMapRefused "Please select a single frame to export"
  end.

(** Every bounding box that the objects are computed from is there. *)
Definition has_bounds (child : MapChild) : bool :=
  match mc_bounds child with
  | Some _ => true
  | None => false
  end.

Definition bounds_known (frame : MapFrame) : bool :=
  match mf_children frame with
  | [] => true
  | _ =>
      match mf_bounds frame with
      | Some _ => forallb has_bounds (mf_children frame)
      | None => false
      end
  end.

(** ** [frameUp] (code.js:4124) *)

(** [Math.min(m, x)] and [Math.max(m, x)] with [None] for the infinite
    start value. *)
Definition min_from (m : option Z) (x : Z) : option Z :=
  match m with
  | None => Some x
  | Some v => Some (Z.min v x)
  end.

Definition max_from (m : option Z) (x : Z) : option Z :=
  match m with
  | None => Some x
  | Some v => Some (Z.max v x)
  end.

(** [minX], [minY], [maxX] and [maxY] (code.js:4140). *)
Record BoundingBox : Type :=
  mkBoundingBox { minX : option Z;
                  minY : option Z;
                  maxX : option Z;
                  maxY : option Z }.

Definition extendBox (box : BoundingBox) (node : SelectedNode)
  : BoundingBox :=
  mkBoundingBox (min_from (minX box) (sel_x node))
                (min_from (minY box) (sel_y node))
                (max_from (maxX box) (sel_x node + sel_width node))
                (max_from (maxY box) (sel_y node + sel_height node)).

Definition boundingBox (selection : list SelectedNode) : BoundingBox :=
  fold_left extendBox selection (mkBoundingBox None None None None).

(** The second [selection.forEach] (code.js:4169): a node that is not a
    FRAME gets coordinates relative to the new frame. *)
Definition moveInto (frameX frameY : Z) (node : SelectedNode)
  : SelectedNode :=
  if negb (String.eqb (sel_type node) "FRAME")
  then mkSelected (sel_name node) (sel_type node) (sel_width node)
                  (sel_height node) (sel_x node - frameX)
                  (sel_y node - frameY)
  else node.

(** What [frameUp] assigns to the frame it creates: the position, the
    size passed to [frame.resize], the auto-layout properties assigned
    after that (code.js:4158), the name, and the nodes appended, each
    with the coordinates it was given before.  With the two sizing modes
    at [AUTO] the frame hugs its content: once the nodes are appended
    the host lays them out in a row and fits the frame to them, so the
    final size of the frame and the final coordinates of the nodes are
    the host's, not [nf_resize] and those of [nf_children]. *)
Record NewFrame : Type :=
  mkNewFrame { nf_name : string;
               nf_x : Z;
               nf_y : Z;
               nf_resize : Z * Z;
               nf_layoutMode : string;
               nf_primaryAxisSizingMode : string;
               nf_counterAxisSizingMode : string;
               nf_itemSpacing : Z;
               nf_padding : Z * Z * Z * Z;
               nf_children : list SelectedNode }.

(** What a call of [frameUp] comes to: the error of an empty selection,
    the error of [frame.resize], or the frame. *)
Inductive FrameUpOutcome : Type :=
  | NothingSelected (message : string)
  | ResizeFailed
  | FramedUp (frame : NewFrame).

(** [frameUp] (code.js:4124).  [frame.resize] throws for a width or a
    height under [0.01], that is, for whole numbers under [1].  The
    bounds are finite once a node has been visited, so the last branch is
    not taken. *)
Definition frameUp (selection : list SelectedNode) : FrameUpOutcome :=
  match selection with
  | [] => NothingSelected "Please select at least one item"
  | first :: _ =>
      let box := boundingBox selection in
      match minX box, minY box, maxX box, maxY box with
      | Some x0, Some y0, Some x1, Some y1 =>
          if ((x1 - x0 <? 1) || (y1 - y0 <? 1))%Z then ResizeFailed
          else
            FramedUp
              (mkNewFrame (sel_name first) x0 y0 (x1 - x0, y1 - y0)%Z
                          "HORIZONTAL" "AUTO" "AUTO" 0 (0, 0, 0, 0)%Z
                          (map (moveInto x0 y0) selection))
      | _, _, _, _ => NothingSelected "Please select at least one item"
      end
  end.

Definition tilesetFrame : SelectedNode :=
  mkSelected "Tiles" "FRAME" 40 32 0 0.

Definition phaserParams : PhaserParams :=
  mkPhaserParams (Some 16%Z) (Some 16%Z) (Some "tiles"%string)
                 (Some "level1"%string).

Definition levelFrame : MapFrame :=
  mkMapFrame "Level" "FRAME" 100 64 (Some (mkRectangle 0 0 100 64))
             [mkMapChild "" "RECTANGLE" (Some (mkRectangle 10 10 20 20))
                         None true;
              mkMapChild "Wall" "RECTANGLE" (Some (mkRectangle 40 0 8 64))
                         None true].

(** A frame of 65536 by 65537 units, for a grid of 1. *)
Definition hugeFrame : MapFrame :=
  mkMapFrame "World" "FRAME" 65536 65537 None [].

(** A node lies in the rectangle with the corner [(x0, y0)] and the
    opposite corner [(x1, y1)]. *)
Definition framed (x0 y0 x1 y1 : Z) (node : SelectedNode) : Prop :=
  (x0 <= sel_x node)%Z /\ (y0 <= sel_y node)%Z
  /\ (sel_x node + sel_width node <= x1)%Z
  /\ (sel_y node + sel_height node <= y1)%Z.

(** The rectangle is the bounding box of the selection: every node lies
    in it and each of its sides is touched by a node. *)
Definition tight_box (x0 y0 x1 y1 : Z) (selection : list SelectedNode)
  : Prop :=
  Forall (framed x0 y0 x1 y1) selection
  /\ (exists node, In node selection /\ sel_x node = x0)
  /\ (exists node, In node selection /\ sel_y node = y0)
  /\ (exists node, In node selection
                   /\ (sel_x node + sel_width node)%Z = x1)
  /\ (exists node, In node selection
                   /\ (sel_y node + sel_height node)%Z = y1).

Definition card : SelectedNode := mkSelected "Card" "RECTANGLE" 30 20 10 5.
Definition badge : SelectedNode := mkSelected "Badge" "FRAME" 8 8 36 0.

(** A horizontal line: its height is 0. *)
Definition rule : SelectedNode := mkSelected "Rule" "LINE" 30 0 10 5.

(** *** [buildLinearOrder] (code.js:1369) *)

(** What [node.getRangeFontName(start, end)] answers: [figma.mixed], a
    font, or an error for a range that is empty or leaves the text. *)
Inductive RangeFont : Type :=
  | RangeError
  | Mixed
  | Font (font : FontName).

Definition FontName_eqb (a b : FontName) : bool :=
  String.eqb (family a) (family b) && String.eqb (style a) (style b).

(** [charFonts] lists the font of every character of the node. *)
Definition getRangeFontName (charFonts : list FontName) (first last : nat)
  : RangeFont :=
  if (first <? last) && (last <=? length charFonts) then
    match firstn (last - first) (skipn first charFonts) with
    | [] => RangeError
    | font :: others =>
        if forallb (FontName_eqb font) others then Font font else Mixed
    end
  else RangeError.

(** The entries pushed to [fontTree]. *)
Record FontTreeEntry : Type :=
  mkFontTreeEntry { ft_start : nat;
                    ft_delimiter : ascii;
                    ft_family : string;
                    ft_style : string }.

Definition newline : ascii := ascii_of_nat 10.
Definition space : ascii := " "%char.

(** The inner [spacesPos.forEach] (code.js:1384).  For a piece in mixed
    fonts the source asks [getRangeFontName(spacesRangeStart,
    spacesRangeStart[0])], with [undefined] for the end of the range;
    [openRange] stands for the answer of the host to that call.  [None]: a
    call has not answered with a font. *)
Fixpoint spaceEntries (openRange : nat -> RangeFont)
         (charFonts : list FontName) (spacesPos : list (nat * nat))
         (fontTree : list FontTreeEntry) : option (list FontTreeEntry) :=
  match spacesPos with
  | [] => Some fontTree
  | (spacesRangeStart, spacesRangeEnd) :: rest =>
      match getRangeFontName charFonts spacesRangeStart spacesRangeEnd with
      | Font font =>
          spaceEntries openRange charFonts rest
            (fontTree ++ [mkFontTreeEntry spacesRangeStart space
                                          (family font) (style font)])
      | Mixed =>
          match openRange spacesRangeStart with
          | Font font =>
              spaceEntries openRange charFonts rest
                (fontTree ++ [mkFontTreeEntry spacesRangeStart space
                                              (family font) (style font)])
          | _ => None
          end
      | RangeError => None
      end
  end.

(** The outer [newLinesPos.forEach] (code.js:1372). *)
Fixpoint lineEntries (openRange : nat -> RangeFont) (str : string)
         (charFonts : list FontName) (newLinesPos : list (nat * nat))
         (fontTree : list FontTreeEntry) : option (list FontTreeEntry) :=
  match newLinesPos with
  | [] => Some fontTree
  | (newLinesRangeStart, newLinesRangeEnd) :: rest =>
      match getRangeFontName charFonts newLinesRangeStart newLinesRangeEnd
      with
      | Font font =>
          lineEntries openRange str charFonts rest
            (fontTree ++ [mkFontTreeEntry newLinesRangeStart newline
                                          (family font) (style font)])
      | Mixed =>
          match spaceEntries openRange charFonts
                  (getDelimiterPos str space newLinesRangeStart
                                   newLinesRangeEnd)
                  fontTree with
          | Some fontTree' =>
              lineEntries openRange str charFonts rest fontTree'
          | None => None
          end
      | RangeError => None
      end
  end.

(** [fontTree.sort((a, b) => +a.start - +b.start)], a stable sort by
    ascending start. *)
Fixpoint insert_by_start (a : FontTreeEntry) (sorted : list FontTreeEntry)
  : list FontTreeEntry :=
  match sorted with
  | [] => [a]
  | b :: rest =>
      if ft_start a <=? ft_start b then a :: b :: rest
      else b :: insert_by_start a rest
  end.

Definition sort_by_start (entries : list FontTreeEntry)
  : list FontTreeEntry :=
  fold_right insert_by_start [] entries.

Definition fontRun_of (entry : FontTreeEntry) : FontRun :=
  mkRun (ft_family entry) (ft_style entry) (ft_delimiter entry).

(** [buildLinearOrder] (code.js:1369) on the text of the node and the
    fonts of its characters. *)
Definition buildLinearOrder (openRange : nat -> RangeFont) (str : string)
           (charFonts : list FontName) : option (list FontRun) :=
  match lineEntries openRange str charFonts
                    (getDelimiterPos_default str newline) [] with
  | Some fontTree => Some (map fontRun_of (sort_by_start fontTree))
  | None => None
  end.

(** The text has no empty line: it does not start with a line break and
    no line break follows another. *)
Definition no_empty_line (str : string) : Prop :=
  String.get 0 str <> Some newline
  /\ forall k, String.get k str = Some newline ->
               String.get (S k) str <> Some newline.

(** Every line of the text is set in one font. *)
Definition uniform_lines (str : string) (charFonts : list FontName) : Prop :=
  Forall (fun range =>
            getRangeFontName charFonts (fst range) (snd range) <> Mixed)
         (getDelimiterPos_default str newline).

(** The font of a range in one font. *)
Definition lineFont (charFonts : list FontName) (range : nat * nat)
  : FontName :=
  match getRangeFontName charFonts (fst range) (snd range) with
  | Font font => font
  | _ => mkFont "" ""
  end.

Definition lineEntry (charFonts : list FontName) (range : nat * nat)
  : FontTreeEntry :=
  mkFontTreeEntry (fst range) newline
                  (family (lineFont charFonts range))
                  (style (lineFont charFonts range)).

Definition lineCall (charFonts : list FontName) (range : nat * nat)
  : Z * Z * FontName :=
  (Z.of_nat (fst range), Z.of_nat (snd range), lineFont charFonts range).

Definition inter : FontName := mkFont "Inter" "Regular".
Definition roboto : FontName := mkFont "Roboto" "Bold".
Definition mono : FontName := mkFont "Courier" "Regular".

(** Two lines, the first in Inter and the second in Roboto. *)
Definition twoLines : string :=
  String "a" (String "b" (String newline (String "c" (String "d" ""))))%string.

Definition twoLinesFonts : list FontName :=
  [inter; inter; inter; roboto; roboto].

(** A text with an empty line before further lines: the run of the line
    that starts on the line break takes the rest of the text, and the
    last line does not get its font back. *)
Definition emptyLine : string :=
  String "a" (String newline (String newline
    (String "b" (String newline (String "c" "")))))%string.

Definition emptyLineFonts : list FontName :=
  [inter; inter; roboto; roboto; roboto; mono].

(** ** [setTextContent] and [setCharacters] (code.js:1182, 1257) *)

(** The [options] of [setCharacters]; a missing property is [None]. *)
Record CharacterOptions : Type :=
  mkCharacterOptions { opt_fallbackFont : option FontName;
                       opt_smartStrategy : option string }.

(** What [setTextContent] returns; [None] for the font is
    [figma.mixed]. *)
Record TextContentResult : Type :=
  mkTextContentResult { tc_id : string;
                        tc_name : string;
                        tc_characters : string;
                        tc_fontName : option FontName }.

(** How the first [try] block of [setCharacters] ends: it falls through
    to the assignment of the text, or it returns the promise of one of
    the two range strategies, which is then settled outside the block. *)
Inductive FontStep (Delegate : Type) : Type :=
  | FontChosen
  | Delegated (call : Delegate).
Arguments FontChosen {Delegate}.
Arguments Delegated {Delegate}.

Section TextContent.

Variable Host : Type.
Variable Value : Type.
Variable getNodeByIdAsync : option string -> Host -> string + option SceneNode.

(** [node.fontName], [None] being [figma.mixed]; the fonts of the
    characters, [node.getRangeFontName(i - 1, i)] for each [i];
    [node.characters]. *)
Variable fontNameOf : SceneNode -> Host -> option FontName.
Variable charFontsOf : SceneNode -> Host -> list FontName.
Variable charactersOf : SceneNode -> Host -> string.

(** [figma.loadFontAsync], called with a font or, by [setTextContent] on a
    node in mixed fonts, with [figma.mixed]; the assignments to
    [node.fontName] and [node.characters].  Each may throw. *)
Variable loadFontAsync : option FontName -> Host -> string + Host.
Variable assignFontName : SceneNode -> FontName -> Host -> string + Host.
Variable assignCharacters : SceneNode -> string -> Host -> string + Host.

(** [setCharactersWithStrictMatchFont] and
    [setCharactersWithSmartMatchFont] as [setCharacters] calls them. *)
Variable strictMatchFont :
  SceneNode -> string -> FontName -> M Host Value bool.
Variable smartMatchFont :
  SceneNode -> string -> FontName -> M Host Value bool.

Notation "x <- c ;; k" := (bind Host Value c (fun x => k))
  (at level 61, c at next level, right associativity).
Notation "c ;;; k" := (bind Host Value c (fun _ => k))
  (at level 61, right associativity).

(** Reading a property of the node. *)
Definition readNode {A : Type} (f : Host -> A) : M Host Value A :=
  fun w => (Ok (f (host w)), w).

(** [(options && options.fallbackFont) || {family: "Inter", style:
    "Regular"}]. *)
Definition fallbackFont_of (options : option CharacterOptions) : FontName :=
  match options with
  | Some o =>
      match opt_fallbackFont o with
      | Some font => font
      | None => mkFont "Inter" "Regular"
      end
  | None => mkFont "Inter" "Regular"
  end.

(** [options && options.smartStrategy === name]. *)
Definition hasStrategy (options : option CharacterOptions) (name : string)
  : bool :=
  match options with
  | Some o =>
      match opt_smartStrategy o with
      | Some s => String.eqb s name
      | None => false
      end
  | None => false
  end.

(** The first [try] block of [setCharacters] (code.js:1262). *)
Definition chooseFont (node : SceneNode) (characters : string)
           (options : option CharacterOptions)
  : M Host Value (FontStep (M Host Value bool)) :=
  let fallbackFont := fallbackFont_of options in
  fontName <- readNode (fontNameOf node) ;;
  match fontName with
  | None =>
      if hasStrategy options "prevail" then
        charFonts <- readNode (charFontsOf node) ;;
        match prevailedFont charFonts with
        | Some prevailed =>
            update Host Value (loadFontAsync (Some prevailed)) ;;;
            update Host Value (assignFontName node prevailed) ;;;
            ret Host Value FontChosen
        | None =>
            throw Host Value "Cannot read properties of undefined"
        end
      else if hasStrategy options "strict"
      then ret Host Value
               (Delegated (strictMatchFont node characters fallbackFont))
      else if hasStrategy options "experimental"
      then ret Host Value
               (Delegated (smartMatchFont node characters fallbackFont))
      else
        charFonts <- readNode (charFontsOf node) ;;
        match charFonts with
        | firstCharFont :: _ =>
            update Host Value (loadFontAsync (Some firstCharFont)) ;;;
            update Host Value (assignFontName node firstCharFont) ;;;
            ret Host Value FontChosen
        | [] => throw Host Value "Range outside of available characters"
        end
  | Some font =>
      update Host Value
             (loadFontAsync (Some (mkFont (family font) (style font)))) ;;;
      ret Host Value FontChosen
  end.

(** [setCharacters] (code.js:1257). *)
Definition setCharacters (node : SceneNode) (characters : string)
           (options : option CharacterOptions) : M Host Value bool :=
  let fallbackFont := fallbackFont_of options in
  step <- try_catch Host Value
            (chooseFont node characters options)
            (fun _ =>
               update Host Value (loadFontAsync (Some fallbackFont)) ;;;
               update Host Value (assignFontName node fallbackFont) ;;;
               ret Host Value FontChosen) ;;
  match step with
  | Delegated call => call
  | FontChosen =>
      try_catch Host Value
        (update Host Value (assignCharacters node characters) ;;;
         ret Host Value true)
        (fun _ => ret Host Value false)
  end.

(** [setTextContent] (code.js:1182) as a function of the plugin; the
    batch command takes it as a parameter. *)
Definition setTextContent (nodeId text : option string)
  : M Host Value TextContentResult :=
  if falsy nodeId then throw Host Value "Missing nodeId parameter"
  else
    match text with
    | None => throw Host Value "Missing text parameter"
    | Some text =>
        node <- call Host Value (getNodeByIdAsync nodeId) ;;
        match node with
        | None =>
            throw Host Value
                  (String.append "Node not found with ID: "
                                 (or_else nodeId ""))
        | Some node =>
            if negb (String.eqb (node_type node) "TEXT")
            then throw Host Value
                       (String.append "Node is not a text node: "
                                      (or_else nodeId ""))
            else
              try_catch Host Value
                (fontName <- readNode (fontNameOf node) ;;
                 update Host Value (loadFontAsync fontName) ;;;
                 setCharacters node text None ;;;
                 characters <- readNode (charactersOf node) ;;
                 fontName' <- readNode (fontNameOf node) ;;
                 ret Host Value
                     (mkTextContentResult (node_id node) (node_name node)
                                          characters fontName'))
                (fun message =>
                   throw Host Value
                         (String.append "Error setting text content: "
                                        message))
        end
    end.

End TextContent.

(** A text node on its own as the host: its text and font, the fonts of
    its characters, and whether the node refuses a new text.  Inter
    Regular is the one font that can be loaded; loading [figma.mixed]
    fails. *)
Record TextDoc : Type :=
  mkTextDoc { td_text : string;
              td_font : option FontName;
              td_charFonts : list FontName;
              td_frozen : bool }.

Definition label : SceneNode := textNode "7:1" "Hello".

Definition td_getNodeByIdAsync (id : option string) (doc : TextDoc)
  : string + option SceneNode :=
  inr (match id with
       | Some i => if String.eqb i "7:1" then Some label else None
       | None => None
       end).

Definition td_loadFontAsync (font : option FontName) (doc : TextDoc)
  : string + TextDoc :=
  match font with
  | Some f =>
      if FontName_eqb f inter then inr doc
      else inl "The font could not be loaded"%string
  | None => inl "Expected a font name"%string
  end.

Definition td_assignFontName (node : SceneNode) (font : FontName)
           (doc : TextDoc) : string + TextDoc :=
  inr (mkTextDoc (td_text doc) (Some font)
                 (map (fun _ => font) (td_charFonts doc)) (td_frozen doc)).

Definition td_assignCharacters (node : SceneNode) (text : string)
           (doc : TextDoc) : string + TextDoc :=
  if td_frozen doc then inl "Cannot write to the node"%string
  else inr (mkTextDoc text (td_font doc)
                      (repeat (match td_font doc with
                               | Some f => f
                               | None => inter
                               end) (String.length text))
                      (td_frozen doc)).

Definition td_setCharacters :=
  setCharacters TextDoc unit (fun _ => td_font) (fun _ => td_charFonts)
                td_loadFontAsync td_assignFontName td_assignCharacters
                (fun _ _ _ => ret TextDoc unit true)
                (fun _ _ _ => ret TextDoc unit true).

Definition td_setTextContent :=
  setTextContent TextDoc unit td_getNodeByIdAsync (fun _ => td_font)
                 (fun _ => td_charFonts) (fun _ => td_text)
                 td_loadFontAsync td_assignFontName td_assignCharacters
                 (fun _ _ _ => ret TextDoc unit true)
                 (fun _ _ _ => ret TextDoc unit true).

(** The label set in Roboto, which cannot be loaded; set in Inter; and
    set in Inter but refusing a new text. *)
Definition robotoLabel : TextDoc :=
  mkTextDoc "Hello" (Some roboto) (repeat roboto 5) false.

Definition interLabel : TextDoc :=
  mkTextDoc "Hello" (Some inter) (repeat inter 5) false.

Definition frozenLabel : TextDoc :=
  mkTextDoc "Hello" (Some inter) (repeat inter 5) true.

(** The range strategies are the only way out of the first block other
    than a chosen font or an error. *)
Definition delegates (options : option CharacterOptions) : bool :=
  hasStrategy options "strict" || hasStrategy options "experimental".

(** ** [analyzeSelection] (code.js:3035) *)

(** [stats]. *)
Record LayerStats : Type :=
  mkLayerStats { totalLayers : nat;
                 hiddenLayers : nat;
                 lockedLayers : nat;
                 topLevelLayers : nat }.

(** [countLayers] (code.js:3061), the statistics passed through.
    [locked] reads [node.locked] and [selectedId] is [selection[0].id]. *)
Fixpoint countLayers (locked : SceneNode -> bool) (selectedId : string)
         (node : SceneNode) (stats : LayerStats) : LayerStats :=
  let stats1 :=
    mkLayerStats (S (totalLayers stats))
                 (if negb (node_visible node) then S (hiddenLayers stats)
                  else hiddenLayers stats)
                 (if locked node then S (lockedLayers stats)
                  else lockedLayers stats)
                 (topLevelLayers stats) in
  match node_children node with
  | None => stats1
  | Some children =>
      let stats2 :=
        if String.eqb (node_id node) selectedId
        then mkLayerStats (totalLayers stats1) (hiddenLayers stats1)
                          (lockedLayers stats1) (length children)
        else stats1 in
      (fix each (cs : list SceneNode) (acc : LayerStats) :=
         match cs with
         | [] => acc
         | child :: cs' => each cs' (countLayers locked selectedId child acc)
         end) children stats2
  end.

(** The [statistics] of [analyzeSelection] (code.js:3035), or the [error]
    it returns for a selection that is not a single node. *)
Definition analyzeSelection (locked : SceneNode -> bool)
           (selection : list SceneNode) : string + LayerStats :=
  match selection with
  | [] => inl "No element selected"%string
  | [node] =>
      inr (countLayers locked (node_id node) node (mkLayerStats 0 0 0 0))
  | _ =>
      inl "Multiple elements selected. Please select only one element."%string
  end.

(** The invisible nodes among some entries. *)
Definition hidden_entries (entries : list Entry) : list Entry :=
  filter (fun e => negb (node_visible (entry_node e))) entries.

(* ================================================================== *)
(** * Part II: properties *)

(** ** Chunk splitting *)

Lemma slice_length {T : Type} (l : list T) (b e : nat) :
  length (slice l b e) = Nat.min (e - b) (length l - b).
Proof. unfold slice. now rewrite length_firstn, length_skipn. Qed.

Lemma slice_clamp {T : Type} (l : list T) (b e : nat) :
  slice l b (Nat.min e (length l)) = slice l b e.
Proof.
  unfold slice.
  destruct (Nat.le_gt_cases e (length l)) as [H | H].
  - now rewrite Nat.min_l.
  - rewrite Nat.min_r by lia.
    rewrite !firstn_all2; auto; rewrite length_skipn; lia.
Qed.

Lemma slice_skipn {T : Type} (l : list T) (i c : nat) :
  slice l i (i + c) ++ skipn (i + c) l = skipn i l.
Proof.
  unfold slice. replace (i + c - i) with c by lia.
  rewrite Nat.add_comm, <- skipn_skipn. apply firstn_skipn.
Qed.

(** [ceil_div n c] is the least multiple count that covers [n]. *)
Lemma ceil_div_bounds (n c : nat) :
  0 < c -> n <= ceil_div n c * c < n + c.
Proof.
  intros Hc. unfold ceil_div.
  pose proof (Nat.div_mod_eq (n + c - 1) c) as E.
  pose proof (Nat.mod_upper_bound (n + c - 1) c ltac:(lia)) as B.
  nia.
Qed.

Lemma ceil_div_unique (n c k : nat) :
  0 < c -> n <= k * c < n + c -> k = ceil_div n c.
Proof.
  intros Hc Hk. pose proof (ceil_div_bounds n c Hc) as B. nia.
Qed.

Lemma ceil_div_step (m c : nat) :
  0 < c -> 0 < m -> ceil_div m c = S (ceil_div (m - c) c).
Proof.
  intros Hc Hm. symmetry. apply ceil_div_unique; trivial.
  pose proof (ceil_div_bounds (m - c) c Hc) as B.
  destruct (Nat.le_gt_cases m c) as [Hle | Hgt].
  - replace (m - c) with 0 in * by lia.
    assert (ceil_div 0 c = 0) by nia. lia.
  - simpl. lia.
Qed.

Lemma ceil_div_0 (c : nat) : 0 < c -> ceil_div 0 c = 0.
Proof.
  intros Hc. symmetry. apply (ceil_div_unique 0 c 0); lia.
Qed.

Lemma split_loop_from {T : Type} (C : nat) (items : list T) :
  0 < C ->
  forall fuel i acc,
    length items - i < fuel ->
    exists cs,
      split_loop fuel C items i acc = Some (acc ++ cs)
      /\ concat cs = skipn i items
      /\ length cs = ceil_div (length items - i) C
      /\ forall k, k < length cs ->
           nth k cs [] = slice items (i + k * C) (i + k * C + C).
Proof.
  intros HC. induction fuel as [| fuel IH]; intros i acc Hf; [lia |].
  simpl. destruct (i <? length items) eqn:Hi.
  - apply Nat.ltb_lt in Hi.
    destruct (IH (i + C) (acc ++ [slice items i (i + C)]) ltac:(lia))
      as (cs & E & Hcat & Hlen & Hnth).
    exists (slice items i (i + C) :: cs). repeat split.
    + rewrite E, <- app_assoc. reflexivity.
    + simpl. rewrite Hcat. apply slice_skipn.
    + simpl. rewrite Hlen.
      rewrite (ceil_div_step (length items - i) C) by lia.
      do 2 f_equal. lia.
    + intros [| k] Hk; simpl.
      * now rewrite Nat.add_0_r.
      * simpl in Hk. rewrite Hnth by lia. f_equal; lia.
  - apply Nat.ltb_ge in Hi. exists []. repeat split.
    + now rewrite app_nil_r.
    + simpl. symmetry. now apply skipn_all2.
    + simpl. replace (length items - i) with 0 by lia.
      symmetry. now apply ceil_div_0.
    + simpl. lia.
Qed.

Lemma split_loop_partitions {T : Type} (C : nat) (items : list T) :
  0 < C ->
  exists chunks,
    split_loop (S (length items)) C items 0 [] = Some chunks
    /\ partitions C items chunks.
Proof.
  intros HC.
  destruct (split_loop_from C items HC (S (length items)) 0 [] ltac:(lia))
    as (cs & E & Hcat & Hlen & Hnth).
  exists cs. split; [exact E |].
  rewrite Nat.sub_0_r in Hlen.
  pose proof (ceil_div_bounds (length items) C HC) as B.
  rewrite <- Hlen in B.
  assert (Hk : forall k, k < length cs ->
                 length (nth k cs []) = Nat.min C (length items - k * C)).
  { intros k Hk. rewrite Hnth by exact Hk. simpl. rewrite slice_length.
    f_equal. lia. }
  unfold partitions. repeat split; try lia; trivial.
  - intros k Hlt. rewrite Hk by lia. nia.
  - rewrite Hk by lia. nia.
  - rewrite Hk by lia. nia.
Qed.

Lemma split_loop_extends {T : Type} (C : nat) (items : list T) :
  forall fuel i acc r,
    split_loop fuel C items i acc = Some r -> length acc <= length r.
Proof.
  induction fuel as [| fuel IH]; intros i acc r; simpl; [discriminate |].
  destruct (i <? length items).
  - intros E. apply IH in E. rewrite length_app in E. simpl in E. lia.
  - intros [= <-]. lia.
Qed.

(** The chunk loop of [scanTextNodes] cuts the same slices as the
    splitting loop and counts them. *)
Lemma scan_loop_split_loop {T : Type} (C : nat) (nodes : list T) :
  forall fuel i done acc r,
    split_loop fuel C nodes i acc = Some r ->
    scan_loop fuel C nodes i done acc
    = Some (done + (length r - length acc), r).
Proof.
  induction fuel as [| fuel IH]; intros i done acc r; simpl; [discriminate |].
  destruct (i <? length nodes).
  - intros E. rewrite slice_clamp.
    pose proof (split_loop_extends _ _ _ _ _ _ E) as L.
    rewrite (IH _ _ _ _ E). rewrite length_app in *. simpl in *.
    do 2 f_equal. lia.
  - intros [= <-]. do 2 f_equal. lia.
Qed.

(** C1.  For every item list of length [N] and every chunk size [C > 0],
    the splitting loops of [set_multiple_text_contents] and
    [delete_multiple_nodes] (chunk size fixed at 5) and the chunk loop of
    [scan_text_nodes] (chunk size [C]) end and cut the list into exactly
    [ceil(N/C)] chunks, chunk [k] being the contiguous slice
    [[k*C, k*C + C)], every chunk of size [C] except a possibly smaller,
    never empty, last one; the concatenation of the chunks in order is the
    list itself.  The count [Math.ceil(totalNodes / chunkSize)] that
    [scan_text_nodes] announces is the number of rounds of its loop. *)
Theorem chunks_partition_items :
  forall (T : Type) (items : list T) (C : nat),
    0 < C ->
    (exists chunks,
        setMultipleTextContents_chunks items = Some chunks
        /\ partitions CHUNK_SIZE items chunks)
    /\ (exists chunks,
           deleteMultipleNodes_chunks items = Some chunks
           /\ partitions CHUNK_SIZE items chunks)
    /\ (exists chunks,
           scanTextNodes_chunks C items
           = Some (ceil_div (length items) C, chunks)
           /\ partitions C items chunks)
    /\ (exists chunks,
           split_loop (S (length items)) C items 0 [] = Some chunks
           /\ partitions C items chunks).
Proof.
  intros T items C HC.
  assert (H5 : 0 < CHUNK_SIZE) by (unfold CHUNK_SIZE; lia).
  split; [exact (split_loop_partitions CHUNK_SIZE items H5) |].
  split; [exact (split_loop_partitions CHUNK_SIZE items H5) |].
  split; [| exact (split_loop_partitions C items HC)].
  destruct (split_loop_partitions C items HC) as (cs & E & P).
  exists cs. split; [| exact P].
  unfold scanTextNodes_chunks.
  rewrite (scan_loop_split_loop _ _ _ _ _ _ _ E).
  destruct P as (L & _). simpl. rewrite Nat.sub_0_r, L. reflexivity.
Qed.

Lemma chunks_partition_items_witness :
  0 < 10
  /\ scanTextNodes_chunks 10 (seq 0 23)
     = Some (3, [seq 0 10; seq 10 10; seq 20 3])
  /\ setMultipleTextContents_chunks (seq 0 7) = Some [seq 0 5; seq 5 2]
  /\ exists chunks,
       scanTextNodes_chunks 10 (seq 0 23)
       = Some (ceil_div (length (seq 0 23)) 10, chunks)
       /\ partitions 10 (seq 0 23) chunks.
Proof.
  split; [lia |].
  split; [reflexivity |].
  split; [reflexivity |].
  exact (proj1 (proj2 (proj2
           (chunks_partition_items nat (seq 0 23) 10 ltac:(lia))))).
Defined.

(** ** Tree collection *)

Lemma SceneNode_induction (P : SceneNode -> Prop) :
  (forall id name ty vis chars cs,
      Forall P (match cs with Some l => l | None => [] end) ->
      P (mkNode id name ty vis chars cs)) ->
  forall n, P n.
Proof.
  intros H. fix IH 1. intros [id name ty vis chars cs].
  apply H. destruct cs as [l |]; [| constructor].
  induction l as [| c l IHl]; constructor; [apply IH | exact IHl].
Qed.

Lemma collectNodesToProcess_eq (n : SceneNode) (p : list string) (d : nat)
      (acc : list NodeDescriptor) :
  collectNodesToProcess n p d acc
  = if negb (node_visible n) then acc
    else fold_left
           (fun a c => collectNodesToProcess c (p ++ [displayName n]) (S d) a)
           (children_of n)
           (acc ++ [mkDescriptor n (p ++ [displayName n]) d]).
Proof.
  destruct n as [id name ty [|] chars [cs |]]; reflexivity.
Qed.

Lemma findTextNodes_eq (n : SceneNode) (p : list string) (d : nat)
      (acc : list SafeTextNode) :
  findTextNodes n p d acc
  = if negb (node_visible n) then acc
    else fold_left
           (fun a c => findTextNodes c (p ++ [displayName n]) (S d) a)
           (children_of n)
           (if isText n
            then acc ++ [safeTextNode n (p ++ [displayName n]) d]
            else acc).
Proof.
  destruct n as [id name ty [|] chars [cs |]]; reflexivity.
Qed.

Lemma findNodesByTypes_eq (n : SceneNode) (types : list string)
      (acc : list MatchingNode) :
  findNodesByTypes n types acc
  = if negb (node_visible n) then acc
    else fold_left (fun a c => findNodesByTypes c types a) (children_of n)
           (if includes types (node_type n)
            then acc ++ [matchingNode n] else acc).
Proof.
  destruct n as [id name ty [|] chars [cs |]]; reflexivity.
Qed.

Lemma visited_eq (n : SceneNode) (p : list string) (d : nat) :
  visited n p d
  = if negb (node_visible n) then []
    else ((n, p ++ [displayName n], d) : Entry)
         :: flat_map (fun c => visited c (p ++ [displayName n]) (S d))
                     (children_of n).
Proof.
  destruct n as [id name ty [|] chars [cs |]]; reflexivity.
Qed.

Lemma preorder_eq (n : SceneNode) (p : list string) (d : nat) :
  preorder n p d
  = ((n, p ++ [displayName n], d) : Entry)
    :: flat_map (fun c => preorder c (p ++ [displayName n]) (S d))
                (children_of n).
Proof.
  destruct n as [id name ty vis chars [cs |]]; reflexivity.
Qed.

Lemma prune_eq (n : SceneNode) :
  prune n
  = if negb (node_visible n) then None
    else Some (mkNode (node_id n) (node_name n) (node_type n)
                      (node_visible n) (node_characters n)
                      (match node_children n with
                       | None => None
                       | Some cs => Some (flat_map keep_pruned cs)
                       end)).
Proof.
  destruct n as [id name ty [|] chars [cs |]]; try reflexivity.
  simpl. do 3 f_equal.
  induction cs as [| c cs IH]; simpl; trivial.
  unfold keep_pruned at 1. destruct (prune c); simpl; now rewrite IH.
Qed.

Lemma fold_left_appends {A B : Type} (f : list B -> A -> list B)
      (g : A -> list B) (cs : list A) :
  Forall (fun c => forall acc, f acc c = acc ++ g c) cs ->
  forall acc, fold_left f cs acc = acc ++ flat_map g cs.
Proof.
  induction 1 as [| c cs Hc _ IH]; intros acc; simpl.
  - now rewrite app_nil_r.
  - now rewrite Hc, IH, app_assoc.
Qed.

Lemma map_flat_map_comm {A B C : Type} (h : B -> C) (g : A -> list B)
      (cs : list A) :
  map h (flat_map g cs) = flat_map (fun c => map h (g c)) cs.
Proof.
  induction cs as [| c cs IH]; simpl; [trivial |].
  now rewrite map_app, IH.
Qed.

Lemma filter_flat_map_comm {A B : Type} (q : B -> bool) (g : A -> list B)
      (cs : list A) :
  filter q (flat_map g cs) = flat_map (fun c => filter q (g c)) cs.
Proof.
  induction cs as [| c cs IH]; simpl; [trivial |].
  now rewrite filter_app, IH.
Qed.

Lemma filter_head {A : Type} (q : A -> bool) (x : A) (l : list A) :
  filter q (x :: l) = if q x then x :: filter q l else filter q l.
Proof. reflexivity. Qed.

(** Each collector appends to its array what it finds among the visited
    nodes. *)
Lemma collectNodesToProcess_visited (n : SceneNode) :
  forall p d acc,
    collectNodesToProcess n p d acc
    = acc ++ map descriptor_of (visited n p d).
Proof.
  induction n as [id name ty vis chars cs IH] using SceneNode_induction.
  intros p d acc. rewrite collectNodesToProcess_eq, visited_eq.
  destruct vis; simpl; [| now rewrite app_nil_r].
  rewrite (fold_left_appends _
             (fun c => map descriptor_of
                         (visited c (p ++ [displayName
                            (mkNode id name ty true chars cs)]) (S d)))).
  - rewrite <- app_assoc, map_flat_map_comm. reflexivity.
  - unfold children_of; simpl. eapply Forall_impl; [| exact IH].
    intros c Hc a. apply Hc.
Qed.

Lemma findTextNodes_visited (n : SceneNode) :
  forall p d acc,
    findTextNodes n p d acc
    = acc ++ map safeTextNode_of (filter entry_isText (visited n p d)).
Proof.
  induction n as [id name ty vis chars cs IH] using SceneNode_induction.
  intros p d acc. rewrite findTextNodes_eq, visited_eq.
  destruct vis; cbn [negb node_visible]; [| now rewrite app_nil_r].
  rewrite (fold_left_appends _
             (fun c => map safeTextNode_of
                         (filter entry_isText
                            (visited c (p ++ [displayName
                               (mkNode id name ty true chars cs)]) (S d))))).
  - rewrite filter_head, filter_flat_map_comm.
    change (entry_isText (?a, ?b, ?c)) with (isText a).
    destruct (isText (mkNode id name ty true chars cs)); cbn [map];
      rewrite map_flat_map_comm; [rewrite <- app_assoc |]; reflexivity.
  - unfold children_of; simpl. eapply Forall_impl; [| exact IH].
    intros c Hc a. apply Hc.
Qed.

Lemma findNodesByTypes_visited (types : list string) (n : SceneNode) :
  forall p d acc,
    findNodesByTypes n types acc
    = acc ++ map matchingNode_of
                 (filter (entry_matches types) (visited n p d)).
Proof.
  induction n as [id name ty vis chars cs IH] using SceneNode_induction.
  intros p d acc. rewrite findNodesByTypes_eq, visited_eq.
  destruct vis; cbn [negb node_visible]; [| now rewrite app_nil_r].
  rewrite (fold_left_appends _
             (fun c => map matchingNode_of
                         (filter (entry_matches types)
                            (visited c (p ++ [displayName
                               (mkNode id name ty true chars cs)]) (S d))))).
  - rewrite filter_head, filter_flat_map_comm.
    change (entry_matches types (?a, ?b, ?c))
      with (includes types (node_type a)).
    cbn [node_type]. destruct (includes types ty); cbn [map];
      rewrite map_flat_map_comm; [rewrite <- app_assoc |]; reflexivity.
  - unfold children_of; simpl. eapply Forall_impl; [| exact IH].
    intros c Hc a. apply Hc.
Qed.

(** The visited nodes are the nodes of the pruned tree, with the same
    identity, name, type, text, path and depth. *)
Lemma visited_pruned (n : SceneNode) :
  forall p d,
    map entry_data (visited n p d)
    = match prune n with
      | None => []
      | Some r => map entry_data (preorder r p d)
      end.
Proof.
  induction n as [id name ty vis chars cs IH] using SceneNode_induction.
  intros p d. rewrite visited_eq, prune_eq.
  destruct vis; cbn [negb node_visible]; [| reflexivity].
  rewrite preorder_eq. cbn [map]. f_equal.
  unfold children_of; cbn [node_children node_id node_name node_type
                           node_characters].
  change (displayName (mkNode id name ty true chars _))
    with (displayName (mkNode id name ty true chars cs)).
  generalize (p ++ [displayName (mkNode id name ty true chars cs)]).
  intros path. destruct cs as [l |]; [| reflexivity].
  induction IH as [| c l Hc _ IHl]; [reflexivity |].
  cbn [flat_map].
  rewrite map_app, flat_map_app, map_app, IHl, Hc. f_equal.
  unfold keep_pruned. destruct (prune c); cbn [flat_map];
    [now rewrite app_nil_r | reflexivity].
Qed.

(** Every node left in the pruned tree is visible. *)
Lemma preorder_pruned_visible (n : SceneNode) :
  forall r p d,
    prune n = Some r ->
    Forall (fun e => node_visible (entry_node e) = true) (preorder r p d).
Proof.
  induction n as [id name ty vis chars cs IH] using SceneNode_induction.
  intros r p d. rewrite prune_eq.
  destruct vis; cbn [negb node_visible]; [| discriminate].
  intros [= <-]. rewrite preorder_eq.
  constructor; [reflexivity |].
  unfold children_of;
    cbn [node_children node_id node_name node_type node_characters].
  generalize (p ++ [displayName
                      (mkNode id name ty true chars
                         match cs with
                         | Some cs0 => Some (flat_map keep_pruned cs0)
                         | None => None
                         end)]).
  intros path. destruct cs as [l |]; [| constructor].
  induction IH as [| c l Hc _ IHl]; [constructor |].
  cbn [flat_map]. rewrite flat_map_app. apply Forall_app. split.
  - unfold keep_pruned. destruct (prune c) as [c' |] eqn:E;
      cbn [flat_map]; [| constructor].
    rewrite app_nil_r. now apply Hc.
  - exact IHl.
Qed.

Lemma map_filter_through {A B C : Type} (data : A -> B) (f : A -> C)
      (q : A -> bool) (f' : B -> C) (q' : B -> bool) :
  (forall x, f x = f' (data x)) ->
  (forall x, q x = q' (data x)) ->
  forall l, map f (filter q l) = map f' (filter q' (map data l)).
Proof.
  intros Hf Hq. induction l as [| x l IH]; simpl; [reflexivity |].
  rewrite <- Hq. destruct (q x); simpl; now rewrite IH, ?Hf.
Qed.

Lemma visited_pruned_preorder (root : SceneNode) :
  map entry_data (visited root [] 0) = map entry_data (pruned_preorder root).
Proof.
  unfold pruned_preorder. rewrite visited_pruned.
  destruct (prune root); reflexivity.
Qed.

(** C4, as amended.  A collector called on a node whose [visible] flag is
    [false] returns at once and adds nothing, whatever the node holds
    below it.  On a whole tree each collector visits, in depth-first
    pre-order, exactly the nodes that remain when every subtree under an
    invisible node is removed: [collectNodesToProcess] yields a descriptor
    for each of them, [findTextNodes] for those of type [TEXT], and
    [findNodesByTypes] for those whose type is among the requested
    types. *)
Theorem collectors_prune_invisible_subtrees :
  (forall (n : SceneNode) (p : list string) (d : nat) (types : list string)
          (descriptors : list NodeDescriptor) (textNodes : list SafeTextNode)
          (matchingNodes : list MatchingNode),
      node_visible n = false ->
      collectNodesToProcess n p d descriptors = descriptors
      /\ findTextNodes n p d textNodes = textNodes
      /\ findNodesByTypes n types matchingNodes = matchingNodes)
  /\ (forall (root : SceneNode) (types : list string),
         map descriptor_data (collectNodesToProcess root [] 0 [])
         = map entry_data (pruned_preorder root)
         /\ findTextNodes root [] 0 []
            = map safeTextNode_of
                  (filter entry_isText (pruned_preorder root))
         /\ findNodesByTypes root types []
            = map matchingNode_of
                  (filter (entry_matches types) (pruned_preorder root))
         /\ Forall (fun e => node_visible (entry_node e) = true)
                   (pruned_preorder root)).
Proof.
  split.
  - intros n p d types ds ts ms Hv.
    rewrite collectNodesToProcess_eq, findTextNodes_eq, findNodesByTypes_eq.
    rewrite Hv. repeat split.
  - intros root types.
    pose proof (visited_pruned_preorder root) as V.
    repeat split.
    + rewrite collectNodesToProcess_visited. cbn [app].
      rewrite <- V, map_map. apply map_ext. now intros [[n p] d].
    + rewrite findTextNodes_visited. cbn [app].
      rewrite !(map_filter_through entry_data safeTextNode_of entry_isText
                  (fun x => mkSafeTextNode
                              (e_id x)
                              (if String.eqb (e_name x) "" then "Text"%string
                               else e_name x)
                              (e_type x) (e_characters x)
                              (String.concat " > " (e_path x)) (e_depth x))
                  (fun x => String.eqb (e_type x) "TEXT"));
        try (now intros [[n p] d]).
      now rewrite V.
    + rewrite (findNodesByTypes_visited types root [] 0). cbn [app].
      rewrite !(map_filter_through entry_data matchingNode_of
                  (entry_matches types)
                  (fun x => mkMatchingNode
                              (e_id x)
                              (if String.eqb (e_name x) ""
                               then String.append "Unnamed " (e_type x)
                               else e_name x)
                              (e_type x))
                  (fun x => includes types (e_type x)));
        try (now intros [[n p] d]).
      now rewrite V.
    + unfold pruned_preorder. destruct (prune root) as [r |] eqn:E;
        [| constructor].
      now apply (preorder_pruned_visible root).
Qed.

Lemma collectors_prune_invisible_subtrees_witness :
  let leaf := mkNode "3:1" "Title" "TEXT" true "Hello" None in
  let hidden := mkNode "2:1" "Old" "FRAME" false "" (Some [leaf]) in
  node_visible hidden = false
  /\ node_visible leaf = true
  /\ collectNodesToProcess hidden [] 0 [] = []
  /\ findTextNodes hidden [] 0 [] = []
  /\ findNodesByTypes hidden ["TEXT"%string] [] = [].
Proof.
  intros leaf hidden.
  split; [reflexivity |]. split; [reflexivity |].
  exact (proj1 collectors_prune_invisible_subtrees hidden [] 0
               ["TEXT"%string] [] [] [] eq_refl).
Defined.

(** C4 as first stated does not hold: a visible node outside every
    invisible subtree, here the root frame, is visited but gets no
    descriptor from [findTextNodes] and [findNodesByTypes] when its type
    is not the one searched for. *)
Lemma visible_frame_without_descriptor :
  let root := mkNode "1:2" "Card" "FRAME" true "" (Some []) in
  node_visible root = true
  /\ pruned_preorder root = [(root, ["Card"%string], 0)]
  /\ map d_node (collectNodesToProcess root [] 0 []) = [root]
  /\ findTextNodes root [] 0 [] = []
  /\ findNodesByTypes root ["TEXT"%string] [] = [].
Proof. repeat split. Qed.

(** ** The delimiter scan *)

Lemma getDelimiterPos_loop_from_zero (str : string) (delimiter : ascii)
      (endIdx : nat) :
  forall n i temp indices,
    (let '(t, ind) :=
       getDelimiterPos_loop n str delimiter 0 endIdx i temp indices in
     if negb (t =? endIdx) then ind ++ [(t, endIdx)] else ind)
    = indices ++ segments_spec_loop n str delimiter endIdx i temp.
Proof.
  induction n as [| n IH]; intros i temp indices; simpl.
  - destruct (temp =? endIdx); simpl; [now rewrite app_nil_r | reflexivity].
  - rewrite Nat.add_0_r.
    destruct (isDelimiter (charAt str i) delimiter && negb (i =? endIdx)
              && negb (temp =? i)).
    + rewrite IH, <- app_assoc. simpl. do 3 f_equal. lia.
    + apply IH.
Qed.

(** With [startIdx = 0], the call [buildLinearOrder] makes for the
    newline split, the function returns the segments of the scan the
    specification describes. *)
Lemma getDelimiterPos_from_zero (str : string) (delimiter : ascii)
      (endIdx : nat) :
  getDelimiterPos str delimiter 0 endIdx
  = segments_spec str delimiter 0 endIdx.
Proof.
  unfold getDelimiterPos, segments_spec.
  pose proof (getDelimiterPos_loop_from_zero str delimiter endIdx
                (endIdx - 0) 0 0 []) as H.
  destruct (getDelimiterPos_loop (endIdx - 0) str delimiter 0 endIdx 0 0 [])
    as [t ind].
  exact H.
Qed.

(** C5 at the failing input.  On the text [ab cd / ef gh] (two lines),
    the space split of the second line, the range [[6, 11)], returns the
    pairs [(6, 14)] and [(15, 11)]: the source adds [startIdx] to a loop
    index that already starts at [startIdx].  The scan of the
    specification returns [(6, 8)] and [(9, 11)], and the bounds [14] and
    [15] lie outside the range.  For [startIdx = 0] the source and that
    scan agree on every text. *)
Theorem getDelimiterPos_shifts_by_startIdx :
  let str := String.append "ab cd" (String "010" "ef gh") in
  getDelimiterPos_default str "010" = [(0, 5); (6, 11)]
  /\ getDelimiterPos str " " 6 11 = [(6, 14); (15, 11)]
  /\ segments_spec str " " 6 11 = [(6, 8); (9, 11)]
  /\ ~ (forall s e, In (s, e) (getDelimiterPos str " " 6 11) ->
                    6 <= s <= 11 /\ 6 <= e <= 11)
  /\ (forall (text : string) (delimiter : ascii) (endIdx : nat),
         getDelimiterPos text delimiter 0 endIdx
         = segments_spec text delimiter 0 endIdx).
Proof.
  intros str.
  split; [reflexivity |]. split; [reflexivity |]. split; [reflexivity |].
  split; [| exact getDelimiterPos_from_zero].
  intros H. destruct (H 6 14 (or_introl eq_refl)) as [_ [_ B]]. lia.
Qed.

(** ** The prevail strategy *)

Lemma tally_loop_firstn (charFonts : list FontName) :
  forall n k tree,
    k + n <= length charFonts ->
    tally_loop n (S k) charFonts tree
    = fold_left (fun t f => bump (fontKey f) t)
                (firstn n (skipn k charFonts)) tree.
Proof.
  induction n as [| n IH]; intros k tree Hk; simpl; [reflexivity |].
  rewrite Nat.sub_0_r.
  destruct (nth_error charFonts k) as [f |] eqn:E.
  - destruct (nth_error_split charFonts k E) as (l1 & l2 & -> & <-).
    rewrite IH by lia.
    replace (skipn (length l1) (l1 ++ f :: l2)) with (f :: l2)
      by (rewrite skipn_app, Nat.sub_diag, skipn_all; reflexivity).
    replace (skipn (S (length l1)) (l1 ++ f :: l2)) with l2
      by (rewrite skipn_app, skipn_all2 by lia;
          replace (S (length l1) - length l1) with 1 by lia; reflexivity).
    reflexivity.
  - apply nth_error_None in E. lia.
Qed.

(** The tally of the prevail branch counts every character but the
    last. *)
Lemma fontHashTree_skips_last (charFonts : list FontName) :
  fontHashTree_of charFonts = tally_all (removelast charFonts).
Proof.
  unfold fontHashTree_of, tally_all.
  rewrite tally_loop_firstn by lia.
  rewrite removelast_firstn_len. simpl. f_equal. f_equal. lia.
Qed.

(** C7 at the failing input.  On a three-character text whose first
    character is set in Roboto Bold and whose other two are set in Inter
    Regular, the tally loop stops before the last character, counts one
    occurrence of each font and assigns Roboto Bold, the key met first;
    counting every character gives Inter Regular two occurrences against
    one.  On every text the tally is that of the text without its last
    character. *)
Theorem prevail_misses_last_character :
  let roboto := mkFont "Roboto" "Bold" in
  let inter := mkFont "Inter" "Regular" in
  let charFonts := [roboto; inter; inter] in
  fontHashTree_of charFonts
  = [("Roboto::Bold"%string, 1); ("Inter::Regular"%string, 1)]
  /\ prevailedFont charFonts = Some roboto
  /\ tally_all charFonts
     = [("Roboto::Bold"%string, 1); ("Inter::Regular"%string, 2)]
  /\ hd_error (sort_desc (tally_all charFonts))
     = Some ("Inter::Regular"%string, 2)
  /\ (forall fonts : list FontName,
         fontHashTree_of fonts = tally_all (removelast fonts)).
Proof.
  intros roboto inter charFonts.
  split; [reflexivity |]. split; [reflexivity |]. split; [reflexivity |].
  split; [reflexivity | exact fontHashTree_skips_last].
Qed.

(** ** Re-application of the recorded runs *)

Lemma get_Some_lt (s : string) :
  forall k c, String.get k s = Some c -> k < String.length s.
Proof.
  induction s as [| a s IH]; intros [| k] c; simpl; try discriminate.
  - lia.
  - intros H. apply IH in H. lia.
Qed.

Lemma indexOf_at_cases (d : ascii) (from : nat) :
  forall s i,
    (indexOf_at s d from i = (-1)%Z
     /\ forall k, from <= i + k -> String.get k s <> Some d)
    \/ (exists j,
           indexOf_at s d from i = Z.of_nat (i + j)
           /\ from <= i + j
           /\ String.get j s = Some d
           /\ forall k, k < j -> from <= i + k -> String.get k s <> Some d).
Proof.
  induction s as [| c s IH]; intros i; simpl.
  - left. split; [reflexivity |]. intros [| k] _; discriminate.
  - destruct ((from <=? i) && Ascii.eqb c d) eqn:E.
    + apply andb_prop in E as [E1 E2].
      apply Nat.leb_le in E1. apply Ascii.eqb_eq in E2. subst c.
      right. exists 0. rewrite Nat.add_0_r.
      repeat split; trivial. intros k Hk. lia.
    + assert (Hc : from <= i -> c <> d).
      { intros Hle ->. apply Nat.leb_le in Hle.
        rewrite Hle, Ascii.eqb_refl in E. discriminate. }
      destruct (IH (S i)) as [[E1 N] | (j & E1 & Hj & G & N)].
      * left. split; [exact E1 |].
        intros [| k] Hk; simpl.
        -- intros [= ->]. apply Hc; [lia | reflexivity].
        -- apply N. lia.
      * right. exists (S j). rewrite E1.
        split; [f_equal; lia |]. split; [lia |]. split; [exact G |].
        intros [| k] Hk Hf; simpl.
        -- intros [= ->]. apply Hc; [lia | reflexivity].
        -- apply N; lia.
Qed.

(** [indexOf] returns the first position of the delimiter at or after
    [fromIndex], and [-1] when there is none. *)
Lemma indexOf_spec (text : string) (d : ascii) (from : Z) :
  (0 <= from)%Z ->
  (indexOf text d from = (-1)%Z /\ no_delimiter text d from)
  \/ first_delimiter text d from (indexOf text d from).
Proof.
  intros H0. unfold indexOf.
  destruct (indexOf_at_cases d (Z.to_nat from) text 0)
    as [[E N] | (j & E & Hj & G & N)].
  - left. split; [exact E |]. intros k Hk. apply N. lia.
  - right. rewrite E. simpl. unfold first_delimiter.
    rewrite Nat2Z.id. repeat split; try lia; trivial.
    + apply get_Some_lt in G. lia.
    + intros k Hk. apply N; lia.
Qed.

(** One round of the walk, seen from the text. *)
Lemma applyRun_step (node : TextNode) (p : Z) (run : FontRun) :
  (0 <= p < text_length node)%Z ->
  exists e,
    applyRun (node, p) run
    = (mkTextNode (characters node) (fontName node)
                  (rangeFonts node
                   ++ [(p, e, mkFont (run_family run) (run_style run))]),
       (e + 1)%Z)
    /\ run_end (characters node) (run_delimiter run) p e
    /\ (p < e <= text_length node)%Z.
Proof.
  intros Hp. unfold applyRun.
  destruct (Z.ltb_spec p (text_length node)) as [_ | ?]; [| lia].
  destruct (indexOf_spec (characters node) (run_delimiter run) p
              ltac:(lia)) as [[E N] | F].
  - rewrite E.
    destruct (Z.gtb_spec (-1) p) as [? | _]; [lia |].
    eexists. split; [reflexivity |]. split; [| unfold text_length in *; lia].
    right. split; [left; exact N | reflexivity].
  - destruct (Z.gtb_spec (indexOf (characters node) (run_delimiter run) p) p)
      as [G | G].
    + eexists. split; [reflexivity |]. split.
      * left. split; [exact F | lia].
      * destruct F as (_ & B & _). unfold text_length. lia.
    + assert (indexOf (characters node) (run_delimiter run) p = p) as Ep
          by (destruct F as ((_ & ?) & _); lia).
      rewrite Ep in F.
      eexists. split; [reflexivity |]. split; [| lia].
      right. split; [right; exact F | reflexivity].
Qed.

Lemma applyRun_past_end (node : TextNode) (p : Z) (run : FontRun) :
  (text_length node <= p)%Z -> applyRun (node, p) run = (node, p).
Proof.
  intros Hp. unfold applyRun.
  destruct (Z.ltb_spec p (text_length node)); [lia | reflexivity].
Qed.

Lemma walk_past_end (runs : list FontRun) (node : TextNode) (p : Z) :
  (text_length node <= p)%Z -> fold_left applyRun runs (node, p) = (node, p).
Proof.
  intros Hp. induction runs as [| run runs IH]; cbn [fold_left];
    [reflexivity |].
  now rewrite applyRun_past_end.
Qed.

(** The whole walk: the calls made are those of [Walk], all within the
    text and none empty; the text and the node font are left alone. *)
Lemma walk_spec (runs : list FontRun) :
  forall node p,
    (0 <= p)%Z ->
    exists calls p',
      fold_left applyRun runs (node, p)
      = (mkTextNode (characters node) (fontName node)
                    (rangeFonts node ++ calls), p')
      /\ Walk (characters node) p runs calls
      /\ (p <= p')%Z
      /\ Forall (fun c => (p <= fst (fst c) < snd (fst c)
                           /\ snd (fst c) <= text_length node)%Z) calls.
Proof.
  induction runs as [| run runs IH]; intros node p Hp; cbn [fold_left].
  - exists [], p. rewrite app_nil_r. destruct node.
    repeat split; try lia; constructor.
  - destruct (Z.lt_ge_cases p (text_length node)) as [Hlt | Hge].
    + destruct (applyRun_step node p run ltac:(lia)) as (e & E & R & B).
      rewrite E.
      destruct (IH (mkTextNode (characters node) (fontName node)
                      (rangeFonts node
                       ++ [(p, e, mkFont (run_family run) (run_style run))]))
                   (e + 1)%Z ltac:(lia))
        as (calls & p' & E' & W & Hp' & Hall).
      cbn [characters fontName rangeFonts] in E', W, Hall.
      exists ((p, e, mkFont (run_family run) (run_style run)) :: calls), p'.
      rewrite E', <- app_assoc.
      split; [reflexivity |].
      split; [apply Walk_apply; trivial; unfold text_length in *; lia |].
      split; [lia |].
      constructor.
      * cbn [fst snd]. lia.
      * eapply Forall_impl; [| exact Hall].
        intros c. unfold text_length. cbn [characters]. lia.
    + rewrite applyRun_past_end by lia.
      destruct (IH node p Hp) as (calls & p' & E' & W & Hp' & Hall).
      exists calls, p'.
      split; [exact E' |]. split; [| split; [exact Hp' | exact Hall]].
      apply Walk_skip; [exact Hge | exact W].
Qed.

Lemma first_delimiter_unique (text : string) (d : ascii) (from j1 j2 : Z) :
  first_delimiter text d from j1 -> first_delimiter text d from j2 ->
  j1 = j2.
Proof.
  intros (B1 & _ & G1 & N1) (B2 & _ & G2 & N2).
  destruct (Z.lt_trichotomy j1 j2) as [H | [H | H]]; [| exact H |].
  - exfalso. apply (N2 j1); [lia | exact G1].
  - exfalso. apply (N1 j2); [lia | exact G2].
Qed.

Lemma run_end_unique (text : string) (d : ascii) (p e1 e2 : Z) :
  run_end text d p e1 -> run_end text d p e2 -> e1 = e2.
Proof.
  intros [[F1 L1] | [C1 ->]] [[F2 L2] | [C2 ->]]; trivial.
  - exact (first_delimiter_unique _ _ _ _ _ F1 F2).
  - exfalso. destruct C2 as [N | F].
    + destruct F1 as (B & _ & G & _). apply (N e1); [lia | exact G].
    + pose proof (first_delimiter_unique _ _ _ _ _ F1 F). lia.
  - exfalso. destruct C1 as [N | F].
    + destruct F2 as (B & _ & G & _). apply (N e2); [lia | exact G].
    + pose proof (first_delimiter_unique _ _ _ _ _ F2 F). lia.
Qed.

(** The walk determines the calls. *)
Lemma Walk_deterministic (text : string) (p : Z) (runs : list FontRun)
      (calls1 calls2 : list (Z * Z * FontName)) :
  Walk text p runs calls1 -> Walk text p runs calls2 -> calls1 = calls2.
Proof.
  intros W1. revert calls2.
  induction W1 as [p | p run runs calls Hp W IH | p e run runs calls Hp R W IH];
    intros calls2 W2; inversion W2; subst; trivial; try lia.
  - now apply IH.
  - match goal with
    | H : run_end _ _ _ ?e' |- _ =>
        pose proof (run_end_unique _ _ _ _ _ R H); subst e'
    end.
    f_equal. now apply IH.
Qed.

(** C6, as amended.  After the fallback font is set and the text is
    overwritten, the runs are walked in order with a cursor starting at
    [0]; a run met while the cursor is below the length of the new text
    ends at the first occurrence of its delimiter at or after the cursor
    when that occurrence lies strictly after the cursor, and at the
    length of the text otherwise (no occurrence, or the cursor is on the
    delimiter); its font is assigned to the range from the cursor to that
    end, and the cursor moves to the end plus one. *)
Theorem smart_walk_follows_delimiters :
  forall (rangeTree : list FontRun) (node : TextNode)
         (newCharacters : string) (fallbackFont : FontName),
  exists calls,
    setCharactersWithSmartMatchFont rangeTree node newCharacters fallbackFont
    = (true, mkTextNode newCharacters fallbackFont calls)
    /\ Walk newCharacters 0 rangeTree calls
    /\ forall calls', Walk newCharacters 0 rangeTree calls' -> calls' = calls.
Proof.
  intros rangeTree node newCharacters fallbackFont.
  unfold setCharactersWithSmartMatchFont.
  destruct (walk_spec rangeTree (mkTextNode newCharacters fallbackFont [])
                      0%Z ltac:(lia)) as (calls & p' & E & W & _).
  rewrite E. exists calls. split; [reflexivity |]. split; [exact W |].
  intros calls' W'. exact (Walk_deterministic _ _ _ _ _ W' W).
Qed.

Lemma smart_walk_follows_delimiters_witness :
  let bold := mkRun "Inter" "Bold" "010" in
  let italic := mkRun "Inter" "Italic" " " in
  let regular := mkFont "Inter" "Regular" in
  let text := String.append "AB" (String "010" "C D") in
  let calls := [(0%Z, 2%Z, mkFont "Inter" "Bold");
                (3%Z, 4%Z, mkFont "Inter" "Italic")] in
  Walk text 0 [bold; italic] calls
  /\ snd (setCharactersWithSmartMatchFont [bold; italic]
                                          (mkTextNode "ab" regular [])
                                          text regular)
     = mkTextNode text regular calls.
Proof.
  intros bold italic regular text calls.
  assert (W : Walk text 0 [bold; italic] calls).
  { apply (Walk_apply text 0 2 bold); [cbn; lia | |].
    - left. split; [| lia].
      split; [lia |]. split; [cbn; lia |]. split; [reflexivity |].
      intros k Hk. assert (Ek : k = 0%Z \/ k = 1%Z) by lia.
      destruct Ek as [-> | ->]; discriminate.
    - apply (Walk_apply text 3 4 italic); [cbn; lia | | apply Walk_done].
      left. split; [| lia].
      split; [lia |]. split; [cbn; lia |]. split; [reflexivity |].
      intros k Hk. assert (Ek : k = 3%Z) by lia. subst k. discriminate. }
  split; [exact W |].
  destruct (smart_walk_follows_delimiters
              [bold; italic] (mkTextNode "ab" regular []) text regular)
    as (calls' & E & _ & U).
  rewrite E. cbn [snd]. f_equal. symmetry. exact (U calls W).
Defined.

(** C6 as first stated does not hold: with the new text [" A"] and one
    run whose delimiter is the space, the delimiter sits on the cursor at
    [0]; the source assigns the range [[0, 2)], not the range ending at
    the delimiter. *)
Lemma delimiter_on_cursor_runs_to_end :
  let run := mkRun "Inter" "Bold" " " in
  let regular := mkFont "Inter" "Regular" in
  let result :=
    snd (setCharactersWithSmartMatchFont [run] (mkTextNode "x y" regular [])
                                         " A" regular) in
  rangeFonts result = [(0%Z, 2%Z, mkFont "Inter" "Bold")]
  /\ first_delimiter " A" " " 0 0
  /\ ~ StatedWalk " A" 0 [run] (rangeFonts result).
Proof.
  intros run regular result. split; [reflexivity |]. split.
  - unfold first_delimiter. simpl. repeat split; try lia.
  - change (rangeFonts result) with [(0%Z, 2%Z, mkFont "Inter" "Bold")].
    intros H. inversion H as [| p e r rs calls S _]; subst.
    destruct S as [(_ & B & _) | [N _]].
    + simpl in B. lia.
    + apply (N 0%Z); [lia | reflexivity].
Qed.

(** C10.  A recorded run is applied only while the cursor is below the
    length of the new text: with the cursor at or past the end the round
    changes neither the node nor the cursor, so once a prefix of the runs
    has moved the cursor there, the remaining runs are passed over and
    the outcome is that of the prefix alone.  Every range assigned lies
    within the new text and is not empty, and the function returns
    [true]. *)
Theorem runs_past_the_text_are_skipped :
  forall (rangeTree : list FontRun) (node : TextNode)
         (newCharacters : string) (fallbackFont : FontName),
    let len := Z.of_nat (String.length newCharacters) in
    let result :=
      setCharactersWithSmartMatchFont rangeTree node newCharacters
                                      fallbackFont in
    fst result = true
    /\ Forall (fun c => (0 <= fst (fst c) < snd (fst c)
                         /\ snd (fst c) <= len)%Z)
              (rangeFonts (snd result))
    /\ length (rangeFonts (snd result)) <= length rangeTree
    /\ (forall (nd : TextNode) (p : Z) (run : FontRun),
           (text_length nd <= p)%Z -> applyRun (nd, p) run = (nd, p))
    /\ (forall runs1 runs2 : list FontRun,
           rangeTree = runs1 ++ runs2 ->
           (len <= snd (fold_left applyRun runs1
                          (mkTextNode newCharacters fallbackFont [], 0%Z)))%Z ->
           result
           = setCharactersWithSmartMatchFont runs1 node newCharacters
                                             fallbackFont).
Proof.
  intros rangeTree node newCharacters fallbackFont len result.
  subst result. unfold setCharactersWithSmartMatchFont.
  destruct (walk_spec rangeTree (mkTextNode newCharacters fallbackFont [])
                      0%Z ltac:(lia)) as (calls & p' & E & W & _ & Hall).
  rewrite E. cbn [fst snd rangeFonts app].
  split; [reflexivity |]. split; [exact Hall |]. split.
  { clear E Hall. induction W; simpl in *; lia. }
  split; [exact applyRun_past_end |].
  intros runs1 runs2 -> Hpast.
  rewrite fold_left_app in E.
  destruct (walk_spec runs1 (mkTextNode newCharacters fallbackFont [])
                      0%Z ltac:(lia)) as (calls1 & p1 & E1 & _).
  rewrite E1 in *. cbn [snd] in Hpast.
  rewrite walk_past_end in E by exact Hpast.
  injection E as <- _. reflexivity.
Qed.

Lemma runs_past_the_text_are_skipped_witness :
  let bold := mkRun "Inter" "Bold" "010" in
  let italic := mkRun "Inter" "Italic" " " in
  let regular := mkFont "Inter" "Regular" in
  let node := mkTextNode "ab cd" regular [] in
  snd (fold_left applyRun [bold]
                 (mkTextNode "AB" regular [], 0%Z)) = 3%Z
  /\ setCharactersWithSmartMatchFont [bold; italic] node "AB" regular
     = setCharactersWithSmartMatchFont [bold] node "AB" regular
  /\ rangeFonts (snd (setCharactersWithSmartMatchFont [bold; italic] node
                                                      "AB" regular))
     = [(0%Z, 2%Z, mkFont "Inter" "Bold")].
Proof.
  intros bold italic regular node.
  split; [reflexivity |]. split; [| reflexivity].
  refine (proj2 (proj2 (proj2 (proj2
            (runs_past_the_text_are_skipped [bold; italic] node "AB"
                                            regular))))
            [bold] [italic] eq_refl _).
  vm_compute. discriminate.
Defined.

(** ** Numbers *)

Lemma pow2_pos (e : Z) : (0 < 2 ^ e)%Q.
Proof. apply Qpower_0_lt. reflexivity. Qed.

Lemma pow2_plus (a b : Z) : (2 ^ (a + b) == 2 ^ a * 2 ^ b)%Q.
Proof. apply Qpower_plus. discriminate. Qed.

Lemma pow2_le (a b : Z) : (a <= b)%Z -> (2 ^ a <= 2 ^ b)%Q.
Proof. intros H. apply Qpower_le_compat_l; [exact H | discriminate]. Qed.

Lemma pow2_succ (a : Z) : (2 ^ (a + 1) == 2 * 2 ^ a)%Q.
Proof. rewrite pow2_plus. change (2 ^ 1)%Q with 2%Q. ring. Qed.

Lemma pow2_Z (a : Z) : (0 <= a)%Z -> (inject_Z (2 ^ a) == 2 ^ a)%Q.
Proof. intros H. now rewrite Zpower_Qpower. Qed.

(** [x] as its numerator over its denominator. *)
Lemma Q_as_quotient (x : Q) :
  (x == inject_Z (Qnum x) / inject_Z (Zpos (Qden x)))%Q.
Proof.
  destruct x as [n d]. cbn [Qnum Qden].
  rewrite Qmake_Qdiv. reflexivity.
Qed.

Lemma ilog2_spec (x : Q) :
  (0 < x)%Q -> (2 ^ ilog2 x <= x)%Q /\ (x < 2 ^ (ilog2 x + 1))%Q.
Proof.
  intros Hx. unfold ilog2.
  set (n := Qnum x). set (d := Zpos (Qden x)).
  assert (Hn : (0 < n)%Z).
  { destruct x as [xn xd]. unfold Qlt in Hx. cbn in *. subst n. lia. }
  assert (Hd : (0 < d)%Z) by (subst d; lia).
  destruct (Z.log2_spec n Hn) as [Ln Un].
  destruct (Z.log2_spec d Hd) as [Ld Ud].
  pose proof (Z.log2_nonneg n) as Nn. pose proof (Z.log2_nonneg d) as Nd.
  set (a := Z.log2 n) in *. set (b := Z.log2 d) in *.
  assert (Ex : (x == inject_Z n / inject_Z d)%Q) by apply Q_as_quotient.
  assert (Qd : (0 < inject_Z d)%Q).
  { change 0%Q with (inject_Z 0). now rewrite <- Zlt_Qlt. }
  (* bounds of the numerator and the denominator as rationals *)
  assert (Ln' : (2 ^ a <= inject_Z n)%Q).
  { rewrite <- pow2_Z by exact Nn. now rewrite <- Zle_Qle. }
  assert (Un' : (inject_Z n < 2 * 2 ^ a)%Q).
  { rewrite <- pow2_succ, <- pow2_Z by lia. rewrite <- Zlt_Qlt.
    now rewrite <- Z.add_1_r in Un. }
  assert (Ld' : (2 ^ b <= inject_Z d)%Q).
  { rewrite <- pow2_Z by exact Nd. now rewrite <- Zle_Qle. }
  assert (Ud' : (inject_Z d < 2 * 2 ^ b)%Q).
  { rewrite <- pow2_succ, <- pow2_Z by lia. rewrite <- Zlt_Qlt.
    now rewrite <- Z.add_1_r in Ud. }
  assert (Eab : (2 ^ a == 2 ^ (a - b) * 2 ^ b)%Q).
  { rewrite <- pow2_plus. now replace (a - b + b)%Z with a by lia. }
  pose proof (pow2_pos (a - b)) as Pab. pose proof (pow2_pos b) as Pb.
  (* x < 2^(a-b+1) and 2^(a-b-1) <= x *)
  assert (Hup : (x < 2 * 2 ^ (a - b))%Q).
  { rewrite Ex. apply Qlt_shift_div_r; [exact Qd |].
    apply Qlt_le_trans with (2 * 2 ^ a)%Q; [exact Un' |].
    rewrite Eab. nra. }
  assert (Hlo : (2 ^ (a - b) <= 2 * x)%Q).
  { rewrite Ex. unfold Qdiv. rewrite Qmult_assoc.
    apply Qle_shift_div_l; [exact Qd |].
    apply Qle_trans with (2 ^ (a - b) * (2 * 2 ^ b))%Q; [nra |].
    setoid_replace (2 ^ (a - b) * (2 * 2 ^ b))%Q
      with (2 * 2 ^ a)%Q by (rewrite Eab; ring).
    nra. }
  destruct (Qle_bool (2 ^ (a - b)) x) eqn:E.
  - apply Qle_bool_iff in E. split; [exact E |].
    now rewrite pow2_succ.
  - assert (Hlt : (x < 2 ^ (a - b))%Q).
    { apply Qnot_le_lt. intro H. apply Qle_bool_iff in H. congruence. }
    replace (a - b - 1 + 1)%Z with (a - b)%Z by lia.
    split; [| exact Hlt].
    assert (E2 : (2 ^ (a - b) == 2 * 2 ^ (a - b - 1))%Q).
    { rewrite <- pow2_succ. now replace (a - b - 1 + 1)%Z with (a - b)%Z
        by lia. }
    rewrite E2 in Hlo. lra.
Qed.

Lemma ilog2_unique (x : Q) (l : Z) :
  (2 ^ l <= x)%Q -> (x < 2 ^ (l + 1))%Q -> ilog2 x = l.
Proof.
  intros L U.
  assert (Hx : (0 < x)%Q) by (pose proof (pow2_pos l); lra).
  destruct (ilog2_spec x Hx) as [L' U'].
  destruct (Z.lt_trichotomy (ilog2 x) l) as [H | [H | H]]; [| exact H |].
  - pose proof (pow2_le (ilog2 x + 1) l ltac:(lia)). lra.
  - pose proof (pow2_le (l + 1) (ilog2 x) ltac:(lia)). lra.
Qed.

Lemma ilog2_comp (x y : Q) : (0 < x)%Q -> (x == y)%Q -> ilog2 x = ilog2 y.
Proof.
  intros Hx E. symmetry. destruct (ilog2_spec x Hx) as [L U].
  apply ilog2_unique; rewrite <- E; assumption.
Qed.

Lemma ilog2_mono (x y : Q) :
  (0 < x)%Q -> (x <= y)%Q -> (ilog2 x <= ilog2 y)%Z.
Proof.
  intros Hx H.
  destruct (ilog2_spec x Hx) as [L U].
  destruct (ilog2_spec y ltac:(lra)) as [L' U'].
  destruct (Z_le_gt_dec (ilog2 x) (ilog2 y)) as [Hle | Hgt]; [exact Hle |].
  pose proof (pow2_le (ilog2 y + 1) (ilog2 x) ltac:(lia)). lra.
Qed.

Lemma round_half_even_cases (x : Q) :
  round_half_even x = Qfloor x \/ round_half_even x = (Qfloor x + 1)%Z.
Proof.
  unfold round_half_even.
  destruct (Qcompare _ _); [destruct (Z.even _) | |]; auto.
Qed.

Lemma round_half_even_comp (x y : Q) :
  (x == y)%Q -> round_half_even x = round_half_even y.
Proof.
  intros E. unfold round_half_even.
  rewrite (Qfloor_comp x y E).
  assert (E' : (x - inject_Z (Qfloor y) == y - inject_Z (Qfloor y))%Q)
    by now rewrite E.
  now rewrite (Qcompare_comp _ _ E' (1 # 2) (1 # 2) (Qeq_refl _)).
Qed.

Lemma round_half_even_Z (z : Z) : round_half_even (inject_Z z) = z.
Proof.
  unfold round_half_even. rewrite Qfloor_Z.
  assert (E : (inject_Z z - inject_Z z ?= 1 # 2)%Q = Lt).
  { rewrite <- Qlt_alt. generalize (inject_Z z). intros q. lra. }
  now rewrite E.
Qed.

Lemma round_half_even_mono (x y : Q) :
  (x <= y)%Q -> (round_half_even x <= round_half_even y)%Z.
Proof.
  intros H.
  pose proof (Qfloor_resp_le x y H) as Hf.
  destruct (Z.eq_dec (Qfloor x) (Qfloor y)) as [E | Hne].
  - unfold round_half_even. rewrite E.
    generalize dependent (inject_Z (Qfloor y)). intros f.
    destruct (Qcompare_spec (x - f) (1 # 2)) as [A | A | A];
      destruct (Qcompare_spec (y - f) (1 # 2))
        as [B | B | B];
      try destruct (Z.even (Qfloor y)); try lia; exfalso; lra.
  - destruct (round_half_even_cases x) as [-> | ->];
      destruct (round_half_even_cases y) as [-> | ->]; lia.
Qed.

(** The rounding of a positive number stays in its binade. *)
Lemma nearest_above_zero_binade (x : Q) :
  (0 < x)%Q ->
  (2 ^ ilog2 x <= nearest_above_zero x)%Q
  /\ (nearest_above_zero x <= 2 ^ (ilog2 x + 1))%Q.
Proof.
  intros Hx. destruct (ilog2_spec x Hx) as [L U].
  unfold nearest_above_zero.
  set (l := ilog2 x) in *. set (ulp := (2 ^ (l - 52))%Q).
  pose proof (pow2_pos (l - 52)) as Pu. fold ulp in Pu.
  assert (El : (2 ^ l == inject_Z (2 ^ 52) * ulp)%Q).
  { rewrite pow2_Z by lia. unfold ulp. rewrite <- pow2_plus.
    now replace (52 + (l - 52))%Z with l by lia. }
  assert (Eu : (2 ^ (l + 1) == inject_Z (2 ^ 53) * ulp)%Q).
  { rewrite pow2_Z by lia. unfold ulp. rewrite <- pow2_plus.
    now replace (53 + (l - 52))%Z with (l + 1)%Z by lia. }
  assert (Lq : (inject_Z (2 ^ 52) <= x / ulp)%Q).
  { apply Qle_shift_div_l; [exact Pu |]. now rewrite <- El. }
  assert (Uq : (x / ulp <= inject_Z (2 ^ 53))%Q).
  { apply Qle_shift_div_r; [exact Pu |]. rewrite <- Eu. lra. }
  apply round_half_even_mono in Lq, Uq.
  rewrite round_half_even_Z in Lq, Uq.
  rewrite El, Eu. split.
  - apply Qmult_le_compat_r; [now rewrite <- Zle_Qle | lra].
  - apply Qmult_le_compat_r; [now rewrite <- Zle_Qle | lra].
Qed.

Lemma nearest_above_zero_pos (x : Q) :
  (0 < x)%Q -> (0 < nearest_above_zero x)%Q.
Proof.
  intros Hx. destruct (nearest_above_zero_binade x Hx) as [L _].
  pose proof (pow2_pos (ilog2 x)). lra.
Qed.

Lemma nearest_above_zero_comp (x y : Q) :
  (0 < x)%Q -> (x == y)%Q ->
  (nearest_above_zero x == nearest_above_zero y)%Q.
Proof.
  intros Hx E. unfold nearest_above_zero.
  rewrite <- (ilog2_comp x y Hx E).
  assert (E' : (x / 2 ^ (ilog2 x - 52) == y / 2 ^ (ilog2 x - 52))%Q)
    by (unfold Qdiv; apply Qmult_comp; [exact E | reflexivity]).
  now rewrite (round_half_even_comp _ _ E').
Qed.

Lemma nearest_above_zero_mono (x y : Q) :
  (0 < x)%Q -> (x <= y)%Q ->
  (nearest_above_zero x <= nearest_above_zero y)%Q.
Proof.
  intros Hx H.
  assert (Hy : (0 < y)%Q) by lra.
  pose proof (ilog2_mono x y Hx H) as Hl.
  destruct (Z.eq_dec (ilog2 x) (ilog2 y)) as [E | Hne].
  - unfold nearest_above_zero. rewrite E.
    pose proof (pow2_pos (ilog2 y - 52)) as Pu.
    apply Qmult_le_compat_r; [| lra].
    rewrite <- Zle_Qle. apply round_half_even_mono.
    apply Qmult_le_compat_r; [exact H |].
    apply Qlt_le_weak, Qinv_lt_0_compat, Pu.
  - destruct (nearest_above_zero_binade x Hx) as [_ U].
    destruct (nearest_above_zero_binade y Hy) as [L _].
    pose proof (pow2_le (ilog2 x + 1) (ilog2 y) ltac:(lia)). lra.
Qed.

(** Equal rationals round to equal numbers. *)
Lemma binary64_comp (x y : Q) : (x == y)%Q -> (binary64 x == binary64 y)%Q.
Proof.
  intros E. unfold binary64.
  rewrite (Qcompare_comp x y E 0%Q 0%Q (Qeq_refl 0%Q)).
  destruct (Qcompare_spec y 0) as [H | H | H].
  - reflexivity.
  - apply Qopp_comp, nearest_above_zero_comp; [lra | now rewrite E].
  - apply nearest_above_zero_comp; [lra | exact E].
Qed.

(** Rounding keeps the order. *)
Lemma binary64_mono (x y : Q) : (x <= y)%Q -> (binary64 x <= binary64 y)%Q.
Proof.
  intros H. unfold binary64.
  destruct (Qcompare_spec x 0) as [Hx | Hx | Hx];
    destruct (Qcompare_spec y 0) as [Hy | Hy | Hy]; try lra.
  - pose proof (nearest_above_zero_pos y Hy). lra.
  - pose proof (nearest_above_zero_pos (- x) ltac:(lra)). lra.
  - pose proof (nearest_above_zero_mono (- y) (- x) ltac:(lra) ltac:(lra)).
    lra.
  - pose proof (nearest_above_zero_pos (- x) ltac:(lra)).
    pose proof (nearest_above_zero_pos y Hy). lra.
  - now apply nearest_above_zero_mono.
Qed.

(** An integer of at most 53 bits is a number. *)
Lemma nearest_above_zero_Z (z : Z) :
  (0 < z < 2 ^ 53)%Z -> (nearest_above_zero (inject_Z z) == inject_Z z)%Q.
Proof.
  intros [Hz Hu].
  destruct (Z.log2_spec z Hz) as [L U].
  pose proof (Z.log2_nonneg z) as N.
  assert (H52 : (Z.log2 z <= 52)%Z).
  { destruct (Z_le_gt_dec (Z.log2 z) 52) as [H | H]; [exact H |].
    pose proof (Z.pow_le_mono_r 2 53 (Z.log2 z) ltac:(lia) ltac:(lia)).
    lia. }
  assert (El : ilog2 (inject_Z z) = Z.log2 z).
  { apply ilog2_unique.
    - rewrite <- pow2_Z by exact N. now rewrite <- Zle_Qle.
    - rewrite <- pow2_Z by lia. rewrite <- Zlt_Qlt.
      now rewrite Z.add_1_r. }
  unfold nearest_above_zero. rewrite El.
  set (s := (52 - Z.log2 z)%Z).
  pose proof (pow2_pos (Z.log2 z - 52)) as Pu.
  assert (Es : (inject_Z (2 ^ s) * 2 ^ (Z.log2 z - 52) == 1)%Q).
  { rewrite pow2_Z by (subst s; lia). rewrite <- pow2_plus.
    now replace (s + (Z.log2 z - 52))%Z with 0%Z by (subst s; lia). }
  assert (Eq : (inject_Z z / 2 ^ (Z.log2 z - 52) == inject_Z (z * 2 ^ s))%Q).
  { assert (Ei : (/ 2 ^ (Z.log2 z - 52) == inject_Z (2 ^ s))%Q).
    { apply (Qmult_inj_r _ _ (2 ^ (Z.log2 z - 52))); [lra |].
      rewrite Es, Qmult_comm. apply Qmult_inv_r. lra. }
    unfold Qdiv. now rewrite Ei, inject_Z_mult. }
  rewrite (round_half_even_comp _ _ Eq), round_half_even_Z.
  rewrite inject_Z_mult, <- Qmult_assoc, Es. ring.
Qed.

Lemma binary64_Z (z : Z) :
  (Z.abs z < 2 ^ 53)%Z -> (binary64 (inject_Z z) == inject_Z z)%Q.
Proof.
  intros H. unfold binary64.
  destruct (Qcompare_spec (inject_Z z) 0) as [E | E | E].
  - now rewrite E.
  - assert (Hz : (z < 0)%Z) by (rewrite Zlt_Qlt; exact E).
    assert (E' : (- inject_Z z == inject_Z (- z))%Q)
      by now rewrite inject_Z_opp.
    assert (P : (0 < - inject_Z z)%Q)
      by (revert E; generalize (inject_Z z); intros q E; lra).
    rewrite (nearest_above_zero_comp _ _ P E').
    rewrite nearest_above_zero_Z by lia. rewrite inject_Z_opp. ring.
  - assert (Hz : (0 < z)%Z) by (rewrite Zlt_Qlt; exact E).
    apply nearest_above_zero_Z. lia.
Qed.

Lemma binary64_between (x : Q) (a b : Z) :
  (Z.abs a < 2 ^ 53)%Z -> (Z.abs b < 2 ^ 53)%Z ->
  (inject_Z a <= x <= inject_Z b)%Q ->
  (inject_Z a <= binary64 x <= inject_Z b)%Q.
Proof.
  intros Ha Hb [L U]. split.
  - rewrite <- (binary64_Z a Ha). now apply binary64_mono.
  - rewrite <- (binary64_Z b Hb). now apply binary64_mono.
Qed.

(** ** Progress percentages *)

Lemma Math_round_mono (x y : Q) :
  (x <= y)%Q -> (Math_round x <= Math_round y)%Z.
Proof.
  intros H. unfold Math_round. apply Qfloor_resp_le.
  apply Qplus_le_compat; [exact H | apply Qle_refl].
Qed.

Lemma chunk_ratio_mono (k k' n : nat) :
  k <= k' ->
  (inject_Z (Z.of_nat k) / inject_Z (Z.of_nat n)
   <= inject_Z (Z.of_nat k') / inject_Z (Z.of_nat n))%Q.
Proof.
  intros H. unfold Qdiv. apply Qmult_le_compat_r.
  - rewrite <- Zle_Qle. lia.
  - apply Qinv_le_0_compat. change 0%Q with (inject_Z 0).
    rewrite <- Zle_Qle. lia.
Qed.

Lemma chunk_ratio_bounds (k n : nat) :
  0 < n -> k <= n ->
  (0 <= inject_Z (Z.of_nat k) / inject_Z (Z.of_nat n) <= 1)%Q.
Proof.
  intros Hn Hk.
  assert (Hpos : (0 < inject_Z (Z.of_nat n))%Q).
  { change 0%Q with (inject_Z 0). rewrite <- Zlt_Qlt. lia. }
  split.
  - apply Qle_shift_div_l; [exact Hpos |]. rewrite Qmult_0_l.
    change 0%Q with (inject_Z 0). rewrite <- Zle_Qle. lia.
  - apply Qle_shift_div_r; [exact Hpos |]. rewrite Qmult_1_l.
    rewrite <- Zle_Qle. lia.
Qed.

Lemma chunkProgress_mono (k k' n : nat) :
  k <= k' -> (chunkProgress k n <= chunkProgress k' n)%Z.
Proof.
  intros H. unfold chunkProgress. apply Math_round_mono, binary64_mono.
  apply Qplus_le_compat; [apply Qle_refl |]. apply binary64_mono.
  apply Qmult_le_compat_r; [| discriminate].
  now apply binary64_mono, chunk_ratio_mono.
Qed.

Lemma chunkProgress_bounds (k n : nat) :
  0 < n -> k <= n -> (5 <= chunkProgress k n <= 95)%Z.
Proof.
  intros Hn Hk. unfold chunkProgress.
  pose proof (binary64_between _ 0 1 ltac:(cbn; lia) ltac:(cbn; lia)
                (chunk_ratio_bounds k n Hn Hk)) as Hr.
  set (r := binary64 (inject_Z (Z.of_nat k) / inject_Z (Z.of_nat n))) in *.
  clearbody r.
  assert (Hp : (inject_Z 0 <= r * 90 <= inject_Z 90)%Q).
  { change (inject_Z 0) with 0%Q in *. change (inject_Z 1) with 1%Q in Hr.
    change (inject_Z 90) with 90%Q. lra. }
  apply (binary64_between _ 0 90 ltac:(cbn; lia) ltac:(cbn; lia)) in Hp.
  set (p := binary64 (r * 90)) in *. clearbody p.
  assert (Hs : (inject_Z 5 <= 5 + p <= inject_Z 95)%Q).
  { change (inject_Z 0) with 0%Q in Hp. change (inject_Z 90) with 90%Q in Hp.
    change (inject_Z 5) with 5%Q. change (inject_Z 95) with 95%Q. lra. }
  apply (binary64_between _ 5 95 ltac:(cbn; lia) ltac:(cbn; lia)) in Hs.
  destruct Hs as [L U]. split.
  - change 5%Z with (Math_round (inject_Z 5)). now apply Math_round_mono.
  - change 95%Z with (Math_round (inject_Z 95)). now apply Math_round_mono.
Qed.

(** ** The batch commands *)

Lemma count_fold (rs : list ItemResult) :
  forall t,
    results (fold_left count rs t) = results t ++ rs
    /\ successCount (fold_left count rs t) = successCount t + successes rs
    /\ failureCount (fold_left count rs t) = failureCount t + failures rs.
Proof.
  unfold successes, failures.
  induction rs as [| r rs IH]; intros t; simpl.
  - rewrite app_nil_r. repeat split; lia.
  - destruct (IH (count t r)) as (E1 & E2 & E3).
    rewrite E1, E2, E3. unfold count.
    destruct (success r); simpl; rewrite <- app_assoc; simpl;
      repeat split; lia.
Qed.

Lemma successes_failures (rs : list ItemResult) :
  successes rs + failures rs = length rs.
Proof.
  unfold successes, failures.
  induction rs as [| r rs IH]; simpl; [reflexivity |].
  destruct (success r); simpl; lia.
Qed.

Lemma successes_app (rs rs' : list ItemResult) :
  successes (rs ++ rs') = successes rs + successes rs'.
Proof. unfold successes. now rewrite filter_app, length_app. Qed.

Lemma failures_app (rs rs' : list ItemResult) :
  failures (rs ++ rs') = failures rs + failures rs'.
Proof. unfold failures. now rewrite filter_app, length_app. Qed.

Lemma round_percentages_step (nchunks first rounds : nat) :
  round_percentages nchunks first (S rounds)
  = chunkProgress first nchunks :: chunkProgress (first + 1) nchunks
    :: round_percentages nchunks (S first) rounds.
Proof. reflexivity. Qed.

(** The percentages of a run, [0], [5], those of the rounds and [100],
    never go down. *)
Lemma round_percentages_sorted (nchunks : nat) :
  forall rounds first,
    first + rounds <= nchunks ->
    Sorted Z.le (round_percentages nchunks first rounds ++ [100%Z])
    /\ forall x, (x <= 5)%Z ->
         HdRel Z.le x (round_percentages nchunks first rounds ++ [100%Z]).
Proof.
  induction rounds as [| rounds IH]; intros first H.
  - split; [repeat constructor |].
    intros x Hx. constructor. lia.
  - rewrite round_percentages_step.
    destruct (IH (S first) ltac:(lia)) as [S1 H1].
    pose proof (chunkProgress_bounds first nchunks ltac:(lia) ltac:(lia)).
    pose proof (chunkProgress_mono first (first + 1) nchunks ltac:(lia)).
    split.
    + simpl. constructor; [constructor; [exact S1 |] | constructor; lia].
      destruct rounds as [| rounds].
      * simpl.
        pose proof (chunkProgress_bounds (first + 1) nchunks
                      ltac:(lia) ltac:(lia)).
        constructor. lia.
      * rewrite round_percentages_step. simpl. constructor.
        rewrite Nat.add_1_r. lia.
    + intros x Hx. simpl. constructor. lia.
Qed.

Lemma run_percentages_sorted (nchunks : nat) :
  Sorted Z.le (0%Z :: 5%Z :: round_percentages nchunks 0 nchunks ++ [100%Z]).
Proof.
  destruct (round_percentages_sorted nchunks nchunks 0 ltac:(lia)) as [S1 H1].
  constructor; [constructor; [exact S1 | apply H1; lia] |].
  constructor. lia.
Qed.

Lemma round_percentages_bounds (nchunks : nat) :
  forall rounds first,
    first + rounds <= nchunks ->
    Forall (fun x => (5 <= x <= 95)%Z)
           (round_percentages nchunks first rounds).
Proof.
  induction rounds as [| rounds IH]; intros first H.
  - constructor.
  - rewrite round_percentages_step.
    constructor; [apply chunkProgress_bounds; lia |].
    constructor; [apply chunkProgress_bounds; lia |].
    apply IH. lia.
Qed.

(** The index walk of [scanTextNodes] ends when the step is positive and
    when there is nothing to walk over, and in no other case. *)
Lemma scan_walk_ends (chunkSize totalNodes : Z) :
  (0 < chunkSize)%Z ->
  forall fuel i rounds,
    Z.to_nat (totalNodes - i) < fuel ->
    exists r, scan_walk fuel chunkSize totalNodes i rounds = Some r.
Proof.
  intros Hc. induction fuel as [| fuel IH]; intros i rounds Hf; [lia |].
  cbn [scan_walk]. destruct (Z.ltb_spec i totalNodes) as [Hi | Hi].
  - apply IH. lia.
  - eexists. reflexivity.
Qed.

Lemma scan_walk_stuck (chunkSize totalNodes : Z) :
  (chunkSize <= 0)%Z ->
  forall fuel i rounds,
    (i < totalNodes)%Z ->
    scan_walk fuel chunkSize totalNodes i rounds = None.
Proof.
  intros Hc. induction fuel as [| fuel IH]; intros i rounds Hi;
    [reflexivity |].
  cbn [scan_walk]. destruct (Z.ltb_spec i totalNodes) as [_ | H]; [| lia].
  apply IH. lia.
Qed.

Section BatchProperties.

Variable Host : Type.
Variable Value : Type.
Variable Fills : Type.
Variable highlightFills : Fills.
Variable generateCommandId : Host -> string * Host.
Variable getNodeByIdAsync : option string -> Host -> string + option SceneNode.
Variable remove : SceneNode -> Host -> string + Host.
Variable readFills : SceneNode -> Host -> string + Fills.
Variable writeFills : SceneNode -> Fills -> Host -> string + Host.
Variable setTextContent : string -> string -> Host -> option string * Host.
Variable nullReadMessage : string.
Variable otherHandler :
  string -> Params -> M Host Value (CommandResult Value).

Local Abbreviation send := (sendProgressUpdate Host Value).
Local Abbreviation progressOf := (@command_progress Value).

Lemma sendProgressUpdate_run (cmdId cmdType : string) (st : Status)
      (pct : Z) (total processed : nat) (pl : option Payload)
      (w : World Host Value) :
  send cmdId cmdType st pct total processed pl w
  = (Ok (buildUpdate cmdId cmdType st pct total processed pl),
     mkWorld (host w)
             (outbox w
              ++ [progressOf
                    (buildUpdate cmdId cmdType st pct total processed pl)])).
Proof. reflexivity. Qed.

(** Each item function returns a result for its item, whatever the host
    answers, and posts nothing. *)
Lemma deleteItem_settles (nodeId : string) (w : World Host Value) :
  exists r h,
    deleteItem Host Value getNodeByIdAsync remove nodeId w
    = (Ok r, mkWorld h (outbox w))
    /\ item_nodeId r = nodeId.
Proof.
  destruct w as [h0 out].
  unfold deleteItem, try_catch, bind, call, update, ret; simpl.
  destruct (getNodeByIdAsync (Some nodeId) h0) as [e | [nd |]]; simpl;
    eauto.
  destruct (remove nd h0) as [e | h1]; simpl; eauto.
Qed.

Lemma replaceItem_settles (replacement : Replacement)
      (w : World Host Value) :
  exists r h,
    replaceItem Host Value Fills highlightFills getNodeByIdAsync readFills
                writeFills setTextContent nullReadMessage (Some replacement)
                w
    = (Ok r, mkWorld h (outbox w))
    /\ item_nodeId r = or_else (r_nodeId replacement) "unknown".
Proof.
  destruct w as [h0 out]. unfold replaceItem.
  destruct (r_text replacement) as [text |];
    [| unfold ret; simpl; eauto].
  destruct (falsy (r_nodeId replacement)); [unfold ret; simpl; eauto |].
  unfold try_catch, bind, call, update, ret; simpl.
  destruct (getNodeByIdAsync _ h0) as [e | [nd |]]; simpl; eauto.
  destruct (isText nd); simpl; eauto.
  destruct (readFills nd h0) as [e | f]; simpl.
  - destruct (setTextContent _ text h0) as [[e' |] h1]; simpl; eauto.
  - destruct (writeFills nd highlightFills h0) as [e | h1]; simpl.
    + destruct (setTextContent _ text h0) as [[e' |] h2]; simpl; eauto.
      destruct (writeFills nd f h2) as [e'' | h3]; simpl; eauto.
    + destruct (setTextContent _ text h1) as [[e' |] h2]; simpl; eauto.
      destruct (writeFills nd f h2) as [e'' | h3]; simpl; eauto.
Qed.

Lemma mapM_settles {A K : Type} (f : A -> M Host Value ItemResult)
      (key : ItemResult -> K) (g : A -> K) :
  (forall a w, exists r h,
      f a w = (Ok r, mkWorld h (outbox w)) /\ key r = g a) ->
  forall l w, exists rs h,
      mapM Host Value f l w = (Ok rs, mkWorld h (outbox w))
      /\ map key rs = map g l.
Proof.
  intros Hf. induction l as [| a l IH]; intros w.
  - exists [], (host w). destruct w. split; reflexivity.
  - destruct (Hf a w) as (r & h & E & Hk).
    destruct (IH (mkWorld h (outbox w))) as (rs & h' & E' & Hks).
    exists (r :: rs), h'. cbn [mapM]. unfold bind at 1. rewrite E.
    unfold bind at 1. rewrite E'. simpl. now rewrite Hk, Hks.
Qed.

Lemma bind_Ok {A B : Type} (c : M Host Value A) (k : A -> M Host Value B)
      (w w' : World Host Value) (a : A) :
  c w = (Ok a, w') -> bind Host Value c k w = k a w'.
Proof. intros E. unfold bind. now rewrite E. Qed.

(** The chunk loop: every round posts its two events and adds one result
    per item of the chunk, in the order of the chunk. *)
Lemma processChunks_run {T K : Type} (cmdId cmdType : string)
      (f : T -> M Host Value ItemResult) (key : ItemResult -> K)
      (g : T -> K) (n nchunks : nat) :
  (forall a w, exists r h,
      f a w = (Ok r, mkWorld h (outbox w)) /\ key r = g a) ->
  forall rest idx t w,
    idx + length rest <= nchunks ->
    exists t' h evs rs,
      processChunks Host Value cmdId cmdType f n nchunks idx rest t w
      = (Ok t', mkWorld h (outbox w ++ map progressOf evs))
      /\ results t' = results t ++ rs
      /\ successCount t' = successCount t + successes rs
      /\ failureCount t' = failureCount t + failures rs
      /\ map key rs = map g (concat rest)
      /\ map progress evs = round_percentages nchunks idx (length rest)
      /\ Forall (fun u => status u = in_progress
                          /\ (5 <= progress u <= 95)%Z) evs.
Proof.
  intros Hf. induction rest as [| chunk rest IH]; intros idx t w Hidx.
  - exists t, (host w), [], []. destruct w as [h out]. simpl.
    rewrite !app_nil_r, !Nat.add_0_r. unfold ret. repeat split.
    constructor.
  - cbn [processChunks length] in *.
    erewrite bind_Ok by apply sendProgressUpdate_run.
    set (ev1 := buildUpdate cmdId cmdType in_progress
                  (chunkProgress idx nchunks) n
                  (successCount t + failureCount t)
                  (chunkPayload (idx + 1) nchunks t None)).
    destruct (mapM_settles f key g Hf chunk
                (mkWorld (host w) (outbox w ++ [progressOf ev1])))
      as (crs & h1 & E1 & K1).
    erewrite bind_Ok by exact E1.
    destruct (count_fold crs t) as (R1 & S1 & F1).
    set (t1 := fold_left count crs t) in *.
    erewrite bind_Ok by apply sendProgressUpdate_run.
    set (ev2 := buildUpdate cmdId cmdType in_progress
                  (chunkProgress (idx + 1) nchunks) n
                  (successCount t1 + failureCount t1)
                  (chunkPayload (idx + 1) nchunks t1 (Some crs))).
    cbn [host outbox].
    destruct (IH (S idx) t1
                 (mkWorld h1 ((outbox w ++ [progressOf ev1])
                              ++ [progressOf ev2])) ltac:(lia))
      as (t' & h & evs & rs & E & R & S2 & F2 & K2 & P & A).
    exists t', h, (ev1 :: ev2 :: evs), (crs ++ rs).
    rewrite E. cbn [outbox map concat].
    rewrite <- !app_assoc. cbn [app].
    split; [reflexivity |].
    split; [rewrite R, R1, app_assoc; reflexivity |].
    split; [rewrite S2, S1, successes_app; lia |].
    split; [rewrite F2, F1, failures_app; lia |].
    split; [rewrite !map_app, K1, K2; reflexivity |].
    split; [rewrite round_percentages_step, <- P; reflexivity |].
    constructor;
      [split; [reflexivity | apply chunkProgress_bounds; lia] |].
    constructor;
      [split; [reflexivity | apply chunkProgress_bounds; lia] |].
    exact A.
Qed.

(** A batch whose parameters are accepted runs to its end: it posts the
    events of a run and returns the summary of the results, one per
    item and in the order of the items. *)
Lemma runBatch_run {T K : Type} (cmdId cmdType : string)
      (f : T -> M Host Value ItemResult) (key : ItemResult -> K)
      (g : T -> K) (items : list T) (w : World Host Value) :
  (forall a w, exists r h,
      f a w = (Ok r, mkWorld h (outbox w)) /\ key r = g a) ->
  exists h rs chunks middle,
    let n := length items in
    let t := mkTally rs (successes rs) (failures rs) in
    let events :=
      buildUpdate cmdId cmdType started 0 n 0 (totalPayload n)
      :: (buildUpdate cmdId cmdType in_progress 5 n 0
                      (planPayload n (length chunks) CHUNK_SIZE)
          :: middle)
      ++ [buildUpdate cmdId cmdType completed 100 n
                      (successes rs + failures rs)
                      (donePayload n (length chunks) t)] in
    runBatch Host Value cmdId cmdType f items w
    = (Ok (BatchResult (0 <? successes rs) (successes rs) (failures rs)
                       n rs (length chunks) cmdId),
       mkWorld h (outbox w ++ map progressOf events))
    /\ split_loop (S n) CHUNK_SIZE items 0 [] = Some chunks
    /\ map key rs = map g items
    /\ successes rs + failures rs = n
    /\ progress_of_a_run events.
Proof.
  intros Hf.
  destruct (split_loop_partitions CHUNK_SIZE items
              ltac:(unfold CHUNK_SIZE; lia)) as (chunks & Ec & P).
  destruct P as (_ & _ & Hcat & _).
  unfold runBatch.
  erewrite bind_Ok by apply sendProgressUpdate_run.
  rewrite Ec.
  erewrite bind_Ok by apply sendProgressUpdate_run.
  cbn [host outbox].
  match goal with
  | |- context [bind _ _ (processChunks _ _ _ _ _ _ _ _ _ _) _ ?w0] =>
      destruct (processChunks_run cmdId cmdType f key g (length items)
                  (length chunks) Hf chunks 0 (mkTally [] 0 0) w0
                  ltac:(simpl; lia))
        as (t' & h & evs & rs & E & R & S1 & F1 & K1 & Pe & A)
  end.
  erewrite bind_Ok by exact E.
  erewrite bind_Ok by apply sendProgressUpdate_run.
  cbn [results successCount failureCount app Nat.add] in R, S1, F1.
  destruct t' as [res sc fc]. cbn [results successCount failureCount] in *.
  subst res sc fc.
  exists h, rs, chunks, evs. cbn zeta.
  assert (Hn : successes rs + failures rs = length items).
  { rewrite successes_failures, <- (length_map key), K1, Hcat, length_map.
    reflexivity. }
  split.
  { unfold ret. cbn [host outbox]. do 2 f_equal.
    rewrite <- !app_assoc. cbn [map app]. rewrite map_app. reflexivity. }
  split; [reflexivity |].
  split; [now rewrite K1, Hcat |].
  split; [exact Hn |].
  eexists _, _, _. split; [reflexivity |].
  split; [reflexivity |]. split; [reflexivity |].
  split.
  { constructor; [split; [reflexivity | cbn; lia] | exact A]. }
  split; [reflexivity |]. split; [reflexivity |].
  cbn [map app]. rewrite map_app, Pe. cbn [map progress buildUpdate].
  apply run_percentages_sorted.
Qed.

(** A batch over the list [map g items] is the batch over [items] of the
    item function that applies [g] first. *)
Lemma bind_ext {A B : Type} (c c' : M Host Value A)
      (k k' : A -> M Host Value B) (w : World Host Value) :
  c w = c' w -> (forall a w', k a w' = k' a w') ->
  bind Host Value c k w = bind Host Value c' k' w.
Proof.
  intros E H. unfold bind. rewrite E.
  destruct (c' w) as [[a | e |] w']; auto.
Qed.

Lemma slice_map {A B : Type} (g : A -> B) (l : list A) (b e : nat) :
  slice (map g l) b e = map g (slice l b e).
Proof. unfold slice. now rewrite skipn_map, firstn_map. Qed.

Lemma split_loop_map {A B : Type} (g : A -> B) (C : nat) (items : list A) :
  forall fuel i chunks,
    split_loop fuel C (map g items) i (map (map g) chunks)
    = option_map (map (map g)) (split_loop fuel C items i chunks).
Proof.
  induction fuel as [| fuel IH]; intros i chunks; [reflexivity |].
  cbn [split_loop]. rewrite length_map.
  destruct (i <? length items); [| reflexivity].
  rewrite <- IH, map_app, slice_map. reflexivity.
Qed.

Lemma mapM_map {A B C : Type} (g : A -> B) (f : B -> M Host Value C)
      (l : list A) :
  forall w,
    mapM Host Value f (map g l) w
    = mapM Host Value (fun a => f (g a)) l w.
Proof.
  induction l as [| a l IH]; intros w; [reflexivity |].
  cbn [map mapM]. apply bind_ext; [reflexivity | intros b w1].
  apply bind_ext; [apply IH | reflexivity].
Qed.

Lemma processChunks_map {A B : Type} (g : A -> B) (cmdId cmdType : string)
      (f : B -> M Host Value ItemResult) (n nchunks : nat) :
  forall rest idx t w,
    processChunks Host Value cmdId cmdType f n nchunks idx
                  (map (map g) rest) t w
    = processChunks Host Value cmdId cmdType (fun a => f (g a)) n nchunks
                    idx rest t w.
Proof.
  induction rest as [| chunk rest IH]; intros idx t w; [reflexivity |].
  cbn [map processChunks].
  apply bind_ext; [reflexivity | intros u1 w1].
  apply bind_ext; [apply mapM_map | intros crs w2].
  apply bind_ext; [reflexivity | intros u2 w3]. apply IH.
Qed.

Lemma runBatch_map {A B : Type} (g : A -> B) (cmdId cmdType : string)
      (f : B -> M Host Value ItemResult) (items : list A)
      (w : World Host Value) :
  runBatch Host Value cmdId cmdType f (map g items) w
  = runBatch Host Value cmdId cmdType (fun a => f (g a)) items w.
Proof.
  unfold runBatch. rewrite length_map.
  apply bind_ext; [reflexivity | intros u1 w1].
  pose proof (split_loop_map g CHUNK_SIZE items (S (length items)) 0 [])
    as E.
  cbn [map] in E. rewrite E.
  destruct (split_loop (S (length items)) CHUNK_SIZE items 0 [])
    as [chunks |]; cbn [option_map]; [| reflexivity].
  rewrite length_map.
  apply bind_ext; [reflexivity | intros u2 w2].
  apply bind_ext; [apply processChunks_map | reflexivity].
Qed.

(** A text array with an entry that is [null]: the item function throws
    on that entry, outside its own [try], and the error ends the chunk
    loop and the command ([Promise.all] rejects). *)
Lemma hasNull_false (text : list (option Replacement)) :
  hasNull text = false -> exists objs, text = map Some objs.
Proof.
  induction text as [| [r |] text IH]; cbn; intros H.
  - exists []. reflexivity.
  - destruct (IH H) as [objs ->]. exists (r :: objs). reflexivity.
  - discriminate.
Qed.

Lemma hasNull_map_Some (objs : list Replacement) :
  hasNull (map Some objs) = false.
Proof. induction objs as [| r objs IH]; [reflexivity | exact IH]. Qed.

Lemma replaceItem_null (w : World Host Value) :
  replaceItem Host Value Fills highlightFills getNodeByIdAsync readFills
              writeFills setTextContent nullReadMessage None w
  = (Throw nullReadMessage, w).
Proof. reflexivity. Qed.

Lemma mapM_replaceItem (chunk : list (option Replacement)) :
  forall w,
    if hasNull chunk
    then exists h,
        mapM Host Value
             (replaceItem Host Value Fills highlightFills getNodeByIdAsync
                          readFills writeFills setTextContent
                          nullReadMessage) chunk w
        = (Throw nullReadMessage, mkWorld h (outbox w))
    else exists rs h,
        mapM Host Value
             (replaceItem Host Value Fills highlightFills getNodeByIdAsync
                          readFills writeFills setTextContent
                          nullReadMessage) chunk w
        = (Ok rs, mkWorld h (outbox w)).
Proof.
  induction chunk as [| [r |] chunk IH]; intros w.
  - exists [], (host w). destruct w. reflexivity.
  - change (hasNull (Some r :: chunk)) with (hasNull chunk).
    destruct (replaceItem_settles r w) as (res & h & E & _).
    cbn [mapM]. erewrite bind_Ok by exact E.
    specialize (IH (mkWorld h (outbox w))). cbn [outbox] in IH.
    destruct (hasNull chunk).
    + destruct IH as (h' & E'). exists h'. unfold bind. now rewrite E'.
    + destruct IH as (rs & h' & E'). exists (res :: rs), h'.
      erewrite bind_Ok by exact E'. reflexivity.
  - change (hasNull (None :: chunk)) with true.
    exists (host w). destruct w. reflexivity.
Qed.

Lemma processChunks_null (cmdId cmdType : string) (n nchunks : nat) :
  forall rest idx t w,
    hasNull (concat rest) = true ->
    exists h evs,
      processChunks Host Value cmdId cmdType
        (replaceItem Host Value Fills highlightFills getNodeByIdAsync
                     readFills writeFills setTextContent nullReadMessage)
        n nchunks idx rest t w
      = (Throw nullReadMessage,
         mkWorld h (outbox w ++ map progressOf evs))
      /\ Forall (fun u => status u = in_progress) evs.
Proof.
  induction rest as [| chunk rest IH]; intros idx t w H; [discriminate |].
  cbn [concat] in H. unfold hasNull in H. rewrite existsb_app in H.
  fold (hasNull chunk) in H. fold (hasNull (concat rest)) in H.
  cbn [processChunks].
  erewrite bind_Ok by apply sendProgressUpdate_run.
  match goal with
  | |- context [bind _ _ (mapM _ _ _ chunk) _ ?w1] =>
      pose proof (mapM_replaceItem chunk w1) as Hm
  end.
  cbn [outbox] in Hm.
  destruct (hasNull chunk).
  - destruct Hm as (h & E). exists h. eexists [_].
    unfold bind at 1. rewrite E. split; [reflexivity |].
    constructor; [reflexivity | constructor].
  - destruct Hm as (rs & h & E). cbn [orb] in H.
    erewrite bind_Ok by exact E.
    erewrite bind_Ok by apply sendProgressUpdate_run.
    cbn [host outbox].
    match goal with
    | |- context [processChunks _ _ _ _ _ _ _ ?i1 rest ?t1 ?w1] =>
        destruct (IH i1 t1 w1 H) as (h' & evs & E' & A)
    end.
    exists h'. eexists (_ :: _ :: evs). rewrite E'. cbn [outbox].
    split.
    + f_equal. f_equal. rewrite <- !app_assoc. reflexivity.
    + constructor; [reflexivity |]. constructor; [reflexivity | exact A].
Qed.

Lemma runBatch_null (cmdId cmdType : string)
      (text : list (option Replacement)) (w0 w : World Host Value) :
  hasNull text = true -> outbox w = outbox w0 ->
  aborted_with w0 nullReadMessage
    (runBatch Host Value cmdId cmdType
       (replaceItem Host Value Fills highlightFills getNodeByIdAsync
                    readFills writeFills setTextContent nullReadMessage)
       text w).
Proof.
  intros H Hw.
  destruct (split_loop_partitions CHUNK_SIZE text
              ltac:(unfold CHUNK_SIZE; lia)) as (chunks & Ec & P).
  destruct P as (_ & _ & Hcat & _).
  unfold runBatch.
  erewrite bind_Ok by apply sendProgressUpdate_run.
  rewrite Ec.
  erewrite bind_Ok by apply sendProgressUpdate_run.
  cbn [host outbox].
  rewrite <- Hcat in H.
  match goal with
  | |- context [bind _ _ (processChunks _ _ _ _ _ _ _ _ _ _) _ ?w1] =>
      destruct (processChunks_null cmdId cmdType (length text)
                  (length chunks) chunks 0 (mkTally [] 0 0) w1 H)
        as (h & evs & E & A)
  end.
  unfold bind at 1. rewrite E. cbn [outbox].
  eexists _, (_ :: evs). cbn [fst snd outbox].
  split; [reflexivity |]. split.
  - rewrite Hw, <- !app_assoc. reflexivity.
  - split; [reflexivity |]. constructor; [reflexivity | exact A].
Qed.

(** The chunk loop of [scanTextNodes] ends when the chunk size is
    positive; it makes [ceil] of the remaining nodes over the chunk size
    rounds, posts the two events of each and counts every node. *)
Lemma scanChunks_run (cmdId : string) (chunkSz : nat)
      (nodes : list NodeDescriptor) (nchunks : nat) :
  0 < chunkSz ->
  forall fuel i processedNodes chunksProcessed allTextNodes w,
    length nodes - i < fuel ->
    chunksProcessed + ceil_div (length nodes - i) chunkSz <= nchunks ->
    exists evs allTextNodes',
      scanChunks Host Value fuel cmdId chunkSz nodes nchunks i processedNodes
                 chunksProcessed allTextNodes w
      = (Ok (processedNodes + (length nodes - i),
             chunksProcessed + ceil_div (length nodes - i) chunkSz,
             allTextNodes'),
         mkWorld (host w) (outbox w ++ map progressOf evs))
      /\ map progress evs
         = round_percentages nchunks chunksProcessed
                             (ceil_div (length nodes - i) chunkSz)
      /\ Forall (fun u => status u = in_progress
                          /\ (5 <= progress u <= 95)%Z) evs.
Proof.
  intros HC. induction fuel as [| fuel IH];
    intros i pn cp found w Hfuel Hn; [lia |].
  cbn [scanChunks]. destruct (i <? length nodes) eqn:Hi.
  - apply Nat.ltb_lt in Hi.
    rewrite (ceil_div_step (length nodes - i) chunkSz) in * by lia.
    erewrite bind_Ok by apply sendProgressUpdate_run.
    erewrite bind_Ok by apply sendProgressUpdate_run.
    cbn [host outbox].
    match goal with
    | |- context [scanChunks _ _ _ _ _ _ _ ?i1 ?pn1 ?cp1 ?found1 ?w1] =>
        destruct (IH i1 pn1 cp1 found1 w1) as (evs & found' & E & P & A)
    end.
    { lia. }
    { replace (length nodes - (i + chunkSz))
        with (length nodes - i - chunkSz) by lia. lia. }
    replace (length nodes - (i + chunkSz))
      with (length nodes - i - chunkSz) in * by lia.
    rewrite E. cbn [host outbox].
    eexists (_ :: _ :: evs), found'. split; [| split].
    + f_equal.
      * do 3 f_equal.
        -- rewrite slice_length. lia.
        -- lia.
      * f_equal. rewrite <- !app_assoc. reflexivity.
    + rewrite round_percentages_step. cbn [map progress buildUpdate].
      rewrite P. do 3 f_equal. lia.
    + constructor;
        [split; [reflexivity | apply chunkProgress_bounds; lia] |].
      constructor;
        [split; [reflexivity | apply chunkProgress_bounds; lia] |].
      exact A.
  - apply Nat.ltb_ge in Hi.
    replace (length nodes - i) with 0 by lia.
    rewrite ceil_div_0 by exact HC.
    exists [], found. destruct w as [h out]. unfold ret. cbn.
    rewrite !Nat.add_0_r, app_nil_r. repeat split. constructor.
Qed.

(** The rounds of the chunk loop of [scanTextNodes] work on the slices
    that its index walk cuts: the nodes counted and the text nodes found
    are those of these chunks, taken in order. *)
Lemma scanChunks_follows_scan_loop (cmdId : string) (chunkSz : nat)
      (nodes : list NodeDescriptor) (nchunks : nat) :
  0 < chunkSz ->
  forall fuel i processedNodes chunksProcessed allTextNodes chunks w,
    length nodes - i < fuel ->
    exists cs,
      scan_loop fuel chunkSz nodes i chunksProcessed chunks
      = Some (chunksProcessed + length cs, chunks ++ cs)
      /\ fst (scanChunks Host Value fuel cmdId chunkSz nodes nchunks i
                         processedNodes chunksProcessed allTextNodes w)
         = Ok (processedNodes + length (concat cs),
               chunksProcessed + length cs,
               allTextNodes ++ flat_map scanChunk cs).
Proof.
  intros HC. induction fuel as [| fuel IH];
    intros i pn cp found acc w Hfuel; [lia |].
  cbn [scanChunks scan_loop]. destruct (i <? length nodes) eqn:Hi.
  - apply Nat.ltb_lt in Hi.
    erewrite bind_Ok by apply sendProgressUpdate_run.
    erewrite bind_Ok by apply sendProgressUpdate_run.
    set (sl := slice nodes i (Nat.min (i + chunkSz) (length nodes))).
    match goal with
    | |- context [scanChunks _ _ _ _ _ _ _ ?i1 ?pn1 ?cp1 ?found1 ?w1] =>
        destruct (IH i1 pn1 cp1 found1 (acc ++ [sl]) w1 ltac:(lia))
          as (cs & E1 & E2)
    end.
    exists (sl :: cs). rewrite E2.
    replace (S cp) with (cp + 1) by lia. rewrite E1.
    cbn [length concat flat_map]. rewrite length_app, <- !app_assoc.
    split.
    + f_equal. f_equal; try reflexivity; lia.
    + f_equal. f_equal; try reflexivity. f_equal; lia.
  - exists []. unfold ret. cbn. rewrite !Nat.add_0_r, !app_nil_r.
    split; reflexivity.
Qed.

Local Abbreviation deleteMultipleNodes' :=
  (deleteMultipleNodes Host Value generateCommandId getNodeByIdAsync remove).
Local Abbreviation setMultipleTextContents' :=
  (setMultipleTextContents Host Value Fills highlightFills generateCommandId
     getNodeByIdAsync readFills writeFills setTextContent nullReadMessage).
Local Abbreviation scanTextNodes' :=
  (scanTextNodes Host Value generateCommandId getNodeByIdAsync).
Local Abbreviation deleteItem' :=
  (deleteItem Host Value getNodeByIdAsync remove).
Local Abbreviation replaceItem' :=
  (replaceItem Host Value Fills highlightFills getNodeByIdAsync readFills
     writeFills setTextContent nullReadMessage).
Local Abbreviation scanId := (scan_commandId Host generateCommandId).

(** The first steps of [scanTextNodes]: the command identifier is taken
    and the node is looked up. *)
Ltac scan_lookup Hnode :=
  unfold scanTextNodes; unfold bind at 1, newCommandId at 1;
  destruct (scan_commandId Host generateCommandId _ (host _))
    as [cmdId h1] eqn:Eid; cbn [fst snd] in *;
  unfold bind at 1, call at 1; cbn [host]; rewrite Hnode.

(** [scanTextNodes] on a node that resolves, without chunking, with a
    positive chunk size, or with nothing to process: it runs to its end,
    posts the events of a run and returns [success: true]. *)
Lemma scanTextNodes_run (params : Params) (node : SceneNode)
      (w : World Host Value) :
  getNodeByIdAsync (p_nodeId params) (snd (scanId params (host w)))
  = inr (Some node) ->
  (chunking params = false \/ (0 < chunkSize_of params)%Z
   \/ node_visible node = false) ->
  exists events count processed chunks textNodes,
    scanTextNodes' params w
    = (Ok (ScanResult true count processed chunks textNodes
                      (fst (scanId params (host w)))),
       mkWorld (snd (scanId params (host w)))
               (outbox w ++ map progressOf events))
    /\ progress_of_a_run events.
Proof.
  intros Hnode Hmode. scan_lookup Hnode.
  destruct (negb (chunking params)) eqn:Emode.
  - unfold try_catch.
    erewrite bind_Ok by apply sendProgressUpdate_run.
    erewrite bind_Ok by apply sendProgressUpdate_run.
    unfold ret. cbn [host outbox].
    eexists [_; _], _, _, _, _. split.
    + f_equal. f_equal. rewrite <- app_assoc. reflexivity.
    + eexists _, [], _. split; [reflexivity |].
      split; [reflexivity |]. split; [reflexivity |].
      split; [constructor |].
      split; [reflexivity |]. split; [reflexivity |].
      cbn [map app progress buildUpdate].
      constructor; [constructor; constructor | constructor; lia].
  - assert (Hc : (0 < chunkSize_of params)%Z \/ node_visible node = false).
    { destruct Hmode as [Hm | Hm]; [| exact Hm].
      rewrite Hm in Emode. discriminate. }
    clear Hmode.
    set (nodes := collectNodesToProcess node [] 0 []).
    erewrite bind_Ok by apply sendProgressUpdate_run.
    erewrite bind_Ok by apply sendProgressUpdate_run.
    cbn [host outbox].
    set (chunkSz := Z.to_nat (chunkSize_of params)).
    assert (Hloop :
              (exists r, scan_walk (S (length nodes)) (chunkSize_of params)
                                   (Z.of_nat (length nodes)) 0 0 = Some r)
              /\ forall w1 : World Host Value,
                   exists evs pn cp found,
                     scanChunks Host Value (S (length nodes)) cmdId chunkSz
                                nodes (ceil_div (length nodes) chunkSz)
                                0 0 0 [] w1
                     = (Ok (pn, cp, found),
                        mkWorld (host w1) (outbox w1 ++ map progressOf evs))
                     /\ map progress evs
                        = round_percentages
                            (ceil_div (length nodes) chunkSz) 0
                            (ceil_div (length nodes) chunkSz)
                     /\ Forall (fun u => status u = in_progress
                                         /\ (5 <= progress u <= 95)%Z) evs).
    { destruct Hc as [Hc | Hc].
      - split; [apply scan_walk_ends; [exact Hc | lia] |].
        intros w1.
        destruct (scanChunks_run cmdId chunkSz nodes
                    (ceil_div (length nodes) chunkSz) ltac:(subst chunkSz; lia)
                    (S (length nodes)) 0 0 0 [] w1)
          as (evs & found & E & P & A).
        { lia. }
        { rewrite Nat.sub_0_r. lia. }
        rewrite Nat.sub_0_r in *. cbn [Nat.add] in *.
        eexists evs, _, _, found. split; [exact E |]. split; assumption.
      - assert (En : nodes = []).
        { subst nodes. rewrite collectNodesToProcess_visited, visited_eq, Hc.
          reflexivity. }
        rewrite En. cbn [length]. split; [eexists; reflexivity |].
        intros [h0 out]. exists [], 0, 0, []. cbn. rewrite app_nil_r.
        split; [reflexivity |]. split; [| constructor].
        unfold ceil_div. cbn [Nat.add].
        destruct chunkSz as [| [| c]]; [reflexivity | reflexivity |].
        rewrite Nat.div_small by lia. reflexivity. }
    destruct Hloop as ((r & Ew) & Hloop). rewrite Ew.
    match goal with
    | |- context [bind _ _ (scanChunks _ _ _ _ _ _ _ _ _ _ _) _ ?w1] =>
        destruct (Hloop w1) as (evs & pn & cp & found & E & P & A)
    end.
    erewrite bind_Ok by exact E. cbv beta iota.
    erewrite bind_Ok by apply sendProgressUpdate_run.
    unfold ret. cbn [host outbox].
    eexists (_ :: (_ :: evs) ++ [_]), _, _, _, _. split.
    + f_equal. f_equal. rewrite <- !app_assoc. cbn [map app].
      rewrite map_app. reflexivity.
    + eexists _, _, _. split; [reflexivity |].
      split; [reflexivity |]. split; [reflexivity |].
      split; [constructor; [split; [reflexivity | cbn; lia] | exact A] |].
      split; [reflexivity |]. split; [reflexivity |].
      cbn [map app]. rewrite map_app, P. cbn [map progress buildUpdate].
      apply run_percentages_sorted.
Qed.

(** With chunking and a positive chunk size the scan goes through every
    chunk of the index walk: every collected node is counted, the text
    nodes are those found in the chunks, in order, and the result says
    [success: true] whatever was found. *)
Lemma scanTextNodes_counts_every_node (params : Params) (node : SceneNode)
      (w : World Host Value) :
  getNodeByIdAsync (p_nodeId params) (snd (scanId params (host w)))
  = inr (Some node) ->
  chunking params = true -> (0 < chunkSize_of params)%Z ->
  exists cs,
    scanTextNodes_chunks (Z.to_nat (chunkSize_of params))
                         (collectNodesToProcess node [] 0 [])
    = Some (length cs, cs)
    /\ fst (scanTextNodes' params w)
       = Ok (ScanResult true (length (flat_map scanChunk cs))
                        (Some (length (concat cs))) (Some (length cs))
                        (flat_map scanChunk cs)
                        (fst (scanId params (host w)))).
Proof.
  intros Hnode Hmode Hc. scan_lookup Hnode. rewrite Hmode. cbn [negb].
  set (nodes := collectNodesToProcess node [] 0 []).
  set (chunkSz := Z.to_nat (chunkSize_of params)).
  assert (HC : 0 < chunkSz) by (subst chunkSz; lia).
  erewrite bind_Ok by apply sendProgressUpdate_run.
  erewrite bind_Ok by apply sendProgressUpdate_run.
  cbn [host outbox].
  destruct (scan_walk_ends (chunkSize_of params) (Z.of_nat (length nodes)) Hc
              (S (length nodes)) 0 0 ltac:(lia)) as (r & Ew).
  rewrite Ew.
  match goal with
  | |- context [bind _ _ (scanChunks _ _ _ _ _ _ _ _ _ _ _) _ ?w1] =>
      destruct (scanChunks_run cmdId chunkSz nodes
                  (ceil_div (length nodes) chunkSz) HC
                  (S (length nodes)) 0 0 0 [] w1 ltac:(lia)
                  ltac:(rewrite Nat.sub_0_r; lia))
        as (evs & found & E & _);
      destruct (scanChunks_follows_scan_loop cmdId chunkSz nodes
                  (ceil_div (length nodes) chunkSz) HC
                  (S (length nodes)) 0 0 0 [] [] w1 ltac:(lia))
        as (cs & E1 & E2)
  end.
  rewrite E in E2. cbn [fst Nat.add app] in E2. injection E2 as Ep Ec Ef.
  exists cs. split; [exact E1 |].
  erewrite bind_Ok by exact E. cbv beta iota.
  erewrite bind_Ok by apply sendProgressUpdate_run.
  unfold ret. cbn [fst Nat.add]. rewrite Ec, Ep, Ef. reflexivity.
Qed.

(** An identifier that resolves to no node: one [error] event at [0],
    then the error is thrown. *)
Lemma scanTextNodes_rejected (params : Params) (w : World Host Value) :
  getNodeByIdAsync (p_nodeId params) (snd (scanId params (host w)))
  = inr None ->
  rejected_with w
    (String.append "Node with ID "
                   (String.append (shown (p_nodeId params)) " not found"))
    (scanTextNodes' params w).
Proof.
  intros Hnode.
  assert (E : exists u h,
             scanTextNodes' params w
             = (Throw (String.append "Node with ID "
                         (String.append (shown (p_nodeId params))
                                        " not found")),
                mkWorld h (outbox w ++ [progressOf u]))
             /\ status u = error /\ progress u = 0%Z).
  { scan_lookup Hnode.
    erewrite bind_Ok by apply sendProgressUpdate_run.
    eexists _, _. split; [reflexivity | split; reflexivity]. }
  destruct E as (u & h & E & S & P). exists u. rewrite E.
  repeat split; trivial.
Qed.

(** A lookup that fails: the error leaves [scanTextNodes] before any
    event is posted. *)
Lemma scanTextNodes_lookup_fails (params : Params) (e : string)
      (w : World Host Value) :
  getNodeByIdAsync (p_nodeId params) (snd (scanId params (host w))) = inl e ->
  scanTextNodes' params w
  = (Throw e, mkWorld (snd (scanId params (host w))) (outbox w)).
Proof. intros Hnode. scan_lookup Hnode. reflexivity. Qed.

(** With chunking, a chunk size of [0] or less and a visible node the
    chunk loop is never left: after the [started] event and the planning
    event the scan neither returns nor throws. *)
Lemma scanTextNodes_stuck (params : Params) (node : SceneNode)
      (w : World Host Value) :
  getNodeByIdAsync (p_nodeId params) (snd (scanId params (host w)))
  = inr (Some node) ->
  chunking params = true -> (chunkSize_of params <= 0)%Z ->
  node_visible node = true ->
  exists first plan,
    scanTextNodes' params w
    = (Diverge,
       mkWorld (snd (scanId params (host w)))
               (outbox w ++ [progressOf first; progressOf plan]))
    /\ status first = started /\ progress first = 0%Z
    /\ status plan = in_progress /\ progress plan = 5%Z.
Proof.
  intros Hnode Hmode Hc Hv. scan_lookup Hnode. rewrite Hmode. cbn [negb].
  set (nodes := collectNodesToProcess node [] 0 []).
  assert (Hn : 0 < length nodes).
  { subst nodes. rewrite collectNodesToProcess_visited, visited_eq, Hv.
    cbn. lia. }
  erewrite bind_Ok by apply sendProgressUpdate_run.
  erewrite bind_Ok by apply sendProgressUpdate_run.
  rewrite (scan_walk_stuck _ (Z.of_nat (length nodes)) Hc) by lia.
  unfold diverge. cbn [host outbox].
  eexists _, _. split.
  - f_equal. f_equal. rewrite <- app_assoc. reflexivity.
  - repeat split.
Qed.

(** [scanTextNodes] does not settle in that case only. *)
Lemma scanTextNodes_diverges_iff (params : Params) (w : World Host Value) :
  fst (scanTextNodes' params w) = Diverge
  <-> exists node,
        getNodeByIdAsync (p_nodeId params) (snd (scanId params (host w)))
        = inr (Some node)
        /\ chunking params = true /\ (chunkSize_of params <= 0)%Z
        /\ node_visible node = true.
Proof.
  split.
  - intros Hd.
    destruct (getNodeByIdAsync (p_nodeId params)
                               (snd (scanId params (host w))))
      as [e | [node |]] eqn:Hnode.
    + rewrite (scanTextNodes_lookup_fails params e w Hnode) in Hd.
      discriminate.
    + exists node. split; [reflexivity |].
      destruct (chunking params) eqn:Hm.
      * destruct (Z_lt_le_dec 0 (chunkSize_of params)) as [Hc | Hc].
        -- destruct (scanTextNodes_run params node w Hnode
                       (or_intror (or_introl Hc)))
             as (ev & c & pr & ch & t & E & _).
           rewrite E in Hd. discriminate.
        -- destruct (node_visible node) eqn:Hv; [auto |].
           destruct (scanTextNodes_run params node w Hnode
                       (or_intror (or_intror Hv)))
             as (ev & c & pr & ch & t & E & _).
           rewrite E in Hd. discriminate.
      * destruct (scanTextNodes_run params node w Hnode (or_introl Hm))
          as (ev & c & pr & ch & t & E & _).
        rewrite E in Hd. discriminate.
    + destruct (scanTextNodes_rejected params w Hnode) as (u & E & _).
      rewrite E in Hd. discriminate.
  - intros (node & Hnode & Hm & Hc & Hv).
    destruct (scanTextNodes_stuck params node w Hnode Hm Hc Hv)
      as (first & plan & E & _).
    now rewrite E.
Qed.

Lemma deleteMultipleNodes_accepted (params : Params) (nodeIds : list string)
      (w : World Host Value) :
  p_nodeIds params = Some nodeIds -> nodeIds <> [] ->
  deleteMultipleNodes' params w
  = runBatch Host Value (fst (generateCommandId (host w)))
             "delete_multiple_nodes" deleteItem' nodeIds
             (mkWorld (snd (generateCommandId (host w))) (outbox w)).
Proof.
  intros E Hne. unfold deleteMultipleNodes, bind at 1, newCommandId.
  destruct (generateCommandId (host w)) as [c h]. rewrite E.
  destruct nodeIds; [contradiction | reflexivity].
Qed.

Lemma setMultipleTextContents_accepted (params : Params)
      (text : list (option Replacement)) (w : World Host Value) :
  falsy (p_nodeId params) = false -> p_text params = Some text ->
  setMultipleTextContents' params w
  = runBatch Host Value
             (fst (setMultiple_commandId Host generateCommandId params
                                         (host w)))
             "set_multiple_text_contents" replaceItem' text
             (mkWorld (snd (setMultiple_commandId Host generateCommandId
                                                  params (host w)))
                      (outbox w)).
Proof.
  intros E1 E2. unfold setMultipleTextContents, bind at 1, newCommandId.
  destruct (setMultiple_commandId Host generateCommandId params (host w))
    as [c h]. rewrite E1, E2. reflexivity.
Qed.

Lemma runBatch_completes_counted {T : Type} (cmdId cmdType : string)
      (f : T -> M Host Value ItemResult) (g : T -> string)
      (items : list T) (w0 w : World Host Value) :
  (forall a w, exists r h,
      f a w = (Ok r, mkWorld h (outbox w)) /\ item_nodeId r = g a) ->
  outbox w = outbox w0 ->
  completes_counted w0 (map g items)
                    (runBatch Host Value cmdId cmdType f items w)
  /\ runs_with_progress w0 (runBatch Host Value cmdId cmdType f items w)
  /\ best_effort (map g items)
                 (runBatch Host Value cmdId cmdType f items w).
Proof.
  intros Hf Hw.
  destruct (runBatch_run cmdId cmdType f item_nodeId g items w Hf)
    as (h & rs & chunks & middle & E & _ & K1 & Hn & P).
  cbn zeta in *. unfold completes_counted, runs_with_progress, best_effort.
  rewrite E. cbn [fst snd outbox]. rewrite Hw, !length_map.
  split; [| split].
  - eexists cmdId, (length chunks), rs, _, _.
    split; [reflexivity |]. split; [reflexivity |].
    split; [eexists (_ :: _ :: middle); reflexivity |].
    repeat split; trivial.
  - eexists _, _. split; [reflexivity |]. split; [reflexivity | exact P].
  - eexists cmdId, (length chunks), rs.
    split; [reflexivity |]. split; [exact K1 |].
    rewrite <- (length_map item_nodeId), K1, length_map. reflexivity.
Qed.

(** C2.  A batch command whose parameters are accepted runs to its end;
    its last progress event is [completed], reports [totalItems = N] and
    [processedItems = successCount + failureCount], and
    [successCount + failureCount = N]: every item of the input has one
    result, counted as a success or as a failure. *)
Theorem completed_event_counts_every_item :
  (forall (params : Params) (nodeIds : list string) (w : World Host Value),
      p_nodeIds params = Some nodeIds -> nodeIds <> [] ->
      completes_counted w nodeIds (deleteMultipleNodes' params w))
  /\ (forall (params : Params) (text : list Replacement)
             (w : World Host Value),
         falsy (p_nodeId params) = false ->
         p_text params = Some (map Some text) ->
         completes_counted w (map replacement_key text)
                           (setMultipleTextContents' params w)).
Proof.
  split.
  - intros params nodeIds w E Hne.
    rewrite (deleteMultipleNodes_accepted params nodeIds w E Hne).
    rewrite <- (map_id nodeIds) at 1.
    apply runBatch_completes_counted; [| reflexivity].
    intros a w1. apply deleteItem_settles.
  - intros params text w E1 E2.
    rewrite (setMultipleTextContents_accepted params _ w E1 E2).
    rewrite runBatch_map.
    apply runBatch_completes_counted; [| reflexivity].
    intros a w1. apply replaceItem_settles.
Qed.

Lemma deleteMultipleNodes_rejected (params : Params) (w : World Host Value) :
  p_nodeIds params = None \/ p_nodeIds params = Some [] ->
  rejected_with w "Missing or invalid nodeIds parameter"
                (deleteMultipleNodes' params w).
Proof.
  intros H.
  assert (E : exists u h,
             deleteMultipleNodes' params w
             = (Throw "Missing or invalid nodeIds parameter",
                mkWorld h (outbox w ++ [progressOf u]))
             /\ status u = error /\ progress u = 0%Z).
  { unfold deleteMultipleNodes, bind at 1, newCommandId.
    destruct (generateCommandId (host w)) as [c h].
    destruct H as [-> | ->];
      (erewrite bind_Ok by apply sendProgressUpdate_run;
       eexists _, _; split; [reflexivity | split; reflexivity]). }
  destruct E as (u & h & E & S & P). exists u. rewrite E.
  repeat split; trivial.
Qed.

Lemma setMultipleTextContents_rejected (params : Params)
      (w : World Host Value) :
  falsy (p_nodeId params) = true \/ p_text params = None ->
  rejected_with w "Missing required parameters: nodeId and text array"
                (setMultipleTextContents' params w).
Proof.
  intros H.
  assert (E : exists u h,
             setMultipleTextContents' params w
             = (Throw "Missing required parameters: nodeId and text array",
                mkWorld h (outbox w ++ [progressOf u]))
             /\ status u = error /\ progress u = 0%Z).
  { unfold setMultipleTextContents, bind at 1, newCommandId.
    destruct (setMultiple_commandId Host generateCommandId params (host w))
      as [c h].
    assert (E : (if falsy (p_nodeId params) then None else p_text params)
                = None)
      by (destruct H as [-> | ->]; [| destruct (falsy _)]; reflexivity).
    rewrite E. erewrite bind_Ok by apply sendProgressUpdate_run.
    eexists _, _; split; [reflexivity | split; reflexivity]. }
  destruct E as (u & h & E & S & P). exists u. rewrite E.
  repeat split; trivial.
Qed.

(** A text array with a [null] entry ends [set_multiple_text_contents]
    with the [TypeError] of that entry, after the [started] event and
    events [in_progress] only. *)
Lemma setMultipleTextContents_null_entry (params : Params)
      (text : list (option Replacement)) (w : World Host Value) :
  falsy (p_nodeId params) = false -> p_text params = Some text ->
  hasNull text = true ->
  aborted_with w nullReadMessage (setMultipleTextContents' params w).
Proof.
  intros E1 E2 H.
  rewrite (setMultipleTextContents_accepted params text w E1 E2).
  apply runBatch_null; [exact H | reflexivity].
Qed.


(** What the item function of [set_multiple_text_contents] returns for
    an entry that is an object. *)
Lemma replaceItem_missing (replacement : Replacement)
      (w : World Host Value) :
  r_text replacement = None \/ falsy (r_nodeId replacement) = true ->
  replaceItem' (Some replacement) w
  = (Ok (itemFailed (replacement_key replacement)
                    "Missing nodeId or text in replacement entry"), w).
Proof.
  intros H. unfold replaceItem, replacement_key.
  destruct (r_text replacement) as [text |]; [| reflexivity].
  destruct H as [H | H]; [discriminate |]. rewrite H. reflexivity.
Qed.

Lemma replaceItem_found (replacement : Replacement) (nodeId text : string)
      (w : World Host Value) :
  r_nodeId replacement = Some nodeId -> nodeId <> ""%string ->
  r_text replacement = Some text ->
  match getNodeByIdAsync (Some nodeId) (host w) with
  | inl e =>
      replaceItem' (Some replacement) w
      = (Ok (itemFailed nodeId
               (String.append "Error applying replacement: " e)), w)
  | inr None =>
      replaceItem' (Some replacement) w
      = (Ok (itemFailed nodeId (String.append "Node not found: " nodeId)), w)
  | inr (Some nd) =>
      if isText nd
      then
        fst (replaceItem' (Some replacement) w)
        = match fst (setTextContent nodeId text
                       (highlighted Host Fills highlightFills readFills
                                    writeFills nd (host w))) with
          | Some e =>
              Ok (itemFailed nodeId
                    (String.append "Error applying replacement: " e))
          | None => Ok (itemOk nodeId (Replaced (node_characters nd) text))
          end
      else
        replaceItem' (Some replacement) w
        = (Ok (itemFailed nodeId
                 (String.append "Node is not a text node: "
                    (String.append nodeId
                       (String.append " (type: "
                          (String.append (node_type nd) ")"))))), w)
  end.
Proof.
  intros En Hne Et. destruct w as [h0 out]. cbn [host].
  assert (Ef : falsy (Some nodeId) = false).
  { cbn. now apply String.eqb_neq. }
  assert (Eo : or_else (Some nodeId) "unknown" = nodeId).
  { unfold or_else. now rewrite Ef. }
  unfold replaceItem, highlighted. rewrite Et, En, Ef, Eo.
  unfold try_catch, bind, call, update, ret; simpl.
  destruct (getNodeByIdAsync (Some nodeId) h0) as [e | [nd |]];
    [reflexivity | | reflexivity].
  destruct (isText nd); simpl; [| reflexivity].
  destruct (readFills nd h0) as [e | f]; simpl.
  - destruct (setTextContent nodeId text h0) as [[e' |] h1]; reflexivity.
  - destruct (writeFills nd highlightFills h0) as [e | h1]; simpl.
    + destruct (setTextContent nodeId text h0) as [[e' |] h2];
        simpl; [reflexivity |].
      destruct (writeFills nd f h2) as [e'' | h3]; reflexivity.
    + destruct (setTextContent nodeId text h1) as [[e' |] h2];
        simpl; [reflexivity |].
      destruct (writeFills nd f h2) as [e'' | h3]; reflexivity.
Qed.

(** C8.  In [delete_multiple_nodes] and [set_multiple_text_contents] the
    failure of an item becomes a result with [success: false] and the
    run goes on: the function run on an identifier, and on an entry that
    is an object, always returns a result for it, and that result is
    pinned by what the host answers; so an accepted batch always returns
    a summary with one result per item, in the order of the items, whose
    [success] flag is [successCount > 0].  Deleting seven identifiers of
    which the fourth does not resolve returns seven results, the fourth
    failed with an error naming it, six nodes deleted, and [success:
    true].  [scan_text_nodes] keeps no item results: it counts every
    collected node and returns [success: true].  One failure does end a
    command: an entry of the text array that is [null] throws outside
    the [try] of the item function, and [set_multiple_text_contents]
    throws that error without a [completed] event. *)
Theorem item_failures_are_captured_but_for_null_entries :
  (forall (params : Params) (nodeIds : list string) (w : World Host Value),
      p_nodeIds params = Some nodeIds -> nodeIds <> [] ->
      best_effort nodeIds (deleteMultipleNodes' params w))
  /\ (forall (params : Params) (text : list Replacement)
             (w : World Host Value),
         falsy (p_nodeId params) = false ->
         p_text params = Some (map Some text) ->
         best_effort (map replacement_key text)
                     (setMultipleTextContents' params w))
  /\ (forall (nodeId : string) (w : World Host Value),
         exists r h,
           deleteItem' nodeId w = (Ok r, mkWorld h (outbox w))
           /\ item_nodeId r = nodeId)
  /\ (forall (replacement : Replacement) (w : World Host Value),
         exists r h,
           replaceItem' (Some replacement) w = (Ok r, mkWorld h (outbox w))
           /\ item_nodeId r = replacement_key replacement)
  /\ (forall (nodeId : string) (w : World Host Value),
         match getNodeByIdAsync (Some nodeId) (host w) with
         | inl e => deleteItem' nodeId w = (Ok (itemFailed nodeId e), w)
         | inr None =>
             deleteItem' nodeId w
             = (Ok (itemFailed nodeId
                      (String.append "Node not found: " nodeId)), w)
         | inr (Some nd) =>
             match remove nd (host w) with
             | inl e => deleteItem' nodeId w = (Ok (itemFailed nodeId e), w)
             | inr h =>
                 deleteItem' nodeId w
                 = (Ok (itemOk nodeId
                          (Deleted (node_id nd) (node_name nd)
                                   (node_type nd))),
                    mkWorld h (outbox w))
             end
         end)
  /\ (forall (replacement : Replacement) (w : World Host Value),
         r_text replacement = None \/ falsy (r_nodeId replacement) = true ->
         replaceItem' (Some replacement) w
         = (Ok (itemFailed (replacement_key replacement)
                           "Missing nodeId or text in replacement entry"),
            w))
  /\ (forall (replacement : Replacement) (nodeId text : string)
             (w : World Host Value),
         r_nodeId replacement = Some nodeId -> nodeId <> ""%string ->
         r_text replacement = Some text ->
         match getNodeByIdAsync (Some nodeId) (host w) with
         | inl e =>
             replaceItem' (Some replacement) w
             = (Ok (itemFailed nodeId
                      (String.append "Error applying replacement: " e)), w)
         | inr None =>
             replaceItem' (Some replacement) w
             = (Ok (itemFailed nodeId
                      (String.append "Node not found: " nodeId)), w)
         | inr (Some nd) =>
             if isText nd
             then
               fst (replaceItem' (Some replacement) w)
               = match fst (setTextContent nodeId text
                              (highlighted Host Fills highlightFills
                                           readFills writeFills nd
                                           (host w))) with
                 | Some e =>
                     Ok (itemFailed nodeId
                           (String.append "Error applying replacement: " e))
                 | None =>
                     Ok (itemOk nodeId
                                (Replaced (node_characters nd) text))
                 end
             else
               replaceItem' (Some replacement) w
               = (Ok (itemFailed nodeId
                        (String.append "Node is not a text node: "
                           (String.append nodeId
                              (String.append " (type: "
                                 (String.append (node_type nd) ")"))))), w)
         end)
  /\ (forall (rs : list ItemResult) (n nchunks : nat) (cmdId : string),
         @batch_summary Value rs n nchunks cmdId
         = BatchResult (0 <? successes rs) (successes rs) (failures rs) n rs
                       nchunks cmdId
         /\ (0 < successes rs ->
             @batch_summary Value rs n nchunks cmdId
             = BatchResult true (successes rs) (failures rs) n rs nchunks
                           cmdId))
  /\ (let run := doc_deleteMultipleNodes (deleteParams sevenIds)
                                         (mkWorld sixNodes []) in
      exists rs,
        fst run = Ok (BatchResult true 6 1 7 rs 2 "cmd_1")
        /\ length rs = 7
        /\ map success rs = [true; true; true; false; true; true; true]
        /\ nth_error rs 3
           = Some (itemFailed "9:9" "Node not found: 9:9")
        /\ host (snd run) = [])
  /\ (forall (params : Params) (node : SceneNode) (w : World Host Value),
         getNodeByIdAsync (p_nodeId params) (snd (scanId params (host w)))
         = inr (Some node) ->
         chunking params = true -> (0 < chunkSize_of params)%Z ->
         exists cs,
           scanTextNodes_chunks (Z.to_nat (chunkSize_of params))
                                (collectNodesToProcess node [] 0 [])
           = Some (length cs, cs)
           /\ fst (scanTextNodes' params w)
              = Ok (ScanResult true (length (flat_map scanChunk cs))
                               (Some (length (concat cs)))
                               (Some (length cs)) (flat_map scanChunk cs)
                               (fst (scanId params (host w)))))
  /\ (forall w : World Host Value,
         replaceItem' None w = (Throw nullReadMessage, w))
  /\ (forall (params : Params) (text : list (option Replacement))
             (w : World Host Value),
         falsy (p_nodeId params) = false -> p_text params = Some text ->
         hasNull text = true ->
         aborted_with w nullReadMessage (setMultipleTextContents' params w))
  /\ (let w := mkWorld titleOnly ([] : list (UiMessage unit)) in
      let run := doc_setMultipleTextContents (textParams nullEntry) w in
      fst run = Throw doc_nullReadMessage
      /\ map (fun m => match m with
                       | command_progress u => Some (status u, progress u)
                       | _ => None
                       end) (outbox (snd run))
         = [Some (started, 0%Z); Some (in_progress, 5%Z);
            Some (in_progress, 5%Z)]
      /\ doc_onmessage nullEntryMessage w
         = (Ok tt,
            mkWorld (host (snd run))
                    (outbox (snd run)
                     ++ [command_error "8" doc_nullReadMessage]))).
Proof.
  split; [| split; [| split; [| split; [| split; [| split; [| split;
    [| split; [| split; [| split; [| split; [| split]]]]]]]]]]].
  - intros params nodeIds w E Hne.
    rewrite (deleteMultipleNodes_accepted params nodeIds w E Hne).
    rewrite <- (map_id nodeIds) at 1.
    refine (proj2 (proj2 (runBatch_completes_counted _ _ _ _ _ w _ _ _)));
      [| reflexivity].
    intros a w1. apply deleteItem_settles.
  - intros params text w E1 E2.
    rewrite (setMultipleTextContents_accepted params _ w E1 E2).
    rewrite runBatch_map.
    refine (proj2 (proj2 (runBatch_completes_counted _ _ _ _ _ w _ _ _)));
      [| reflexivity].
    intros a w1. apply replaceItem_settles.
  - exact deleteItem_settles.
  - exact replaceItem_settles.
  - intros nodeId [h out]. cbn [host outbox].
    unfold deleteItem, try_catch, bind, call, update, ret. cbn [host outbox].
    destruct (getNodeByIdAsync (Some nodeId) h) as [e | [nd |]];
      try reflexivity.
    cbn [host outbox]. destruct (remove nd h) as [e | h1]; reflexivity.
  - exact replaceItem_missing.
  - exact replaceItem_found.
  - intros rs n nchunks cmdId. split; [reflexivity |].
    intros H. unfold batch_summary.
    destruct (Nat.ltb_spec 0 (successes rs)); [reflexivity | lia].
  - eexists. vm_compute. repeat split.
  - exact scanTextNodes_counts_every_node.
  - exact replaceItem_null.
  - exact setMultipleTextContents_null_entry.
  - vm_compute. repeat split.
Qed.

(** ** The dispatcher *)

Local Abbreviation handleCommand' :=
  (handleCommand Host Value Fills highlightFills generateCommandId
     getNodeByIdAsync remove readFills writeFills setTextContent
     nullReadMessage otherHandler).
Local Abbreviation onmessage' :=
  (onmessage Host Value Fills highlightFills generateCommandId
     getNodeByIdAsync remove readFills writeFills setTextContent
     nullReadMessage otherHandler).

Lemma handleCommand_unknown (command : string) (params : Params)
      (w : World Host Value) :
  includes routingTable command = false ->
  handleCommand' command params w
  = (Throw (String.append "Unknown command: " command), w).
Proof.
  intros H. unfold handleCommand.
  destruct (String.eqb_spec command "delete_multiple_nodes") as [-> | _];
    [discriminate H |].
  destruct (String.eqb_spec command "scan_text_nodes") as [-> | _];
    [discriminate H |].
  destruct (String.eqb_spec command "set_multiple_text_contents")
    as [-> | _]; [discriminate H |].
  rewrite H. reflexivity.
Qed.

Lemma batch_handlers_settle (params : Params) (w : World Host Value) :
  fst (deleteMultipleNodes' params w) <> Diverge
  /\ fst (setMultipleTextContents' params w) <> Diverge.
Proof.
  split.
  - destruct (p_nodeIds params) as [[| a l] |] eqn:E.
    + destruct (deleteMultipleNodes_rejected params w (or_intror E))
        as (u & -> & _). discriminate.
    + destruct (proj2 (proj2 (runBatch_completes_counted
                  (fst (generateCommandId (host w)))
                  "delete_multiple_nodes" deleteItem' (fun x => x) (a :: l)
                  w (mkWorld (snd (generateCommandId (host w))) (outbox w))
                  (fun a w1 => deleteItem_settles a w1) eq_refl)))
        as (c & n & rs & R & _).
      rewrite (deleteMultipleNodes_accepted params (a :: l) w E)
        by discriminate.
      rewrite R. discriminate.
    + destruct (deleteMultipleNodes_rejected params w (or_introl E))
        as (u & -> & _). discriminate.
  - destruct (falsy (p_nodeId params)) eqn:E1.
    + destruct (setMultipleTextContents_rejected params w (or_introl E1))
        as (u & -> & _). discriminate.
    + destruct (p_text params) as [text |] eqn:E2.
      * destruct (hasNull text) eqn:Hn.
        -- destruct (setMultipleTextContents_null_entry params text w E1 E2
                       Hn) as (first & rest & -> & _).
           discriminate.
        -- destruct (hasNull_false text Hn) as (objs & ->).
           destruct (proj2 (proj2 (runBatch_completes_counted
                       (fst (setMultiple_commandId Host generateCommandId
                               params (host w)))
                       "set_multiple_text_contents"
                       (fun a => replaceItem' (Some a))
                       replacement_key objs w
                       (mkWorld (snd (setMultiple_commandId Host
                                        generateCommandId params (host w)))
                                (outbox w))
                       (fun a w1 => replaceItem_settles a w1) eq_refl)))
             as (c & n & rs & R & _).
           rewrite (setMultipleTextContents_accepted params _ w E1 E2).
           rewrite runBatch_map, R. discriminate.
      * destruct (setMultipleTextContents_rejected params w (or_intror E2))
          as (u & -> & _). discriminate.
Qed.

(** C9.  What the dispatcher posts follows the way the handler ends.  A
    handler that returns gets one [command-result] with the message's
    [id] and the returned value; a handler that throws gets one
    [command-error] with the [id] and the error's message (a fixed text
    when that is empty), and no error leaves the dispatcher; a handler
    that does not end gets no answer.  A command name outside the
    routing table posts the [command-error] "Unknown command" and
    nothing else.  The handlers [delete_multiple_nodes] and
    [set_multiple_text_contents] always end.  [scan_text_nodes] does not
    end exactly when chunking is used on a visible node with a chunk
    size of [0] or less: that message is never answered, as for the
    sample page with a chunk size of [0]. *)
Theorem dispatch_answers_unless_the_handler_hangs :
  forall (msg : ExecuteCommand) (w : World Host Value),
    let run := handleCommand' (msg_command msg) (msg_params msg) w in
    onmessage' msg w
    = match fst run with
      | Ok result =>
          (Ok tt,
           mkWorld (host (snd run))
                   (outbox (snd run)
                    ++ [command_result (msg_id msg) result]))
      | Throw e =>
          (Ok tt,
           mkWorld (host (snd run))
                   (outbox (snd run)
                    ++ [command_error (msg_id msg)
                          (if String.eqb e ""
                           then "Error executing command"%string
                           else e)]))
      | Diverge => (Diverge, snd run)
      end
    /\ (includes routingTable (msg_command msg) = false ->
        run = (Throw (String.append "Unknown command: " (msg_command msg)),
               w)
        /\ onmessage' msg w
           = (Ok tt,
              mkWorld (host w)
                      (outbox w
                       ++ [command_error (msg_id msg)
                             (String.append "Unknown command: "
                                            (msg_command msg))])))
    /\ (msg_command msg = "delete_multiple_nodes"%string
        \/ msg_command msg = "set_multiple_text_contents"%string ->
        fst run <> Diverge)
    /\ (msg_command msg = "scan_text_nodes"%string ->
        (fst run = Diverge
         <-> exists node,
               getNodeByIdAsync (p_nodeId (msg_params msg))
                                (snd (scanId (msg_params msg) (host w)))
               = inr (Some node)
               /\ chunking (msg_params msg) = true
               /\ (chunkSize_of (msg_params msg) <= 0)%Z
               /\ node_visible node = true)
        /\ (fst run = Diverge ->
            exists first plan,
              onmessage' msg w
              = (Diverge,
                 mkWorld (snd (scanId (msg_params msg) (host w)))
                         (outbox w
                          ++ [progressOf first; progressOf plan]))))
    /\ doc_onmessage stuckMessage (mkWorld [samplePage] [])
       = (Diverge,
          mkWorld [samplePage]
                  (outbox (snd (doc_scanTextNodes (scanParams "0:1" 0)
                                  (mkWorld [samplePage] []))))).
Proof.
  intros msg w run. split; [| split; [| split; [| split]]].
  - unfold onmessage, try_catch, bind. fold run.
    destruct run as [[result | e |] w']; reflexivity.
  - intros Hu. subst run.
    pose proof (handleCommand_unknown (msg_command msg) (msg_params msg) w
                  Hu) as E.
    split; [exact E |].
    unfold onmessage, try_catch, bind. rewrite E. reflexivity.
  - intros Hb. subst run. unfold handleCommand.
    destruct Hb as [-> | ->]; cbn [String.eqb Ascii.eqb Bool.eqb];
      apply batch_handlers_settle.
  - intros Hc.
    assert (Er : run = scanTextNodes' (msg_params msg) w).
    { subst run. unfold handleCommand. rewrite Hc. reflexivity. }
    split.
    + rewrite Er. apply scanTextNodes_diverges_iff.
    + intros Hd. rewrite Er in Hd.
      apply scanTextNodes_diverges_iff in Hd.
      destruct Hd as (node & Hn & Hm & Hs & Hv).
      destruct (scanTextNodes_stuck (msg_params msg) node w Hn Hm Hs Hv)
        as (first & plan & E & _).
      exists first, plan.
      unfold onmessage, try_catch, bind. fold run. rewrite Er, E.
      reflexivity.
  - vm_compute. reflexivity.
Qed.

End BatchProperties.

(** ** The commands on the sample document *)

Lemma completed_event_counts_every_item_witness :
  p_nodeIds (deleteParams sevenIds) = Some sevenIds
  /\ sevenIds <> []
  /\ completes_counted (mkWorld sixNodes []) sevenIds
       (doc_deleteMultipleNodes (deleteParams sevenIds)
                                (mkWorld sixNodes [])).
Proof.
  split; [reflexivity |]. split; [discriminate |].
  refine (proj1 (completed_event_counts_every_item
                   Document unit unit tt doc_generateCommandId
                   doc_getNodeByIdAsync doc_remove doc_readFills
                   doc_writeFills doc_setTextContent doc_nullReadMessage)
                (deleteParams sevenIds) sevenIds (mkWorld sixNodes [])
                eq_refl _).
  discriminate.
Defined.



Lemma item_failures_are_captured_but_for_null_entries_witness :
  p_nodeIds (deleteParams sevenIds) = Some sevenIds
  /\ sevenIds <> []
  /\ best_effort sevenIds
       (doc_deleteMultipleNodes (deleteParams sevenIds)
                                (mkWorld sixNodes []))
  /\ hasNull nullEntry = true
  /\ aborted_with (mkWorld titleOnly []) doc_nullReadMessage
       (doc_setMultipleTextContents (textParams nullEntry)
                                    (mkWorld titleOnly [])).
Proof.
  pose proof (item_failures_are_captured_but_for_null_entries
                Document unit unit tt doc_generateCommandId
                doc_getNodeByIdAsync doc_remove doc_readFills
                doc_writeFills doc_setTextContent doc_nullReadMessage)
    as (D & _ & _ & _ & _ & _ & _ & _ & _ & _ & _ & N & _).
  split; [reflexivity |]. split; [discriminate |].
  split.
  { refine (D (deleteParams sevenIds) sevenIds (mkWorld sixNodes [])
              eq_refl _). discriminate. }
  split; [reflexivity |].
  exact (N (textParams nullEntry) nullEntry (mkWorld titleOnly [])
           eq_refl eq_refl eq_refl).
Defined.

Lemma dispatch_answers_unless_the_handler_hangs_witness :
  let w := mkWorld sixNodes ([] : list (UiMessage unit)) in
  includes routingTable (msg_command unknownMessage) = false
  /\ doc_onmessage unknownMessage w
     = (Ok tt,
        mkWorld sixNodes
                [command_error "42" "Unknown command: rotate_node"])
  /\ msg_command stuckMessage = "scan_text_nodes"%string
  /\ fst (doc_scanTextNodes (scanParams "0:1" 0) (mkWorld [samplePage] []))
     = Diverge
  /\ exists first plan,
       doc_onmessage stuckMessage (mkWorld [samplePage] [])
       = (Diverge,
          mkWorld [samplePage]
                  [command_progress first; command_progress plan]).
Proof.
  intros w.
  pose proof (dispatch_answers_unless_the_handler_hangs
                Document unit unit tt doc_generateCommandId
                doc_getNodeByIdAsync doc_remove doc_readFills
                doc_writeFills doc_setTextContent doc_nullReadMessage
                doc_otherHandler) as H.
  split; [reflexivity |].
  split; [exact (proj2 (proj1 (proj2 (H unknownMessage w)) eq_refl)) |].
  split; [reflexivity |]. split; [reflexivity |].
  exact (proj2 (proj1 (proj2 (proj2 (proj2
           (H stuckMessage (mkWorld [samplePage] []))))) eq_refl) eq_refl).
Defined.

(** ** [uniqBy] *)

Lemma map_has_seen {A : Type} (m : list (string * A)) (key : string) :
  map_has m key = existsb (String.eqb key) (map fst m).
Proof.
  unfold map_has. induction m as [|e m IH]; [reflexivity|].
  cbn [existsb map]. rewrite IH, (String.eqb_sym (fst e) key). reflexivity.
Qed.

Lemma uniqBy_fold {A : Type} (cb : A -> string) (arr : list A) :
  forall m,
    fold_left (uniqBy_step cb) arr m
    = m ++ map (fun x => (cb x, x)) (first_of_each_key cb (map fst m) arr).
Proof.
  induction arr as [|item rest IH]; intro m; cbn [fold_left first_of_each_key].
  - cbn [map]. now rewrite app_nil_r.
  - unfold uniqBy_step at 2. rewrite map_has_seen.
    destruct (existsb (String.eqb (cb item)) (map fst m)).
    + apply IH.
    + rewrite IH, map_app. cbn [map fst]. now rewrite <- app_assoc.
Qed.

Lemma uniqBy_first_of_each_key {A : Type} (cb : A -> string) (arr : list A) :
  uniqBy arr cb = first_of_each_key cb [] arr.
Proof.
  unfold uniqBy. rewrite uniqBy_fold. cbn [map app].
  rewrite map_map. cbn [snd]. apply map_id.
Qed.

Lemma existsb_eqb_In (k : string) (seen : list string) :
  existsb (String.eqb k) seen = true <-> In k seen.
Proof.
  rewrite existsb_exists. split.
  - intros [x [Hx E]]. apply String.eqb_eq in E. now subst.
  - intro H. exists k. split; [exact H | apply String.eqb_refl].
Qed.

Lemma first_of_each_key_spec {A : Type} (cb : A -> string) (arr : list A) :
  forall seen,
    NoDup (map cb (first_of_each_key cb seen arr))
    /\ (forall x, In x (first_of_each_key cb seen arr) ->
                  In x arr /\ ~ In (cb x) seen)
    /\ (forall x, In x arr ->
                  In (cb x) seen
                  \/ In (cb x) (map cb (first_of_each_key cb seen arr))).
Proof.
  induction arr as [|item rest IH]; intro seen; cbn [first_of_each_key].
  - split; [constructor|]. split; [intros x []|intros x []].
  - destruct (existsb (String.eqb (cb item)) seen) eqn:E.
    + destruct (IH seen) as [N [I C]]. split; [exact N|]. split.
      * intros x Hx. destruct (I x Hx). split; [now right | assumption].
      * intros x [->|Hx]; [left; now apply existsb_eqb_In | now apply C].
    + assert (Hn : ~ In (cb item) seen).
      { intro H. apply existsb_eqb_In in H. congruence. }
      destruct (IH (seen ++ [cb item])) as [N [I C]]. split.
      * cbn [map]. constructor; [|exact N].
        intro H. apply in_map_iff in H. destruct H as [y [Ey Hy]].
        destruct (I y Hy) as [_ Hs]. apply Hs. apply in_or_app. right.
        rewrite Ey. now left.
      * split.
        -- intros x [<-|Hx]; [split; [now left | exact Hn]|].
           destruct (I x Hx) as [Hin Hs]. split; [now right|].
           intro H. apply Hs. apply in_or_app. now left.
        -- intros x [->|Hx]; [right; now left|].
           destruct (C x Hx) as [H|H].
           ++ apply in_app_or in H. destruct H as [H|[H|[]]].
              ** now left.
              ** right. left. exact H.
           ++ right. now right.
Qed.

(** X1: [uniqBy] keeps, in the order of the array, exactly the items whose
    key no earlier item has: the keys of the result are pairwise
    distinct, every item of the result is an item of the array, and every
    key of the array is the key of an item of the result. *)
Theorem uniqBy_keeps_first_item_of_each_key {A : Type}
        (arr : list A) (cb : A -> string) :
  uniqBy arr cb = first_of_each_key cb [] arr
  /\ NoDup (map cb (uniqBy arr cb))
  /\ (forall x, In x (uniqBy arr cb) -> In x arr)
  /\ (forall x, In x arr -> In (cb x) (map cb (uniqBy arr cb))).
Proof.
  rewrite uniqBy_first_of_each_key.
  destruct (first_of_each_key_spec cb arr []) as [N [I C]].
  split; [reflexivity|]. split; [exact N|]. split.
  - intros x Hx. now destruct (I x Hx).
  - intros x Hx. destruct (C x Hx) as [[]|H]. exact H.
Qed.

(** The key tells the fonts apart as long as the family has no colon. *)
Lemma fontKey_inj (f g : FontName) :
  no_colon (family f) = true ->
  no_colon (family g) = true ->
  fontKey f = fontKey g ->
  f = g.
Proof.
  destruct f as [a b], g as [a' b']. unfold fontKey. cbn [family style].
  revert a'. induction a as [|c a IH]; intros [|c' a'] Ha Ha' E.
  - cbn in E. now inversion E.
  - cbn in E, Ha'. inversion E. subst c'. discriminate Ha'.
  - cbn in E, Ha. inversion E. subst c. discriminate Ha.
  - cbn [no_colon] in Ha, Ha'.
    apply andb_true_iff in Ha. apply andb_true_iff in Ha'.
    cbn in E. inversion E. subst c'.
    specialize (IH a' (proj2 Ha) (proj2 Ha') H1). now inversion IH.
Qed.

(** X2: the fonts [setCharactersWithSmartMatchFont] loads besides the
    fallback font are told apart by the key family::style.  Their keys
    are pairwise distinct, so no font is loaded twice, and the key of
    every recorded run is the key of a loaded font.  When no family of
    the runs has a colon, the key determines the font and the font of
    every run is loaded.  With a colon two fonts can share a key, and
    then only the first is loaded: of the runs A::B / C and A / B::C
    the font of the second is not loaded. *)
Theorem fontsToLoad_loads_each_key_once (rangeTree : list FontRun) :
  NoDup (map fontKey (fontsToLoad rangeTree))
  /\ NoDup (fontsToLoad rangeTree)
  /\ (forall run,
         In run rangeTree ->
         In (fontKey (mkFont (run_family run) (run_style run)))
            (map fontKey (fontsToLoad rangeTree)))
  /\ ((forall run, In run rangeTree -> no_colon (run_family run) = true) ->
      forall run,
        In run rangeTree ->
        In (mkFont (run_family run) (run_style run))
           (fontsToLoad rangeTree))
  /\ fontsToLoad [colonFamily; colonStyle] = [mkFont "A::B" "C"]
  /\ ~ In (mkFont (run_family colonStyle) (run_style colonStyle))
         (fontsToLoad [colonFamily; colonStyle]).
Proof.
  assert (N : NoDup (map fontKey (fontsToLoad rangeTree))
              /\ (forall f, In f (fontsToLoad rangeTree) ->
                            exists r, In r rangeTree
                                      /\ f = mkFont (run_family r)
                                                    (run_style r))
              /\ forall run,
                   In run rangeTree ->
                   In (fontKey (mkFont (run_family run) (run_style run)))
                      (map fontKey (fontsToLoad rangeTree))).
  { unfold fontsToLoad. rewrite map_map, uniqBy_first_of_each_key.
    destruct (first_of_each_key_spec
                (fun r => fontKey (mkFont (run_family r) (run_style r)))
                rangeTree []) as [N [I C]].
    split; [exact N|]. split.
    - intros f Hf. apply in_map_iff in Hf. destruct Hf as [r [<- Hr]].
      exists r. split; [now destruct (I r Hr) | reflexivity].
    - intros run Hrun. destruct (C run Hrun) as [[]|H]. exact H. }
  destruct N as [N [I C]].
  split; [exact N|]. split; [exact (NoDup_map_inv _ _ N)|].
  split; [exact C|]. split; [|split].
  - intros Hfam run Hrun. specialize (C run Hrun).
    apply in_map_iff in C. destruct C as [f [Ef Hf]].
    destruct (I f Hf) as [r [Hr ->]].
    apply fontKey_inj in Ef.
    + now rewrite <- Ef.
    + apply (Hfam r Hr).
    + apply (Hfam run Hrun).
  - reflexivity.
  - intros [H|[]]. discriminate H.
Qed.

(** ** [createAtlas] *)

Lemma placeFrame_step (st : Shelf) (frame : AtlasFrame) :
  shelf_ok st -> sized frame ->
  let '(placed, st1) := placeFrame st frame in
  shelf_ok st1
  /\ behind st1 placed
  /\ same_frame placed frame
  /\ (0 <= af_x placed)%Z /\ (0 <= af_y placed)%Z
  /\ (af_x placed + af_width placed <= maxWidth st1)%Z
  /\ (af_y placed + af_height placed <= maxHeight st1)%Z
  /\ maxWidth st1 = Z.max (maxWidth st) (af_width frame)
  /\ (maxHeight st <= maxHeight st1)%Z
  /\ (forall p, behind st p -> behind st1 p /\ ~ overlap p placed).
Proof.
  intros (Hx & Hy & Hs & Hw & Hh) [Hfw Hfh]. unfold placeFrame.
  destruct (currentX st + af_width frame >? maxWidth st)%Z eqn:E;
    cbn [currentX currentY shelfHeight maxWidth maxHeight
         af_x af_y af_width af_height af_node];
    unfold shelf_ok, behind, overlap, same_frame;
    cbn [currentX currentY shelfHeight maxWidth maxHeight
         af_x af_y af_width af_height af_node originalX originalY].
  - apply Z.gtb_lt in E.
    repeat split; intros; try lia; intuition lia.
  - assert (E' : (currentX st + af_width frame <= maxWidth st)%Z).
    { destruct (Z.gtb_spec (currentX st + af_width frame) (maxWidth st));
        [discriminate | assumption]. }
    repeat split; intros; try lia; intuition lia.
Qed.

Lemma placeFrames_spec (frames : list AtlasFrame) :
  forall st,
    shelf_ok st -> Forall sized frames ->
    shelf_ok (snd (placeFrames st frames))
    /\ Forall2 same_frame (fst (placeFrames st frames)) frames
    /\ Forall (inside (snd (placeFrames st frames)))
              (fst (placeFrames st frames))
    /\ maxWidth (snd (placeFrames st frames))
       = fold_left Z.max (map af_width frames) (maxWidth st)
    /\ (maxWidth st <= maxWidth (snd (placeFrames st frames)))%Z
    /\ (maxHeight st <= maxHeight (snd (placeFrames st frames)))%Z
    /\ (forall p, behind st p ->
                  Forall (fun q => ~ overlap p q)
                         (fst (placeFrames st frames)))
    /\ ForallOrdPairs (fun a b => ~ overlap a b)
                      (fst (placeFrames st frames)).
Proof.
  induction frames as [|frame rest IH]; intros st Hst Hsz.
  - cbn. repeat split; try lia; try constructor; try exact Hst.
    all: destruct Hst as (? & ? & ? & ? & ?); try assumption.
  - inversion Hsz as [|? ? Hf Hr]; subst.
    cbn [placeFrames].
    pose proof (placeFrame_step st frame Hst Hf) as S.
    destruct (placeFrame st frame) as [placed st1].
    destruct S as (Hst1 & Hb & Hsf & Hx0 & Hy0 & Hxw & Hyh
                   & Emw & Hmh & Hkeep).
    specialize (IH st1 Hst1 Hr).
    destruct (placeFrames st1 rest) as [others st2].
    cbn [fst snd] in *.
    destruct IH as (Hst2 & Hsame & Hin & Emw2 & Hmw2 & Hmh2 & Hfut & Hpairs).
    split; [exact Hst2|]. split.
    { constructor; [exact Hsf | exact Hsame]. }
    split.
    { constructor; [|exact Hin]. unfold inside. repeat split; lia. }
    split.
    { cbn [map fold_left]. rewrite Emw2, Emw. reflexivity. }
    split; [lia|]. split; [lia|]. split.
    { intros p Hp. destruct (Hkeep p Hp) as [Hp1 Hno].
      constructor; [exact Hno | now apply Hfut]. }
    constructor; [|exact Hpairs]. now apply Hfut.
Qed.

Lemma ForallOrdPairs_nth_error {A : Type} (R : A -> A -> Prop) (l : list A) :
  ForallOrdPairs R l ->
  forall i j a b,
    i < j -> nth_error l i = Some a -> nth_error l j = Some b -> R a b.
Proof.
  induction 1 as [|x l Hx Hl IH]; intros i j a b Hij Ha Hb.
  - destruct i; discriminate.
  - destruct j as [|j]; [lia|]. cbn [nth_error] in Hb.
    destruct i as [|i]; cbn [nth_error] in Ha.
    + injection Ha as <-. rewrite Forall_forall in Hx. apply Hx.
      eapply nth_error_In; eassumption.
    + apply (IH i j); [lia | assumption | assumption].
Qed.

Lemma overlap_sym (a b : AtlasFrame) : overlap a b -> overlap b a.
Proof. unfold overlap. tauto. Qed.

Lemma fold_larger (l : list AtlasFrame) :
  forall acc,
    (area acc <= area (fold_left larger l acc))%Z
    /\ (forall f, In f l -> (area f <= area (fold_left larger l acc))%Z)
    /\ (fold_left larger l acc = acc
        \/ exists i,
             nth_error l i = Some (fold_left larger l acc)
             /\ (area acc < area (fold_left larger l acc))%Z
             /\ forall j f, j < i -> nth_error l j = Some f ->
                            (area f < area (fold_left larger l acc))%Z).
Proof.
  induction l as [|x l IH]; intro acc; cbn [fold_left].
  - split; [lia|]. split; [intros f []|now left].
  - destruct (IH (larger acc x)) as (Hacc & Hall & Hpos).
    assert (Hl : (area acc <= area (larger acc x))%Z
                 /\ (area x <= area (larger acc x))%Z
                 /\ (larger acc x = acc
                     \/ larger acc x = x /\ (area acc < area x)%Z)).
    { unfold larger, area.
      destruct (Z.gtb_spec (af_width x * af_height x)
                           (af_width acc * af_height acc)); intuition lia. }
    destruct Hl as (H1 & H2 & H3).
    split; [lia|]. split.
    { intros f [<-|Hf]; [lia | now apply Hall]. }
    destruct Hpos as [E|[i (Hi & Hlt & Hbefore)]].
    + destruct H3 as [E3|[E3 Hlt3]].
      * left. congruence.
      * right. exists 0. rewrite E, E3. cbn [nth_error].
        split; [reflexivity|]. split; [exact Hlt3|]. intros j f Hj. lia.
    + right. exists (S i). cbn [nth_error]. split; [exact Hi|].
      split; [lia|]. intros [|j] f Hj Hf; cbn [nth_error] in Hf.
      * injection Hf as <-. lia.
      * apply (Hbefore j); [lia | exact Hf].
Qed.

Lemma largestFrame_first_of_largest_area (frames : list AtlasFrame)
      (largest : AtlasFrame) :
  largestFrame frames = Some largest ->
  exists i,
    nth_error frames i = Some largest
    /\ forall j f, nth_error frames j = Some f ->
                   (area f <= area largest)%Z
                   /\ (j < i -> (area f < area largest)%Z).
Proof.
  destruct frames as [|first rest]; [discriminate|].
  cbn [largestFrame]. intro E. injection E as E.
  change (fold_left larger rest (larger first first))
    with (fold_left larger (first :: rest) first) in E.
  destruct (fold_larger (first :: rest) first) as (_ & Hall & Hpos).
  subst largest.
  destruct Hpos as [E0|[i (Hi & _ & Hbefore)]].
  - exists 0. split; [now rewrite E0|].
    intros j f Hf. split; [|lia]. apply Hall. eapply nth_error_In; eassumption.
  - exists i. split; [exact Hi|]. intros j f Hf. split.
    + apply Hall. eapply nth_error_In; eassumption.
    + intro Hj. now apply (Hbefore j).
Qed.

Lemma fold_max_spec (l : list Z) :
  forall m,
    (m <= fold_left Z.max l m)%Z
    /\ (forall z, In z l -> (z <= fold_left Z.max l m)%Z)
    /\ (fold_left Z.max l m = m \/ In (fold_left Z.max l m) l).
Proof.
  induction l as [|x l IH]; intro m; cbn [fold_left].
  - split; [lia|]. split; [intros z []|now left].
  - destruct (IH (Z.max m x)) as (H1 & H2 & H3).
    split; [lia|]. split.
    + intros z [<-|Hz]; [lia | now apply H2].
    + destruct H3 as [E|Hin]; [|right; now right].
      rewrite E. destruct (Z.max_spec m x) as [[_ ->]|[_ ->]];
        [right; now left | now left].
Qed.

(** What an accepted call has computed. *)
Lemma createAtlas_accepted (selection : list SelectedNode) (atlas : Atlas) :
  createAtlas selection = inr atlas ->
  2 <= length selection
  /\ Forall (fun node => sel_type node = "FRAME"%string) selection
  /\ (exists largest,
        largestFrame (map atlasFrame_of selection) = Some largest
        /\ atlas_x atlas = originalX largest
        /\ atlas_y atlas = originalY largest)
  /\ atlas_frames atlas
     = fst (placeFrames emptyShelf (map atlasFrame_of selection))
  /\ atlas_width atlas
     = maxWidth (snd (placeFrames emptyShelf (map atlasFrame_of selection)))
  /\ atlas_height atlas
     = maxHeight (snd (placeFrames emptyShelf (map atlasFrame_of selection)))
  /\ (atlas_width atlas <= MAX_ATLAS_SIZE)%Z
  /\ (atlas_height atlas <= MAX_ATLAS_SIZE)%Z
  /\ framesCount atlas = length selection.
Proof.
  unfold createAtlas.
  destruct (Nat.ltb_spec (length selection) 2) as [|Hlen]; [discriminate|].
  destruct (Nat.ltb_spec 0
    (length (filter (fun node => negb (sel_type node =? "FRAME")%string)
                    selection))) as [|Hinv]; [discriminate|].
  destruct (largestFrame (map atlasFrame_of selection)) as [largest|];
    [|discriminate].
  destruct (placeFrames emptyShelf (map atlasFrame_of selection))
    as [placed st].
  destruct (Z.gtb_spec (maxWidth st) MAX_ATLAS_SIZE) as [|Hw];
    [discriminate|].
  destruct (Z.gtb_spec (maxHeight st) MAX_ATLAS_SIZE) as [|Hh];
    [discriminate|].
  cbn [orb]. intro E. injection E as <-. cbn [atlas_x atlas_y atlas_width
    atlas_height atlas_frames framesCount fst snd].
  split; [exact Hlen|]. split.
  { apply Forall_forall. intros node Hn.
    destruct (String.eqb_spec (sel_type node) "FRAME") as [|Hne];
      [assumption|].
    exfalso.
    assert (Hf : In node (filter (fun node =>
                   negb (sel_type node =? "FRAME")%string) selection)).
    { apply filter_In. split; [exact Hn|].
      destruct (String.eqb_spec (sel_type node) "FRAME"); [contradiction|].
      reflexivity. }
    destruct (filter _ selection); [destruct Hf | cbn in Hinv; lia]. }
  split; [exists largest; repeat split|].
  repeat split; assumption.
Qed.

Lemma whole_sizes_sized (selection : list SelectedNode) :
  whole_sizes selection -> Forall sized (map atlasFrame_of selection).
Proof.
  intro H. apply Forall_forall. intros f Hf. apply in_map_iff in Hf.
  destruct Hf as [node [<- Hn]]. exact (H node Hn).
Qed.

Lemma emptyShelf_ok : shelf_ok emptyShelf.
Proof. unfold shelf_ok, emptyShelf. cbn. lia. Qed.

(** X3: in an atlas that [createAtlas] builds, no two of the selected
    frames overlap at their computed positions. *)
Theorem createAtlas_frames_do_not_overlap
        (selection : list SelectedNode) (atlas : Atlas) :
  whole_sizes selection ->
  createAtlas selection = inr atlas ->
  forall i j a b,
    i <> j ->
    nth_error (atlas_frames atlas) i = Some a ->
    nth_error (atlas_frames atlas) j = Some b ->
    ~ overlap a b.
Proof.
  intros Hsz Hacc i j a b Hij Ha Hb.
  destruct (createAtlas_accepted _ _ Hacc) as (_ & _ & _ & Ef & _).
  rewrite Ef in Ha, Hb.
  pose proof (placeFrames_spec (map atlasFrame_of selection) emptyShelf
                emptyShelf_ok (whole_sizes_sized _ Hsz)) as S.
  destruct S as (_ & _ & _ & _ & _ & _ & _ & Hpairs).
  destruct (Nat.lt_total i j) as [Hlt|[E|Hlt]]; [|contradiction|].
  - exact (ForallOrdPairs_nth_error _ _ Hpairs i j a b Hlt Ha Hb).
  - intro Ho. apply overlap_sym in Ho. revert Ho.
    exact (ForallOrdPairs_nth_error _ _ Hpairs j i b a Hlt Hb Ha).
Qed.

Lemma createAtlas_frames_do_not_overlap_witness :
  ~ overlap (mkAtlasFrame (mkSelected "coin" "FRAME" 4 6 0 0) 4 6 0 5 0 0)
            (mkAtlasFrame (mkSelected "gem" "FRAME" 3 2 50 50) 3 2 4 5 50 50).
Proof.
  refine (createAtlas_frames_do_not_overlap sprites
            (mkAtlas 100 200 10 11 _ 3) _ _ 1 2 _ _ _ _ _).
  - intros node [<-|[<-|[<-|[]]]]; cbn; lia.
  - reflexivity.
  - discriminate.
  - reflexivity.
  - reflexivity.
Defined.

(** X4: an atlas that [createAtlas] builds holds every selected frame once,
    in selection order and with its own size, inside the atlas rectangle;
    the atlas is exactly as wide as the widest selected frame and neither
    side exceeds 2048. *)
Theorem createAtlas_frames_fit_the_atlas
        (selection : list SelectedNode) (atlas : Atlas) :
  whole_sizes selection ->
  createAtlas selection = inr atlas ->
  map af_node (atlas_frames atlas) = selection
  /\ Forall (fun p =>
               af_width p = sel_width (af_node p)
               /\ af_height p = sel_height (af_node p)
               /\ (0 <= af_x p)%Z /\ (0 <= af_y p)%Z
               /\ (af_x p + af_width p <= atlas_width atlas)%Z
               /\ (af_y p + af_height p <= atlas_height atlas)%Z)
            (atlas_frames atlas)
  /\ (forall node, In node selection ->
                   (sel_width node <= atlas_width atlas)%Z)
  /\ (exists node, In node selection /\ sel_width node = atlas_width atlas)
  /\ (atlas_width atlas <= 2048)%Z /\ (atlas_height atlas <= 2048)%Z.
Proof.
  intros Hsz Hacc.
  destruct (createAtlas_accepted _ _ Hacc)
    as (Hlen & _ & _ & Ef & Ew & Eh & Hw & Hh & _).
  pose proof (placeFrames_spec (map atlasFrame_of selection) emptyShelf
                emptyShelf_ok (whole_sizes_sized _ Hsz)) as S.
  destruct S as (_ & Hsame & Hin & Emax & _ & _ & _ & _).
  rewrite <- Ef in Hsame, Hin. rewrite <- Ew in Emax.
  assert (Hnodes : map af_node (atlas_frames atlas) = selection
                   /\ Forall (fun p => af_width p = sel_width (af_node p)
                                /\ af_height p = sel_height (af_node p))
                             (atlas_frames atlas)).
  { revert Hsame. generalize (atlas_frames atlas). clear.
    induction selection as [|node rest IH]; intros placed H;
      inversion H as [|p f ps fs Hp Hps]; subst; cbn [map].
    - split; constructor.
    - destruct (IH ps Hps) as [E F].
      destruct Hp as (En & Ewd & Eht & _). cbn in En, Ewd, Eht.
      split; [now rewrite En, E|]. constructor; [|exact F].
      rewrite En. cbn. split; assumption. }
  destruct Hnodes as [Enodes Hdims].
  split; [exact Enodes|]. split.
  { rewrite Forall_forall in *. intros p Hp.
    destruct (Hdims p Hp) as [E1 E2]. destruct (Hin p Hp) as (?&?&?&?).
    rewrite Ew, Eh. repeat split; assumption. }
  rewrite map_map in Emax. cbn [emptyShelf maxWidth] in Emax.
  change (fun x => af_width (atlasFrame_of x)) with sel_width in Emax.
  destruct (fold_max_spec (map sel_width selection) 0) as (_ & Hall & Hor).
  rewrite <- Emax in Hall, Hor.
  split.
  { intros node Hn. apply Hall. now apply in_map. }
  split.
  { destruct Hor as [E0|Hex].
    - destruct selection as [|node rest]; [cbn in Hlen; lia|].
      exists node. split; [now left|].
      assert (sel_width node <= atlas_width atlas)%Z
        by (apply Hall; now left).
      destruct (Hsz node (or_introl eq_refl)). lia.
    - apply in_map_iff in Hex. destruct Hex as [node [E Hn]].
      exists node. split; assumption. }
  split; [exact Hw | exact Hh].
Qed.

Lemma createAtlas_frames_fit_the_atlas_witness :
  exists atlas,
    createAtlas sprites = inr atlas
    /\ map af_node (atlas_frames atlas) = sprites
    /\ atlas_width atlas = 10%Z /\ atlas_height atlas = 11%Z.
Proof.
  eexists. split; [reflexivity|].
  split; [|split; reflexivity].
  refine (proj1 (createAtlas_frames_fit_the_atlas sprites _ _ eq_refl)).
  intros node [<-|[<-|[<-|[]]]]; cbn; lia.
Defined.

(** X5: the atlas is put where the selected frame of largest area was, the
    first such frame of the selection when several share that area. *)
Theorem createAtlas_sits_on_first_largest_frame
        (selection : list SelectedNode) (atlas : Atlas) :
  createAtlas selection = inr atlas ->
  exists i node,
    nth_error selection i = Some node
    /\ atlas_x atlas = sel_x node /\ atlas_y atlas = sel_y node
    /\ forall j other,
         nth_error selection j = Some other ->
         (sel_width other * sel_height other
          <= sel_width node * sel_height node)%Z
         /\ (j < i ->
             (sel_width other * sel_height other
              < sel_width node * sel_height node)%Z).
Proof.
  intro Hacc.
  destruct (createAtlas_accepted _ _ Hacc)
    as (_ & _ & (largest & El & Ex & Ey) & _).
  destruct (largestFrame_first_of_largest_area _ _ El) as [i [Hi Hall]].
  rewrite nth_error_map in Hi.
  destruct (nth_error selection i) as [node|] eqn:En; [|discriminate].
  cbn in Hi. injection Hi as <-.
  exists i, node. split; [exact En|]. split; [exact Ex|].
  split; [exact Ey|]. intros j other Hj.
  apply (Hall j (atlasFrame_of other)).
  rewrite nth_error_map, Hj. reflexivity.
Qed.

Lemma createAtlas_sits_on_first_largest_frame_witness :
  exists i node,
    nth_error sprites i = Some node
    /\ 100%Z = sel_x node /\ 200%Z = sel_y node
    /\ forall j other,
         nth_error sprites j = Some other ->
         (sel_width other * sel_height other
          <= sel_width node * sel_height node)%Z
         /\ (j < i ->
             (sel_width other * sel_height other
              < sel_width node * sel_height node)%Z).
Proof.
  exact (createAtlas_sits_on_first_largest_frame sprites
           (mkAtlas 100 200 10 11
              (fst (placeFrames emptyShelf (map atlasFrame_of sprites))) 3)
           eq_refl).
Defined.

(** ** The colour strings and the filtered export *)

Lemma channel_byte (c : Q) : unit_range c -> (0 <= channel c <= 255)%Z.
Proof.
  intros [H0 H1]. unfold channel.
  assert (H : (inject_Z 0 <= c * 255 <= inject_Z 255)%Q).
  { change (inject_Z 0) with 0%Q. change (inject_Z 255) with 255%Q. lra. }
  apply (binary64_between _ 0 255 ltac:(cbn; lia) ltac:(cbn; lia)) in H.
  destruct H as [L U]. split.
  - change 0%Z with (Math_round (inject_Z 0)). now apply Math_round_mono.
  - change 255%Z with (Math_round (inject_Z 255)). now apply Math_round_mono.
Qed.

Lemma two_digits_all :
  forallb (fun n => two_digits (Z.of_nat n)) (seq 0 256) = true.
Proof. vm_compute. reflexivity. Qed.

Lemma byte_two_digits (x : Z) :
  (0 <= x <= 255)%Z ->
  exists c1 c2 h l,
    padStart2 (toString16 x) = String c1 (String c2 EmptyString)
    /\ hexValue c1 = Some h /\ hexValue c2 = Some l
    /\ (16 * h + l)%Z = x.
Proof.
  intro Hx.
  pose proof two_digits_all as H. rewrite forallb_forall in H.
  specialize (H (Z.to_nat x)).
  rewrite Z2Nat.id in H by lia.
  assert (Hin : In (Z.to_nat x) (seq 0 256)) by (apply in_seq; lia).
  specialize (H Hin). unfold two_digits in H.
  destruct (padStart2 (toString16 x)) as [|c1 [|c2 [|]]]; try discriminate.
  destruct (hexValue c1) as [h|] eqn:E1; [|discriminate].
  destruct (hexValue c2) as [l|] eqn:E2; [|discriminate].
  exists c1, c2, h, l.
  split; [reflexivity|]. split; [exact E1|]. split; [exact E2|].
  now apply Z.eqb_eq.
Qed.

(** X6: for a colour with channels between 0 and 1, [rgbaToHex] writes the
    number sign followed by two lower-case hexadecimal digits for each of
    red, green and blue, and two more for alpha exactly when the alpha
    channel is present and does not round to 255; reading the digits back
    gives the rounded channels.  A channel is the product by 255 as the
    code computes it, rounded to the nearest number and then to the
    nearest integer: the number nearest to 0.3 gives 76.5 and so 4d. *)
Theorem rgbaToHex_reads_back (color : RGBA) :
  in_gamut color ->
  let alpha := match color_a color with
               | Some alpha => channel alpha
               | None => 255%Z
               end in
  hexToChannels (rgbaToHex color)
  = Some ([channel (color_r color); channel (color_g color);
           channel (color_b color)]
          ++ (if (alpha =? 255)%Z then [] else [alpha]))
  /\ String.length (rgbaToHex color) = (if (alpha =? 255)%Z then 7 else 9).
Proof.
  intros (Hr & Hg & Hb & Ha). cbv zeta.
  apply channel_byte in Hr, Hg, Hb.
  destruct (byte_two_digits _ Hr) as (r1 & r2 & rh & rl & Er & Er1 & Er2 & Ern).
  destruct (byte_two_digits _ Hg) as (g1 & g2 & gh & gl & Eg & Eg1 & Eg2 & Egn).
  destruct (byte_two_digits _ Hb) as (b1 & b2 & bh & bl & Eb & Eb1 & Eb2 & Ebn).
  unfold rgbaToHex.
  destruct (match color_a color with
            | Some alpha => channel alpha
            | None => 255%Z
            end =? 255)%Z eqn:E.
  - cbn [map String.concat]. rewrite Er, Eg, Eb.
    cbn [String.append hexToChannels hexPairs String.length].
    rewrite Er1, Er2, Eg1, Eg2, Eb1, Eb2, Ern, Egn, Ebn.
    split; reflexivity.
  - assert (Hal : (0 <= match color_a color with
                         | Some alpha => channel alpha
                         | None => 255%Z
                         end <= 255)%Z).
    { destruct (color_a color); [now apply channel_byte | lia]. }
    destruct (byte_two_digits _ Hal)
      as (a1 & a2 & ah & al & Ea & Ea1 & Ea2 & Ean).
    cbn [map String.concat]. rewrite Er, Eg, Eb, Ea.
    cbn [String.append hexToChannels hexPairs String.length].
    rewrite Er1, Er2, Eg1, Eg2, Eb1, Eb2, Ea1, Ea2, Ern, Egn, Ebn, Ean.
    split; reflexivity.
Qed.

Lemma rgbaToHex_reads_back_witness :
  hexToChannels (rgbaToHex (mkRGBA three_tenths (1 # 2) 0 (Some (1 # 4))))
  = Some [77; 128; 0; 64]%Z
  /\ rgbaToHex (mkRGBA three_tenths (1 # 2) 0 (Some (1 # 4)))
     = "#4d800040"%string.
Proof.
  split; [|vm_compute; reflexivity].
  assert (H : in_gamut (mkRGBA three_tenths (1 # 2) 0 (Some (1 # 4)))).
  { unfold in_gamut, unit_range. cbn [color_r color_g color_b color_a].
    repeat split; vm_compute; discriminate. }
  generalize (proj1 (rgbaToHex_reads_back _ H)).
  vm_compute. exact (fun E => E).
Defined.

Lemma RestNode_induction (P : RestNode -> Prop) :
  (forall node, Forall P (rest_children_of node) -> P node) ->
  forall node, P node.
Proof.
  intros H. fix IH 1. intros node. apply H.
  destruct node as [? ? ? ? ? ? ? ? ? ? [children|]];
    unfold rest_children_of; cbn [rest_children]; [|constructor].
  induction children as [|c l IHl]; constructor; [apply IH | exact IHl].
Qed.

Lemma filterFigmaNode_eq (node : RestNode) :
  filterFigmaNode node
  = if String.eqb (rest_type node) "VECTOR" then None
    else
      Some (mkFiltered
              (rest_id node) (rest_name node) (rest_type node)
              (rest_visible node)
              (option_map (map processFill) (nonEmpty (rest_fills node)))
              (option_map (map processStroke) (nonEmpty (rest_strokes node)))
              (rest_cornerRadius node)
              (rest_absoluteBoundingBox node)
              (truthy_string (rest_characters node))
              (option_map filterStyle (rest_style node))
              (option_map (fun children =>
                             nonNull (map filterFigmaNode children))
                          (rest_children node))).
Proof. destruct node as [? ? ? ? ? ? ? ? ? ? [children|]]; reflexivity. Qed.

Lemma outside_vectors_eq (node : RestNode) :
  outside_vectors node
  = if String.eqb (rest_type node) "VECTOR" then []
    else node :: flat_map outside_vectors (rest_children_of node).
Proof. destruct node as [? ? ? ? ? ? ? ? ? ? [children|]]; reflexivity. Qed.

Lemma filtered_nodes_eq (f : FilteredNode) :
  filtered_nodes f = f :: flat_map filtered_nodes (f_children_of f).
Proof. destruct f as [? ? ? ? ? ? ? ? ? ? [children|]]; reflexivity. Qed.

Lemma filtered_children_from (children : list RestNode) :
  Forall filtered_tree_from children ->
  Forall2 filtered_from
          (flat_map filtered_nodes (nonNull (map filterFigmaNode children)))
          (flat_map outside_vectors children).
Proof.
  induction 1 as [|c l Hc Hl IH]; [constructor|].
  cbn [map flat_map]. unfold filtered_tree_from in Hc.
  destruct (filterFigmaNode c) as [f|]; cbn [nonNull flat_map].
  - apply Forall2_app; assumption.
  - rewrite Hc. exact IH.
Qed.

Lemma filterFigmaNode_tree (node : RestNode) : filtered_tree_from node.
Proof.
  induction node as [node IH] using RestNode_induction.
  unfold filtered_tree_from.
  rewrite filterFigmaNode_eq, outside_vectors_eq.
  destruct (String.eqb (rest_type node) "VECTOR"); [reflexivity|].
  rewrite filtered_nodes_eq. constructor.
  - unfold filtered_from; cbn. repeat split; try reflexivity.
    + destruct (rest_children node); [discriminate | reflexivity].
    + intros ->. reflexivity.
  - unfold f_children_of, rest_children_of in *. cbn [f_children].
    destruct (rest_children node) as [children|]; cbn [option_map].
    + now apply filtered_children_from.
    + constructor.
Qed.

Lemma outside_vectors_no_vector (node : RestNode) :
  Forall (fun n => rest_type n <> "VECTOR"%string) (outside_vectors node).
Proof.
  induction node as [node IH] using RestNode_induction.
  rewrite outside_vectors_eq.
  destruct (String.eqb_spec (rest_type node) "VECTOR") as [|Hne];
    [constructor|].
  constructor; [exact Hne|].
  apply Forall_flat_map. exact IH.
Qed.

(** X7: [filterFigmaNode] returns [null] exactly for a VECTOR node;
    otherwise the tree it returns holds, in the same depth-first order,
    one node for each exported node that is not inside the subtree of a
    VECTOR node, each with the copied properties, so no VECTOR node and
    nothing below one is left. *)
Theorem filterFigmaNode_drops_vector_subtrees (node : RestNode) :
  (filterFigmaNode node = None <-> rest_type node = "VECTOR"%string)
  /\ forall f,
       filterFigmaNode node = Some f ->
       Forall2 filtered_from (filtered_nodes f) (outside_vectors node)
       /\ Forall (fun n => f_type n <> "VECTOR"%string) (filtered_nodes f).
Proof.
  split.
  - rewrite filterFigmaNode_eq.
    destruct (String.eqb_spec (rest_type node) "VECTOR"); split;
      congruence.
  - intros f Hf. pose proof (filterFigmaNode_tree node) as T.
    unfold filtered_tree_from in T. rewrite Hf in T. split; [exact T|].
    pose proof (outside_vectors_no_vector node) as V.
    revert T V. generalize (filtered_nodes f) (outside_vectors node).
    induction 1 as [|x y l l' Hxy Hl IH]; intro V; constructor.
    + inversion V; subst. destruct Hxy as (_ & _ & -> & _). assumption.
    + inversion V; subst. now apply IH.
Qed.

Lemma filterFigmaNode_drops_vector_subtrees_witness :
  exists f,
    filterFigmaNode exportedPage = Some f
    /\ map f_id (filtered_nodes f) = ["0:1"; "1:1"; "1:4"]%string
    /\ Forall (fun n => f_type n <> "VECTOR"%string) (filtered_nodes f).
Proof.
  eexists. split; [reflexivity|]. split; [reflexivity|].
  exact (proj2 (proj2 (filterFigmaNode_drops_vector_subtrees exportedPage)
                      _ eq_refl)).
Defined.

Section NodeExportProperties.

Variable Host : Type.
Variable Value : Type.
Variable getNodeByIdAsync : option string -> Host -> string + option SceneNode.
Variable exportAsync : SceneNode -> Host -> string + RestNode.

Lemma mapM_calls {A B : Type} (f : A -> Host -> string + B) (g : A -> B)
      (l : list A) (w : World Host Value) :
  (forall a, In a l -> f a (host w) = inr (g a)) ->
  mapM Host Value (fun a => call Host Value (f a)) l w = (Ok (map g l), w).
Proof.
  induction l as [|a l IH]; intro H; [reflexivity|].
  cbn [mapM map]. unfold bind at 1. unfold call at 1.
  rewrite (H a (or_introl eq_refl)).
  unfold bind at 1. rewrite IH by (intros; apply H; now right).
  reflexivity.
Qed.

Lemma mapM_exports (export : SceneNode -> RestNode) (l : list SceneNode)
      (w : World Host Value) :
  (forall node, In node l -> exportAsync node (host w) = inr (export node)) ->
  mapM Host Value
       (fun node =>
          bind Host Value (call Host Value (exportAsync node))
               (fun document =>
                  ret Host Value
                      (mkNodeInfo (node_id node) (filterFigmaNode document))))
       l w
  = (Ok (map (fun node =>
                mkNodeInfo (node_id node) (filterFigmaNode (export node))) l),
     w).
Proof.
  induction l as [|a l IH]; intro H; [reflexivity|].
  cbn [mapM map]. unfold bind at 1. unfold bind at 1. unfold call at 1.
  rewrite (H a (or_introl eq_refl)). unfold ret at 1.
  unfold bind at 1. rewrite IH by (intros; apply H; now right).
  reflexivity.
Qed.

Lemma In_nonNull {A : Type} (l : list (option A)) (a : A) :
  In a (nonNull l) <-> In (Some a) l.
Proof.
  induction l as [|[x|] l IH]; cbn [nonNull].
  - tauto.
  - cbn [In]. rewrite IH. split; intros [E|H]; auto; left; congruence.
  - cbn [In]. rewrite IH. split; [auto | intros [E|H]; [discriminate | auto]].
Qed.

(** X8: when the lookups and the exports succeed, [getNodesInfo] answers
    with one entry for each identifier that resolves, in the order of the
    request, and passes over the identifiers that do not resolve without
    an error, so the answer can be shorter than the request; [getNodeInfo]
    throws for such an identifier.  Neither changes the document. *)
Theorem getNodesInfo_skips_unresolved_ids
        (lookup : string -> option SceneNode)
        (export : SceneNode -> RestNode)
        (nodeIds : list string) (w : World Host Value) :
  (forall id, In id nodeIds ->
              getNodeByIdAsync (Some id) (host w) = inr (lookup id)) ->
  (forall id node, In id nodeIds -> lookup id = Some node ->
                   exportAsync node (host w) = inr (export node)) ->
  getNodesInfo Host Value getNodeByIdAsync exportAsync nodeIds w
  = (Ok (map (fun node =>
                mkNodeInfo (node_id node) (filterFigmaNode (export node)))
             (nonNull (map lookup nodeIds))),
     w)
  /\ forall id, In id nodeIds -> lookup id = None ->
       getNodeInfo Host Value getNodeByIdAsync exportAsync id w
       = (Throw (String.append "Node not found with ID: " id), w).
Proof.
  intros Hl He. split.
  - unfold getNodesInfo, try_catch. unfold bind at 1.
    rewrite (mapM_calls (fun id => getNodeByIdAsync (Some id)) lookup)
      by exact Hl.
    rewrite (mapM_exports export); [reflexivity|].
    intros node Hn. apply In_nonNull in Hn. apply in_map_iff in Hn.
    destruct Hn as [id [E Hid]]. now apply (He id).
  - intros id Hid Hnone. unfold getNodeInfo, bind, call.
    rewrite (Hl id Hid), Hnone. reflexivity.
Qed.

End NodeExportProperties.

Lemma getNodesInfo_skips_unresolved_ids_witness :
  getNodesInfo Document unit doc_getNodeByIdAsync doc_exportAsync
               ["1:1"; "9:9"; "1:2"]%string (mkWorld sixNodes [])
  = (Ok [mkNodeInfo "1:1"
                    (filterFigmaNode (leafNode "1:1" "RECTANGLE" None));
         mkNodeInfo "1:2"
                    (filterFigmaNode (leafNode "1:2" "RECTANGLE" None))],
     mkWorld sixNodes [])
  /\ getNodeInfo Document unit doc_getNodeByIdAsync doc_exportAsync
                 "9:9" (mkWorld sixNodes [])
     = (Throw "Node not found with ID: 9:9", mkWorld sixNodes []).
Proof.
  destruct (getNodesInfo_skips_unresolved_ids
              Document unit doc_getNodeByIdAsync doc_exportAsync
              (fun id => find (fun n => String.eqb (node_id n) id) sixNodes)
              (fun node => leafNode (node_id node) (node_type node) None)
              ["1:1"; "9:9"; "1:2"]%string (mkWorld sixNodes []))
    as [E T].
  - intros id _. reflexivity.
  - intros id node _ _. reflexivity.
  - split; [exact E|]. apply (T "9:9"%string); [right; now left | reflexivity].
Defined.

(** ** The annotations *)

Section AnnotationProperties.

Variable Host : Type.
Variable Value : Type.
Variable getNodeByIdAsync : option string -> Host -> string + option SceneNode.
Variable hasAnnotations : SceneNode -> bool.
Variable readAnnotations : SceneNode -> Host -> string + list Annotation.
Variable writeAnnotations :
  SceneNode -> list Annotation -> Host -> string + Host.
Variable nullReadMessage : string.
Variable destructureMessage : string.

Local Abbreviation setAnnotation' :=
  (setAnnotation Host Value getNodeByIdAsync hasAnnotations readAnnotations
                 writeAnnotations).
Local Abbreviation annotateItem' :=
  (annotateItem Host Value getNodeByIdAsync hasAnnotations readAnnotations
                writeAnnotations nullReadMessage).
Local Abbreviation setMultipleAnnotations' :=
  (setMultipleAnnotations Host Value getNodeByIdAsync hasAnnotations
                          readAnnotations writeAnnotations nullReadMessage
                          destructureMessage).

(** [setAnnotation] answers every call, throwing nothing and posting
    nothing. *)
Lemma setAnnotation_settles (params : AnnotationParams)
      (w : World Host Value) :
  exists r h, setAnnotation' params w = (Ok r, mkWorld h (outbox w)).
Proof.
  destruct w as [h0 out].
  unfold setAnnotation, try_catch, bind, call, update, ret;
    cbn [host outbox].
  destruct (falsy (a_nodeId params)); [eauto|].
  destruct (falsy (a_labelMarkdown params)); [eauto|].
  cbn [host outbox].
  destruct (getNodeByIdAsync (a_nodeId params) h0) as [e|[node|]];
    cbn [host outbox]; [eauto| |eauto].
  destruct (hasAnnotations node); cbn [negb host outbox]; [|eauto].
  destruct (writeAnnotations node _ h0) as [e|h1]; cbn [host outbox];
    [eauto|].
  destruct (readAnnotations node h1) as [e|l]; cbn [host outbox]; eauto.
Qed.

Lemma annotateItem_settles (annotation : AnnotationParams)
      (w : World Host Value) :
  exists item h,
    annotateItem' (Some annotation) w = (Ok item, mkWorld h (outbox w))
    /\ ai_nodeId item = a_nodeId annotation.
Proof.
  unfold annotateItem, try_catch. unfold bind at 1.
  destruct (setAnnotation_settles
              (mkAnnotationParams (a_nodeId annotation)
                 (a_labelMarkdown annotation) (a_categoryId annotation)
                 (a_properties annotation)) w) as (r & h & E).
  rewrite E. destruct (ar_success r); unfold ret; eauto.
Qed.

Lemma annotateItems_settle (annotations : list AnnotationParams) :
  forall w : World Host Value,
  exists items h,
    mapM Host Value annotateItem' (map Some annotations) w
    = (Ok items, mkWorld h (outbox w))
    /\ map ai_nodeId items = map a_nodeId annotations.
Proof.
  induction annotations as [|a l IH]; intro w.
  - exists [], (host w). destruct w; split; reflexivity.
  - cbn [map mapM]. unfold bind at 1.
    destruct (annotateItem_settles a w) as (item & h & E & En). rewrite E.
    unfold bind at 1.
    destruct (IH (mkWorld h (outbox w))) as (items & h' & E' & En').
    rewrite E'. cbn [outbox]. exists (item :: items), h'.
    split; [reflexivity|]. cbn [map]. now rewrite En, En'.
Qed.

(** The loop stops at the first entry that is [null], after the entries
    before it have been applied. *)
Lemma annotateItems_stop_at_null (before : list AnnotationParams)
      (rest : list (option AnnotationParams)) :
  forall w : World Host Value,
  exists items h,
    mapM Host Value annotateItem' (map Some before) w
    = (Ok items, mkWorld h (outbox w))
    /\ mapM Host Value annotateItem' (map Some before ++ None :: rest) w
       = (Throw nullReadMessage, mkWorld h (outbox w)).
Proof.
  induction before as [|a l IH]; intro w.
  - exists [], (host w). destruct w; split; reflexivity.
  - cbn [map mapM app]. unfold bind at 1 3.
    destruct (annotateItem_settles a w) as (item & h & E & En). rewrite E.
    destruct (IH (mkWorld h (outbox w))) as (items & h' & E1 & E2).
    exists (item :: items), h'. unfold bind. rewrite E1, E2.
    split; reflexivity.
Qed.

Lemma countItem_fold (items : list AnnotationItem) :
  forall counts,
    fst (fold_left countItem items counts)
    = fst counts + length (filter ai_success items)
    /\ snd (fold_left countItem items counts)
       = snd counts + length (filter (fun i => negb (ai_success i)) items).
Proof.
  induction items as [|item l IH]; intros [s f]; cbn [fold_left filter].
  - cbn. lia.
  - destruct (IH (countItem (s, f) item)) as [E1 E2]. rewrite E1, E2.
    unfold countItem. destruct (ai_success item); cbn; lia.
Qed.

Lemma filter_partition_length {A : Type} (p : A -> bool) (l : list A) :
  length (filter p l) + length (filter (fun x => negb (p x)) l) = length l.
Proof.
  induction l as [|x l IH]; [reflexivity|].
  cbn [filter]. destruct (p x); cbn; lia.
Qed.

(** X9: [setMultipleAnnotations] posts no message.  Given a [params]
    object, a missing or empty list is refused without a call to the
    host; for a list of annotation objects the call returns a summary
    with one entry per annotation, in order and under the annotation's
    node identifier, whose applied and failed counts are those of the
    entries and add up to the total, and whose [success] says that at
    least one annotation was applied.  A list with an entry that is
    [null] makes the call throw the [TypeError] of that entry, which the
    [catch] raises again, once the annotations before it have been
    applied; without a [params] object the destructuring throws. *)
Theorem setMultipleAnnotations_answers_every_annotation_object
        (nodeId : option string) (w : World Host Value) :
  (forall annotations,
      annotations = None \/ annotations = Some [] ->
      setMultipleAnnotations' (Some (mkAnnotationsParams nodeId annotations))
                              w
      = (Ok (AnnotationsRefused "No annotations provided"), w))
  /\ (forall l : list AnnotationParams,
         l <> [] ->
         exists items h,
           setMultipleAnnotations'
             (Some (mkAnnotationsParams nodeId (Some (map Some l)))) w
           = (Ok (AnnotationsSummary
                    (0 <? length (filter ai_success items))
                    (length (filter ai_success items))
                    (length (filter (fun i => negb (ai_success i)) items))
                    (length l) items),
              mkWorld h (outbox w))
           /\ map ai_nodeId items = map a_nodeId l
           /\ length (filter ai_success items)
              + length (filter (fun i => negb (ai_success i)) items)
              = length l)
  /\ (forall (before : list AnnotationParams)
             (rest : list (option AnnotationParams)),
         exists items h,
           mapM Host Value annotateItem' (map Some before) w
           = (Ok items, mkWorld h (outbox w))
           /\ setMultipleAnnotations'
                (Some (mkAnnotationsParams nodeId
                         (Some (map Some before ++ None :: rest)))) w
              = (Throw nullReadMessage, mkWorld h (outbox w)))
  /\ setMultipleAnnotations' None w = (Throw destructureMessage, w).
Proof.
  split; [| split; [| split]].
  - intros annotations [-> | ->]; destruct w; reflexivity.
  - intros l Hne. unfold setMultipleAnnotations. cbn [as_annotations].
    destruct (annotateItems_settle l w) as (items & h & E & En).
    destruct l as [|a l]; [contradiction|].
    cbn [map] in *. unfold bind at 1. rewrite E.
    destruct (countItem_fold items (0, 0)) as [E1 E2].
    destruct (fold_left countItem items (0, 0)) as [s f].
    cbn [fst snd] in E1, E2. subst s f. cbn [Nat.add].
    exists items, h. cbn [length]. rewrite length_map.
    split; [reflexivity|]. split; [exact En|].
    rewrite filter_partition_length.
    rewrite <- (length_map ai_nodeId), En. cbn [length].
    now rewrite length_map.
  - intros before rest.
    destruct (annotateItems_stop_at_null before rest w)
      as (items & h & E1 & E2).
    exists items, h. split; [exact E1|].
    unfold setMultipleAnnotations. cbn [as_annotations].
    destruct (map Some before ++ None :: rest) as [|e l] eqn:El.
    + destruct before; discriminate El.
    + unfold bind at 1. rewrite E2. reflexivity.
  - reflexivity.
Qed.

(** X10: when [setAnnotation] reports success, it has assigned to
    [node.annotations] an array holding the new annotation alone, so the
    annotations the node had before are replaced, not extended. *)
Theorem setAnnotation_replaces_annotations (params : AnnotationParams)
        (w w' : World Host Value) (r : AnnotationResult) :
  setAnnotation' params w = (Ok r, w') ->
  ar_success r = true ->
  exists node label h,
    a_labelMarkdown params = Some label
    /\ getNodeByIdAsync (a_nodeId params) (host w) = inr (Some node)
    /\ writeAnnotations node [newAnnotation label params] (host w) = inr h
    /\ w' = mkWorld h (outbox w)
    /\ readAnnotations node h = inr (match ar_annotations r with
                                     | Some l => l
                                     | None => []
                                     end)
    /\ ar_nodeId r = Some (node_id node).
Proof.
  destruct w as [h0 out].
  unfold setAnnotation, try_catch, bind, call, update, ret;
    cbn [host outbox].
  destruct (falsy (a_nodeId params));
    [intros E; injection E as <- <-; discriminate|].
  destruct (falsy (a_labelMarkdown params)) eqn:El;
    [intros E; injection E as <- <-; discriminate|].
  destruct (a_labelMarkdown params) as [label|] eqn:Elab; [|discriminate].
  replace (or_else (Some label) "") with label
    by (unfold or_else; now rewrite El).
  cbn [host outbox].
  destruct (getNodeByIdAsync (a_nodeId params) h0) as [e|[node|]];
    cbn [host outbox];
    [intros E; injection E as <- <-; discriminate| |
     intros E; injection E as <- <-; discriminate].
  destruct (hasAnnotations node); cbn [negb host outbox];
    [|intros E; injection E as <- <-; discriminate].
  destruct (writeAnnotations node [newAnnotation label params] h0)
    as [e|h1] eqn:Ew; cbn [host outbox];
    [intros E; injection E as <- <-; discriminate|].
  destruct (readAnnotations node h1) as [e|l] eqn:Er; cbn [host outbox];
    [intros E; injection E as <- <-; discriminate|].
  intros E _. injection E as <- <-. cbn [ar_annotations ar_nodeId].
  exists node, label, h1. repeat split; assumption.
Qed.

End AnnotationProperties.

Lemma setAnnotation_replaces_annotations_witness :
  exists node label h,
    a_labelMarkdown titleParams = Some label
    /\ store_getNodeByIdAsync (a_nodeId titleParams) (host annotatedStore)
       = inr (Some node)
    /\ store_writeAnnotations node [newAnnotation label titleParams]
                              (host annotatedStore) = inr h
    /\ mkWorld [("1:1"%string, [mkAnnotation "Title" None None]);
                ("1:1"%string, [reviewed])] []
       = mkWorld h (outbox annotatedStore)
    /\ store_readAnnotations node h
       = inr [mkAnnotation "Title" None None]
    /\ Some "1:1"%string = Some (node_id node).
Proof.
  exact (setAnnotation_replaces_annotations
           AnnotationStore unit store_getNodeByIdAsync (fun _ => true)
           store_readAnnotations store_writeAnnotations titleParams
           annotatedStore
           (mkWorld [("1:1"%string, [mkAnnotation "Title" None None]);
                     ("1:1"%string, [reviewed])] [])
           (mkAnnotationResult true (Some "1:1"%string)
              (Some "Rectangle 1:1"%string)
              (Some [mkAnnotation "Title" None None]) None)
           eq_refl eq_refl).
Defined.

(** On the store: of two annotations, one for a node that is not there,
    one is applied and one fails; a [null] after the first annotation
    makes the call throw once that one is applied. *)
Example store_setMultipleAnnotations_runs :
  (exists items,
      fst (store_setMultipleAnnotations
             (Some (mkAnnotationsParams None
                      (Some (map Some twoAnnotations))))
             annotatedStore)
      = Ok (AnnotationsSummary true 1 1 2 items)
      /\ map ai_success items = [true; false])
  /\ store_setMultipleAnnotations
       (Some (mkAnnotationsParams None (Some [Some titleParams; None])))
       annotatedStore
     = (Throw doc_nullReadMessage,
        mkWorld [("1:1"%string, [mkAnnotation "Title" None None]);
                 ("1:1"%string, [reviewed])] []).
Proof.
  split; [|vm_compute; reflexivity].
  eexists. split; vm_compute; reflexivity.
Qed.

(** ** The auto-layout setters *)

(** A throwing call of [setAxisAlign] leaves the node as it was, unless
    the primary value had been assigned before the counter value was
    refused. *)
Lemma setAxisAlign_throw_cases
      (nodeId : string) (primary counter : option string)
      (node : LayoutNode) (e : string) (after : option LayoutNode) :
  setAxisAlign nodeId primary counter (Some node) = (inl e, after) ->
  (exists v c,
      primary = Some v /\ counter = Some c
      /\ assignCounterAxis (with_primaryAxisAlignItems node v) counter
         = inl e
      /\ after = Some (with_primaryAxisAlignItems node v))
  \/ after = Some node.
Proof.
  unfold setAxisAlign.
  destruct (noAutoLayout (ln_type node));
    [intro E; injection E as _ <-; now right|].
  destruct (String.eqb (ln_layoutMode node) "NONE");
    [intro E; injection E as _ <-; now right|].
  destruct primary as [v|]; cbn [assignPrimaryAxis].
  - destruct (negb (includes _ v));
      [intro E; injection E as _ <-; now right|].
    destruct counter as [c|]; [|cbn; discriminate].
    destruct (assignCounterAxis (with_primaryAxisAlignItems node v) (Some c))
      as [e'|node2] eqn:Ec; [|discriminate].
    intro E. injection E as <- <-. left. exists v, c. repeat split.
    exact Ec.
  - destruct (assignCounterAxis node counter) as [e'|node2];
      [|discriminate].
    intro E. injection E as _ <-. now right.
Qed.

(** X11: [setAxisAlign] is not all or nothing.  On a node that passes the
    checks of type and layout mode, a valid [primaryAxisAlignItems]
    together with a [counterAxisAlignItems] that is refused (a value
    outside the list, or BASELINE on a layout that is not horizontal)
    makes the call throw after the primary value has been assigned: the
    node keeps the new primary value and its old counter value. *)
Theorem setAxisAlign_throws_after_assigning_primary
        (nodeId v c : string) (node : LayoutNode) :
  noAutoLayout (ln_type node) = false ->
  ln_layoutMode node <> "NONE"%string ->
  includes ["MIN"; "MAX"; "CENTER"; "SPACE_BETWEEN"]%string v = true ->
  includes ["MIN"; "MAX"; "CENTER"; "BASELINE"]%string c = false
  \/ (c = "BASELINE"%string /\ ln_layoutMode node <> "HORIZONTAL"%string) ->
  exists e,
    setAxisAlign nodeId (Some v) (Some c) (Some node)
    = (inl e, Some (with_primaryAxisAlignItems node v))
    /\ ln_primaryAxisAlignItems (with_primaryAxisAlignItems node v) = v
    /\ ln_counterAxisAlignItems (with_primaryAxisAlignItems node v)
       = ln_counterAxisAlignItems node.
Proof.
  intros Ht Hm Hv Hc. unfold setAxisAlign. rewrite Ht.
  destruct (String.eqb_spec (ln_layoutMode node) "NONE") as [|_];
    [contradiction|].
  cbn [assignPrimaryAxis]. rewrite Hv. cbn [negb].
  unfold assignCounterAxis.
  destruct Hc as [Hc|[-> Hh]].
  - rewrite Hc. cbn [negb]. eexists. repeat split.
  - cbn [includes existsb String.eqb Ascii.eqb Bool.eqb orb negb andb].
    cbn [with_primaryAxisAlignItems ln_layoutMode].
    destruct (String.eqb_spec (ln_layoutMode node) "HORIZONTAL") as [|_];
      [contradiction|].
    cbn [negb andb]. eexists. repeat split.
Qed.

Lemma setAxisAlign_throws_after_assigning_primary_witness :
  exists e,
    setAxisAlign "2:1" (Some "CENTER"%string) (Some "BASELINE"%string)
                 (Some toolbar)
    = (inl e, Some (with_primaryAxisAlignItems toolbar "CENTER"))
    /\ ln_primaryAxisAlignItems (with_primaryAxisAlignItems toolbar "CENTER")
       = "CENTER"%string
    /\ ln_counterAxisAlignItems (with_primaryAxisAlignItems toolbar "CENTER")
       = ln_counterAxisAlignItems toolbar.
Proof.
  apply (setAxisAlign_throws_after_assigning_primary
           "2:1" "CENTER" "BASELINE" toolbar).
  - reflexivity.
  - discriminate.
  - reflexivity.
  - right. split; [reflexivity | discriminate].
Defined.

Lemma checkSizing_HUG (axis : string) (node : LayoutNode) :
  checkSizing axis node "HUG" = None ->
  includes ["FRAME"; "TEXT"]%string (ln_type node) = true.
Proof.
  unfold checkSizing.
  cbn [includes existsb String.eqb Ascii.eqb Bool.eqb orb negb andb].
  destruct ((ln_type node =? "FRAME")
            || ((ln_type node =? "TEXT") || false))%string;
    [reflexivity | discriminate].
Qed.

Lemma noAutoLayout_FRAME_or_TEXT (type : string) :
  noAutoLayout type = false ->
  includes ["FRAME"; "TEXT"]%string type = true ->
  type = "FRAME"%string.
Proof.
  unfold noAutoLayout, includes. cbn [existsb].
  destruct (String.eqb_spec type "FRAME") as [|Hf]; [trivial|].
  destruct (String.eqb_spec type "TEXT") as [->|Ht]; [|discriminate].
  discriminate.
Qed.

(** X12: [setLayoutSizing] accepts HUG, for either axis, on FRAME nodes
    only: a call that returns with a HUG value was made on a FRAME.  A
    TEXT node, which the HUG check would let through, is refused by the
    earlier check of the node type. *)
Theorem setLayoutSizing_accepts_HUG_on_frames_only
        (nodeId : string) (horizontal vertical : option string)
        (found : option LayoutNode) (result : LayoutSizingResult)
        (after : option LayoutNode) :
  setLayoutSizing nodeId horizontal vertical found = (inr result, after) ->
  horizontal = Some "HUG"%string \/ vertical = Some "HUG"%string ->
  exists node, found = Some node /\ ln_type node = "FRAME"%string.
Proof.
  unfold setLayoutSizing. destruct found as [node|]; [|discriminate].
  destruct (noAutoLayout (ln_type node)) eqn:Ht; [discriminate|].
  destruct (String.eqb (ln_layoutMode node) "NONE"); [discriminate|].
  intros E Hhug. exists node. split; [reflexivity|].
  apply noAutoLayout_FRAME_or_TEXT; [exact Ht|].
  destruct horizontal as [h|].
  - destruct (checkSizing "layoutSizingHorizontal" node h) eqn:Eh;
      [discriminate|].
    destruct vertical as [v|].
    + destruct (checkSizing "layoutSizingVertical"
                            (with_layoutSizingHorizontal node h) v) eqn:Ev;
        [discriminate|].
      destruct Hhug as [Hh|Hv].
      * injection Hh as ->. exact (checkSizing_HUG _ _ Eh).
      * injection Hv as ->. exact (checkSizing_HUG _ _ Ev).
    + destruct Hhug as [Hh|Hv]; [|discriminate].
      injection Hh as ->. exact (checkSizing_HUG _ _ Eh).
  - destruct vertical as [v|].
    + destruct (checkSizing "layoutSizingVertical" node v) eqn:Ev;
        [discriminate|].
      destruct Hhug as [Hh|Hv]; [discriminate|].
      injection Hv as ->. exact (checkSizing_HUG _ _ Ev).
    + destruct Hhug; discriminate.
Qed.

Lemma setLayoutSizing_accepts_HUG_on_frames_only_witness :
  exists node, Some toolbar = Some node /\ ln_type node = "FRAME"%string.
Proof.
  refine (setLayoutSizing_accepts_HUG_on_frames_only
            "2:1" (Some "HUG"%string) None (Some toolbar)
            (mkLayoutSizingResult "2:1" "Toolbar" "HUG" "FIXED" "VERTICAL")
            (Some (with_layoutSizingHorizontal toolbar "HUG"))
            eq_refl _).
  left. reflexivity.
Defined.

(** ** The strict strategy *)

Lemma strict_while_done (fuel : nat) (charFonts : list FontName)
      (val : string) (i : nat) :
  length charFonts <= i -> strict_while fuel charFonts val i = i.
Proof.
  intro H. destruct fuel; [reflexivity|]. cbn [strict_while].
  destruct (Nat.ltb_spec i (length charFonts)); [lia | reflexivity].
Qed.

Lemma keyAt_Some (charFonts : list FontName) (k : nat) (f : FontName) :
  nth_error charFonts k = Some f -> keyAt charFonts k = Some (fontKey f).
Proof. unfold keyAt. now intros ->. Qed.

Lemma strict_while_spec (charFonts : list FontName) (val : string)
      (s : nat) :
  forall fuel i,
    s < i -> i < length charFonts -> length charFonts - i <= fuel ->
    (forall k, s <= k < i -> keyAt charFonts k = Some val) ->
    i < strict_while fuel charFonts val i <= length charFonts
    /\ (forall k, s <= k < strict_while fuel charFonts val i - 1 ->
                  keyAt charFonts k = Some val)
    /\ (strict_while fuel charFonts val i < length charFonts ->
        keyAt charFonts (strict_while fuel charFonts val i - 1) <> Some val).
Proof.
  induction fuel as [|fuel IH]; intros i Hs Hi Hf Hk; [lia|].
  cbn [strict_while].
  destruct (Nat.ltb_spec i (length charFonts)) as [_|]; [|lia].
  destruct (nth_error charFonts i) as [charFont|] eqn:En.
  2:{ apply nth_error_None in En. lia. }
  pose proof (keyAt_Some _ _ _ En) as Ek.
  destruct (String.eqb_spec val (fontKey charFont)) as [Heq|Hne];
    cbn [negb].
  - assert (Hk' : forall k, s <= k < S i -> keyAt charFonts k = Some val).
    { intros k Hr. destruct (Nat.eq_dec k i) as [->|];
        [now rewrite Ek, Heq | apply Hk; lia]. }
    destruct (Nat.lt_ge_cases (S i) (length charFonts)) as [Hlt|Hge].
    + destruct (IH (S i)) as (H1 & H2 & H3); try lia; [exact Hk'|].
      split; [lia|]. split; assumption.
    + rewrite strict_while_done by exact Hge.
      split; [lia|]. split; [|lia].
      intros k Hr. apply Hk'. lia.
  - split; [lia|]. split.
    + intros k Hr. apply Hk. lia.
    + intros _. replace (S i - 1) with i by lia. rewrite Ek.
      intro E. injection E as E. congruence.
Qed.

Lemma strict_for_spec (charFonts : list FontName) :
  forall fuel i tree,
    1 <= i -> length charFonts <= i + fuel ->
    exists ranges last,
      strict_for fuel charFonts i tree = Some (tree ++ ranges)
      /\ Forall (strict_range charFonts) ranges
      /\ chain_end (i - 1) ranges = Some last
      /\ (i < length charFonts ->
          length charFonts - 1 <= last <= length charFonts)
      /\ (length charFonts <= i -> ranges = []).
Proof.
  induction fuel as [|fuel IH]; intros i tree Hi Hf.
  - exists [], (i - 1). cbn [strict_for].
    destruct (Nat.ltb_spec i (length charFonts)); [lia|].
    rewrite app_nil_r. repeat split; try constructor; lia.
  - cbn [strict_for].
    destruct (Nat.ltb_spec i (length charFonts)) as [Hlt|Hge].
    2:{ exists [], (i - 1). rewrite app_nil_r.
        repeat split; try constructor; lia. }
    destruct (nth_error charFonts (i - 1)) as [startCharFont|] eqn:En.
    2:{ apply nth_error_None in En. lia. }
    pose proof (keyAt_Some _ _ _ En) as Ek.
    set (val := fontKey startCharFont) in *.
    destruct (strict_while_spec charFonts val (i - 1)
                (length charFonts) i) as (H1 & H2 & H3); try lia.
    { intros k Hr. replace k with (i - 1) by lia. exact Ek. }
    set (i1 := strict_while (length charFonts) charFonts val i) in *.
    destruct (IH (S i1) (tree ++ [(i - 1, i1, val)]))
      as (ranges & last & E & Hall & Hchain & Hlast & Hnil); try lia.
    exists ((i - 1, i1, val) :: ranges), last.
    rewrite E, <- app_assoc. split; [reflexivity|]. split.
    { constructor; [|exact Hall]. unfold strict_range.
      split; [lia|]. split; assumption. }
    split.
    { cbn [chain_end]. rewrite Nat.eqb_refl.
      replace (S i1 - 1) with i1 in Hchain by lia. exact Hchain. }
    split; [|lia].
    intros _.
    destruct (Nat.lt_ge_cases (S i1) (length charFonts)) as [Hlt'|Hge'].
    + apply Hlast. exact Hlt'.
    + rewrite (Hnil Hge') in Hchain. cbn [chain_end] in Hchain.
      injection Hchain as <-. lia.
Qed.

(** X13: the scan of the strict strategy ends and records ranges that
    follow one another from index 0 and reach the last or the last but
    one character.  Each range holds at least two characters and takes
    the font of its first character, which all its characters but the
    last share; a range that ends before the text does ends one past a
    change of font, so the first character of the new font is recorded
    with the font before it.  A text of fewer than two characters records
    nothing. *)
Theorem strictRanges_record_font_changes_one_late
        (charFonts : list FontName) :
  exists ranges last,
    strictRanges charFonts = Some ranges
    /\ Forall (strict_range charFonts) ranges
    /\ chain_end 0 ranges = Some last
    /\ (2 <= length charFonts ->
        length charFonts - 1 <= last <= length charFonts)
    /\ (length charFonts < 2 -> ranges = []).
Proof.
  destruct (strict_for_spec charFonts (length charFonts) 1 [])
    as (ranges & last & E & Hall & Hchain & Hlast & Hnil); try lia.
  exists ranges, last. unfold strictRanges. rewrite E.
  split; [reflexivity|]. split; [exact Hall|]. split; [exact Hchain|].
  split; [intro; apply Hlast; lia | intro; apply Hnil; lia].
Qed.

(** Four characters in four fonts: the second and the fourth character
    are recorded with the font before them. *)
Example strictRanges_of_four_fonts :
  strictRanges [mkFont "A" "1"; mkFont "B" "1"; mkFont "C" "1";
                mkFont "D" "1"]
  = Some [(0, 2, "A::1"%string); (2, 4, "C::1"%string)].
Proof. reflexivity. Qed.

(** ** The map exports and [frameUp] *)

Lemma upto_length (n : Z) : length (upto n) = Z.to_nat n.
Proof. unfold upto. now rewrite length_map, length_seq. Qed.

Lemma tile_row (b : nat) :
  forall n start,
    map (fun x => (Z.of_nat b + x + 1)%Z) (map Z.of_nat (seq start n))
    = map Z.of_nat (seq (1 + b + start) n).
Proof.
  induction n as [|n IH]; intro start; [reflexivity|].
  cbn [seq map]. f_equal; [lia|].
  rewrite IH. f_equal. f_equal. lia.
Qed.

Lemma tileIndices_rows (cols : Z) (rows : nat) :
  (0 <= cols)%Z ->
  flat_map (fun y => map (fun x => (y * cols + x + 1)%Z) (upto cols))
           (map Z.of_nat (seq 0 rows))
  = map Z.of_nat (seq 1 (rows * Z.to_nat cols)).
Proof.
  intro Hc. induction rows as [|rows IH]; [reflexivity|].
  rewrite seq_S, map_app, flat_map_app, IH. cbn [Nat.add map flat_map].
  rewrite app_nil_r.
  replace (S rows * Z.to_nat cols) with (rows * Z.to_nat cols + Z.to_nat cols)
    by lia.
  rewrite seq_app, map_app. f_equal.
  replace (Z.of_nat rows * cols)%Z with (Z.of_nat (rows * Z.to_nat cols))
    by (rewrite Nat2Z.inj_mul, Z2Nat.id; lia).
  unfold upto. rewrite tile_row. f_equal. f_equal. lia.
Qed.

(** X14: for positive tile sizes and a frame of non-negative size, the map
    data of [exportPhaserMap] numbers the tiles from 1 to [tilecount],
    row by row, each once; the grid of whole tiles fits in the frame and
    leaves less than one tile uncovered on either axis. *)
Theorem exportPhaserMap_numbers_every_tile_once
        (params : PhaserParams) (frame : SelectedNode)
        (others : list SelectedNode) (tw th : Z) (m : PhaserMap) :
  tileWidth params = Some tw -> tileHeight params = Some th ->
  (0 < tw)%Z -> (0 < th)%Z ->
  (0 <= sel_width frame)%Z -> (0 <= sel_height frame)%Z ->
  exportPhaserMap params (frame :: others) = inr m ->
  pm_data m = map Z.of_nat (seq 1 (Z.to_nat (pm_tilecount m)))
  /\ pm_tilecount m = (pm_width m * pm_height m)%Z
  /\ pm_columns m = pm_width m
  /\ (pm_width m * tw <= sel_width frame < (pm_width m + 1) * tw)%Z
  /\ (pm_height m * th <= sel_height frame < (pm_height m + 1) * th)%Z.
Proof.
  intros Etw Eth Htw Hth Hw Hh. unfold exportPhaserMap.
  rewrite Etw, Eth.
  destruct (falsy_number (Some tw) || falsy_number (Some th)
            || falsy (tilesetName params) || falsy (mapName params));
    [discriminate|].
  destruct (negb (String.eqb (sel_type frame) "FRAME")); [discriminate|].
  intro E. injection E as <-.
  cbn [pm_data pm_tilecount pm_width pm_height pm_columns].
  assert (Hc : (0 <= sel_width frame / tw)%Z) by (apply Z.div_pos; lia).
  assert (Hr : (0 <= sel_height frame / th)%Z) by (apply Z.div_pos; lia).
  split.
  { unfold tileIndices, upto at 2. rewrite tileIndices_rows by exact Hc.
    f_equal. f_equal. rewrite Z2Nat.inj_mul by lia. lia. }
  split; [reflexivity|]. split; [reflexivity|].
  pose proof (Z.mul_div_le (sel_width frame) tw Htw).
  pose proof (Z.mul_succ_div_gt (sel_width frame) tw Htw).
  pose proof (Z.mul_div_le (sel_height frame) th Hth).
  pose proof (Z.mul_succ_div_gt (sel_height frame) th Hth).
  lia.
Qed.

Lemma exportPhaserMap_numbers_every_tile_once_witness :
  exportPhaserMap phaserParams [tilesetFrame]
  = inr (mkPhaserMap 2 2 16 16 "tiles" "tiles.png" 40 32 4 2 [1; 2; 3; 4]%Z)
  /\ (2 * 16 <= 40 < (2 + 1) * 16)%Z.
Proof.
  split; [reflexivity|].
  refine (proj1 (proj2 (proj2 (proj2
            (exportPhaserMap_numbers_every_tile_once
               phaserParams tilesetFrame [] 16 16
               (mkPhaserMap 2 2 16 16 "tiles" "tiles.png" 40 32 4 2
                            [1; 2; 3; 4]%Z)
               eq_refl eq_refl eq_refl eq_refl _ _ eq_refl)))));
    discriminate.
Defined.

Lemma Math_ceil_div_bounds (a b : Z) :
  (0 < b)%Z ->
  (a <= Math_ceil_div a b * b < a + b)%Z /\ ((0 <= a)%Z ->
  (0 <= Math_ceil_div a b)%Z).
Proof.
  intro Hb. unfold Math_ceil_div.
  pose proof (Z.mul_div_le (- a) b Hb).
  pose proof (Z.mul_succ_div_gt (- a) b Hb).
  split; [nia|]. intro Ha.
  assert ((- a) / b <= 0)%Z; [|lia].
  apply Z.div_le_upper_bound; lia.
Qed.

Lemma mapObjects_ids (frame : Rectangle) (children : list MapChild) :
  forall index,
    forallb has_bounds children = true ->
    exists objects,
      mapObjects (Some frame) index children = Some objects
      /\ map obj_id objects = seq (index + 1) (length children)
      /\ length objects = length children
      /\ Forall (fun o => obj_name o <> ""%string) objects.
Proof.
  induction children as [|child rest IH]; intros index H.
  - exists []. split; [reflexivity|]. split; [reflexivity|].
    split; [reflexivity | constructor].
  - cbn [forallb] in H. apply andb_true_iff in H. destruct H as [Hc Hr].
    destruct (IH (S index) Hr) as (objects & E & Ei & L & F).
    cbn [mapObjects]. unfold has_bounds in Hc.
    destruct (mc_bounds child) as [bounds|]; [|discriminate].
    rewrite E. eexists. split; [reflexivity|].
    cbn [map length seq obj_id]. split; [|split].
    + rewrite Ei. reflexivity.
    + now rewrite L.
    + constructor; [|exact F]. cbn [obj_name].
      destruct (String.eqb_spec (mc_name child) ""); [discriminate|assumption].
Qed.

Lemma mapObjects_null_child (frame : Rectangle) (children : list MapChild) :
  forall index,
    forallb has_bounds children = false ->
    mapObjects (Some frame) index children = None.
Proof.
  induction children as [|child rest IH]; intros index H; [discriminate|].
  cbn [forallb] in H. cbn [mapObjects]. unfold has_bounds in H.
  destruct (mc_bounds child) as [bounds|]; [|reflexivity].
  cbn [andb] in H. now rewrite (IH (S index) H).
Qed.

Lemma mapObjects_null_frame (child : MapChild) (rest : list MapChild)
      (index : nat) :
  mapObjects None index (child :: rest) = None.
Proof. cbn [mapObjects]. now destruct (mc_bounds child). Qed.

(** The objects are there exactly when the boxes they are computed from
    are. *)
Lemma mapObjects_known (frame : MapFrame) :
  (bounds_known frame = true ->
   exists objects,
     mapObjects (mf_bounds frame) 0 (mf_children frame) = Some objects
     /\ map obj_id objects = seq 1 (length (mf_children frame))
     /\ length objects = length (mf_children frame)
     /\ Forall (fun o => obj_name o <> ""%string) objects)
  /\ (bounds_known frame = false ->
      mapObjects (mf_bounds frame) 0 (mf_children frame) = None).
Proof.
  unfold bounds_known.
  destruct (mf_children frame) as [|child rest] eqn:Ec.
  - split; [|discriminate]. intros _. exists [].
    split; [reflexivity|]. split; [reflexivity|].
    split; [reflexivity | constructor].
  - destruct (mf_bounds frame) as [box|].
    + split; intro H.
      * exact (mapObjects_ids box (child :: rest) 0 H).
      * exact (mapObjects_null_child box (child :: rest) 0 H).
    + split; [discriminate|]. intros _. apply mapObjects_null_frame.
Qed.

(** X15: on a selection of one FRAME of non-negative size, called with
    no grid size, a zero or a positive one, [exportTileMap] takes the
    grid size as tile size when that is positive and 32 otherwise, and
    the grid covers the frame with less than one tile of excess on
    either axis.  When the grid has fewer than [2^32] tiles and the
    bounding boxes of the frame and of its children are there, the call
    returns a map: the ground layer holds one zero for each of the
    [tilecount] tiles, and the collision objects are numbered from 1 in
    the order of the children, all below [nextobjectid], each with a
    name.  A grid of [2^32] tiles or more makes the creation of the
    ground layer throw, a missing bounding box makes the reading of its
    position throw, and so does a call without parameters when the grid
    size is read. *)
Theorem exportTileMap_exports_or_throws
        (gridSize : option Z) (frame : MapFrame) :
  mf_type frame = "FRAME"%string ->
  (0 <= mf_width frame)%Z -> (0 <= mf_height frame)%Z ->
  (forall g, gridSize = Some g -> (0 <= g)%Z) ->
  let tile := match gridSize with
              | Some g => if (g =? 0)%Z then 32%Z else g
              | None => 32%Z
              end in
  let cols := Math_ceil_div (mf_width frame) tile in
  let rows := Math_ceil_div (mf_height frame) tile in
  let run := exportTileMap (Some (mkTileMapParams gridSize)) [frame] in
  (mf_width frame <= cols * tile < mf_width frame + tile)%Z
  /\ (mf_height frame <= rows * tile < mf_height frame + tile)%Z
  /\ ((cols * rows < MAX_ARRAY_LENGTH)%Z ->
      bounds_known frame = true ->
      exists mapData,
        run = TileMapExported mapData
        /\ tm_tilewidth mapData = tile
        /\ tm_tileheight mapData = tile
        /\ tm_width mapData = cols
        /\ tm_height mapData = rows
        /\ tm_columns mapData = cols
        /\ tm_imagewidth mapData = mf_width frame
        /\ tm_imageheight mapData = mf_height frame
        /\ tm_tilecount mapData = (cols * rows)%Z
        /\ tm_data mapData = repeat 0%Z (Z.to_nat (cols * rows))
        /\ map obj_id (tm_objects mapData)
           = seq 1 (length (mf_children frame))
        /\ tm_nextobjectid mapData = length (mf_children frame) + 1
        /\ Forall (fun o => obj_name o <> ""%string) (tm_objects mapData))
  /\ ((MAX_ARRAY_LENGTH <= cols * rows)%Z -> run = TileMapRangeError)
  /\ ((cols * rows < MAX_ARRAY_LENGTH)%Z ->
      bounds_known frame = false ->
      run = TileMapTypeError)
  /\ exportTileMap None [frame] = TileMapTypeError.
Proof.
  intros Ht Hw Hh Hg tile cols rows run.
  assert (Hpos : (0 < tile)%Z).
  { unfold tile. destruct gridSize as [g|]; [|lia].
    specialize (Hg g eq_refl). destruct (Z.eqb_spec g 0); lia. }
  destruct (Math_ceil_div_bounds (mf_width frame) tile Hpos) as [Hbw Hnw].
  destruct (Math_ceil_div_bounds (mf_height frame) tile Hpos) as [Hbh Hnh].
  specialize (Hnw Hw). specialize (Hnh Hh). fold cols in Hbw, Hnw.
  fold rows in Hbh, Hnh.
  assert (Erun : run
                 = if ((cols * rows <? 0)
                       || (MAX_ARRAY_LENGTH <=? cols * rows))%Z
                   then TileMapRangeError
                   else
                     match mapObjects (mf_bounds frame) 0
                                      (mf_children frame) with
                     | None => TileMapTypeError
                     | Some objects =>
                         TileMapExported
                           (mkTileMap rows cols tile tile
                                      (length objects + 1)
                                      (repeat 0%Z (Z.to_nat (cols * rows)))
                                      objects (mf_width frame)
                                      (mf_height frame) cols
                                      (cols * rows)%Z)
                     end).
  { unfold run, exportTileMap. rewrite Ht.
    replace (String.eqb "FRAME" "FRAME") with true by reflexivity.
    cbn [negb tp_gridSize].
    replace (if falsy_number gridSize then 32%Z
             else match gridSize with Some v => v | None => 32%Z end)
      with tile; [reflexivity|].
    unfold tile, falsy_number. destruct gridSize as [g|]; reflexivity. }
  destruct (Z.ltb_spec (cols * rows) 0) as [Hneg|_]; [nia|].
  cbn [orb] in Erun.
  destruct (mapObjects_known frame) as [Hknown Hnull].
  split; [exact Hbw|]. split; [exact Hbh|]. split; [|split; [|split]].
  - intros Hsmall Hb.
    destruct (Hknown Hb) as (objects & E & Eids & Elen & Hnames).
    destruct (Z.leb_spec MAX_ARRAY_LENGTH (cols * rows)) as [|_]; [lia|].
    rewrite E in Erun. eexists. split; [exact Erun|].
    cbn [tm_tilewidth tm_tileheight tm_width tm_height tm_tilecount tm_data
         tm_objects tm_nextobjectid tm_columns tm_imagewidth tm_imageheight].
    repeat (split; [reflexivity|]). split; [exact Eids|].
    split; [now rewrite Elen | exact Hnames].
  - intros Hbig.
    destruct (Z.leb_spec MAX_ARRAY_LENGTH (cols * rows)) as [_|]; [|lia].
    exact Erun.
  - intros Hsmall Hb.
    destruct (Z.leb_spec MAX_ARRAY_LENGTH (cols * rows)) as [|_]; [lia|].
    now rewrite (Hnull Hb) in Erun.
  - unfold exportTileMap. rewrite Ht. reflexivity.
Qed.

Lemma exportTileMap_exports_or_throws_witness :
  (exists mapData,
      exportTileMap (Some (mkTileMapParams None)) [levelFrame]
      = TileMapExported mapData
      /\ tm_width mapData = 4%Z /\ tm_height mapData = 2%Z
      /\ map obj_name (tm_objects mapData) = ["Object 1"; "Wall"]%string
      /\ map obj_id (tm_objects mapData) = [1; 2])
  /\ exportTileMap (Some (mkTileMapParams (Some 1%Z))) [hugeFrame]
     = TileMapRangeError.
Proof.
  split.
  - destruct (exportTileMap_exports_or_throws None levelFrame)
      as (_ & _ & H & _);
      [reflexivity | cbn; lia | cbn; lia | intros g E; discriminate E |].
    destruct H as (mapData & E & _ & _ & Ew & Eh & _ & _ & _ & _ & _ & Eids
                   & _); [reflexivity | reflexivity |].
    exists mapData. split; [exact E|]. split; [exact Ew|].
    split; [exact Eh|]. split; [|exact Eids].
    cbv in E. injection E as <-. reflexivity.
  - refine (proj1 (proj2 (proj2 (proj2
              (exportTileMap_exports_or_throws (Some 1%Z) hugeFrame
                 eq_refl _ _ _)))) _).
    + cbn; lia.
    + cbn; lia.
    + intros g E. injection E as <-. lia.
    + vm_compute. discriminate.
Defined.

Lemma boundingBox_fold (selection : list SelectedNode) :
  forall box,
    minX (fold_left extendBox selection box)
    = fold_left min_from (map sel_x selection) (minX box)
    /\ minY (fold_left extendBox selection box)
       = fold_left min_from (map sel_y selection) (minY box)
    /\ maxX (fold_left extendBox selection box)
       = fold_left max_from
                   (map (fun n => (sel_x n + sel_width n)%Z) selection)
                   (maxX box)
    /\ maxY (fold_left extendBox selection box)
       = fold_left max_from
                   (map (fun n => (sel_y n + sel_height n)%Z) selection)
                   (maxY box).
Proof.
  induction selection as [|node rest IH]; intro box; [repeat split|].
  cbn [fold_left map]. destruct (IH (extendBox box node)) as (A & B & C & D).
  rewrite A, B, C, D. repeat split.
Qed.

Lemma min_from_fold (l : list Z) :
  forall m,
    (l <> [] \/ m <> None) ->
    exists v,
      fold_left min_from l m = Some v
      /\ (forall x, In x l -> (v <= x)%Z)
      /\ (forall v0, m = Some v0 -> (v <= v0)%Z)
      /\ (In v l \/ m = Some v).
Proof.
  induction l as [|x l IH]; intros m Hne.
  - destruct m as [v|]; [|destruct Hne; congruence].
    exists v. split; [reflexivity|]. split; [intros x []|].
    split; [intros v0 E; injection E as <-; lia | now right].
  - cbn [fold_left].
    destruct (IH (min_from m x)) as (v & E & Hall & Hacc & Hin).
    { right. destruct m; discriminate. }
    exists v. split; [exact E|].
    assert (Hx : (v <= x)%Z).
    { destruct m as [v0|]; cbn [min_from] in Hacc.
      - specialize (Hacc _ eq_refl). lia.
      - specialize (Hacc _ eq_refl). lia. }
    split; [intros y [<-|Hy]; [exact Hx | now apply Hall]|].
    split.
    + intros v0 ->. cbn [min_from] in Hacc. specialize (Hacc _ eq_refl). lia.
    + destruct Hin as [Hin|Em]; [left; now right|].
      destruct m as [v0|]; cbn [min_from] in Em; injection Em as <-.
      * destruct (Z.min_spec v0 x) as [[_ ->]|[_ ->]];
          [now right | left; now left].
      * left. now left.
Qed.

Lemma max_from_fold (l : list Z) :
  forall m,
    (l <> [] \/ m <> None) ->
    exists v,
      fold_left max_from l m = Some v
      /\ (forall x, In x l -> (x <= v)%Z)
      /\ (forall v0, m = Some v0 -> (v0 <= v)%Z)
      /\ (In v l \/ m = Some v).
Proof.
  induction l as [|x l IH]; intros m Hne.
  - destruct m as [v|]; [|destruct Hne; congruence].
    exists v. split; [reflexivity|]. split; [intros x []|].
    split; [intros v0 E; injection E as <-; lia | now right].
  - cbn [fold_left].
    destruct (IH (max_from m x)) as (v & E & Hall & Hacc & Hin).
    { right. destruct m; discriminate. }
    exists v. split; [exact E|].
    assert (Hx : (x <= v)%Z).
    { destruct m as [v0|]; cbn [max_from] in Hacc.
      - specialize (Hacc _ eq_refl). lia.
      - specialize (Hacc _ eq_refl). lia. }
    split; [intros y [<-|Hy]; [exact Hx | now apply Hall]|].
    split.
    + intros v0 ->. cbn [max_from] in Hacc. specialize (Hacc _ eq_refl). lia.
    + destruct Hin as [Hin|Em]; [left; now right|].
      destruct m as [v0|]; cbn [max_from] in Em; injection Em as <-.
      * destruct (Z.max_spec v0 x) as [[_ ->]|[_ ->]];
          [left; now left | now right].
      * left. now left.
Qed.

(** X16: on an empty selection [frameUp] throws.  Otherwise it puts a
    new frame at the upper left corner of the bounding box of the
    selection, the rectangle in which every node lies and each of whose
    sides is touched by a node, and resizes it to the size of that box:
    when the box is less than one unit wide or high the resizing throws.
    After that the frame is given a horizontal auto layout with both
    sizing modes at AUTO, no spacing and no padding, and the name of the
    first node, and the nodes are appended in selection order: a node
    that is not a FRAME with its offset from the corner of the frame as
    coordinates, a FRAME node with the coordinates it had.  These are
    the values the code assigns; with the sizing modes at AUTO the host
    then lays the nodes out and fits the frame to them. *)
Theorem frameUp_frames_the_bounding_box
        (first : SelectedNode) (others : list SelectedNode) :
  frameUp [] = NothingSelected "Please select at least one item"
  /\ exists x0 y0 x1 y1,
       tight_box x0 y0 x1 y1 (first :: others)
       /\ frameUp (first :: others)
          = if ((x1 - x0 <? 1) || (y1 - y0 <? 1))%Z then ResizeFailed
            else
              FramedUp
                (mkNewFrame
                   (sel_name first) x0 y0 (x1 - x0, y1 - y0)%Z
                   "HORIZONTAL" "AUTO" "AUTO" 0 (0, 0, 0, 0)%Z
                   (map (fun node =>
                           if String.eqb (sel_type node) "FRAME" then node
                           else mkSelected (sel_name node) (sel_type node)
                                           (sel_width node)
                                           (sel_height node)
                                           (sel_x node - x0)
                                           (sel_y node - y0))
                        (first :: others))).
Proof.
  split; [reflexivity|].
  set (selection := first :: others).
  assert (Hne : selection <> []) by discriminate.
  destruct (boundingBox_fold selection (mkBoundingBox None None None None))
    as (Ex0 & Ey0 & Ex1 & Ey1).
  cbn [minX minY maxX maxY] in Ex0, Ey0, Ex1, Ey1.
  assert (Hne' : forall (f : SelectedNode -> Z),
             map f selection <> [] \/ @None Z <> None)
    by (intro f; left; discriminate).
  destruct (min_from_fold (map sel_x selection) None (Hne' _))
    as (x0 & Fx0 & Hx0 & _ & [Ix0|Ix0]); [|discriminate].
  destruct (min_from_fold (map sel_y selection) None (Hne' _))
    as (y0 & Fy0 & Hy0 & _ & [Iy0|Iy0]); [|discriminate].
  destruct (max_from_fold
              (map (fun n => (sel_x n + sel_width n)%Z) selection) None
              (Hne' _))
    as (x1 & Fx1 & Hx1 & _ & [Ix1|Ix1]); [|discriminate].
  destruct (max_from_fold
              (map (fun n => (sel_y n + sel_height n)%Z) selection) None
              (Hne' _))
    as (y1 & Fy1 & Hy1 & _ & [Iy1|Iy1]); [|discriminate].
  exists x0, y0, x1, y1. split.
  { split.
    { apply Forall_forall. intros node Hn. unfold framed.
      pose proof (Hx0 _ (in_map sel_x _ _ Hn)).
      pose proof (Hy0 _ (in_map sel_y _ _ Hn)).
      pose proof (Hx1 _ (in_map (fun n => (sel_x n + sel_width n)%Z)
                                _ _ Hn)).
      pose proof (Hy1 _ (in_map (fun n => (sel_y n + sel_height n)%Z)
                                _ _ Hn)).
      cbv beta in *. lia. }
    apply in_map_iff in Ix0, Iy0, Ix1, Iy1.
    destruct Ix0 as (n1 & E1 & H1). destruct Iy0 as (n2 & E2 & H2).
    destruct Ix1 as (n3 & E3 & H3). destruct Iy1 as (n4 & E4 & H4).
    split; [exists n1; split; assumption|].
    split; [exists n2; split; assumption|].
    split; [exists n3; split; assumption|].
    exists n4; split; assumption. }
  unfold frameUp. unfold selection at 1. cbv iota. unfold boundingBox.
  rewrite Ex0, Ey0, Ex1, Ey1, Fx0, Fy0, Fx1, Fy1.
  destruct ((x1 - x0 <? 1) || (y1 - y0 <? 1))%Z; [reflexivity|].
  do 2 f_equal. apply map_ext. intro node. unfold moveInto.
  destruct (String.eqb (sel_type node) "FRAME"); reflexivity.
Qed.

(** The frame around a card and a badge, and the failure on a line. *)
Example frameUp_card_and_badge :
  frameUp [card; badge]
  = FramedUp (mkNewFrame "Card" 10 0 (34, 25)%Z "HORIZONTAL" "AUTO" "AUTO"
                         0 (0, 0, 0, 0)%Z
                         [mkSelected "Card" "RECTANGLE" 30 20 0 5; badge])
  /\ frameUp [rule] = ResizeFailed.
Proof. split; reflexivity. Qed.

(** ** [buildLinearOrder] and the smart strategy *)

Lemma FontName_eqb_eq (a b : FontName) : FontName_eqb a b = true -> a = b.
Proof.
  unfold FontName_eqb. intro H. apply andb_prop in H. destruct H as [Hf Hs].
  apply String.eqb_eq in Hf, Hs. destruct a, b. cbn in *. congruence.
Qed.

(** A range that answers with a font lies in the text, is not empty, and
    every character of it has that font. *)
Lemma getRangeFontName_Font (charFonts : list FontName) (first last : nat)
      (font : FontName) :
  getRangeFontName charFonts first last = Font font ->
  first < last <= length charFonts
  /\ forall k, first <= k < last -> nth_error charFonts k = Some font.
Proof.
  unfold getRangeFontName.
  destruct (Nat.ltb_spec first last) as [Hlt|]; [|discriminate].
  destruct (Nat.leb_spec last (length charFonts)) as [Hle|]; [|discriminate].
  cbn [andb].
  destruct (firstn (last - first) (skipn first charFonts))
    as [|f others] eqn:E; [discriminate|].
  destruct (forallb (FontName_eqb f) others) eqn:Hall; [|discriminate].
  intro H. injection H as ->. split; [lia|].
  intros k Hk.
  assert (Hn : nth_error (font :: others) (k - first)
               = nth_error charFonts k).
  { rewrite <- E, nth_error_firstn.
    destruct (Nat.ltb_spec (k - first) (last - first)); [|lia].
    rewrite nth_error_skipn. f_equal. lia. }
  rewrite <- Hn. destruct (k - first) as [|j] eqn:Ej; [reflexivity|].
  cbn [nth_error].
  destruct (nth_error others j) as [x|] eqn:Ex.
  - rewrite forallb_forall in Hall.
    apply nth_error_In in Ex. apply Hall in Ex.
    apply FontName_eqb_eq in Ex. now subst.
  - exfalso. apply nth_error_None in Ex.
    assert (Hl : length (font :: others) = last - first).
    { rewrite <- E, length_firstn, length_skipn. lia. }
    cbn [length] in Hl. lia.
Qed.

Lemma sort_by_start_sorted (entries : list FontTreeEntry) :
  Sorted (fun a b => ft_start a <= ft_start b) entries ->
  sort_by_start entries = entries.
Proof.
  induction 1 as [|a l Hs IH Hd]; [reflexivity|].
  cbn [sort_by_start fold_right]. fold (sort_by_start l). rewrite IH.
  destruct Hd as [|b l Hab]; [reflexivity|].
  cbn [insert_by_start].
  destruct (Nat.leb_spec (ft_start a) (ft_start b)); [reflexivity | lia].
Qed.

(** The ranges of the scan start at or after the pending start and come
    in ascending order. *)
Lemma segments_spec_loop_sorted (str : string) (d : ascii) (endIdx : nat) :
  forall n i pending,
    pending <= i ->
    Forall (fun range => pending <= fst range)
           (segments_spec_loop n str d endIdx i pending)
    /\ Sorted (fun a b => fst a <= fst b)
              (segments_spec_loop n str d endIdx i pending).
Proof.
  induction n as [|n IH]; intros i pending Hp; cbn [segments_spec_loop].
  - destruct (pending =? endIdx); split; repeat constructor.
  - destruct (isDelimiter (charAt str i) d && negb (i =? endIdx)
              && negb (pending =? i)).
    + destruct (IH (S i) (S i) (le_n _)) as [F S].
      split.
      * constructor; [cbn; lia|].
        eapply Forall_impl; [|exact F]. cbn. intros; lia.
      * constructor; [exact S|].
        destruct F as [|x l Hx _]; constructor. cbn [fst]. lia.
    + apply IH. lia.
Qed.

Lemma getRangeFontName_valid (charFonts : list FontName) (first last : nat) :
  first < last <= length charFonts ->
  getRangeFontName charFonts first last <> RangeError.
Proof.
  intros [Hlt Hle]. unfold getRangeFontName.
  destruct (Nat.ltb_spec first last); [|lia].
  destruct (Nat.leb_spec last (length charFonts)); [|lia].
  cbn [andb].
  destruct (firstn (last - first) (skipn first charFonts)) as [|f others] eqn:E.
  - exfalso.
    assert (Hl : length (firstn (last - first) (skipn first charFonts))
                 = last - first)
      by (rewrite length_firstn, length_skipn; lia).
    rewrite E in Hl. cbn in Hl. lia.
  - destruct (forallb (FontName_eqb f) others); discriminate.
Qed.

(** The ranges of the scan are not empty and lie in the text. *)
Lemma segments_spec_loop_bounds (str : string) (d : ascii) (endIdx : nat) :
  forall n i pending,
    i + n = endIdx -> pending <= i ->
    Forall (fun range => fst range < snd range <= endIdx)
           (segments_spec_loop n str d endIdx i pending).
Proof.
  induction n as [|n IH]; intros i pending Hn Hp; cbn [segments_spec_loop].
  - destruct (Nat.eqb_spec pending endIdx); repeat constructor; cbn; lia.
  - destruct (isDelimiter (charAt str i) d && negb (i =? endIdx)
              && negb (pending =? i)) eqn:E.
    + apply andb_prop in E. destruct E as [_ E].
      apply negb_true_iff, Nat.eqb_neq in E.
      constructor; [cbn; lia|]. apply IH; lia.
    + apply IH; lia.
Qed.

Lemma lineEntries_uniform (openRange : nat -> RangeFont) (str : string)
      (charFonts : list FontName) (ranges : list (nat * nat)) :
  forall fontTree,
    Forall (fun range =>
              exists font,
                getRangeFontName charFonts (fst range) (snd range)
                = Font font) ranges ->
    lineEntries openRange str charFonts ranges fontTree
    = Some (fontTree ++ map (lineEntry charFonts) ranges).
Proof.
  induction ranges as [|[first last] rest IH]; intros fontTree H.
  - cbn. now rewrite app_nil_r.
  - inversion H as [|? ? [font Hf] Hrest]; subst. cbn [fst snd] in Hf.
    cbn [lineEntries map]. rewrite Hf, IH by exact Hrest.
    rewrite <- app_assoc. cbn [app]. unfold lineEntry at 2, lineFont.
    cbn [fst snd]. rewrite Hf. reflexivity.
Qed.

Lemma isDelimiter_get (str : string) (i : nat) (d : ascii) :
  isDelimiter (charAt str i) d = true <-> String.get i str = Some d.
Proof.
  unfold isDelimiter, charAt. destruct (String.get i str) as [a|].
  - destruct (Ascii.eqb_spec a d); split; congruence.
  - split; discriminate.
Qed.

Lemma FontName_eta (f : FontName) : mkFont (family f) (style f) = f.
Proof. now destruct f. Qed.

(** Walking the runs of the lines over the same text gives every line
    its own range again. *)
Lemma walk_over_lines (str : string) (fontOf : nat * nat -> FontName)
      (fallback : FontName) :
  (forall k, String.get k str = Some newline ->
             String.get (S k) str <> Some newline) ->
  forall n i pending calls,
    i + n = String.length str -> pending <= i ->
    (forall k, pending <= k < i -> String.get k str <> Some newline) ->
    String.get pending str <> Some newline ->
    exists p,
      fold_left applyRun
        (map (fun range => mkRun (family (fontOf range))
                                 (style (fontOf range)) newline)
             (segments_spec_loop n str newline (String.length str)
                                 i pending))
        (mkTextNode str fallback calls, Z.of_nat pending)
      = (mkTextNode str fallback
           (calls
            ++ map (fun range => (Z.of_nat (fst range), Z.of_nat (snd range),
                                  fontOf range))
                   (segments_spec_loop n str newline (String.length str)
                                       i pending)),
         p).
Proof.
  intro Hadj.
  induction n as [|n IH]; intros i pending calls Hn Hp Hinv Hpend;
    cbn [segments_spec_loop].
  - destruct (Nat.eqb_spec pending (String.length str)) as [E|Hne].
    + exists (Z.of_nat pending). cbn. now rewrite app_nil_r.
    + cbn [map fold_left].
      destruct (applyRun_step (mkTextNode str fallback calls)
                  (Z.of_nat pending)
                  (mkRun (family (fontOf (pending, String.length str)))
                         (style (fontOf (pending, String.length str)))
                         newline))
        as (e & E & R & B).
      { unfold text_length. cbn [characters]. lia. }
      cbn [characters fontName rangeFonts run_family run_style
           run_delimiter] in E, R.
      assert (Re : run_end str newline (Z.of_nat pending)
                           (Z.of_nat (String.length str))).
      { right. split; [|reflexivity]. left. intros k Hk G.
        pose proof (get_Some_lt _ _ _ G).
        apply (Hinv (Z.to_nat k)); [lia | exact G]. }
      rewrite (run_end_unique _ _ _ _ _ R Re) in E.
      rewrite E, FontName_eta. eexists. reflexivity.
  - assert (Hi : i < String.length str) by lia.
    destruct (Nat.eqb_spec i (String.length str)) as [|_]; [lia|].
    destruct (isDelimiter (charAt str i) newline) eqn:Ed.
    + apply isDelimiter_get in Ed.
      destruct (Nat.eqb_spec pending i) as [->|Hpi]; [contradiction|].
      cbn [andb negb map fold_left].
      destruct (applyRun_step (mkTextNode str fallback calls)
                  (Z.of_nat pending)
                  (mkRun (family (fontOf (pending, i)))
                         (style (fontOf (pending, i))) newline))
        as (e & E & R & B).
      { unfold text_length. cbn [characters]. lia. }
      cbn [characters fontName rangeFonts run_family run_style
           run_delimiter] in E, R.
      assert (Re : run_end str newline (Z.of_nat pending) (Z.of_nat i)).
      { left. split; [|lia]. unfold first_delimiter.
        split; [lia|]. split; [lia|]. rewrite Nat2Z.id.
        split; [exact Ed|]. intros k Hk. apply Hinv. lia. }
      rewrite (run_end_unique _ _ _ _ _ R Re) in E.
      rewrite E, FontName_eta.
      replace (Z.of_nat i + 1)%Z with (Z.of_nat (S i)) by lia.
      destruct (IH (S i) (S i)
                   (calls ++ [(Z.of_nat pending, Z.of_nat i,
                               fontOf (pending, i))]))
        as (p & Ep); [lia | lia | intros; lia | now apply Hadj |].
      exists p. rewrite Ep, <- app_assoc. reflexivity.
    + cbn [andb].
      apply IH; [lia | lia | | exact Hpend].
      intros k Hk. destruct (Nat.eq_dec k i) as [->|]; [|apply Hinv; lia].
      intro G. apply isDelimiter_get in G. congruence.
Qed.

(** The ranges cover every character that is not a line break. *)
Lemma segments_spec_loop_cover (str : string) :
  forall n i pending,
    i + n = String.length str -> pending <= i ->
    forall k c,
      pending <= k -> String.get k str = Some c -> c <> newline ->
      exists range,
        In range (segments_spec_loop n str newline (String.length str)
                                     i pending)
        /\ fst range <= k < snd range.
Proof.
  induction n as [|n IH]; intros i pending Hn Hp k c Hk G Hc;
    cbn [segments_spec_loop]; pose proof (get_Some_lt _ _ _ G) as Hlt.
  - destruct (Nat.eqb_spec pending (String.length str)); [lia|].
    exists (pending, String.length str). split; [now left | cbn; lia].
  - destruct (isDelimiter (charAt str i) newline
              && negb (i =? String.length str)
              && negb (pending =? i)) eqn:E.
    + apply andb_prop in E. destruct E as [E _].
      apply andb_prop in E. destruct E as [Ed _].
      apply isDelimiter_get in Ed.
      destruct (Nat.lt_ge_cases k i) as [Hki|Hki].
      * exists (pending, i). split; [now left | cbn; lia].
      * destruct (Nat.eq_dec k i) as [->|]; [congruence|].
        destruct (IH (S i) (S i) ltac:(lia) ltac:(lia) k c ltac:(lia) G Hc)
          as (range & Hin & Hr).
        exists range. split; [now right | exact Hr].
    + apply (IH (S i) pending ltac:(lia) ltac:(lia) k c Hk G Hc).
Qed.

Lemma lineEntries_sorted (charFonts : list FontName)
      (ranges : list (nat * nat)) :
  Sorted (fun a b => fst a <= fst b) ranges ->
  Sorted (fun a b => ft_start a <= ft_start b)
         (map (lineEntry charFonts) ranges).
Proof.
  induction 1 as [|a l Hs IH Hd]; cbn [map]; constructor; [exact IH|].
  destruct Hd as [|b l Hab]; cbn [map]; constructor. exact Hab.
Qed.

(** X17: the smart strategy, used to write the same text again on a node
    whose lines are each in one font and whose text has no empty line,
    gives every line its font back.  [buildLinearOrder] records one run
    per line; every range then assigned holds only characters that had
    the assigned font, and every character that is not a line break lies
    in one of the ranges. *)
Theorem smart_strategy_restores_uniform_lines
        (openRange : nat -> RangeFont) (str : string)
        (charFonts : list FontName) (node : TextNode)
        (fallbackFont : FontName) :
  length charFonts = String.length str ->
  no_empty_line str ->
  uniform_lines str charFonts ->
  exists rangeTree result,
    buildLinearOrder openRange str charFonts = Some rangeTree
    /\ setCharactersWithSmartMatchFont rangeTree node str fallbackFont
       = (true, result)
    /\ characters result = str
    /\ rangeFonts result
       = map (lineCall charFonts) (getDelimiterPos_default str newline)
    /\ (forall first last font k,
          In (first, last, font) (rangeFonts result) ->
          (first <= Z.of_nat k < last)%Z ->
          nth_error charFonts k = Some font)
    /\ (forall k c,
          String.get k str = Some c -> c <> newline ->
          exists first last font,
            In (first, last, font) (rangeFonts result)
            /\ (first <= Z.of_nat k < last)%Z).
Proof.
  intros Hlen [Hstart Hadj] Huni.
  unfold uniform_lines, getDelimiterPos_default in *.
  rewrite getDelimiterPos_from_zero in *. unfold segments_spec in *.
  rewrite Nat.sub_0_r in *.
  set (ranges := segments_spec_loop (String.length str) str newline
                                    (String.length str) 0 0) in *.
  pose proof (segments_spec_loop_bounds str newline (String.length str)
                (String.length str) 0 0 eq_refl (le_n _)) as Hb.
  fold ranges in Hb.
  assert (Hfont : Forall (fun range =>
                    exists font,
                      getRangeFontName charFonts (fst range) (snd range)
                      = Font font) ranges).
  { rewrite Forall_forall in *. intros range Hin.
    specialize (Huni range Hin). specialize (Hb range Hin).
    pose proof (getRangeFontName_valid charFonts (fst range) (snd range)
                  ltac:(lia)) as Hv.
    destruct (getRangeFontName charFonts (fst range) (snd range));
      [contradiction | contradiction | eauto]. }
  destruct (segments_spec_loop_sorted str newline (String.length str)
              (String.length str) 0 0 (le_n _)) as [_ Hsorted].
  fold ranges in Hsorted.
  destruct (walk_over_lines str (lineFont charFonts) fallbackFont Hadj
              (String.length str) 0 0 [] eq_refl (le_n _)
              ltac:(intros; lia) Hstart) as (p & Ewalk).
  fold ranges in Ewalk.
  exists (map (fun range => mkRun (family (lineFont charFonts range))
                                  (style (lineFont charFonts range)) newline)
              ranges).
  exists (mkTextNode str fallbackFont (map (lineCall charFonts) ranges)).
  split.
  { unfold buildLinearOrder, getDelimiterPos_default.
    rewrite getDelimiterPos_from_zero. unfold segments_spec.
    rewrite Nat.sub_0_r. fold ranges.
    rewrite (lineEntries_uniform _ _ _ _ [] Hfont). cbn [app].
    rewrite sort_by_start_sorted by now apply lineEntries_sorted.
    rewrite map_map. reflexivity. }
  split.
  { unfold setCharactersWithSmartMatchFont.
    change (Z.of_nat 0) with 0%Z in Ewalk. rewrite Ewalk. reflexivity. }
  cbn [characters rangeFonts].
  split; [reflexivity|]. split; [reflexivity|]. split.
  - intros first last font k Hin Hk.
    apply in_map_iff in Hin. destruct Hin as ([s e] & E & Hin).
    unfold lineCall in E. cbn [fst snd] in E. injection E as <- <- <-.
    rewrite Forall_forall in Hfont. destruct (Hfont _ Hin) as [f Hf].
    cbn [fst snd] in Hf. unfold lineFont. cbn [fst snd]. rewrite Hf.
    apply (getRangeFontName_Font _ _ _ _ Hf). lia.
  - intros k c G Hc.
    destruct (segments_spec_loop_cover str (String.length str) 0 0
                eq_refl (le_n _) k c (Nat.le_0_l _) G Hc)
      as ([s e] & Hin & Hr).
    fold ranges in Hin. cbn [fst snd] in Hr.
    exists (Z.of_nat s), (Z.of_nat e), (lineFont charFonts (s, e)).
    split; [|lia].
    apply in_map_iff. exists (s, e). split; [reflexivity | exact Hin].
Qed.

Lemma smart_strategy_restores_uniform_lines_witness :
  exists rangeTree result,
    buildLinearOrder (fun _ => RangeError) twoLines twoLinesFonts
    = Some rangeTree
    /\ setCharactersWithSmartMatchFont rangeTree
         (mkTextNode twoLines inter []) twoLines mono = (true, result)
    /\ rangeFonts result = [(0, 2, inter); (3, 5, roboto)]%Z.
Proof.
  destruct (smart_strategy_restores_uniform_lines
              (fun _ => RangeError) twoLines twoLinesFonts
              (mkTextNode twoLines inter []) mono)
    as (rangeTree & result & Eb & Es & _ & Er & _).
  - reflexivity.
  - split; [discriminate|]. intros [|[|[|[|[|k]]]]]; cbn; congruence.
  - unfold uniform_lines.
    repeat constructor; cbn; discriminate.
  - exists rangeTree, result. split; [exact Eb|]. split; [exact Es|].
    exact Er.
Defined.

Example empty_line_loses_the_last_font :
  exists rangeTree result,
    buildLinearOrder (fun _ => RangeError) emptyLine emptyLineFonts
    = Some rangeTree
    /\ setCharactersWithSmartMatchFont rangeTree
         (mkTextNode emptyLine inter []) emptyLine inter = (true, result)
    /\ rangeFonts result = [(0, 1, inter); (2, 6, roboto)]%Z.
Proof. eexists _, _. repeat split. Qed.

(** ** [setTextContent] and [setCharacters] *)

Section TextContentProperties.

Variable Host : Type.
Variable Value : Type.
Variable getNodeByIdAsync : option string -> Host -> string + option SceneNode.
Variable fontNameOf : SceneNode -> Host -> option FontName.
Variable charFontsOf : SceneNode -> Host -> list FontName.
Variable charactersOf : SceneNode -> Host -> string.
Variable loadFontAsync : option FontName -> Host -> string + Host.
Variable assignFontName : SceneNode -> FontName -> Host -> string + Host.
Variable assignCharacters : SceneNode -> string -> Host -> string + Host.
Variable strictMatchFont :
  SceneNode -> string -> FontName -> M Host Value bool.
Variable smartMatchFont :
  SceneNode -> string -> FontName -> M Host Value bool.

Local Abbreviation chooseFont' :=
  (chooseFont Host Value fontNameOf charFontsOf loadFontAsync assignFontName
              strictMatchFont smartMatchFont).
Local Abbreviation setCharacters' :=
  (setCharacters Host Value fontNameOf charFontsOf loadFontAsync
                 assignFontName assignCharacters strictMatchFont
                 smartMatchFont).
Local Abbreviation setTextContent' :=
  (setTextContent Host Value getNodeByIdAsync fontNameOf charFontsOf
                  charactersOf loadFontAsync assignFontName assignCharacters
                  strictMatchFont smartMatchFont).

Lemma chooseFont_settles (node : SceneNode) (characters : string)
      (options : option CharacterOptions) (w : World Host Value) :
  delegates options = false ->
  exists h,
    chooseFont' node characters options w
    = (Ok FontChosen, mkWorld h (outbox w))
    \/ exists e,
         chooseFont' node characters options w
         = (Throw e, mkWorld h (outbox w)).
Proof.
  intro Hd. destruct w as [h0 out].
  unfold delegates in Hd. apply orb_false_elim in Hd. destruct Hd as [Hs He].
  unfold chooseFont. rewrite Hs, He.
  unfold readNode, bind, update, ret, throw. cbn [host outbox].
  destruct (fontNameOf node h0) as [font|]; cbn [host outbox].
  - destruct (loadFontAsync (Some (mkFont (family font) (style font))) h0)
      as [e|h1]; cbn [host outbox];
      [exists h0; right; eexists; reflexivity
      |exists h1; left; reflexivity].
  - destruct (hasStrategy options "prevail"); cbn [host outbox].
    + destruct (prevailedFont (charFontsOf node h0)) as [f|];
        cbn [host outbox]; [|exists h0; right; eexists; reflexivity].
      destruct (loadFontAsync (Some f) h0) as [e|h1]; cbn [host outbox];
        [exists h0; right; eexists; reflexivity|].
      destruct (assignFontName node f h1) as [e|h2]; cbn [host outbox];
        [exists h1; right; eexists; reflexivity
        |exists h2; left; reflexivity].
    + destruct (charFontsOf node h0) as [|f ?]; cbn [host outbox];
        [exists h0; right; eexists; reflexivity|].
      destruct (loadFontAsync (Some f) h0) as [e|h1]; cbn [host outbox];
        [exists h0; right; eexists; reflexivity|].
      destruct (assignFontName node f h1) as [e|h2]; cbn [host outbox];
        [exists h1; right; eexists; reflexivity
        |exists h2; left; reflexivity].
Qed.

(** X18: with a strategy other than the two range strategies,
    [setCharacters] throws only when the fallback font cannot be loaded
    or assigned.  When it can, the call returns: [true] after
    [node.characters] has been assigned, [false] when that assignment
    threw, in which case the text is left as it was. *)
Theorem setCharacters_returns_when_the_fallback_font_is_available
        (node : SceneNode) (characters : string)
        (options : option CharacterOptions) (w : World Host Value) :
  delegates options = false ->
  (forall h, exists h',
      loadFontAsync (Some (fallbackFont_of options)) h = inr h') ->
  (forall h, exists h',
      assignFontName node (fallbackFont_of options) h = inr h') ->
  exists b h,
    setCharacters' node characters options w = (Ok b, mkWorld h (outbox w))
    /\ (b = true ->
        exists h0, assignCharacters node characters h0 = inr h)
    /\ (b = false ->
        exists e, assignCharacters node characters h = inl e).
Proof.
  intros Hd Hload Hassign.
  assert (Hstep : exists h1,
             try_catch Host Value (chooseFont' node characters options)
               (fun _ =>
                  bind Host Value
                    (update Host Value
                       (loadFontAsync (Some (fallbackFont_of options))))
                    (fun _ =>
                       bind Host Value
                         (update Host Value
                            (assignFontName node (fallbackFont_of options)))
                         (fun _ => ret Host Value FontChosen))) w
             = (Ok FontChosen, mkWorld h1 (outbox w))).
  { unfold try_catch.
    destruct (chooseFont_settles node characters options w Hd)
      as [h [E|[e E]]]; rewrite E; [eauto|].
    unfold bind, update, ret. cbn [host outbox].
    destruct (Hload h) as [h2 E2]. rewrite E2. cbn [host outbox].
    destruct (Hassign h2) as [h3 E3]. rewrite E3. cbn [host outbox].
    eauto. }
  destruct Hstep as [h1 E1].
  unfold setCharacters. unfold bind at 1. rewrite E1.
  unfold try_catch, bind, update, ret. cbn [host outbox].
  destruct (assignCharacters node characters h1) as [e|h2] eqn:Ea;
    cbn [host outbox].
  - exists false, h1. split; [reflexivity|].
    split; [discriminate | intros _; eauto].
  - exists true, h2. split; [reflexivity|].
    split; [intros _; eauto | discriminate].
Qed.

(** X19: when [figma.loadFontAsync(node.fontName)] throws, as it does for a
    font that is not available, [setTextContent] throws [Error setting
    text content] with the message of the host and leaves the node as it
    was: the fallback font of [setCharacters] is not tried and the text
    is not assigned. *)
Theorem setTextContent_does_not_fall_back
        (nodeId : option string) (text e : string) (node : SceneNode)
        (w : World Host Value) :
  falsy nodeId = false ->
  getNodeByIdAsync nodeId (host w) = inr (Some node) ->
  node_type node = "TEXT"%string ->
  loadFontAsync (fontNameOf node (host w)) (host w) = inl e ->
  setTextContent' nodeId (Some text) w
  = (Throw (String.append "Error setting text content: " e), w).
Proof.
  intros Hid Hnode Htype Hload. destruct w as [h0 out].
  cbn [host] in Hnode, Hload.
  unfold setTextContent. rewrite Hid.
  unfold bind at 1. unfold call at 1. cbn [host outbox]. rewrite Hnode.
  rewrite Htype. cbn [String.eqb Ascii.eqb Bool.eqb negb andb].
  replace (String.eqb "TEXT" "TEXT") with true by reflexivity. cbn [negb].
  unfold try_catch. unfold bind at 1. unfold readNode at 1.
  cbn [host outbox]. unfold bind at 1. unfold update at 1.
  cbn [host outbox]. rewrite Hload. reflexivity.
Qed.

(** X20: [setTextContent] does not look at what [setCharacters] returns.
    When the font of the node loads and the assignment of the text
    throws, [setCharacters] returns [false] and [setTextContent] still
    returns its result, with the text the node had. *)
Theorem setTextContent_returns_although_the_text_is_unchanged
        (nodeId : option string) (text e : string) (node : SceneNode)
        (font : FontName) (w : World Host Value) (h1 h2 : Host) :
  falsy nodeId = false ->
  getNodeByIdAsync nodeId (host w) = inr (Some node) ->
  node_type node = "TEXT"%string ->
  loadFontAsync (fontNameOf node (host w)) (host w) = inr h1 ->
  fontNameOf node h1 = Some font ->
  loadFontAsync (Some (mkFont (family font) (style font))) h1 = inr h2 ->
  assignCharacters node text h2 = inl e ->
  setCharacters' node text None (mkWorld h1 (outbox w))
  = (Ok false, mkWorld h2 (outbox w))
  /\ setTextContent' nodeId (Some text) w
     = (Ok (mkTextContentResult (node_id node) (node_name node)
                                (charactersOf node h2)
                                (fontNameOf node h2)),
        mkWorld h2 (outbox w)).
Proof.
  intros Hid Hnode Htype Hload Hfont Hload2 Hassign. destruct w as [h0 out].
  cbn [host outbox] in *.
  assert (Hset : setCharacters' node text None (mkWorld h1 out)
                 = (Ok false, mkWorld h2 out)).
  { unfold setCharacters. unfold bind at 1. unfold try_catch at 1.
    unfold chooseFont. unfold bind at 1. unfold readNode at 1.
    cbn [host outbox]. rewrite Hfont.
    unfold bind at 1. unfold update at 1. cbn [host outbox].
    rewrite Hload2. unfold ret at 1.
    unfold try_catch, bind, update, ret. cbn [host outbox].
    rewrite Hassign. reflexivity. }
  split; [exact Hset|].
  unfold setTextContent. rewrite Hid.
  unfold bind at 1. unfold call at 1. cbn [host outbox]. rewrite Hnode.
  rewrite Htype.
  replace (String.eqb "TEXT" "TEXT") with true by reflexivity. cbn [negb].
  unfold try_catch at 1. unfold bind at 1. unfold readNode at 1.
  cbn [host outbox]. unfold bind at 1. unfold update at 1.
  cbn [host outbox]. rewrite Hload. cbn [host outbox].
  unfold bind at 1. rewrite Hset.
  unfold bind, readNode, ret. cbn [host outbox]. reflexivity.
Qed.

End TextContentProperties.

Lemma setCharacters_returns_when_the_fallback_font_is_available_witness :
  td_setCharacters label "Hi" None (mkWorld robotoLabel [])
  = (Ok true, mkWorld (mkTextDoc "Hi" (Some inter) [inter; inter] false) [])
  /\ exists b h,
       td_setCharacters label "Hi" None (mkWorld robotoLabel [])
       = (Ok b, mkWorld h [])
       /\ (b = true -> exists h0, td_assignCharacters label "Hi" h0 = inr h)
       /\ (b = false -> exists e, td_assignCharacters label "Hi" h = inl e).
Proof.
  split; [reflexivity|].
  apply (setCharacters_returns_when_the_fallback_font_is_available
           TextDoc unit (fun _ => td_font) (fun _ => td_charFonts)
           td_loadFontAsync td_assignFontName td_assignCharacters
           (fun _ _ _ => ret TextDoc unit true)
           (fun _ _ _ => ret TextDoc unit true)
           label "Hi" None (mkWorld robotoLabel [])).
  - reflexivity.
  - intro h. exists h. reflexivity.
  - intro h. eexists. reflexivity.
Defined.

Lemma setTextContent_does_not_fall_back_witness :
  td_setTextContent (Some "7:1"%string) (Some "Hi"%string)
                    (mkWorld robotoLabel [])
  = (Throw "Error setting text content: The font could not be loaded",
     mkWorld robotoLabel []).
Proof.
  exact (setTextContent_does_not_fall_back
           TextDoc unit td_getNodeByIdAsync (fun _ => td_font)
           (fun _ => td_charFonts) (fun _ => td_text)
           td_loadFontAsync td_assignFontName td_assignCharacters
           (fun _ _ _ => ret TextDoc unit true)
           (fun _ _ _ => ret TextDoc unit true)
           (Some "7:1"%string) "Hi" "The font could not be loaded" label
           (mkWorld robotoLabel []) eq_refl eq_refl eq_refl eq_refl).
Defined.

Lemma setTextContent_returns_although_the_text_is_unchanged_witness :
  td_setCharacters label "Hi" None (mkWorld frozenLabel [])
  = (Ok false, mkWorld frozenLabel [])
  /\ td_setTextContent (Some "7:1"%string) (Some "Hi"%string)
                       (mkWorld frozenLabel [])
     = (Ok (mkTextContentResult "7:1" "Label 7:1" "Hello" (Some inter)),
        mkWorld frozenLabel []).
Proof.
  exact (setTextContent_returns_although_the_text_is_unchanged
           TextDoc unit td_getNodeByIdAsync (fun _ => td_font)
           (fun _ => td_charFonts) (fun _ => td_text)
           td_loadFontAsync td_assignFontName td_assignCharacters
           (fun _ _ _ => ret TextDoc unit true)
           (fun _ _ _ => ret TextDoc unit true)
           (Some "7:1"%string) "Hi" "Cannot write to the node" label inter
           (mkWorld frozenLabel []) frozenLabel frozenLabel
           eq_refl eq_refl eq_refl eq_refl eq_refl eq_refl eq_refl).
Defined.

(** ** [analyzeSelection] *)

Lemma countLayers_eq (locked : SceneNode -> bool) (selectedId : string)
      (node : SceneNode) (stats : LayerStats) :
  countLayers locked selectedId node stats
  = fold_left (fun acc child => countLayers locked selectedId child acc)
      (children_of node)
      (mkLayerStats
         (S (totalLayers stats))
         (if negb (node_visible node) then S (hiddenLayers stats)
          else hiddenLayers stats)
         (if locked node then S (lockedLayers stats)
          else lockedLayers stats)
         (match node_children node with
          | Some children =>
              if String.eqb (node_id node) selectedId then length children
              else topLevelLayers stats
          | None => topLevelLayers stats
          end)).
Proof.
  destruct node as [id name ty vis chars [cs|]]; cbn [countLayers
    node_children node_visible node_id children_of fold_left];
    [|reflexivity].
  destruct (String.eqb id selectedId); reflexivity.
Qed.

Lemma countLayers_counts (locked : SceneNode -> bool) (selectedId : string)
      (node : SceneNode) :
  forall stats p d,
    totalLayers (countLayers locked selectedId node stats)
    = totalLayers stats + length (preorder node p d)
    /\ hiddenLayers (countLayers locked selectedId node stats)
       = hiddenLayers stats + length (hidden_entries (preorder node p d)).
Proof.
  induction node as [id name ty vis chars cs IH] using SceneNode_induction.
  intros stats p d. rewrite countLayers_eq, preorder_eq.
  unfold children_of. cbn [node_children node_visible node_id].
  set (q := p ++ [displayName (mkNode id name ty vis chars cs)]).
  set (start := mkLayerStats _ _ _ _).
  assert (Hfold : forall l acc,
             Forall (fun c => forall stats p d,
                       totalLayers (countLayers locked selectedId c stats)
                       = totalLayers stats + length (preorder c p d)
                       /\ hiddenLayers (countLayers locked selectedId c stats)
                          = hiddenLayers stats
                            + length (hidden_entries (preorder c p d))) l ->
             totalLayers (fold_left (fun acc child =>
                            countLayers locked selectedId child acc) l acc)
             = totalLayers acc
               + length (flat_map (fun c => preorder c q (S d)) l)
             /\ hiddenLayers (fold_left (fun acc child =>
                               countLayers locked selectedId child acc) l acc)
                = hiddenLayers acc
                  + length (hidden_entries
                              (flat_map (fun c => preorder c q (S d)) l))).
  { induction l as [|c l IHl]; intros acc Hl; cbn [fold_left flat_map].
    - cbn. lia.
    - inversion Hl as [|? ? Hc Hrest]; subst.
      destruct (IHl (countLayers locked selectedId c acc) Hrest) as [T H].
      destruct (Hc acc q (S d)) as [Tc Hc'].
      rewrite T, H, Tc, Hc'. unfold hidden_entries.
      rewrite filter_app, !length_app. lia. }
  destruct (Hfold (match cs with Some l => l | None => [] end) start IH)
    as [T H].
  rewrite T, H. unfold start, hidden_entries.
  cbn [totalLayers hiddenLayers length filter entry_node fst node_visible].
  destruct vis; cbn [negb length]; lia.
Qed.

Lemma visited_among_visible (node : SceneNode) :
  forall p d,
    length (visited node p d) + length (hidden_entries (preorder node p d))
    <= length (preorder node p d)
    /\ (hidden_entries (preorder node p d) = [] ->
        visited node p d = preorder node p d).
Proof.
  induction node as [id name ty vis chars cs IH] using SceneNode_induction.
  intros p d. rewrite visited_eq, preorder_eq.
  unfold children_of. cbn [node_children node_visible].
  set (q := p ++ [displayName (mkNode id name ty vis chars cs)]).
  assert (Hl : forall l,
             Forall (fun c => forall p d,
                       length (visited c p d)
                       + length (hidden_entries (preorder c p d))
                       <= length (preorder c p d)
                       /\ (hidden_entries (preorder c p d) = [] ->
                           visited c p d = preorder c p d)) l ->
             length (flat_map (fun c => visited c q (S d)) l)
             + length (hidden_entries
                         (flat_map (fun c => preorder c q (S d)) l))
             <= length (flat_map (fun c => preorder c q (S d)) l)
             /\ (hidden_entries (flat_map (fun c => preorder c q (S d)) l)
                 = [] ->
                 flat_map (fun c => visited c q (S d)) l
                 = flat_map (fun c => preorder c q (S d)) l)).
  { induction l as [|c l IHl]; intro H; cbn [flat_map].
    - split; [cbn; lia | reflexivity].
    - inversion H as [|? ? Hc Hrest]; subst.
      destruct (IHl Hrest) as [L E]. destruct (Hc q (S d)) as [Lc Ec].
      unfold hidden_entries in *. rewrite filter_app, !length_app.
      split; [lia|]. intro Hnil. apply app_eq_nil in Hnil.
      destruct Hnil as [H1 H2]. now rewrite (Ec H1), (E H2). }
  destruct (Hl (match cs with Some l => l | None => [] end) IH) as [L E].
  unfold hidden_entries in *.
  cbn [filter entry_node fst node_visible].
  destruct vis; cbn [negb length].
  - split; [lia|]. intro Hnil. f_equal. now apply E.
  - split; [lia|]. discriminate.
Qed.

(** X21: [analyzeSelection] counts every layer under the selected node,
    those inside invisible subtrees included, and counts as hidden the
    layers that are themselves invisible.  The scan of the same node by
    [collectNodesToProcess] visits at most the layers that are not hidden,
    and all the layers when none is hidden. *)
Theorem analyzeSelection_counts_layers_the_scan_skips
        (locked : SceneNode -> bool) (node : SceneNode) :
  exists stats,
    analyzeSelection locked [node] = inr stats
    /\ totalLayers stats = length (preorder node [] 0)
    /\ hiddenLayers stats = length (hidden_entries (preorder node [] 0))
    /\ length (collectNodesToProcess node [] 0 []) + hiddenLayers stats
       <= totalLayers stats
    /\ (hiddenLayers stats = 0 ->
        length (collectNodesToProcess node [] 0 []) = totalLayers stats).
Proof.
  eexists. split; [reflexivity|].
  destruct (countLayers_counts locked (node_id node) node
              (mkLayerStats 0 0 0 0) [] 0) as [T H].
  cbn [totalLayers hiddenLayers Nat.add] in T, H.
  destruct (visited_among_visible node [] 0) as [L E].
  rewrite collectNodesToProcess_visited. cbn [app]. rewrite length_map.
  rewrite T, H. split; [reflexivity|]. split; [reflexivity|].
  split; [exact L|]. intro Hz. apply length_zero_iff_nil in Hz.
  now rewrite (E Hz).
Qed.

Example analyzeSelection_of_the_sample_page :
  analyzeSelection (fun _ => false) [samplePage]
  = inr (mkLayerStats 5 1 0 3)
  /\ length (collectNodesToProcess samplePage [] 0 []) = 3.
Proof. split; reflexivity. Qed.
